(** * Territory-capture simulation: grid, capture engine and game rules

    A shallow embedding of [TerritoryMap.ts], [Player.ts], the way home
    of [BotAI.ts] and the simulation methods of the [Game] class, with
    the properties of the specification proved (or refuted) against it.

    Conventions of the embedding.
    - JavaScript integers (tile coordinates, owner ids, counters) are [Z].
    - A [Uint8Array] is a [list Z] whose cells lie in 0..255; a store
      converts with [toUint8] (reduction modulo 256), a read past the end
      gives [None], a write past the end is dropped (stdpp's list insert).
    - A [Map<number, _>] is a [gmap Z _]; [m.get(k) || d] is [orElse].
    - World coordinates, durations and timestamps are exact rationals
      [Q]: the rounding of IEEE doubles is not modelled, so a quotient
      that underflows, or a sum too large for its smaller term to count,
      is outside the model.
    - Four computations are kept abstract instead: the distance the
      collision pass compares with the collision radius, the arithmetic
      of the camping mechanic (its timers and the product it floors),
      the end time of a boost, and the time spent that the capture queue
      compares with its budget. There the computed doubles are
      parameters of the embedding ([distance], [fadd], [fsub], [fmul],
      [fdiv]), and the statements hold whatever their rounding.
    - [performance.now()] and [Math.random()] are oracles: streams of
      readings the game consumes one call at a time. *)

From Stdlib Require Import ZArith QArith Qround Qminmax Qabs Lia Lqa.
From stdpp Require Import base option list gmap fin_maps.

#[local] Open Scope Z_scope.

(** ** gameConfig.ts *)

Module gameConfig.
Definition arena_widthTiles : Z := 500.
Definition arena_heightTiles : Z := 500.
Definition tileSize : Z := 4.
Definition player_speed : Q := 150 # 1.
Definition player_radius : Q := 10 # 1.
Definition bot_count : Z := 19.
Definition bot_baseSpeed : Q := 140 # 1.
Definition shrink_campingThreshold : Q := 3 # 1.
Definition shrink_rate : Q := 150 # 1.
End gameConfig.

Module derivedConfig.
Definition arenaWidthPx : Z := gameConfig.arena_widthTiles * gameConfig.tileSize.
Definition arenaHeightPx : Z := gameConfig.arena_heightTiles * gameConfig.tileSize.
End derivedConfig.

(** ** JavaScript helpers *)

(** Conversion of an integer to an element of a [Uint8Array]. *)
Definition toUint8 (v : Z) : Z := v mod 256.

(** [o || d] for a numeric [o]: [undefined] and [0] are both falsy. *)
Definition orElse (o : option Z) (d : Z) : Z :=
  match o with
  | Some v => if v =? 0 then d else v
  | None => d
  end.

(** Reads and writes of a [Uint8Array] at an integer index: a read
    outside the array gives [undefined], a write outside is dropped. *)
Definition readU8 (a : list Z) (i : Z) : option Z :=
  if i <? 0 then None else a !! Z.to_nat i.

Definition writeU8 (a : list Z) (i v : Z) : list Z :=
  if i <? 0 then a else <[Z.to_nat i := toUint8 v]> a.

(** ** Numbers *)

(** Comparisons of JavaScript numbers, on exact rationals. *)
Definition Qltb (a b : Q) : bool :=
  match (a ?= b)%Q with Lt => true | _ => false end.

Definition Qleb (a b : Q) : bool := Qle_bool a b.

(** [o || d] for a rational [o]. *)
Definition orElseQ (o : option Q) (d : Q) : Q :=
  match o with
  | Some v => if Qeq_bool v 0 then d else v
  | None => d
  end.

(** [Math.pow(a, 2)] *)
Definition sq (a : Q) : Q := (a * a)%Q.

(** [Math.sign] *)
Definition Qsign (a : Q) : Q :=
  match (a ?= 0)%Q with Lt => (-1 # 1)%Q | Eq => 0%Q | Gt => 1%Q end.

(** The integers [lo, lo+1, ..., hi] of a counting [for] loop. *)
Definition zrange (lo hi : Z) : list Z :=
  (λ i, lo + Z.of_nat i) <$> seq 0 (Z.to_nat (hi - lo + 1)).

(** ** TerritoryMap.ts *)

Record Tile := mkTile { tx : Z; ty : Z }.

#[global] Instance Tile_eq_dec : EqDecision Tile.
Proof. solve_decision. Defined.

(** The canvas cache and its dirty flag only serve rendering and are left
    out. *)
Record TerritoryMap := mkTerritoryMap {
  ownerMap : list Z;
  widthTiles : Z;
  heightTiles : Z;
  tileSize : Z;
  tileCounts : gmap Z Z;
}.

Module TerritoryMap.

(** A grid of [w] by [h] neutral tiles. *)
Definition blank (w h ts : Z) : TerritoryMap :=
  {| ownerMap := replicate (Z.to_nat (w * h)) 0;
     widthTiles := w; heightTiles := h; tileSize := ts;
     tileCounts := ∅ |}.

(** [new TerritoryMap()]: the constructor takes the dimensions from the
    configuration. *)
Definition new : TerritoryMap :=
  blank gameConfig.arena_widthTiles gameConfig.arena_heightTiles gameConfig.tileSize.

Definition withCells (m : TerritoryMap) (cells : list Z) (counts : gmap Z Z) : TerritoryMap :=
  {| ownerMap := cells;
     widthTiles := widthTiles m;
     heightTiles := heightTiles m;
     tileSize := tileSize m;
     tileCounts := counts |}.

(** [Math.floor(world / tileSize)] for each coordinate, on exact
    numbers. *)
Definition worldToTile (m : TerritoryMap) (worldX worldY : Q) : Tile :=
  {| tx := Qfloor (worldX / inject_Z (tileSize m));
     ty := Qfloor (worldY / inject_Z (tileSize m)) |}.

Definition isValidTile (m : TerritoryMap) (tileX tileY : Z) : bool :=
  (0 <=? tileX) && (tileX <? widthTiles m) && (0 <=? tileY) && (tileY <? heightTiles m).

(** [this.ownerMap[i]] as a number; the array holds
    [widthTiles * heightTiles] cells, so an index computed from a valid
    tile always finds one (lemma [cell_valid]). *)
Definition cell (m : TerritoryMap) (i : Z) : Z :=
  default 0 (ownerMap m !! Z.to_nat i).

Definition getOwner (m : TerritoryMap) (tileX tileY : Z) : Z :=
  if negb (isValidTile m tileX tileY) then -1
  else cell m (tileY * widthTiles m + tileX).

Definition setOwner (m : TerritoryMap) (tileX tileY ownerId : Z) : TerritoryMap :=
  if negb (isValidTile m tileX tileY) then m
  else
    let idx := tileY * widthTiles m + tileX in
    let oldOwner := cell m idx in
    if oldOwner =? ownerId then m
    else
      let c1 := if 0 <? oldOwner
                then <[oldOwner := orElse (tileCounts m !! oldOwner) 1 - 1]> (tileCounts m)
                else tileCounts m in
      let c2 := if 0 <? ownerId
                then <[ownerId := orElse (c1 !! ownerId) 0 + 1]> c1
                else c1 in
      withCells m (<[Z.to_nat idx := toUint8 ownerId]> (ownerMap m)) c2.

(** [tileToWorld(tileX, tileY)]: the centre of the tile, as the pair of
    its world coordinates. *)
Definition tileToWorld (m : TerritoryMap) (tileX tileY : Z) : Q * Q :=
  ((inject_Z tileX * inject_Z (tileSize m) + inject_Z (tileSize m) / (2 # 1))%Q,
   (inject_Z tileY * inject_Z (tileSize m) + inject_Z (tileSize m) / (2 # 1))%Q).

Definition getOwnerAtWorld (m : TerritoryMap) (worldX worldY : Q) : Z :=
  let tile := worldToTile m worldX worldY in
  getOwner m (tx tile) (ty tile).

Definition countOwnedTiles (m : TerritoryMap) (ownerId : Z) : Z :=
  orElse (tileCounts m !! ownerId) 0.

Definition getTotalTiles (m : TerritoryMap) : Z :=
  widthTiles m * heightTiles m.

(** [getOwnershipPercentage(id)] is the quotient
    [countOwnedTiles(id) / getTotalTiles() * 100]; as an exact rational. *)
Definition getOwnershipPercentage (m : TerritoryMap) (ownerId : Z) : Q :=
  (inject_Z (countOwnedTiles m ownerId) / inject_Z (getTotalTiles m)) * (100 # 1).

(** The loop visits every index once and rewrites the cell it reads. *)
Definition clearOwnerTerritory (m : TerritoryMap) (ownerId : Z) : TerritoryMap :=
  withCells m
    ((λ v, if v =? ownerId then 0 else v) <$> ownerMap m)
    (<[ownerId := 0]> (tileCounts m)).

Definition transferTerritory (m : TerritoryMap) (fromOwnerId toOwnerId : Z) : TerritoryMap :=
  let cells := (λ v, if v =? fromOwnerId then toUint8 toOwnerId else v) <$> ownerMap m in
  let fromCount := orElse (tileCounts m !! fromOwnerId) 0 in
  let c1 := <[toOwnerId := orElse (tileCounts m !! toOwnerId) 0 + fromCount]> (tileCounts m) in
  withCells m cells (<[fromOwnerId := 0]> c1).

Section StartingTerritory.
(** [Math.sin] and [Math.cos], as for [Player.update]. *)
Variables cosF sinF : Q → Q.

(** The test [distance <= threshold] of [generateStartingTerritory],
    where [distance = sqrt(dx*dx + dy*dy)] and
    [threshold = radius + sin(dx * 0.5) * cos(dy * 0.7) * 2]: the square
    root is at most [threshold] when [threshold] is non-negative and
    bounds the sum of squares by its square. *)
Definition inStartingBlob (dx dy radius : Z) : bool :=
  let noise := (sinF (inject_Z dx * (5 # 10)) * cosF (inject_Z dy * (7 # 10)) * (2 # 1))%Q in
  let threshold := (inject_Z radius + noise)%Q in
  Qleb 0 threshold && Qleb (inject_Z (dx * dx + dy * dy)) (threshold * threshold)%Q.

Definition generateStartingTerritory (m : TerritoryMap) (centerX centerY : Q)
    (ownerId radius : Z) : TerritoryMap :=
  let centerTile := worldToTile m centerX centerY in
  foldl (λ m dy,
    foldl (λ m dx,
      if inStartingBlob dx dy radius
      then setOwner m (tx centerTile + dx) (ty centerTile + dy) ownerId
      else m) m (zrange (- radius) radius))
    m (zrange (- radius) radius).
End StartingTerritory.

(** Row-major enumeration of the grid, the order of the two nested
    [for] loops over [y] then [x]. *)
Definition rowTiles (w : Z) (y : Z) : list Tile :=
  (λ x, mkTile (Z.of_nat x) y) <$> seq 0 (Z.to_nat w).

Definition allTiles (w h : Z) : list Tile :=
  seq 0 (Z.to_nat h) ≫= (λ y, rowTiles w (Z.of_nat y)).

Definition isBorderOf (m : TerritoryMap) (ownerId : Z) (t : Tile) : bool :=
  (cell m (ty t * widthTiles m + tx t) =? ownerId) &&
  (negb (getOwner m (tx t - 1) (ty t) =? ownerId) ||
   negb (getOwner m (tx t + 1) (ty t) =? ownerId) ||
   negb (getOwner m (tx t) (ty t - 1) =? ownerId) ||
   negb (getOwner m (tx t) (ty t + 1) =? ownerId)).

Definition getBorderTiles (m : TerritoryMap) (ownerId : Z) : list Tile :=
  filter (λ t, isBorderOf m ownerId t = true) (allTiles (widthTiles m) (heightTiles m)).

(** *** Specification-side notions *)

(** The number of cells holding [ownerId]: a full rescan of the grid. *)
Definition rescan (m : TerritoryMap) (ownerId : Z) : Z :=
  Z.of_nat (length (filter (λ v, v = ownerId) (ownerMap m))).

(** The sum of all cached per-owner counts. *)
Definition sumCounts (m : TerritoryMap) : Z :=
  map_fold (λ _ v acc, v + acc) 0 (tileCounts m).

(** The grid is as the constructor allocates it and as a [Uint8Array]
    can hold it. *)
Record wf (m : TerritoryMap) : Prop := {
  wf_width : 0 <= widthTiles m;
  wf_height : 0 <= heightTiles m;
  wf_length : length (ownerMap m) = Z.to_nat (widthTiles m * heightTiles m);
  wf_bytes : Forall (λ v, 0 <= v < 256) (ownerMap m);
}.

(** The cache agrees with the grid for every owner id, and holds
    nothing for the neutral id and below. *)
Definition cacheCorrect (m : TerritoryMap) : Prop :=
  ∀ k, countOwnedTiles m k = if 0 <? k then rescan m k else 0.

(** The set of tiles of an owner, as a predicate on valid tiles. *)
Definition owns (m : TerritoryMap) (ownerId : Z) (t : Tile) : Prop :=
  getOwner m (tx t) (ty t) = ownerId.

End TerritoryMap.

(** ** Vec2.ts *)

Module Vec2.
Record t := mk { x : Q; y : Q }.

Definition clone (v : t) : t := mk (x v) (y v).

(** [sqrt(pow(a.x - b.x, 2) + pow(a.y - b.y, 2))] squared. The source
    compares the square root with a non-negative bound [c]; on exact
    numbers that is the comparison of this sum with [c * c]. *)
Definition distSq (a b : t) : Q := (sq (x a - x b) + sq (y a - y b))%Q.
End Vec2.

(** ** Player.ts *)

Module Player.
Record t := mk {
  id : Z;
  isBot : bool;
  pos : Vec2.t;
  dir : Vec2.t;
  speed : Q;
  alive : bool;
  angle : Q;
  targetAngle : Q;
  tail : list Vec2.t;
  isDrawingTail : bool;
  lastTailPoint : option Vec2.t;
  kills : Z;
  timeAlive : Q;
}.

Definition tailPointDistance : Q := 4 # 1.
Definition turnSpeed : Q := 72 # 10.

(** Field updates. *)
Definition withAlive (p : t) (a : bool) : t :=
  mk (id p) (isBot p) (pos p) (dir p) (speed p) a (angle p) (targetAngle p)
     (tail p) (isDrawingTail p) (lastTailPoint p) (kills p) (timeAlive p).

Definition withKills (p : t) (k : Z) : t :=
  mk (id p) (isBot p) (pos p) (dir p) (speed p) (alive p) (angle p) (targetAngle p)
     (tail p) (isDrawingTail p) (lastTailPoint p) k (timeAlive p).

(** [tail], [isDrawingTail] and [lastTailPoint] are always assigned
    together. *)
Definition withTail (p : t) (tl : list Vec2.t) (drawing : bool) (last : option Vec2.t) : t :=
  mk (id p) (isBot p) (pos p) (dir p) (speed p) (alive p) (angle p) (targetAngle p)
     tl drawing last (kills p) (timeAlive p).

(** The assignments of [respawnPlayerEntity] to position and heading. *)
Definition withPlacement (p : t) (ps dr : Vec2.t) (ang : Q) : t :=
  mk (id p) (isBot p) ps dr (speed p) (alive p) ang ang
     (tail p) (isDrawingTail p) (lastTailPoint p) (kills p) (timeAlive p).

Definition withTargetAngle (p : t) (a : Q) : t :=
  mk (id p) (isBot p) (pos p) (dir p) (speed p) (alive p) (angle p) a
     (tail p) (isDrawingTail p) (lastTailPoint p) (kills p) (timeAlive p).

Section Motion.
(** The constant and the trigonometric functions of [Math], whose values
    on doubles are not modelled: every statement below holds whatever
    they return. *)
Variable PI : Q.
Variables cosF sinF : Q → Q.

(** [while (d > PI) d -= 2 PI; while (d < -PI) d += 2 PI;] with the
    number of passes of each loop in closed form. *)
Definition normalizeAngle (d : Q) : Q :=
  let d1 := if Qltb PI d
            then (d - (2 # 1) * PI * inject_Z (Qceiling ((d - PI) / ((2 # 1) * PI))))%Q
            else d in
  if Qltb d1 (- PI)%Q
  then (d1 + (2 # 1) * PI * inject_Z (Qceiling ((- PI - d1) / ((2 # 1) * PI))))%Q
  else d1.

Definition edgeMargin : Q := 2 # 1.

(** [Math.max(lo, Math.min(hi, v))] *)
Definition clamp (lo hi v : Q) : Q := Qmax lo (Qmin hi v).

Definition update (p : t) (dt : Q) : t :=
  if negb (alive p) then p
  else
    let angleDiff := normalizeAngle (targetAngle p - angle p)%Q in
    let maxTurn := (turnSpeed * dt)%Q in
    let angle' := if Qltb maxTurn (Qabs angleDiff)
                  then (angle p + Qsign angleDiff * maxTurn)%Q
                  else targetAngle p in
    let dir' := Vec2.mk (cosF angle') (sinF angle') in
    let moveX := (Vec2.x dir' * speed p * dt)%Q in
    let moveY := (Vec2.y dir' * speed p * dt)%Q in
    let newX := (Vec2.x (pos p) + moveX)%Q in
    let newY := (Vec2.y (pos p) + moveY)%Q in
    let minX := edgeMargin in
    let minY := edgeMargin in
    let maxX := (inject_Z derivedConfig.arenaWidthPx - edgeMargin)%Q in
    let maxY := (inject_Z derivedConfig.arenaHeightPx - edgeMargin)%Q in
    let newX := clamp minX maxX newX in
    let newY := clamp minY maxY newY in
    mk (id p) (isBot p) (Vec2.mk newX newY) dir' (speed p) (alive p) angle' (targetAngle p)
       (tail p) (isDrawingTail p) (lastTailPoint p) (kills p) (timeAlive p + dt)%Q.

(** [adjustTargetAngle(delta)] *)
Definition adjustTargetAngle (p : t) (delta : Q) : t :=
  withTargetAngle p (normalizeAngle (targetAngle p + delta)%Q).
End Motion.
End Player.

(** ** The Game class: state *)

(** The difficulty levels the game compares against. *)
Inductive Difficulty := easy | medium | hard | impossible.

#[global] Instance Difficulty_eq_dec : EqDecision Difficulty.
Proof. solve_decision. Defined.

(** A queued capture. The source stores a reference to the player
    object, read again when the job runs; here it is the player's index
    in [allPlayers]. The trail is a copy. *)
Record CaptureJob := mkCaptureJob {
  job_player : nat;
  job_tail : list Vec2.t;
}.

(** The simulation state of [Game]. Player objects are shared between
    [allPlayers], the bots and the capture queue; they live in
    [allPlayers] and are referred to by index. [clockReads] and
    [randomDraws] count the calls made so far to [performance.now()] and
    [Math.random()]. Rendering, input and camera state are left out. *)
Record Game := mkGame {
  allPlayers : list Player.t;
  territoryMap : TerritoryMap;
  wasInOwnTerritory : gmap Z bool;
  captureQueue : list CaptureJob;
  campingTimers : gmap Z Q;
  shrinkAccumulators : gmap Z Q;
  difficulty : Difficulty;
  boostEndTimes : gmap Z Q;
  boostNotifications : list (Z * Q);
  killEffects : list (Q * Q * Q);
  isMobile : bool;
  orphanCheckCounter : Z;
  clockReads : nat;
  randomDraws : nat;
}.

(** A boost pickup lying on the map, and the part of the [Game] state
    that only the pickups use. *)
Record Pickup := mkPickup {
  pk_x : Q;
  pk_y : Q;
  pk_spawnTime : Q;
  pk_playerOnly : bool;
}.

Record PickupState := mkPickupState {
  boostPickups : list Pickup;
  lastBoostPickupSpawn : Q;
}.

Module Game.

Definition maxCaptureTimePerFrame : Q := 4 # 1.
Definition boostDuration : Q := 5000 # 1.
Definition boostPickupRadius : Q := 15 # 1.
Definition boostPickupSpawnInterval : Q := 8000 # 1.
Definition maxBoostPickups : Z := 5.
(** *** Field updates *)

Definition withPlayers (g : Game) (ps : list Player.t) : Game :=
  mkGame ps (territoryMap g) (wasInOwnTerritory g) (captureQueue g) (campingTimers g)
    (shrinkAccumulators g) (difficulty g) (boostEndTimes g) (boostNotifications g)
    (killEffects g) (isMobile g) (orphanCheckCounter g) (clockReads g) (randomDraws g).

Definition withMap (g : Game) (m : TerritoryMap) : Game :=
  mkGame (allPlayers g) m (wasInOwnTerritory g) (captureQueue g) (campingTimers g)
    (shrinkAccumulators g) (difficulty g) (boostEndTimes g) (boostNotifications g)
    (killEffects g) (isMobile g) (orphanCheckCounter g) (clockReads g) (randomDraws g).

Definition withWasIn (g : Game) (w : gmap Z bool) : Game :=
  mkGame (allPlayers g) (territoryMap g) w (captureQueue g) (campingTimers g)
    (shrinkAccumulators g) (difficulty g) (boostEndTimes g) (boostNotifications g)
    (killEffects g) (isMobile g) (orphanCheckCounter g) (clockReads g) (randomDraws g).

Definition withQueue (g : Game) (q : list CaptureJob) : Game :=
  mkGame (allPlayers g) (territoryMap g) (wasInOwnTerritory g) q (campingTimers g)
    (shrinkAccumulators g) (difficulty g) (boostEndTimes g) (boostNotifications g)
    (killEffects g) (isMobile g) (orphanCheckCounter g) (clockReads g) (randomDraws g).

Definition withCamping (g : Game) (timers accs : gmap Z Q) : Game :=
  mkGame (allPlayers g) (territoryMap g) (wasInOwnTerritory g) (captureQueue g) timers
    accs (difficulty g) (boostEndTimes g) (boostNotifications g)
    (killEffects g) (isMobile g) (orphanCheckCounter g) (clockReads g) (randomDraws g).

Definition withBoost (g : Game) (ends : gmap Z Q) (notes : list (Z * Q)) : Game :=
  mkGame (allPlayers g) (territoryMap g) (wasInOwnTerritory g) (captureQueue g) (campingTimers g)
    (shrinkAccumulators g) (difficulty g) ends notes
    (killEffects g) (isMobile g) (orphanCheckCounter g) (clockReads g) (randomDraws g).

Definition withKillEffects (g : Game) (ks : list (Q * Q * Q)) : Game :=
  mkGame (allPlayers g) (territoryMap g) (wasInOwnTerritory g) (captureQueue g) (campingTimers g)
    (shrinkAccumulators g) (difficulty g) (boostEndTimes g) (boostNotifications g)
    ks (isMobile g) (orphanCheckCounter g) (clockReads g) (randomDraws g).

Definition withOrphanCounter (g : Game) (c : Z) : Game :=
  mkGame (allPlayers g) (territoryMap g) (wasInOwnTerritory g) (captureQueue g) (campingTimers g)
    (shrinkAccumulators g) (difficulty g) (boostEndTimes g) (boostNotifications g)
    (killEffects g) (isMobile g) c (clockReads g) (randomDraws g).

Definition withClockReads (g : Game) (n : nat) : Game :=
  mkGame (allPlayers g) (territoryMap g) (wasInOwnTerritory g) (captureQueue g) (campingTimers g)
    (shrinkAccumulators g) (difficulty g) (boostEndTimes g) (boostNotifications g)
    (killEffects g) (isMobile g) (orphanCheckCounter g) n (randomDraws g).

Definition withRandomDraws (g : Game) (n : nat) : Game :=
  mkGame (allPlayers g) (territoryMap g) (wasInOwnTerritory g) (captureQueue g) (campingTimers g)
    (shrinkAccumulators g) (difficulty g) (boostEndTimes g) (boostNotifications g)
    (killEffects g) (isMobile g) (orphanCheckCounter g) (clockReads g) n.

(** Assignment to the fields of the player object at index [i]. *)
Definition setPlayer (g : Game) (i : nat) (p : Player.t) : Game :=
  withPlayers g (<[i := p]> (allPlayers g)).

(** *** Capture by flood fill *)

(** The bounding box [minX, maxX, minY, maxY]. *)
Record Bounds := mkBounds { minX : Z; maxX : Z; minY : Z; maxY : Z }.

Definition extend (b : Bounds) (t : Tile) : Bounds :=
  mkBounds (Z.min (minX b) (tx t)) (Z.max (maxX b) (tx t))
           (Z.min (minY b) (ty t)) (Z.max (maxY b) (ty t)).

(** First pass, over the trail tiles. The accumulators start at
    [Infinity] and [-Infinity] in the source; the closing tile is always
    among the tiles folded, so they start from it here. *)
Definition tailBounds (tailTiles : list Tile) (endTile : Tile) : Bounds :=
  foldl extend (mkBounds (tx endTile) (tx endTile) (ty endTile) (ty endTile)) tailTiles.

(** Second pass, over every tile of the owner. *)
Definition territoryBounds (m : TerritoryMap) (playerOwnerId : Z) (b : Bounds) : Bounds :=
  foldl (λ b t, if TerritoryMap.getOwner m (tx t) (ty t) =? playerOwnerId
                then extend b t else b)
    b (TerritoryMap.allTiles (widthTiles m) (heightTiles m)).

Definition padding : Z := 2.

Definition padBounds (m : TerritoryMap) (b : Bounds) : Bounds :=
  mkBounds (Z.max 0 (minX b - padding)) (Z.min (widthTiles m - 1) (maxX b + padding))
           (Z.max 0 (minY b - padding)) (Z.min (heightTiles m - 1) (maxY b + padding)).

(** The 3-by-3 block of barrier marks around the local cell [(cx, cy)],
    clipped to the grid: the body of the loop of [markThickLine], and,
    with [cx = tile.x - minX] and [cy = tile.y - minY], the marking of
    each trail tile in [captureTerritoryFromTail]. *)
Definition stamp (grid : list Z) (width height cx cy : Z) : list Z :=
  foldl (λ grid oy,
    foldl (λ grid ox,
      let tx := cx + ox in
      let ty := cy + oy in
      if (0 <=? tx) && (tx <? width) && (0 <=? ty) && (ty <? height)
      then writeU8 grid (ty * width + tx) 1
      else grid) grid (zrange (-1) 1))
    grid (zrange (-1) 1).

(** The [while (true)] loop of [markThickLine]. It leaves at the end
    point, which it reaches in at most [dx + dy] passes (lemma
    [linePoints_reaches_end]); [fuel] is that bound. *)
Fixpoint lineLoop (fuel : nat) (grid : list Z) (width height x0 y0 x1 y1 dx dy sx sy err : Z)
    : list Z :=
  let grid := stamp grid width height x0 y0 in
  if (x0 =? x1) && (y0 =? y1) then grid
  else
    match fuel with
    | O => grid
    | S fuel =>
        let e2 := 2 * err in
        let err1 := if - dy <? e2 then err - dy else err in
        let x0' := if - dy <? e2 then x0 + sx else x0 in
        let err2 := if e2 <? dx then err1 + dx else err1 in
        let y0' := if e2 <? dx then y0 + sy else y0 in
        lineLoop fuel grid width height x0' y0' x1 y1 dx dy sx sy err2
    end.

Definition markThickLine (grid : list Z) (width height offsetX offsetY x0 y0 x1 y1 : Z)
    : list Z :=
  let x0 := x0 - offsetX in
  let y0 := y0 - offsetY in
  let x1 := x1 - offsetX in
  let y1 := y1 - offsetY in
  let dx := Z.abs (x1 - x0) in
  let dy := Z.abs (y1 - y0) in
  let sx := if x0 <? x1 then 1 else -1 in
  let sy := if y0 <? y1 then 1 else -1 in
  let err := dx - dy in
  lineLoop (Z.to_nat (dx + dy)) grid width height x0 y0 x1 y1 dx dy sx sy err.

(** [if (tempGrid[idx] === 0) { tempGrid[idx] = 2; queue.push(idx); }] *)
Definition seed (st : list Z * list Z) (idx : Z) : list Z * list Z :=
  if bool_decide (readU8 st.1 idx = Some 0)
  then (writeU8 st.1 idx 2, st.2 ++ [idx])
  else st.

Definition seedEdges (grid : list Z) (boxWidth boxHeight : Z) : list Z * list Z :=
  let st := foldl (λ st x, seed (seed st x) ((boxHeight - 1) * boxWidth + x))
              (grid, []) (zrange 0 (boxWidth - 1)) in
  foldl (λ st y, seed (seed st (y * boxWidth)) (y * boxWidth + boxWidth - 1))
    st (zrange 0 (boxHeight - 1)).

(** One pass of the breadth-first loop, for the index [idx] taken from
    the queue: the four neighbours are checked. *)
Definition floodStep (boxWidth boxHeight : Z) (st : list Z * list Z) (idx : Z)
    : list Z * list Z :=
  let x := Z.rem idx boxWidth in
  let y := idx / boxWidth in
  let st := if 0 <? x then seed st (idx - 1) else st in
  let st := if x <? boxWidth - 1 then seed st (idx + 1) else st in
  let st := if 0 <? y then seed st (idx - boxWidth) else st in
  let st := if y <? boxHeight - 1 then seed st (idx + boxWidth) else st in
  st.

(** The breadth-first loop. [pending] is the part of [queue] from
    [queueStart] on. Every cell enters the queue at most once, so the
    loop ends within as many passes as the grid has cells (lemma
    [floodLoop_drains]); [fuel] is that bound. *)
Fixpoint floodLoop (fuel : nat) (boxWidth boxHeight : Z) (grid : list Z) (pending : list Z)
    : list Z * list Z :=
  match pending with
  | [] => (grid, [])
  | idx :: rest =>
      match fuel with
      | O => (grid, pending)
      | S fuel =>
          let st := floodStep boxWidth boxHeight (grid, rest) idx in
          floodLoop fuel boxWidth boxHeight st.1 st.2
      end
  end.

(** The steps of [captureTerritoryFromTail], each a loop of the source. *)

Definition tailTilesOf (m : TerritoryMap) (playerPos : Vec2.t) (tail : list Vec2.t) : list Tile :=
  ((λ point, TerritoryMap.worldToTile m (Vec2.x point) (Vec2.y point)) <$> tail)
  ++ [TerritoryMap.worldToTile m (Vec2.x playerPos) (Vec2.y playerPos)].

Definition captureBox (m : TerritoryMap) (playerOwnerId : Z) (playerPos : Vec2.t)
    (tail : list Vec2.t) : Bounds :=
  let endTile := TerritoryMap.worldToTile m (Vec2.x playerPos) (Vec2.y playerPos) in
  padBounds m (territoryBounds m playerOwnerId
                 (tailBounds (tailTilesOf m playerPos tail) endTile)).

Definition boxWidthOf (b : Bounds) : Z := maxX b - minX b + 1.
Definition boxHeightOf (b : Bounds) : Z := maxY b - minY b + 1.

(** Mark existing player territory as barrier. *)
Definition markTerritory (m : TerritoryMap) (playerOwnerId : Z) (b : Bounds) (grid : list Z)
    : list Z :=
  foldl (λ grid y,
    foldl (λ grid x,
      if TerritoryMap.getOwner m x y =? playerOwnerId
      then writeU8 grid ((y - minY b) * boxWidthOf b + (x - minX b)) 1
      else grid) grid (zrange (minX b) (maxX b)))
    grid (zrange (minY b) (maxY b)).

(** Mark tail path as barrier: one thick line per pair of consecutive
    trail tiles. *)
Fixpoint markTail (b : Bounds) (tailTiles : list Tile) (grid : list Z) : list Z :=
  match tailTiles with
  | t0 :: ((t1 :: _) as rest) =>
      markTail b rest
        (markThickLine grid (boxWidthOf b) (boxHeightOf b) (minX b) (minY b)
           (tx t0) (ty t0) (tx t1) (ty t1))
  | _ => grid
  end.

(** Also mark each tail point with a small radius. *)
Definition markTailPoints (b : Bounds) (tailTiles : list Tile) (grid : list Z) : list Z :=
  foldl (λ grid tile,
    stamp grid (boxWidthOf b) (boxHeightOf b) (tx tile - minX b) (ty tile - minY b))
    grid tailTiles.

(** The temporary grid after marking and flood fill:
    0 = unknown, 1 = barrier, 2 = outside. *)
Definition barrierGrid (m : TerritoryMap) (playerOwnerId : Z) (b : Bounds)
    (tailTiles : list Tile) : list Z :=
  let tempGrid := replicate (Z.to_nat (boxWidthOf b * boxHeightOf b)) 0 in
  markTailPoints b tailTiles (markTail b tailTiles (markTerritory m playerOwnerId b tempGrid)).

Definition floodedGrid (b : Bounds) (tempGrid : list Z) : list Z * list Z :=
  let st := seedEdges tempGrid (boxWidthOf b) (boxHeightOf b) in
  floodLoop (length tempGrid) (boxWidthOf b) (boxHeightOf b) st.1 st.2.

(** Capture all tiles that are still 0 or are barrier not already owned. *)
Definition annex (m : TerritoryMap) (playerOwnerId : Z) (b : Bounds) (tempGrid : list Z)
    : TerritoryMap :=
  foldl (λ m by_,
    foldl (λ m bx,
      let idx := by_ * boxWidthOf b + bx in
      let mapX := bx + minX b in
      let mapY := by_ + minY b in
      if bool_decide (readU8 tempGrid idx = Some 0) ||
         (bool_decide (readU8 tempGrid idx = Some 1) &&
          negb (TerritoryMap.getOwner m mapX mapY =? playerOwnerId))
      then TerritoryMap.setOwner m mapX mapY playerOwnerId
      else m) m (zrange 0 (boxWidthOf b - 1)))
    m (zrange 0 (boxHeightOf b - 1)).

(** [captureTerritoryFromTail(player, tail)] on the grid, given the id and
    the position of the player object. [new Uint8Array(n)] raises a
    [RangeError] for a negative [n]; that needs a trail tile outside the
    grid, which the statements about this function exclude. *)
Definition captureTerritory (m : TerritoryMap) (playerOwnerId : Z) (playerPos : Vec2.t)
    (tail : list Vec2.t) : TerritoryMap :=
  if (length tail <? 3)%nat then m
  else
    let tailTiles := tailTilesOf m playerPos tail in
    let b := captureBox m playerOwnerId playerPos tail in
    let tempGrid := barrierGrid m playerOwnerId b tailTiles in
    annex m playerOwnerId b (floodedGrid b tempGrid).1.

Definition captureTerritoryFromTail (g : Game) (player : nat) (tail : list Vec2.t) : Game :=
  match allPlayers g !! player with
  | None => g
  | Some p => withMap g (captureTerritory (territoryMap g) (Player.id p) (Player.pos p) tail)
  end.

(** *** Boost, death and respawn *)

Section Simulation.
(** The oracles: [clock n] is what the [n]-th call of
    [performance.now()] returns and [random n] what the [n]-th call of
    [Math.random()] returns; [PI], [cosF] and [sinF] stand for [Math.PI],
    [Math.cos] and [Math.sin]. *)
Variable clock : nat → Q.
Variable random : nat → Q.
Variable PI : Q.
Variables cosF sinF : Q → Q.

(** Where a computed double is compared with a bound or floored to
    decide what the code does next, its rounding is not modelled either:
    [distance a b] stands for the double
    [Math.sqrt(Math.pow(a.x - b.x, 2) + Math.pow(a.y - b.y, 2))], and
    [fadd], [fsub], [fmul] and [fdiv] for the sum, difference, product
    and quotient of two doubles, as the engine computes them. The
    statements about the code that uses them hold whatever they
    return. *)
Variable distance : Vec2.t → Vec2.t → Q.
Variables fadd fsub fmul fdiv : Q → Q → Q.

Definition performanceNow (g : Game) : Q * Game :=
  (clock (clockReads g), withClockReads g (S (clockReads g))).

Definition mathRandom (g : Game) : Q * Game :=
  (random (randomDraws g), withRandomDraws g (S (randomDraws g))).

(** [endTime !== undefined && performance.now() < endTime]: the clock is
    read only when the player has an entry. *)
Definition isPlayerBoosted (g : Game) (playerId : Z) : bool * Game :=
  match boostEndTimes g !! playerId with
  | None => (false, g)
  | Some endTime =>
      let '(now, g1) := performanceNow g in (Qltb now endTime, g1)
  end.

(** [activateBoost(playerId)]: the end time is the sum, on doubles, of
    the clock reading and the duration. *)
Definition activateBoost (g : Game) (playerId : Z) : Game :=
  let '(t1, g1) := performanceNow g in
  let '(t2, g2) := performanceNow g1 in
  withBoost g2 (<[playerId := fadd t1 boostDuration]> (boostEndTimes g2))
    (boostNotifications g2 ++ [(playerId, t2)]).

(** [updateBoost()]: the entries whose end time has passed are deleted
    while the map is iterated, which visits every entry once. *)
Definition updateBoost (g : Game) : Game :=
  let '(now, g1) := performanceNow g in
  withBoost g1 (filter (λ kv, Qltb kv.2 now = false) (boostEndTimes g1))
    (boostNotifications g1).

(** [getBoostTimeRemaining(playerId)]: [!endTime] holds for a missing
    entry and for an end time of 0, and then the clock is not read. *)
Definition getBoostTimeRemaining (g : Game) (playerId : Z) : Q * Game :=
  match boostEndTimes g !! playerId with
  | None => (0%Q, g)
  | Some endTime =>
      if Qeq_bool endTime 0 then (0%Q, g)
      else let '(now, g1) := performanceNow g in (Qmax 0 (endTime - now), g1)
  end.

Definition addKillEffect (g : Game) (x y : Q) : Game :=
  let '(t, g1) := performanceNow g in
  withKillEffects g1 (killEffects g1 ++ [(x, y, t)]).

Definition respawnPlayerEntity (g : Game) (i : nat) : Game :=
  match allPlayers g !! i with
  | None => g
  | Some player =>
      let playerId := Player.id player in
      let g := withMap g (TerritoryMap.clearOwnerTerritory (territoryMap g) playerId) in
      let arenaW := inject_Z derivedConfig.arenaWidthPx in
      let arenaH := inject_Z derivedConfig.arenaHeightPx in
      let margin := (200 # 1)%Q in
      let '(spawnX, spawnY, g) :=
        if playerId =? 1 then ((arenaW / (2 # 1))%Q, (arenaH / (2 # 1))%Q, g)
        else
          let '(r1, g1) := mathRandom g in
          let '(r2, g2) := mathRandom g1 in
          ((margin + r1 * (arenaW - margin * (2 # 1)))%Q,
           (margin + r2 * (arenaH - margin * (2 # 1)))%Q, g2) in
      let startRadius := if playerId =? 1 then 12 else 10 in
      let g := withMap g (TerritoryMap.generateStartingTerritory cosF sinF
                            (territoryMap g) spawnX spawnY playerId startRadius) in
      let g := withWasIn g (<[playerId := true]> (wasInOwnTerritory g)) in
      let '(r3, g) := mathRandom g in
      let ang := (r3 * PI * (2 # 1))%Q in
      let placed := Player.withPlacement player (Vec2.mk spawnX spawnY)
                      (Vec2.mk (cosF ang) (sinF ang)) ang in
      setPlayer g i (Player.withAlive (Player.withTail placed [] false None) true)
  end.

(** [handlePlayerDeath(player, killer?)], on the indices of the two
    player objects. *)
Definition handlePlayerDeath (g : Game) (i : nat) (killer : option nat) : Game :=
  match allPlayers g !! i with
  | None => g
  | Some player =>
      let g := setPlayer g i (Player.withTail (Player.withAlive player false) [] false None) in
      let isHuman := Player.id player =? 1 in
      match killer with
      | Some k =>
          match allPlayers g !! k with
          | None => g
          | Some killerP =>
              let g :=
                if bool_decide (difficulty g = impossible) && (Player.id killerP =? 1)
                then withMap g (TerritoryMap.clearOwnerTerritory (territoryMap g) (Player.id player))
                else withMap g (TerritoryMap.transferTerritory (territoryMap g)
                                  (Player.id player) (Player.id killerP)) in
              addKillEffect g (Vec2.x (Player.pos player)) (Vec2.y (Player.pos player))
          end
      | None =>
          let g := withMap g (TerritoryMap.clearOwnerTerritory (territoryMap g) (Player.id player)) in
          if isHuman then g else respawnPlayerEntity g i
      end
  end.

(** *** Wall collisions *)

Definition wallMargin : Q := 2 # 1.

(** The condition of [checkWallCollisions] on one player. *)
Definition hitsWall (p : Player.t) : bool :=
  let arenaW := inject_Z derivedConfig.arenaWidthPx in
  let arenaH := inject_Z derivedConfig.arenaHeightPx in
  Qltb (Vec2.x (Player.pos p)) wallMargin ||
  Qltb (arenaW - wallMargin)%Q (Vec2.x (Player.pos p)) ||
  Qltb (Vec2.y (Player.pos p)) wallMargin ||
  Qltb (arenaH - wallMargin)%Q (Vec2.y (Player.pos p)).

Definition checkWallCollisions (g : Game) : Game :=
  foldl (λ g i,
    match allPlayers g !! i with
    | None => g
    | Some player =>
        if negb (Player.alive player) then g
        else if hitsWall player then handlePlayerDeath g i None
        else g
    end) g (seq 0 (length (allPlayers g))).

(** *** Trail drawing and re-entry *)

(** [playerRadius * 0.8] *)
Definition collisionDist : Q := (gameConfig.player_radius * (8 # 10))%Q.

(** [dist < collisionDist] for the computed distance between two
    points. *)
Definition within (a b : Vec2.t) : bool :=
  Qltb (distance a b) collisionDist.

(** The square of [pointToLineDistance(point, lineStart, lineEnd)]. *)
Definition pointToLineDistanceSq (point lineStart lineEnd : Vec2.t) : Q :=
  let dx := (Vec2.x lineEnd - Vec2.x lineStart)%Q in
  let dy := (Vec2.y lineEnd - Vec2.y lineStart)%Q in
  let lenSq := (dx * dx + dy * dy)%Q in
  if Qeq_bool lenSq 0 then Vec2.distSq point lineStart
  else
    let t := (((Vec2.x point - Vec2.x lineStart) * dx
               + (Vec2.y point - Vec2.y lineStart) * dy) / lenSq)%Q in
    let t := Qmax 0 (Qmin 1 t) in
    let projX := (Vec2.x lineStart + t * dx)%Q in
    let projY := (Vec2.y lineStart + t * dy)%Q in
    (sq (Vec2.x point - projX) + sq (Vec2.y point - projY))%Q.

(** The consecutive pairs [(tail[i], tail[i+1])]. *)
Definition segments (tail : list Vec2.t) : list (Vec2.t * Vec2.t) :=
  zip tail (drop 1 tail).

Definition checkSelfTailCollisionForPlayer (player : Player.t) : bool :=
  let tail := Player.tail player in
  if (length tail <? 10)%nat then false
  else
    existsb (λ tailPoint, within (Player.pos player) tailPoint) (take (length tail - 5) tail)
    || existsb (λ seg, Qltb (pointToLineDistanceSq (Player.pos player) seg.1 seg.2)
                            (sq collisionDist))
         (take (length tail - 6) (segments tail)).

Definition queueCapture (g : Game) (player : nat) : Game :=
  match allPlayers g !! player with
  | None => g
  | Some p =>
      let tailCopy := Vec2.clone <$> Player.tail p in
      withQueue g (captureQueue g ++ [mkCaptureJob player tailCopy])
  end.

(** [updateTailMechanicsForPlayer(player)], on the player's index. When
    [isDrawingTail] is set, [lastTailPoint] is too (they are assigned
    together), so the non-null assertion of the source holds. *)
Definition updateTailMechanicsForPlayer (g : Game) (i : nat) : Game :=
  match allPlayers g !! i with
  | None => g
  | Some player =>
      let playerId := Player.id player in
      let m := territoryMap g in
      let currentTile := TerritoryMap.worldToTile m (Vec2.x (Player.pos player))
                           (Vec2.y (Player.pos player)) in
      let isInOwnTerritory :=
        TerritoryMap.getOwner m (tx currentTile) (ty currentTile) =? playerId in
      let wasInOwn := default true (wasInOwnTerritory g !! playerId) in
      let g :=
        if isInOwnTerritory then
          let g := if negb wasInOwn && (0 <? length (Player.tail player))%nat
                   then queueCapture g i else g in
          setPlayer g i (Player.withTail player [] false None)
        else if negb (Player.isDrawingTail player) then
          setPlayer g i (Player.withTail player [Vec2.clone (Player.pos player)] true
                           (Some (Vec2.clone (Player.pos player))))
        else
          match Player.lastTailPoint player with
          | None => g
          | Some lastPoint =>
              if Qleb (sq Player.tailPointDistance) (Vec2.distSq (Player.pos player) lastPoint)
              then
                let player' := Player.withTail player
                                 (Player.tail player ++ [Vec2.clone (Player.pos player)]) true
                                 (Some (Vec2.clone (Player.pos player))) in
                let g := setPlayer g i player' in
                if checkSelfTailCollisionForPlayer player'
                then handlePlayerDeath g i None
                else g
              else g
          end in
      withWasIn g (<[playerId := isInOwnTerritory]> (wasInOwnTerritory g))
  end.

(** *** Collisions with other players' trails *)

(** The loop over [i < victim.tail.length - 2]: true when it reaches a
    trail point within the collision distance (where it kills and
    breaks). *)
Definition hitsTail (attackerPos : Vec2.t) (tail : list Vec2.t) : bool :=
  existsb (λ tailPoint, within attackerPos tailPoint) (take (length tail - 2) tail).

(** [attacker.kills++] and the read of [attacker.kills] after it, on the
    player object at index [a]. *)
Definition incrementKills (g : Game) (a : nat) : Game :=
  match allPlayers g !! a with
  | None => g
  | Some p => setPlayer g a (Player.withKills p (Player.kills p + 1))
  end.

Definition killsOf (g : Game) (a : nat) : Z :=
  match allPlayers g !! a with
  | None => 0
  | Some p => Player.kills p
  end.

(** The body of the inner loop of [checkAllTailCollisions] for the
    attacker at index [a] and the victim at index [v]. *)
Definition attack (g : Game) (a v : nat) : Game :=
  match allPlayers g !! a, allPlayers g !! v with
  | Some attacker, Some victim =>
      if negb (Player.alive victim) || (Player.id attacker =? Player.id victim) then g
      else if (length (Player.tail victim) <? 3)%nat then g
      else
        let '(boosted, g) := isPlayerBoosted g (Player.id victim) in
        if boosted then g
        else if hitsTail (Player.pos attacker) (Player.tail victim) then
          let g := handlePlayerDeath g v (Some a) in
          let g := incrementKills g a in
          if Z.rem (killsOf g a) 3 =? 0 then activateBoost g (Player.id attacker) else g
        else g
  | _, _ => g
  end.

Definition checkAllTailCollisions (g : Game) : Game :=
  let indices := seq 0 (length (allPlayers g)) in
  foldl (λ g a,
    match allPlayers g !! a with
    | None => g
    | Some attacker =>
        if negb (Player.alive attacker) then g
        else foldl (λ g v, attack g a v) g indices
    end) g indices.

(** *** Deferred captures *)

(** The [while] loop of [processQueuedCaptures] over the queue [q] still
    to process: each pass reads the clock, stops when the budget is
    spent, and otherwise shifts one job off the queue and runs it. *)
Fixpoint drainCaptures (startTime : Q) (q : list CaptureJob) (g : Game) : Game :=
  match q with
  | [] => g
  | capture :: rest =>
      let '(now, g) := performanceNow g in
      let elapsed := fsub now startTime in
      if Qltb maxCaptureTimePerFrame elapsed then g
      else
        let g := withQueue g rest in
        drainCaptures startTime rest
          (captureTerritoryFromTail g (job_player capture) (job_tail capture))
  end.

Definition processQueuedCaptures (g : Game) : Game :=
  match captureQueue g with
  | [] => g
  | _ =>
      let '(startTime, g) := performanceNow g in
      drainCaptures startTime (captureQueue g) g
  end.

(** *** Orphan sweep *)

Definition orphanOwnerId : Z := 1.

(** [isPlayerOrEdge(x, y)] *)
Definition isPlayerOrEdge (m : TerritoryMap) (x y : Z) : bool :=
  if (x <? 0) || (widthTiles m <=? x) || (y <? 0) || (heightTiles m <=? y) then true
  else TerritoryMap.getOwner m x y =? orphanOwnerId.

(** The body of the two nested loops of [captureOrphanedTiles]. *)
Definition sweepStep (m : TerritoryMap) (t : Tile) : TerritoryMap :=
  let x := tx t in
  let y := ty t in
  if (TerritoryMap.getOwner m x y =? 0) &&
     isPlayerOrEdge m x (y - 1) && isPlayerOrEdge m x (y + 1) &&
     isPlayerOrEdge m (x - 1) y && isPlayerOrEdge m (x + 1) y
  then TerritoryMap.setOwner m x y orphanOwnerId
  else m.

(** The scan; tiles annexed early count as owned for the tiles scanned
    later. *)
Definition sweepOrphans (m : TerritoryMap) : TerritoryMap :=
  foldl sweepStep m (TerritoryMap.allTiles (widthTiles m) (heightTiles m)).

Definition captureOrphanedTiles (g : Game) : Game :=
  let g := withOrphanCounter g (orphanCheckCounter g + 1) in
  let checkInterval := if isMobile g then 360 else 180 in
  if orphanCheckCounter g <? checkInterval then g
  else
    let g := withOrphanCounter g 0 in
    let playerPercent := TerritoryMap.getOwnershipPercentage (territoryMap g) 1 in
    if Qltb playerPercent (10 # 1) then g
    else withMap g (sweepOrphans (territoryMap g)).

(** *** Camping and shrinking *)

(** [[a[i], a[j]] = [a[j], a[i]]] for [i] and [j] inside the array. *)
Definition swap (l : list Tile) (i j : nat) : list Tile :=
  match l !! i, l !! j with
  | Some a, Some b => <[j := a]> (<[i := b]> l)
  | _, _ => l
  end.

(** The shuffle of [shrinkTerritory], for [i] from [n] down to 1, with
    [j = Math.floor(Math.random() * (i + 1))]. *)
Fixpoint shuffle (n : nat) (l : list Tile) (g : Game) : list Tile * Game :=
  match n with
  | O => (l, g)
  | S n' =>
      let '(r, g) := mathRandom g in
      let j := Qfloor (r * inject_Z (Z.of_nat n + 1))%Q in
      shuffle n' (swap l n (Z.to_nat j)) g
  end.

(** The removal loop: up to [tilesToRemove] tiles, skipping the tile
    under the player. *)
Fixpoint removeTiles (m : TerritoryMap) (tiles : list Tile) (playerTile : Tile)
    (removed tilesToRemove : Z) : TerritoryMap :=
  match tiles with
  | [] => m
  | tile :: rest =>
      if tilesToRemove <=? removed then m
      else if (tx tile =? tx playerTile) && (ty tile =? ty playerTile)
      then removeTiles m rest playerTile removed tilesToRemove
      else removeTiles (TerritoryMap.setOwner m (tx tile) (ty tile) 0) rest playerTile
             (removed + 1) tilesToRemove
  end.

Definition playerTileOf (g : Game) (playerId : Z) : Tile :=
  match list_find (λ p, Player.id p = playerId) (allPlayers g) with
  | Some (_, player) =>
      TerritoryMap.worldToTile (territoryMap g) (Vec2.x (Player.pos player))
        (Vec2.y (Player.pos player))
  | None => mkTile (-1) (-1)
  end.

Definition shrinkTerritory (g : Game) (playerId tilesToRemove : Z) : Game :=
  let borderTiles := TerritoryMap.getBorderTiles (territoryMap g) playerId in
  match borderTiles with
  | [] => g
  | _ =>
      let playerTile := playerTileOf g playerId in
      let '(borderTiles, g) := shuffle (length borderTiles - 1) borderTiles g in
      withMap g (removeTiles (territoryMap g) borderTiles playerTile 0 tilesToRemove)
  end.

(** The body of the loop of [updateCampingMechanic] for the player at
    index [i]. The doubled rate, [150 * 2], is exact. *)
Definition campingStep (dt : Q) (g : Game) (i : nat) : Game :=
  match allPlayers g !! i with
  | None => g
  | Some player =>
      let playerId := Player.id player in
      if negb (Player.alive player) then
        withCamping g (<[playerId := 0%Q]> (campingTimers g))
          (<[playerId := 0%Q]> (shrinkAccumulators g))
      else
        let campingTime := orElseQ (campingTimers g !! playerId) 0 in
        let shrinkAccum := orElseQ (shrinkAccumulators g !! playerId) 0 in
        let m := territoryMap g in
        let currentTile := TerritoryMap.worldToTile m (Vec2.x (Player.pos player))
                             (Vec2.y (Player.pos player)) in
        let isInOwnTerritory :=
          TerritoryMap.getOwner m (tx currentTile) (ty currentTile) =? playerId in
        let hasTail := (0 <? length (Player.tail player))%nat in
        let '(campingTime, shrinkAccum, g) :=
          if isInOwnTerritory && negb hasTail then
            let campingTime := fadd campingTime dt in
            if Qltb gameConfig.shrink_campingThreshold campingTime then
              let shrinkAccum := fadd shrinkAccum dt in
              let shrinkRate := if bool_decide (difficulty g = impossible)
                                then (gameConfig.shrink_rate * (2 # 1))%Q
                                else gameConfig.shrink_rate in
              let tilesToRemove := Qfloor (fmul shrinkAccum shrinkRate) in
              if 0 <? tilesToRemove
              then (campingTime,
                    fsub shrinkAccum (fdiv (inject_Z tilesToRemove) shrinkRate),
                    shrinkTerritory g playerId tilesToRemove)
              else (campingTime, shrinkAccum, g)
            else (campingTime, shrinkAccum, g)
          else
            let campingTime := Qmax 0 (fsub campingTime dt) in
            if Qleb campingTime gameConfig.shrink_campingThreshold
            then (campingTime, 0%Q, g)
            else (campingTime, shrinkAccum, g) in
        withCamping g (<[playerId := campingTime]> (campingTimers g))
          (<[playerId := shrinkAccum]> (shrinkAccumulators g))
  end.

Definition updateCampingMechanic (g : Game) (dt : Q) : Game :=
  foldl (campingStep dt) g (seq 0 (length (allPlayers g))).

(** *** Boost pickups *)

(** A random point of the arena, [margin] away from its sides. *)
Definition spawnPoint (g : Game) : Q * Q * Game :=
  let margin := (100 # 1)%Q in
  let arenaW := inject_Z derivedConfig.arenaWidthPx in
  let arenaH := inject_Z derivedConfig.arenaHeightPx in
  let '(r1, g) := mathRandom g in
  let '(r2, g) := mathRandom g in
  ((margin + r1 * (arenaW - margin * (2 # 1)))%Q,
   (margin + r2 * (arenaH - margin * (2 # 1)))%Q, g).

(** The two distance checks of [spawnBoostPickup]: a live player nearer
    than 150, or a pickup nearer than 100. *)
Definition tooCloseToSpawn (g : Game) (pickups : list Pickup) (x y : Q) : bool :=
  existsb (λ player,
      Player.alive player &&
      Qltb (sq (Vec2.x (Player.pos player) - x) + sq (Vec2.y (Player.pos player) - y))%Q
           (sq (150 # 1))) (allPlayers g)
  || existsb (λ pickup, Qltb (sq (pk_x pickup - x) + sq (pk_y pickup - y))%Q (sq (100 # 1)))
       pickups.

(** The loop [while (attempts < maxAttempts)] with [attempts] passes
    left, followed by the fallback. *)
Fixpoint spawnAttempts (attempts : nat) (playerOnly : bool) (pickups : list Pickup) (g : Game)
    : list Pickup * Game :=
  let '(x, y, g) := spawnPoint g in
  match attempts with
  | O =>
      let '(now, g) := performanceNow g in
      (pickups ++ [mkPickup x y now playerOnly], g)
  | S attempts =>
      if tooCloseToSpawn g pickups x y then spawnAttempts attempts playerOnly pickups g
      else
        let '(now, g) := performanceNow g in
        (pickups ++ [mkPickup x y now playerOnly], g)
  end.

Definition spawnBoostPickup (pickups : list Pickup) (g : Game) : list Pickup * Game :=
  let '(playerOnly, g) :=
    if bool_decide (difficulty g = impossible)
    then let '(r, g) := mathRandom g in (Qltb r (75 # 100), g)
    else (false, g) in
  spawnAttempts 20 playerOnly pickups g.

(** The test of the inner loop of [updateBoostPickups]: the pickup is
    open to the player and nearer than the two radii together. *)
Definition collects (player : Player.t) (pickup : Pickup) : bool :=
  negb (pk_playerOnly pickup && negb (Player.id player =? 1)) &&
  Qltb (sq (Vec2.x (Player.pos player) - pk_x pickup)
        + sq (Vec2.y (Player.pos player) - pk_y pickup))%Q
       (sq (boostPickupRadius + gameConfig.player_radius)).

(** The inner loop, from the last pickup down to the first: a pickup
    collected is spliced out and boosts the player. *)
Fixpoint collectPickups (player : Player.t) (pickups : list Pickup) (g : Game)
    : list Pickup * Game :=
  match pickups with
  | [] => ([], g)
  | pickup :: rest =>
      let '(rest, g) := collectPickups player rest g in
      if collects player pickup
      then (rest, activateBoost g (Player.id player))
      else (pickup :: rest, g)
  end.

(** [updateBoostPickups()]. Collecting a pickup leaves the player
    objects as they are, so the outer loop runs over the players as they
    stand before it. *)
Definition updateBoostPickups (st : PickupState) (g : Game) : PickupState * Game :=
  let '(now, g) := performanceNow g in
  let maxPickups := if bool_decide (difficulty g = impossible)
                    then maxBoostPickups * 3 else maxBoostPickups in
  let '(st, g) :=
    if (Z.of_nat (length (boostPickups st)) <? maxPickups) &&
       Qltb boostPickupSpawnInterval (now - lastBoostPickupSpawn st)%Q
    then let '(pickups, g) := spawnBoostPickup (boostPickups st) g in
         (mkPickupState pickups now, g)
    else (st, g) in
  let '(pickups, g) :=
    foldl (λ acc player,
      if negb (Player.alive player) then acc
      else collectPickups player acc.1 acc.2)
      (boostPickups st, g) (allPlayers g) in
  (mkPickupState pickups (lastBoostPickupSpawn st), g).

(** *** The tick, from the trails to the capture queue *)

(** [for (const player of this.allPlayers) if (player.alive)
    this.updateTailMechanicsForPlayer(player)] *)
Definition updateTails (g : Game) : Game :=
  foldl (λ g i,
    match allPlayers g !! i with
    | None => g
    | Some player =>
        if Player.alive player then updateTailMechanicsForPlayer g i else g
    end) g (seq 0 (length (allPlayers g))).

(** The part of [update(dt)] that runs from the tail mechanics to the
    drain of the capture queue, in the order of the source: the tail
    mechanics of every live player, the collisions with trails, the
    boost pickups, the queued captures. *)
Definition updateFromTails (st : PickupState) (g : Game) : PickupState * Game :=
  let g := updateTails g in
  let g := checkAllTailCollisions g in
  let '(st, g) := updateBoostPickups st g in
  (st, processQueuedCaptures g).

End Simulation.

End Game.

(** ** BotAI.ts: the way home *)

Module BotAI.

(** The point the bot steers to ([targetX], [targetY]); the rest of the
    bot's state (its mode, timers and temperament) plays no part in the
    functions below. *)
Record Target := mkTarget { targetX : Q; targetY : Q }.

(** [const step = 4]: every 4th tile is sampled. *)
Definition step : Z := 4.

(** The values taken by [x] in [for (let x = 0; x < n; x += step)]. *)
Definition sampled (n : Z) : list Z :=
  (λ k, Z.of_nat k * step) <$> seq 0 (Z.to_nat ((n + step - 1) / step)).

Definition getOwnedTiles (m : TerritoryMap) (player : Player.t) : list Tile :=
  y ← sampled (heightTiles m);
  x ← sampled (widthTiles m);
  if TerritoryMap.getOwner m x y =? Player.id player then [mkTile x y] else [].

(** The square of the distance from the player to the centre of a
    tile. *)
Definition distSqTo (m : TerritoryMap) (player : Player.t) (tile : Tile) : Q :=
  let worldPos := TerritoryMap.tileToWorld m (tx tile) (ty tile) in
  let dx := (worldPos.1 - Vec2.x (Player.pos player))%Q in
  let dy := (worldPos.2 - Vec2.y (Player.pos player))%Q in
  (dx * dx + dy * dy)%Q.

(** The body of the loop of [getClosestOwnedTile] on the pair
    ([closestDist], [closestPos]); [None] is [Infinity], which every
    distance is below. Distances are compared by their squares. *)
Definition closer (m : TerritoryMap) (player : Player.t)
    (best : option Q * (Q * Q)) (tile : Tile) : option Q * (Q * Q) :=
  let dist := distSqTo m player tile in
  let below := match best.1 with
               | None => true
               | Some closestDist => Qltb dist closestDist
               end in
  if below then (Some dist, TerritoryMap.tileToWorld m (tx tile) (ty tile)) else best.

Definition getClosestOwnedTile (m : TerritoryMap) (player : Player.t) : option (Q * Q) :=
  let ownedTiles := getOwnedTiles m player in
  if (length ownedTiles =? 0)%nat then None
  else Some (foldl (closer m player) (None, (0%Q, 0%Q)) ownedTiles).2.

Definition pickReturnTarget (m : TerritoryMap) (player : Player.t) : Target :=
  match getClosestOwnedTile m player with
  | Some closestTile => mkTarget closestTile.1 closestTile.2
  | None => mkTarget (inject_Z derivedConfig.arenaWidthPx / (2 # 1))
                     (inject_Z derivedConfig.arenaHeightPx / (2 # 1))
  end.

End BotAI.

(** Mutations of the grid through its public methods, for statements
    about sequences of calls. *)
Inductive Mutation :=
| MSetOwner (tileX tileY ownerId : Z)
| MTransfer (fromOwnerId toOwnerId : Z)
| MClear (ownerId : Z).

Definition applyMutation (m : TerritoryMap) (mu : Mutation) : TerritoryMap :=
  match mu with
  | MSetOwner x y o => TerritoryMap.setOwner m x y o
  | MTransfer f t => TerritoryMap.transferTerritory m f t
  | MClear o => TerritoryMap.clearOwnerTerritory m o
  end.

(** Owner ids a [Uint8Array] cell can hold; 0 is the neutral id, which
    [setOwner] accepts and the bulk operations are never called with. A
    transfer names two different owners. *)
Definition distinctMutation (mu : Mutation) : Prop :=
  match mu with
  | MSetOwner _ _ o => 0 <= o < 256
  | MTransfer f t => 0 < f < 256 ∧ 0 < t < 256 ∧ f ≠ t
  | MClear o => 0 < o < 256
  end.

(** The mutations of C3 as stated: owner ids in the valid range, with
    nothing said of the two owners of a transfer. *)
Definition validMutation (mu : Mutation) : Prop :=
  match mu with
  | MSetOwner _ _ o => 0 <= o < 256
  | MTransfer f t => 0 < f < 256 ∧ 0 < t < 256
  | MClear o => 0 < o < 256
  end.

(** ** Concrete grids used as examples *)

(** A grid on which the round trip of C2 fails: tile (0,0) belongs to
    owner 1 and tile (1,0) to owner 2. *)
Definition twoOwners : TerritoryMap :=
  TerritoryMap.setOwner (TerritoryMap.setOwner (TerritoryMap.blank 2 1 4) 0 0 1) 1 0 2.

(** ** Concrete oracles, players and games used as examples *)

Definition clock0 : nat → Q := λ _, 0%Q.
Definition random0 : nat → Q := λ _, 0%Q.
Definition PI0 : Q := 355 # 113.
Definition cos0 : Q → Q := λ _, 1%Q.
Definition sin0 : Q → Q := λ _, 0%Q.

(** A distance for the examples: the length of the way from [a] to [b]
    along the axes, which is the distance itself for two points on one
    horizontal or vertical line. *)
Definition distance0 (a b : Vec2.t) : Q :=
  (Qabs (Vec2.x a - Vec2.x b) + Qabs (Vec2.y a - Vec2.y b))%Q.

(** A live player at world position [(x, y)], heading right, no trail. *)
Definition playerAt (id : Z) (bot : bool) (x y : Q) : Player.t :=
  Player.mk id bot (Vec2.mk x y) (Vec2.mk 1 0) gameConfig.player_speed true 0 0
    [] false None 0 0.

(** A game over the grid [m] with the players [ps] and nothing queued. *)
Definition gameOf (m : TerritoryMap) (ps : list Player.t) (d : Difficulty) : Game :=
  mkGame ps m ∅ [] ∅ ∅ d ∅ [] [] false 0 0 0.

(** The centre of tile [(x, y)] on a grid of 4-pixel tiles. *)
Definition centre (x y : Z) : Vec2.t :=
  Vec2.mk (inject_Z (4 * x + 2)) (inject_Z (4 * y + 2)).

(** The grid [m] with the tiles [ts] given to [owner], one [setOwner]
    call per tile. *)
Definition paint (m : TerritoryMap) (owner : Z) (ts : list (Z * Z)) : TerritoryMap :=
  foldl (λ m t, TerritoryMap.setOwner m t.1 t.2 owner) m ts.

(** A 3-by-3 grid whose 8 border tiles belong to owner 1, in a game
    whose next call of [captureOrphanedTiles] runs the sweep. *)
Definition ring3 : TerritoryMap :=
  paint (TerritoryMap.blank 3 3 4) 1
    [(0, 0); (1, 0); (2, 0); (0, 1); (2, 1); (0, 2); (1, 2); (2, 2)].

Definition ring3Game : Game :=
  Game.withOrphanCounter (gameOf ring3 [] easy) 179.

(** A 7-by-7 grid where owner 1 holds only the four neighbours of the
    neutral tile (3,3): 4 tiles of 49, less than a tenth. *)
Definition cross7 : TerritoryMap :=
  paint (TerritoryMap.blank 7 7 4) 1 [(3, 2); (2, 3); (4, 3); (3, 4)].

Definition cross7Game : Game :=
  Game.withOrphanCounter (gameOf cross7 [] easy) 179.

(** The general part of C4 as stated, for one call that runs the sweep. *)
Definition sweepAnnexesEnclosed (g : Game) : Prop :=
  let m := territoryMap g in
  ∀ x y,
    TerritoryMap.isValidTile m x y = true →
    TerritoryMap.getOwner m x y = 0 →
    Game.isPlayerOrEdge m x (y - 1) = true → Game.isPlayerOrEdge m x (y + 1) = true →
    Game.isPlayerOrEdge m (x - 1) y = true → Game.isPlayerOrEdge m (x + 1) y = true →
    TerritoryMap.getOwner (territoryMap (Game.captureOrphanedTiles g)) x y = 1.

(** *** Camping: the notions of the specification *)

(** The tile the agent is standing on. *)
Definition standingTile (g : Game) (p : Player.t) : Tile :=
  TerritoryMap.worldToTile (territoryMap g) (Vec2.x (Player.pos p)) (Vec2.y (Player.pos p)).

(** Alive, inside own territory, no trail. *)
Definition isCamping (g : Game) (p : Player.t) : bool :=
  Player.alive p &&
  (TerritoryMap.getOwner (territoryMap g) (tx (standingTile g p)) (ty (standingTile g p))
     =? Player.id p) &&
  (length (Player.tail p) =? 0)%nat.

Definition campingTimeOf (g : Game) (p : Player.t) : Q :=
  orElseQ (campingTimers g !! Player.id p) 0.

Definition shrinkAccumOf (g : Game) (p : Player.t) : Q :=
  orElseQ (shrinkAccumulators g !! Player.id p) 0.

(** The shrink rate in force: doubled at the impossible difficulty. *)
Definition shrinkRateOf (g : Game) : Q :=
  if bool_decide (difficulty g = impossible)
  then (gameConfig.shrink_rate * (2 # 1))%Q
  else gameConfig.shrink_rate.

(** The whole tiles the accumulator is worth after this tick, the sum
    and the product being those of doubles. *)
Definition tilesDue (fadd fmul : Q → Q → Q) (g : Game) (p : Player.t) (dt : Q) : Z :=
  Qfloor (fmul (fadd (shrinkAccumOf g p) dt) (shrinkRateOf g)).

(** Does this tick shrink the territory of [p]? *)
Definition shrinksNow (fadd fmul : Q → Q → Q) (g : Game) (p : Player.t) (dt : Q) : bool :=
  isCamping g p &&
  Qltb gameConfig.shrink_campingThreshold (fadd (campingTimeOf g p) dt) &&
  (0 <? tilesDue fadd fmul g p dt).

(** The shrink accumulator of [p] after this tick: zero for a dead
    agent; for a camper whose new timer exceeds the threshold, the
    accumulator plus [dt], less the time that the tiles removed are
    worth when at least one is due; for an agent that is not camping,
    zero once its new timer is at or below the threshold; and otherwise
    what it was. *)
Definition accumAfter (fadd fsub fmul fdiv : Q → Q → Q) (g : Game) (p : Player.t) (dt : Q) : Q :=
  if negb (Player.alive p) then 0%Q
  else if isCamping g p then
    if Qltb gameConfig.shrink_campingThreshold (fadd (campingTimeOf g p) dt) then
      if 0 <? tilesDue fadd fmul g p dt
      then fsub (fadd (shrinkAccumOf g p) dt)
                (fdiv (inject_Z (tilesDue fadd fmul g p dt)) (shrinkRateOf g))
      else fadd (shrinkAccumOf g p) dt
    else shrinkAccumOf g p
  else if Qleb (Qmax 0 (fsub (campingTimeOf g p) dt)) gameConfig.shrink_campingThreshold
       then 0%Q
       else shrinkAccumOf g p.

(** The border tiles of [p] other than the one it stands on. *)
Definition removableTiles (g : Game) (p : Player.t) : list Tile :=
  filter (λ t, t ≠ standingTile g p)
    (TerritoryMap.getBorderTiles (territoryMap g) (Player.id p)).

(** C7 as stated, for the agent at index [i] in one tick: the timer goes
    up by [dt] when camping and down by [dt], floored at zero, otherwise;
    when the shrink is due, exactly [tilesDue] tiles leave the
    territory. *)
Definition campingAsStated (random : nat → Q) (fadd fsub fmul fdiv : Q → Q → Q)
    (g : Game) (dt : Q) (i : nat) : Prop :=
  ∀ p, allPlayers g !! i = Some p →
    let g' := Game.campingStep random fadd fsub fmul fdiv dt g i in
    (∃ v, campingTimers g' !! Player.id p = Some v ∧
          (v == if isCamping g p then fadd (campingTimeOf g p) dt
                else Qmax 0 (fsub (campingTimeOf g p) dt))%Q) ∧
    (shrinksNow fadd fmul g p dt = true →
     TerritoryMap.rescan (territoryMap g') (Player.id p)
     = TerritoryMap.rescan (territoryMap g) (Player.id p) - tilesDue fadd fmul g p dt).

(** A game whose only agent, a bot with id 2, is dead and has two
    seconds on its camping timer. *)
Definition deadCamperGame : Game :=
  Game.withCamping
    (gameOf (TerritoryMap.blank 4 4 4) [Player.withAlive (playerAt 2 true (6 # 1) (6 # 1)) false] easy)
    {[ 2 := (2 # 1)%Q ]} ∅.

(** A game whose only agent stands on the only tile it owns, five
    seconds into camping. *)
Definition loneCamperGame : Game :=
  Game.withCamping
    (gameOf (paint (TerritoryMap.blank 4 4 4) 1 [(1, 1)]) [playerAt 1 false (6 # 1) (6 # 1)] easy)
    {[ 1 := (5 # 1)%Q ]} ∅.

(** A game whose only agent stands at the centre of a 3-by-3 block it
    owns, five seconds into camping. *)
Definition blockCamperGame : Game :=
  Game.withCamping
    (gameOf (paint (TerritoryMap.blank 5 5 4) 1
               [(1, 1); (2, 1); (3, 1); (1, 2); (2, 2); (3, 2); (1, 3); (2, 3); (3, 3)])
       [playerAt 1 false (10 # 1) (10 # 1)] easy)
    {[ 1 := (5 # 1)%Q ]} ∅.

(** *** Deferred capture: the notions of the specification *)

(** Is the agent standing inside its own territory? *)
Definition insideOwn (g : Game) (p : Player.t) : bool :=
  TerritoryMap.getOwner (territoryMap g) (tx (standingTile g p)) (ty (standingTile g p))
  =? Player.id p.

(** Re-entry with a trail: inside now, outside at the previous tick. *)
Definition reenters (g : Game) (p : Player.t) : bool :=
  insideOwn g p && negb (default true (wasInOwnTerritory g !! Player.id p)) &&
  (0 <? length (Player.tail p))%nat.

(** One whole capture, for the job [job], on the grid [m]. *)
Definition applyJob (ps : list Player.t) (m : TerritoryMap) (job : CaptureJob) : TerritoryMap :=
  match ps !! job_player job with
  | None => m
  | Some p => Game.captureTerritory m (Player.id p) (Player.pos p) (job_tail job)
  end.

(** The time spent, at the [j]-th budget check of a call of
    [processQueuedCaptures] entered in state [g]: the clock is read once
    for [startTime] and once per check, and [fsub] is the subtraction of
    doubles. *)
Definition elapsedAt (clock : nat → Q) (fsub : Q → Q → Q) (g : Game) (j : nat) : Q :=
  fsub (clock (clockReads g + 1 + j)%nat) (clock (clockReads g)).

(** C6 as stated, for one tick [tick] entered in state [g]: the job of
    an agent that re-enters its territory with a trail in this tick is
    not applied in it, so it is still queued when the tick ends. *)
Definition captureDeferredAsStated (tick : Game → Game) (g : Game) : Prop :=
  ∀ i p, allPlayers g !! i = Some p → Player.alive p = true → reenters g p = true →
    mkCaptureJob i (Player.tail p) ∈ captureQueue (tick g).

(** A live agent (id 1, index 0) whose trail of four points ends back
    inside its territory, the tile (1,1), which it had left. *)
Definition reentryPlayer : Player.t :=
  Player.withTail (playerAt 1 false (6 # 1) (6 # 1))
    [centre 2 1; centre 3 2; centre 2 3; centre 1 2] true (Some (centre 1 2)).

Definition reentryGame : Game :=
  Game.withWasIn
    (gameOf (paint (TerritoryMap.blank 8 8 4) 1 [(1, 1)]) [reentryPlayer] easy)
    {[ 1 := false ]}.

(** *** Collisions: the notions of the specification *)

(** The victim as [handlePlayerDeath] leaves it: dead, trail cleared. *)
Definition killed (victim : Player.t) : Player.t :=
  Player.withTail (Player.withAlive victim false) [] false None.

(** The attacker with one more kill to its credit. *)
Definition credited (attacker : Player.t) : Player.t :=
  Player.withKills attacker (Player.kills attacker + 1).

(** The grid after the death of [victim] at the hands of [attacker]:
    the victim's tiles go to the attacker, or, under the no-inheritance
    policy (the human kills at the impossible difficulty), to nobody. *)
Definition inherited (g : Game) (attacker victim : Player.t) : TerritoryMap :=
  if bool_decide (difficulty g = impossible) && (Player.id attacker =? 1)
  then TerritoryMap.clearOwnerTerritory (territoryMap g) (Player.id victim)
  else TerritoryMap.transferTerritory (territoryMap g) (Player.id victim) (Player.id attacker).

(** The owner of the victim's tiles after the kill: the attacker, or,
    under the no-inheritance policy, nobody. *)
Definition heir (g : Game) (attacker : Player.t) : Z :=
  if bool_decide (difficulty g = impossible) && (Player.id attacker =? 1)
  then 0
  else Player.id attacker.

(** [attacker] stands within the collision radius of a point of the
    trail of [victim] other than its last two (the head region), for the
    distance as the engine computes it. *)
Definition touches (distance : Vec2.t → Vec2.t → Q) (attacker victim : Player.t) : Prop :=
  ∃ i pt, (i + 2 < length (Player.tail victim))%nat ∧
          Player.tail victim !! i = Some pt ∧
          (distance (Player.pos attacker) pt < Game.collisionDist)%Q.

(** The players at indices [a] and [v] are in contact: both alive, with
    different ids, the first touching the trail of the second. *)
Definition contact (distance : Vec2.t → Vec2.t → Q) (ps : list Player.t) (a v : nat) : Prop :=
  ∃ attacker victim,
    ps !! a = Some attacker ∧ ps !! v = Some victim ∧
    Player.alive attacker = true ∧ Player.alive victim = true ∧
    Player.id attacker ≠ Player.id victim ∧
    touches distance attacker victim.

(** Is [victim] immune when the clock is read for the [n]-th time: it
    has a boost whose end lies after that reading. *)
Definition immuneAt (clock : nat → Q) (g : Game) (victim : Player.t) (n : nat) : bool :=
  match boostEndTimes g !! Player.id victim with
  | None => false
  | Some endTime => Qltb (clock n) endTime
  end.

(** C5 as stated, for one pass over a game [g]: every live attacker
    within the collision radius of a trail point of a live victim
    without a boost sees that victim dead and one more kill to its
    credit after the pass. *)
Definition collisionAsStated (pass : Game → Game) (distance : Vec2.t → Vec2.t → Q)
    (g : Game) : Prop :=
  ∀ a v attacker victim,
    allPlayers g !! a = Some attacker → allPlayers g !! v = Some victim →
    Player.alive attacker = true → Player.alive victim = true →
    Player.id attacker ≠ Player.id victim →
    touches distance attacker victim →
    boostEndTimes g !! Player.id victim = None →
    ∃ attacker' victim',
      allPlayers (pass g) !! a = Some attacker' ∧ allPlayers (pass g) !! v = Some victim' ∧
      Player.alive victim' = false ∧ Player.kills attacker' = Player.kills attacker + 1.

(** Two agents on a 10-by-10 grid: the human (id 1, index 0), with two
    kills already, stands within the collision distance of the first
    point of the trail of a bot (id 2, index 1); each owns one tile. *)
Definition duelAttacker : Player.t :=
  Player.withKills (playerAt 1 false (20 # 1) (20 # 1)) 2.

Definition duelVictim : Player.t :=
  Player.withTail (playerAt 2 true (30 # 1) (34 # 1))
    [Vec2.mk (22 # 1) (22 # 1); Vec2.mk (26 # 1) (26 # 1); Vec2.mk (30 # 1) (30 # 1)]
    true (Some (Vec2.mk (30 # 1) (30 # 1))).

Definition duelGame : Game :=
  gameOf (paint (paint (TerritoryMap.blank 10 10 4) 1 [(0, 0)]) 2 [(9, 9)])
    [duelAttacker; duelVictim] easy.

(** Two duels at once: beside the pair of [duelGame], a second human-less
    pair, a bot (id 3, index 2) standing on the first point of the trail
    of another bot (id 4, index 3), far from the first pair. *)
Definition secondAttacker : Player.t := playerAt 3 true (10 # 1) (30 # 1).

Definition secondVictim : Player.t :=
  Player.withTail (playerAt 4 true (10 # 1) (38 # 1))
    [Vec2.mk (10 # 1) (30 # 1); Vec2.mk (10 # 1) (34 # 1); Vec2.mk (10 # 1) (38 # 1)]
    true (Some (Vec2.mk (10 # 1) (38 # 1))).

Definition twoDuelsGame : Game :=
  gameOf (paint (paint (paint (paint (TerritoryMap.blank 10 10 4) 1 [(0, 0)]) 2 [(9, 9)])
                   3 [(0, 9)]) 4 [(9, 0)])
    [duelAttacker; duelVictim; secondAttacker; secondVictim] easy.

(** Two agents each standing on the first point of the other's trail. *)
Definition crossedFirst : Player.t :=
  Player.withTail (playerAt 1 false (20 # 1) (20 # 1))
    [Vec2.mk (30 # 1) (20 # 1); Vec2.mk (30 # 1) (24 # 1); Vec2.mk (30 # 1) (28 # 1)]
    true (Some (Vec2.mk (30 # 1) (28 # 1))).

Definition crossedSecond : Player.t :=
  Player.withTail (playerAt 2 true (30 # 1) (20 # 1))
    [Vec2.mk (20 # 1) (20 # 1); Vec2.mk (20 # 1) (24 # 1); Vec2.mk (20 # 1) (28 # 1)]
    true (Some (Vec2.mk (20 # 1) (28 # 1))).

Definition crossedGame : Game :=
  gameOf (paint (paint (TerritoryMap.blank 10 10 4) 1 [(0, 0)]) 2 [(9, 9)])
    [crossedFirst; crossedSecond] easy.

(** *** Capture: the notions of the specification *)

(** The tiles of the box [b] and those on its rim. *)
Definition inBox (b : Game.Bounds) (x y : Z) : Prop :=
  Game.minX b <= x <= Game.maxX b ∧ Game.minY b <= y <= Game.maxY b.

Definition onRim (b : Game.Bounds) (x y : Z) : Prop :=
  inBox b x y ∧
  (x = Game.minX b ∨ x = Game.maxX b ∨ y = Game.minY b ∨ y = Game.maxY b).

(** [(x, y)] is the tile [p] or one of its eight neighbours. *)
Definition near (p : Tile) (x y : Z) : Prop :=
  Z.abs (x - tx p) <= 1 ∧ Z.abs (y - ty p) <= 1.

(** The points at which the loop of [markThickLine] stamps: the control
    flow of [Game.lineLoop] without the grid. *)
Fixpoint linePoints (fuel : nat) (x0 y0 x1 y1 dx dy sx sy err : Z) : list Tile :=
  mkTile x0 y0 ::
  if (x0 =? x1) && (y0 =? y1) then []
  else
    match fuel with
    | O => []
    | S fuel =>
        let e2 := 2 * err in
        let err1 := if - dy <? e2 then err - dy else err in
        let x0' := if - dy <? e2 then x0 + sx else x0 in
        let err2 := if e2 <? dx then err1 + dx else err1 in
        let y0' := if e2 <? dx then y0 + sy else y0 in
        linePoints fuel x0' y0' x1 y1 dx dy sx sy err2
    end.

(** The tiles the line from [t0] to [t1] passes through. *)
Definition rasterLine (t0 t1 : Tile) : list Tile :=
  let dx := Z.abs (tx t1 - tx t0) in
  let dy := Z.abs (ty t1 - ty t0) in
  let sx := if tx t0 <? tx t1 then 1 else -1 in
  let sy := if ty t0 <? ty t1 then 1 else -1 in
  linePoints (Z.to_nat (dx + dy)) (tx t0) (ty t0) (tx t1) (ty t1) dx dy sx sy (dx - dy).

(** The loop tiles: the tiles of the trail points and of the closing
    position, and the tiles of the lines joining consecutive ones. *)
Fixpoint lineTiles (tailTiles : list Tile) : list Tile :=
  match tailTiles with
  | t0 :: ((t1 :: _) as rest) => rasterLine t0 t1 ++ lineTiles rest
  | _ => []
  end.

Definition loopTiles (tailTiles : list Tile) : list Tile :=
  tailTiles ++ lineTiles tailTiles.

(** The loop as rasterised, three tiles thick. *)
Definition onThickLoop (tailTiles : list Tile) (x y : Z) : Prop :=
  ∃ p, p ∈ loopTiles tailTiles ∧ near p x y.

(** A tile that neither belongs to the owner nor lies on the thick loop. *)
Definition freeTile (m : TerritoryMap) (ownerId : Z) (tailTiles : list Tile) (x y : Z) : Prop :=
  TerritoryMap.getOwner m x y ≠ ownerId ∧ ¬ onThickLoop tailTiles x y.

Definition adjacent (x y x' y' : Z) : Prop :=
  (y' = y ∧ (x' = x - 1 ∨ x' = x + 1)) ∨ (x' = x ∧ (y' = y - 1 ∨ y' = y + 1)).

(** A tile of the box joined to the rim of the box by a four-connected
    path of free tiles of the box. Tiles of the box that are not so are
    enclosed by the loop and the owner's territory. *)
Inductive openTile (m : TerritoryMap) (ownerId : Z) (tailTiles : list Tile) (b : Game.Bounds)
    : Z → Z → Prop :=
| open_rim x y :
    onRim b x y → freeTile m ownerId tailTiles x y → openTile m ownerId tailTiles b x y
| open_step x y x' y' :
    openTile m ownerId tailTiles b x y → adjacent x y x' y' → inBox b x' y' →
    freeTile m ownerId tailTiles x' y' → openTile m ownerId tailTiles b x' y'.

(** The bounding box of the loop: of the tiles of the trail points and
    of the closing position. *)
Definition loopBox (tailTiles : list Tile) (endTile : Tile) : Game.Bounds :=
  Game.tailBounds tailTiles endTile.

(** The box [b1] lies inside the box [b2]. *)
Definition subBox (b1 b2 : Game.Bounds) : Prop :=
  Game.minX b2 <= Game.minX b1 ∧ Game.maxX b1 <= Game.maxX b2 ∧
  Game.minY b2 <= Game.minY b1 ∧ Game.maxY b1 <= Game.maxY b2.

(** The whole grid, as a box. *)
Definition gridBox (m : TerritoryMap) : Game.Bounds :=
  Game.mkBounds 0 (widthTiles m - 1) 0 (heightTiles m - 1).

(** The box [b] grown by [k] tiles on each side. *)
Definition grow (k : Z) (b : Game.Bounds) : Game.Bounds :=
  Game.mkBounds (Game.minX b - k) (Game.maxX b + k) (Game.minY b - k) (Game.maxY b + k).

(** The owner's territory is the filled disk of squared radius [r2]
    around [(cx / s, cy / s)]. *)
Definition isDisk (m : TerritoryMap) (ownerId s cx cy r2 : Z) : Prop :=
  ∀ x y, TerritoryMap.isValidTile m x y = true →
    (TerritoryMap.getOwner m x y = ownerId ↔
     (s * x - cx) * (s * x - cx) + (s * y - cy) * (s * y - cy) <= r2).

(** [isDisk], decided by a pass over the tiles of the grid. *)
Definition isDiskb (m : TerritoryMap) (ownerId s cx cy r2 : Z) : bool :=
  forallb (λ t,
      Bool.eqb (TerritoryMap.getOwner m (tx t) (ty t) =? ownerId)
               ((s * tx t - cx) * (s * tx t - cx) + (s * ty t - cy) * (s * ty t - cy) <=? r2))
    (TerritoryMap.allTiles (widthTiles m) (heightTiles m)).

(** A 16-by-16 grid where owner 1 holds the disk of radius 2 around the
    tile (4,8), and a trail that leaves the disk eastwards, turns
    around the tile (9,8) and comes back to the tile (6,8) of the disk.
    The loop spans the columns 6 to 11 and the rows 5 to 11. *)
Definition diskGrid : TerritoryMap :=
  paint (TerritoryMap.blank 16 16 4) 1
    [(4, 6); (3, 7); (4, 7); (5, 7); (2, 8); (3, 8); (4, 8); (5, 8); (6, 8);
     (3, 9); (4, 9); (5, 9); (4, 10)].

Definition loopTrail : list Vec2.t :=
  [centre 7 7; centre 9 5; centre 11 7; centre 11 9; centre 9 11; centre 7 9].

Definition loopEnd : Vec2.t := centre 6 8.

(** *** Capture: the temporary grid, for the proofs *)

(** The cell of the local grid [G], [W] cells wide, at local coordinates
    [(lx, ly)]. *)
Definition cellAt (G : list Z) (W lx ly : Z) : option Z := readU8 G (ly * W + lx).

Definition inGrid (W H lx ly : Z) : Prop := 0 <= lx < W ∧ 0 <= ly < H.

(** [G'] is [G] with the cells of [S] set to 1 (barrier), and nothing
    else changed. *)
Definition Marks (W H : Z) (G G' : list Z) (S : Z → Z → Prop) : Prop :=
  length G' = length G ∧
  ∀ lx ly, inGrid W H lx ly →
    (S lx ly → cellAt G' W lx ly = Some 1) ∧
    (cellAt G' W lx ly = cellAt G W lx ly ∨ (S lx ly ∧ cellAt G' W lx ly = Some 1)).

(** A cell of the local grid joined to its rim through cells that the
    barrier grid [B] leaves at 0. *)
Inductive openCell (W H : Z) (B : list Z) : Z → Z → Prop :=
| openCell_rim lx ly :
    inGrid W H lx ly → (lx = 0 ∨ lx = W - 1 ∨ ly = 0 ∨ ly = H - 1) →
    cellAt B W lx ly = Some 0 → openCell W H B lx ly
| openCell_step lx ly lx' ly' :
    openCell W H B lx ly → adjacent lx ly lx' ly' → inGrid W H lx' ly' →
    cellAt B W lx' ly' = Some 0 → openCell W H B lx' ly'.

(** The invariant of the flood fill over the barrier grid [B]: barrier
    cells are kept, the other cells are 0 or 2, the queued cells are 2,
    a cell is 2 only if it is open, and a cell that is 2 either is still
    in [active] (queued, or being processed) or has no neighbour left
    at 0. *)
Record FloodInv (W H : Z) (B G : list Z) (pending active : list Z) : Prop := {
  fi_length : length G = length B;
  fi_barrier : ∀ lx ly, inGrid W H lx ly →
    cellAt B W lx ly = Some 1 → cellAt G W lx ly = Some 1;
  fi_free : ∀ lx ly, inGrid W H lx ly →
    cellAt B W lx ly = Some 0 → cellAt G W lx ly = Some 0 ∨ cellAt G W lx ly = Some 2;
  fi_pending : ∀ idx, idx ∈ pending →
    ∃ lx ly, inGrid W H lx ly ∧ idx = ly * W + lx ∧ cellAt G W lx ly = Some 2;
  fi_sound : ∀ lx ly, inGrid W H lx ly →
    cellAt G W lx ly = Some 2 → openCell W H B lx ly;
  fi_closed : ∀ lx ly, inGrid W H lx ly → cellAt G W lx ly = Some 2 →
    ly * W + lx ∈ active ∨
    ∀ lx' ly', adjacent lx ly lx' ly' → inGrid W H lx' ly' → cellAt G W lx' ly' ≠ Some 0;
}.

(** The cells still at 0. *)
Definition zeros (G : list Z) : nat := length (filter (λ v, v = 0) G).

(** ** Notions for the further properties *)

(** Consecutive trail points are at least [tailPointDistance] apart. *)
Definition spaced (tail : list Vec2.t) : Prop :=
  ∀ i a b, tail !! i = Some a → tail !! S i = Some b →
    (sq Player.tailPointDistance <= Vec2.distSq b a)%Q.

(** The three trail fields of a player agree: a player that draws has
    a last trail point, which ends its trail; a player that does not has
    neither trail nor last point. *)
Definition trailInv (p : Player.t) : Prop :=
  spaced (Player.tail p) ∧
  if Player.isDrawingTail p
  then ∃ pt, Player.lastTailPoint p = Some pt ∧ last (Player.tail p) = Some pt
  else Player.tail p = [] ∧ Player.lastTailPoint p = None.

(** The player as [respawnPlayerEntity] leaves it at the point
    [(x, y)], heading at the angle [ang]. *)
Definition respawned (cosF sinF : Q → Q) (p : Player.t) (x y ang : Q) : Player.t :=
  Player.mk (Player.id p) (Player.isBot p) (Vec2.mk x y) (Vec2.mk (cosF ang) (sinF ang))
    (Player.speed p) true ang ang [] false None (Player.kills p) (Player.timeAlive p).

(** The test of the orphan sweep on the tile [(x, y)] of the grid [m]:
    a neutral tile whose four neighbours belong to owner 1 or lie
    outside the grid. *)
Definition isPocket (m : TerritoryMap) (x y : Z) : bool :=
  (TerritoryMap.getOwner m x y =? 0) &&
  Game.isPlayerOrEdge m x (y - 1) && Game.isPlayerOrEdge m x (y + 1) &&
  Game.isPlayerOrEdge m (x - 1) y && Game.isPlayerOrEdge m (x + 1) y.

(** What a pass may still do when it kills nobody: read the clock. *)
Definition quiet (g g' : Game) : Prop :=
  allPlayers g' = allPlayers g ∧ territoryMap g' = territoryMap g ∧
  boostEndTimes g' = boostEndTimes g ∧ boostNotifications g' = boostNotifications g ∧
  killEffects g' = killEffects g ∧ captureQueue g' = captureQueue g ∧
  wasInOwnTerritory g' = wasInOwnTerritory g ∧ difficulty g' = difficulty g ∧
  randomDraws g' = randomDraws g ∧ (clockReads g <= clockReads g')%nat.

(** No two players are in contact. *)
Definition noContact (distance : Vec2.t → Vec2.t → Q) (ps : list Player.t) : Prop :=
  ∀ a v, ¬ contact distance ps a v.

(** What a collision pass can make of a player [p0]: [p1] has its id
    and its position, and if [p1] is alive so was [p0], with the same
    trail. *)
Definition sameFoot (p0 p1 : Player.t) : Prop :=
  Player.id p1 = Player.id p0 ∧ Player.pos p1 = Player.pos p0 ∧
  (Player.alive p1 = true → Player.alive p0 = true ∧ Player.tail p1 = Player.tail p0).

Definition descends (ps ps1 : list Player.t) : Prop :=
  length ps1 = length ps ∧
  ∀ j p1, ps1 !! j = Some p1 → ∃ p0, ps !! j = Some p0 ∧ sameFoot p0 p1.

(** What the evaluation of the other pairs leaves alone, for the
    players at the indices [a] and [v], whose ids are [ida] and [idv]:
    these two players, the tiles that are neutral or belong to one of
    them, and their boosts. *)
Definition spares (a v : nat) (ida idv : Z) (g1 g2 : Game) : Prop :=
  descends (allPlayers g1) (allPlayers g2) ∧
  allPlayers g2 !! a = allPlayers g1 !! a ∧ allPlayers g2 !! v = allPlayers g1 !! v ∧
  (TerritoryMap.wf (territoryMap g1) → TerritoryMap.wf (territoryMap g2)) ∧
  (∀ x y, TerritoryMap.isValidTile (territoryMap g2) x y
          = TerritoryMap.isValidTile (territoryMap g1) x y) ∧
  (∀ x y o, TerritoryMap.isValidTile (territoryMap g1) x y = true →
     TerritoryMap.getOwner (territoryMap g1) x y = o → o = 0 ∨ o = ida ∨ o = idv →
     TerritoryMap.getOwner (territoryMap g2) x y = o) ∧
  boostEndTimes g2 !! ida = boostEndTimes g1 !! ida ∧
  boostEndTimes g2 !! idv = boostEndTimes g1 !! idv ∧
  difficulty g2 = difficulty g1 ∧ (clockReads g1 <= clockReads g2)%nat.

(** The bot of [duelGame] with its trail, and a human out of reach of
    it. *)
Definition standoffGame : Game :=
  gameOf (paint (paint (TerritoryMap.blank 10 10 4) 1 [(0, 0)]) 2 [(9, 9)])
    [playerAt 1 false (2 # 1) (2 # 1); duelVictim] easy.

(* ================================================================== *)
(** * Properties *)
(* ================================================================== *)

(** ** The tile grid *)

Section TerritoryMapFacts.
Import TerritoryMap.

Lemma orElse_zero o : orElse o 0 = default 0 o.
Proof. destruct o as [v|]; simpl; [|done]. destruct (Z.eqb_spec v 0); lia. Qed.

Lemma isValidTile_spec m x y :
  isValidTile m x y = true ↔ 0 <= x < widthTiles m ∧ 0 <= y < heightTiles m.
Proof. unfold isValidTile. rewrite !andb_true_iff. lia. Qed.

Lemma index_range m x y :
  isValidTile m x y = true →
  0 <= y * widthTiles m + x < widthTiles m * heightTiles m.
Proof.
  rewrite isValidTile_spec. intros [Hx Hy].
  assert (0 <= y * widthTiles m) by nia.
  assert ((y + 1) * widthTiles m <= heightTiles m * widthTiles m) by nia.
  lia.
Qed.

Lemma index_inj m x y x' y' :
  isValidTile m x y = true → isValidTile m x' y' = true →
  y * widthTiles m + x = y' * widthTiles m + x' → x = x' ∧ y = y'.
Proof.
  rewrite !isValidTile_spec. intros [Hx Hy] [Hx' Hy'] Heq.
  assert (y = y') as -> by nia. lia.
Qed.

Lemma cell_valid m x y :
  wf m → isValidTile m x y = true →
  ∃ v, ownerMap m !! Z.to_nat (y * widthTiles m + x) = Some v ∧ 0 <= v < 256.
Proof.
  intros Hwf Hv. pose proof (index_range _ _ _ Hv) as Hr.
  destruct (lookup_lt_is_Some_2 (ownerMap m) (Z.to_nat (y * widthTiles m + x))) as [v Hl].
  { rewrite (wf_length _ Hwf). lia. }
  exists v. split; [done|].
  by apply (Forall_lookup_1 _ _ _ _ (wf_bytes _ Hwf) Hl).
Qed.

Lemma getOwner_range m x y :
  wf m → isValidTile m x y = true → 0 <= getOwner m x y < 256.
Proof.
  intros Hwf Hv. unfold getOwner, cell. rewrite Hv. simpl.
  destruct (cell_valid _ _ _ Hwf Hv) as (v & -> & ?). done.
Qed.

Lemma toUint8_range v : 0 <= toUint8 v < 256.
Proof. unfold toUint8. apply Z.mod_pos_bound. lia. Qed.

Lemma toUint8_small v : 0 <= v < 256 → toUint8 v = v.
Proof. unfold toUint8. intros. by apply Z.mod_small. Qed.

Lemma setOwner_dims m x y o :
  widthTiles (setOwner m x y o) = widthTiles m ∧
  heightTiles (setOwner m x y o) = heightTiles m ∧
  tileSize (setOwner m x y o) = tileSize m.
Proof. unfold setOwner. repeat case_match; done. Qed.

Lemma setOwner_isValidTile m x y o x' y' :
  isValidTile (setOwner m x y o) x' y' = isValidTile m x' y'.
Proof.
  unfold isValidTile. destruct (setOwner_dims m x y o) as (-> & -> & _). done.
Qed.

Lemma setOwner_wf m x y o : wf m → wf (setOwner m x y o).
Proof.
  intros [Hw Hh Hl Hb]. unfold setOwner. repeat case_match; try (by constructor).
  all: constructor; simpl; try done.
  all: try (by rewrite length_insert).
  all: apply Forall_insert; [done | apply toUint8_range].
Qed.

Lemma getOwner_setOwner_other m x y o x' y' :
  (x', y') ≠ (x, y) → getOwner (setOwner m x y o) x' y' = getOwner m x' y'.
Proof.
  intros Hne. unfold getOwner. rewrite setOwner_isValidTile.
  destruct (isValidTile m x' y') eqn:Hv'; simpl; [|done].
  unfold setOwner. destruct (isValidTile m x y) eqn:Hv; simpl; [|done].
  case_match; [done|]. unfold cell; simpl.
  rewrite list_lookup_insert_ne; [done|].
  pose proof (index_range _ _ _ Hv). pose proof (index_range _ _ _ Hv').
  intros Heq. apply Hne.
  destruct (index_inj m x' y' x y Hv' Hv) as [-> ->]; [lia|done].
Qed.

Lemma getOwner_setOwner_same m x y o :
  wf m → isValidTile m x y = true →
  getOwner (setOwner m x y o) x y = toUint8 o.
Proof.
  intros Hwf Hv. unfold getOwner. rewrite setOwner_isValidTile, Hv. simpl.
  destruct (cell_valid _ _ _ Hwf Hv) as (v & Hl & Hr).
  assert (cell m (y * widthTiles m + x) = v) as Hc by (unfold cell; by rewrite Hl).
  unfold setOwner. rewrite Hv, Hc. simpl.
  destruct (Z.eqb_spec v o) as [->|Hne].
  - rewrite Hc. by rewrite toUint8_small.
  - unfold cell. simpl. rewrite list_lookup_insert_eq; [done|].
    by eapply lookup_lt_Some.
Qed.

Lemma blank_wf w h ts : 0 <= w → 0 <= h → wf (blank w h ts).
Proof.
  intros Hw Hh. constructor; unfold blank; cbn [ownerMap widthTiles heightTiles].
  - done.
  - done.
  - apply length_replicate.
  - apply Forall_replicate. lia.
Qed.

Lemma new_wf : wf new.
Proof. apply blank_wf; unfold gameConfig.arena_widthTiles, gameConfig.arena_heightTiles; lia. Qed.

Lemma rescan_out_of_range m k :
  Forall (λ v, 0 <= v < 256) (ownerMap m) → ¬ (0 <= k < 256) → rescan m k = 0.
Proof.
  intros Hb Hk. unfold rescan.
  replace (filter (λ v, v = k) (ownerMap m)) with (@nil Z); [done|].
  symmetry. induction Hb as [|v l Hv Hb IH]; [done|].
  rewrite filter_cons. destruct (decide (v = k)); [lia|done].
Qed.

Lemma setOwner_count_new m x y o :
  isValidTile m x y = true → 0 < o → cell m (y * widthTiles m + x) ≠ o →
  countOwnedTiles (setOwner m x y o) o = countOwnedTiles m o + 1.
Proof.
  intros Hv Ho Hne. unfold countOwnedTiles, setOwner. rewrite Hv. simpl.
  destruct (Z.eqb_spec (cell m (y * widthTiles m + x)) o); [done|].
  destruct (Z.ltb_spec 0 o); [|lia]. simpl.
  rewrite lookup_insert_eq.
  assert ((if 0 <? cell m (y * widthTiles m + x)
           then <[cell m (y * widthTiles m + x) :=
                    orElse (tileCounts m !! cell m (y * widthTiles m + x)) 1 - 1]> (tileCounts m)
           else tileCounts m) !! o = tileCounts m !! o) as ->.
  { case_match; [|done]. by rewrite lookup_insert_ne. }
  unfold orElse at 1. case_match; lia.
Qed.

(** C8: for every out-of-bounds tile coordinate, the ownership query
    returns the sentinel -1 (the function is total: no exception), and an
    ownership write leaves the grid contents and the cached per-owner
    counts unchanged. *)
Theorem out_of_bounds_is_inert m x y o :
  isValidTile m x y = false →
  getOwner m x y = -1 ∧
  ownerMap (setOwner m x y o) = ownerMap m ∧
  tileCounts (setOwner m x y o) = tileCounts m ∧
  (∀ k, countOwnedTiles (setOwner m x y o) k = countOwnedTiles m k).
Proof.
  intros Hv. unfold getOwner, setOwner, countOwnedTiles. rewrite Hv. simpl. done.
Qed.

Lemma out_of_bounds_is_inert_witness :
  isValidTile new 500 0 = false ∧
  getOwner new 500 0 = -1 ∧
  ownerMap (setOwner new 500 0 7) = ownerMap new ∧
  tileCounts (setOwner new 500 0 7) = tileCounts new ∧
  (∀ k, countOwnedTiles (setOwner new 500 0 7) k = countOwnedTiles new k).
Proof. split; [reflexivity|]. apply (out_of_bounds_is_inert new 500 0 7). reflexivity. Defined.

(** C10: the grid stores owner ids modulo 256. For an in-bounds tile and
    an owner id of 256 or more, [setOwner] followed by [getOwner] gives
    the id modulo 256, the cached count of the full id goes up by one,
    and no cell holds the full id, so the cache and a rescan disagree for
    that id (whenever its cached count was not negative); for an id in
    0..255 the stored id is the given id. *)
Theorem owner_id_stored_modulo_256 m x y o :
  wf m → isValidTile m x y = true →
  (256 <= o →
     getOwner (setOwner m x y o) x y = o mod 256 ∧
     countOwnedTiles (setOwner m x y o) o = countOwnedTiles m o + 1 ∧
     rescan (setOwner m x y o) o = 0 ∧
     (0 <= countOwnedTiles m o →
      countOwnedTiles (setOwner m x y o) o ≠ rescan (setOwner m x y o) o)) ∧
  (0 <= o <= 255 → getOwner (setOwner m x y o) x y = o).
Proof.
  intros Hwf Hv. split.
  - intros Ho.
    assert (countOwnedTiles (setOwner m x y o) o = countOwnedTiles m o + 1) as Hc.
    { apply setOwner_count_new; [done|lia|].
      destruct (cell_valid _ _ _ Hwf Hv) as (v & Hl & Hr).
      unfold cell. rewrite Hl. simpl. lia. }
    assert (rescan (setOwner m x y o) o = 0) as Hr.
    { apply rescan_out_of_range; [|lia]. apply (wf_bytes _ (setOwner_wf _ x y o Hwf)). }
    split; [by apply getOwner_setOwner_same|].
    split; [done|]. split; [done|]. rewrite Hc, Hr. lia.
  - intros Ho. rewrite getOwner_setOwner_same by done. apply toUint8_small. lia.
Qed.

Lemma owner_id_stored_modulo_256_witness :
  wf new ∧ isValidTile new 3 4 = true ∧
  (256 <= 257 →
     getOwner (setOwner new 3 4 257) 3 4 = 257 mod 256 ∧
     countOwnedTiles (setOwner new 3 4 257) 257 = countOwnedTiles new 257 + 1 ∧
     rescan (setOwner new 3 4 257) 257 = 0 ∧
     (0 <= countOwnedTiles new 257 →
      countOwnedTiles (setOwner new 3 4 257) 257 ≠ rescan (setOwner new 3 4 257) 257)) ∧
  (0 <= 257 <= 255 → getOwner (setOwner new 3 4 257) 3 4 = 257).
Proof.
  split; [apply new_wf|]. split; [reflexivity|].
  apply (owner_id_stored_modulo_256 new 3 4 257).
  - apply new_wf.
  - reflexivity.
Defined.

(** *** Bulk transfer *)

Lemma getOwner_ext m m' x y :
  ownerMap m = ownerMap m' → widthTiles m = widthTiles m' →
  heightTiles m = heightTiles m' → getOwner m x y = getOwner m' x y.
Proof.
  intros Ho Hw Hh. unfold getOwner, cell, isValidTile. by rewrite Ho, Hw, Hh.
Qed.

Lemma rescan_zero_Forall m k : rescan m k = 0 → Forall (λ v, v ≠ k) (ownerMap m).
Proof.
  unfold rescan. intros H. apply Forall_forall. intros v Hin Heq.
  assert (v ∈ filter (λ v, v = k) (ownerMap m)) as Hf by (by apply list_elem_of_filter).
  destruct (filter (λ v, v = k) (ownerMap m)); [by apply not_elem_of_nil in Hf|].
  simpl in H. lia.
Qed.

Lemma transferTerritory_isValidTile m a b x y :
  isValidTile (transferTerritory m a b) x y = isValidTile m x y.
Proof. done. Qed.

Lemma getOwner_transferTerritory m a b x y :
  isValidTile m x y = true → wf m →
  getOwner (transferTerritory m a b) x y =
  if getOwner m x y =? a then toUint8 b else getOwner m x y.
Proof.
  intros Hv Hwf. unfold getOwner. rewrite transferTerritory_isValidTile, Hv. simpl.
  destruct (cell_valid _ _ _ Hwf Hv) as (v & Hl & Hr).
  unfold cell, transferTerritory. simpl. rewrite list_lookup_fmap, Hl. done.
Qed.

Lemma getOwner_clearOwnerTerritory m o x y :
  wf m → isValidTile m x y = true →
  getOwner (clearOwnerTerritory m o) x y = if getOwner m x y =? o then 0 else getOwner m x y.
Proof.
  intros Hwf Hv. unfold getOwner.
  change (isValidTile (clearOwnerTerritory m o) x y) with (isValidTile m x y).
  rewrite Hv. simpl.
  destruct (cell_valid _ _ _ Hwf Hv) as (v & Hl & Hr).
  unfold cell, clearOwnerTerritory. simpl. rewrite list_lookup_fmap, Hl. done.
Qed.

(** C2, refuted as stated: on [twoOwners], after [transferTerritory(1,2)]
    and [transferTerritory(2,1)] owner 1 also holds tile (1,0), which it
    did not hold before. *)
Lemma transfer_round_trip_counterexample :
  ¬ (∀ t, owns (transferTerritory (transferTerritory twoOwners 1 2) 2 1) 1 t ↔
          owns twoOwners 1 t).
Proof.
  intros H. specialize (H (mkTile 1 0)). destruct H as [H _].
  assert (owns twoOwners 1 (mkTile 1 0)) as Hbad by (apply H; reflexivity).
  vm_compute in Hbad. discriminate.
Qed.

(** C2, amended: for owner ids [a] and [b] that fit a grid cell, when [b]
    holds no tile beforehand (or [b] is [a] itself),
    [transferTerritory(a,b)] followed by [transferTerritory(b,a)] restores
    the whole grid, hence the tile set of [a] exactly. *)
Theorem transfer_round_trip m a b :
  0 <= a < 256 → 0 <= b < 256 → a = b ∨ rescan m b = 0 →
  ownerMap (transferTerritory (transferTerritory m a b) b a) = ownerMap m ∧
  (∀ t, owns (transferTerritory (transferTerritory m a b) b a) a t ↔ owns m a t).
Proof.
  intros Ha Hb Hfree.
  assert (ownerMap (transferTerritory (transferTerritory m a b) b a) = ownerMap m) as Heq.
  { unfold transferTerritory. simpl. rewrite <- list_fmap_compose.
    rewrite <- (list_fmap_id (ownerMap m)) at 2.
    apply Forall_fmap_ext. 
    assert (Forall (λ v, v = a ∨ v ≠ b) (ownerMap m)) as Hall.
    { destruct Hfree as [->|Hz].
      - apply Forall_forall. intros v _. destruct (decide (v = b)); auto.
      - eapply Forall_impl; [by apply rescan_zero_Forall|]. simpl. auto. }
    eapply Forall_impl; [exact Hall|]. intros v Hv. simpl.
    rewrite !toUint8_small by done.
    destruct (Z.eqb_spec v a) as [->|Hne].
    - by rewrite Z.eqb_refl.
    - destruct (Z.eqb_spec v b); [|done]. destruct Hv; done. }
  split; [done|]. intros t. unfold owns.
  by rewrite (getOwner_ext _ m).
Qed.

Lemma transfer_round_trip_witness :
  0 <= 1 < 256 ∧ 0 <= 2 < 256 ∧ (1 = 2 ∨ rescan (setOwner (blank 2 1 4) 0 0 1) 2 = 0) ∧
  ownerMap (transferTerritory (transferTerritory (setOwner (blank 2 1 4) 0 0 1) 1 2) 2 1)
    = ownerMap (setOwner (blank 2 1 4) 0 0 1) ∧
  (∀ t, owns (transferTerritory (transferTerritory (setOwner (blank 2 1 4) 0 0 1) 1 2) 2 1) 1 t ↔
        owns (setOwner (blank 2 1 4) 0 0 1) 1 t).
Proof.
  split; [lia|]. split; [lia|]. split; [right; reflexivity|].
  apply (transfer_round_trip (setOwner (blank 2 1 4) 0 0 1) 1 2); [lia | lia | right; reflexivity].
Defined.

(** *** The cache of per-owner counts *)

Lemma filter_eq_insert (l : list Z) i old o k :
  l !! i = Some old →
  Z.of_nat (length (filter (λ v, v = k) (<[i:=o]> l))) + (if decide (old = k) then 1 else 0)
  = Z.of_nat (length (filter (λ v, v = k) l)) + (if decide (o = k) then 1 else 0).
Proof.
  revert i. induction l as [|a l IH]; intros i Hl; [done|].
  destruct i as [|i]; simpl in *.
  - injection Hl as ->. rewrite !filter_cons.
    destruct (decide (old = k)), (decide (o = k)); simpl; lia.
  - specialize (IH i Hl). rewrite !filter_cons.
    destruct (decide (a = k)); simpl; lia.
Qed.

Lemma filter_eq_fmap (l : list Z) (g : Z → Z) k :
  Z.of_nat (length (filter (λ v, v = k) (g <$> l)))
  = Z.of_nat (length (filter (λ v, g v = k) l)).
Proof.
  induction l as [|a l IH]; [done|]. rewrite fmap_cons, !filter_cons.
  destruct (decide (g a = k)); simpl; lia.
Qed.

Lemma filter_length_split (l : list Z) (P Q R : Z → Prop)
    `{∀ v, Decision (P v)} `{∀ v, Decision (Q v)} `{∀ v, Decision (R v)} :
  (∀ v, P v ↔ (Q v ∨ R v)) → (∀ v, Q v → R v → False) →
  Z.of_nat (length (filter P l))
  = Z.of_nat (length (filter Q l)) + Z.of_nat (length (filter R l)).
Proof.
  intros Hiff Hdisj. induction l as [|a l IH]; [done|]. rewrite !filter_cons.
  destruct (decide (P a)) as [Hp|Hp], (decide (Q a)) as [Hq|Hq], (decide (R a)) as [Hr|Hr];
    simpl; try lia.
  - exfalso; eauto.
  - exfalso. apply Hiff in Hp. tauto.
  - exfalso. apply Hp, Hiff. auto.
  - exfalso. apply Hp, Hiff. auto.
  - exfalso. apply Hp, Hiff. auto.
Qed.

Lemma filter_length_ext (l : list Z) (P Q : Z → Prop)
    `{∀ v, Decision (P v)} `{∀ v, Decision (Q v)} :
  (∀ v, P v ↔ Q v) →
  Z.of_nat (length (filter P l)) = Z.of_nat (length (filter Q l)).
Proof.
  intros Hiff. induction l as [|a l IH]; [done|]. rewrite !filter_cons.
  destruct (decide (P a)) as [Hp|Hp], (decide (Q a)) as [Hq|Hq]; simpl; try lia.
  - exfalso. apply Hq, Hiff, Hp.
  - exfalso. apply Hp, Hiff, Hq.
Qed.

Lemma filter_length_none (l : list Z) (P : Z → Prop) `{∀ v, Decision (P v)} :
  (∀ v, ¬ P v) → Z.of_nat (length (filter P l)) = 0.
Proof.
  intros Hn. induction l as [|a l IH]; [done|]. rewrite filter_cons.
  destruct (decide (P a)); [by exfalso; eapply Hn|done].
Qed.

Lemma rescan_nonneg m k : 0 <= rescan m k.
Proof. unfold rescan. lia. Qed.

Lemma rescan_pos m i k : ownerMap m !! i = Some k → 0 < rescan m k.
Proof.
  intros Hl. unfold rescan.
  assert (k ∈ filter (λ v, v = k) (ownerMap m)) as Hin.
  { apply list_elem_of_filter. split; [done|]. by eapply list_elem_of_lookup_2. }
  destruct (filter (λ v, v = k) (ownerMap m)); [by apply not_elem_of_nil in Hin|].
  simpl. lia.
Qed.

Lemma cacheCorrect_lookup m k v :
  cacheCorrect m → tileCounts m !! k = Some v → v = if 0 <? k then rescan m k else 0.
Proof.
  intros Hc Hl. specialize (Hc k). unfold countOwnedTiles in Hc. rewrite Hl in Hc.
  simpl in Hc. destruct (Z.eqb_spec v 0); lia.
Qed.

Lemma setOwner_cacheCorrect m x y o :
  wf m → cacheCorrect m → 0 <= o < 256 → cacheCorrect (setOwner m x y o).
Proof.
  intros Hwf Hc Ho k. unfold setOwner.
  destruct (isValidTile m x y) eqn:Hv; simpl; [|apply Hc].
  destruct (cell_valid _ _ _ Hwf Hv) as (old & Hl & Hr).
  assert (cell m (y * widthTiles m + x) = old) as Hcell by (unfold cell; by rewrite Hl).
  rewrite Hcell. destruct (Z.eqb_spec old o) as [->|Hne]; [apply Hc|].
  unfold countOwnedTiles, rescan. simpl.
  pose proof (filter_eq_insert (ownerMap m) _ old (toUint8 o) k Hl) as Hf.
  rewrite toUint8_small in Hf by done. rewrite toUint8_small by done.
  pose proof (Hc k) as Hk. pose proof (Hc old) as Hold. pose proof (Hc o) as Hnew.
  unfold countOwnedTiles, rescan in Hk, Hold, Hnew.
  pose proof (rescan_pos m _ _ Hl) as Hpos. unfold rescan in Hpos.
  destruct (Z.ltb_spec 0 old) as [Hop|Hop], (Z.ltb_spec 0 o) as [Hnp|Hnp].
  - destruct (decide (k = o)) as [->|Hko].
    + rewrite lookup_insert_eq, lookup_insert_ne by done.
      destruct (decide (old = o)); [done|]. destruct (decide (o = o)); [|done].
      destruct (Z.ltb_spec 0 o); [|lia].
      unfold orElse at 1. case_match; lia.
    + rewrite lookup_insert_ne by done.
      destruct (decide (k = old)) as [->|Hkold].
      * rewrite lookup_insert_eq.
        destruct (decide (old = old)); [|done]. destruct (decide (o = old)); [done|].
        destruct (Z.ltb_spec 0 old); [|lia].
        destruct (tileCounts m !! old) as [v|] eqn:Hlk; simpl in *.
        -- destruct (Z.eqb_spec v 0); [lia|]. destruct (Z.eqb_spec (v - 1) 0); lia.
        -- lia.
      * rewrite lookup_insert_ne by done.
        destruct (decide (old = k)); [done|]. destruct (decide (o = k)); [done|].
        rewrite Hk. case_match; lia.
  - assert (o = 0) as -> by lia.
    destruct (decide (k = old)) as [->|Hkold].
    + rewrite lookup_insert_eq.
      destruct (decide (old = old)); [|done]. destruct (decide (0 = old)); [lia|].
      destruct (Z.ltb_spec 0 old); [|lia].
      destruct (tileCounts m !! old) as [v|] eqn:Hlk; simpl in *.
      * destruct (Z.eqb_spec v 0); [lia|]. destruct (Z.eqb_spec (v - 1) 0); lia.
      * lia.
    + rewrite lookup_insert_ne by done.
      destruct (decide (old = k)); [done|]. rewrite Hk.
      destruct (Z.ltb_spec 0 k); [|done]. destruct (decide (0 = k)); lia.
  - assert (old = 0) as -> by lia.
    destruct (decide (k = o)) as [->|Hko].
    + rewrite lookup_insert_eq.
      destruct (decide (0 = o)); [lia|]. destruct (decide (o = o)); [|done].
      destruct (Z.ltb_spec 0 o); [|lia].
      unfold orElse at 1. case_match; lia.
    + rewrite lookup_insert_ne by done.
      destruct (decide (o = k)); [done|]. rewrite Hk.
      destruct (Z.ltb_spec 0 k); [|done]. destruct (decide (0 = k)); lia.
  - lia.
Qed.

Lemma clearOwnerTerritory_cacheCorrect m o :
  cacheCorrect m → 0 < o → cacheCorrect (clearOwnerTerritory m o).
Proof.
  intros Hc Ho k. unfold countOwnedTiles, rescan, clearOwnerTerritory. simpl.
  rewrite filter_eq_fmap.
  destruct (decide (k = o)) as [->|Hko].
  - rewrite lookup_insert_eq. simpl. destruct (Z.ltb_spec 0 o); [|lia].
    symmetry. apply filter_length_none. intros v. destruct (Z.eqb_spec v o); lia.
  - rewrite lookup_insert_ne by done. specialize (Hc k).
    unfold countOwnedTiles, rescan in Hc. rewrite Hc.
    destruct (Z.ltb_spec 0 k); [|done].
    apply filter_length_ext. intros v. destruct (Z.eqb_spec v o); lia.
Qed.

Lemma transferTerritory_cacheCorrect m f t :
  cacheCorrect m → 0 < f < 256 → 0 < t < 256 → f ≠ t →
  cacheCorrect (transferTerritory m f t).
Proof.
  intros Hc Hf Ht Hne k. unfold countOwnedTiles, rescan, transferTerritory. simpl.
  rewrite filter_eq_fmap, toUint8_small by lia.
  pose proof (Hc k) as Hk. pose proof (Hc f) as Hcf. pose proof (Hc t) as Hct.
  unfold countOwnedTiles, rescan in Hk, Hcf, Hct.
  destruct (Z.ltb_spec 0 f); [|lia]. destruct (Z.ltb_spec 0 t); [|lia].
  destruct (decide (k = f)) as [->|Hkf].
  - rewrite lookup_insert_eq. simpl. destruct (Z.ltb_spec 0 f); [|lia].
    symmetry. apply filter_length_none. intros v. destruct (Z.eqb_spec v f); lia.
  - rewrite lookup_insert_ne by done.
    destruct (decide (k = t)) as [->|Hkt].
    + rewrite lookup_insert_eq. destruct (Z.ltb_spec 0 t); [|lia].
      rewrite Hcf, Hct.
      rewrite (filter_length_split (ownerMap m) (λ v, (if v =? f then t else v) = t)
                 (λ v, v = t) (λ v, v = f)).
      * unfold orElse. case_match; lia.
      * intros v. destruct (Z.eqb_spec v f); lia.
      * intros v. lia.
    + rewrite lookup_insert_ne by done. rewrite Hk.
      destruct (Z.ltb_spec 0 k); [|done].
      apply filter_length_ext. intros v. destruct (Z.eqb_spec v f); lia.
Qed.

Lemma clearOwnerTerritory_wf m o : wf m → wf (clearOwnerTerritory m o).
Proof.
  intros [Hw Hh Hl Hb]. constructor; simpl; try done.
  - by rewrite length_fmap.
  - apply Forall_fmap. eapply Forall_impl; [exact Hb|]. intros v Hv. simpl in *.
    case_match; lia.
Qed.

Lemma transferTerritory_wf m f t : wf m → wf (transferTerritory m f t).
Proof.
  intros [Hw Hh Hl Hb]. constructor; simpl; try done.
  - by rewrite length_fmap.
  - apply Forall_fmap. eapply Forall_impl; [exact Hb|]. intros v Hv. simpl in *.
    case_match; [apply toUint8_range|lia].
Qed.

Lemma sum_fold_insert (c : gmap Z Z) i x :
  c !! i = None →
  map_fold (λ _ v acc, v + acc) 0 (<[i:=x]> c) = x + map_fold (λ _ v acc, v + acc) 0 c.
Proof.
  intros Hi. rewrite map_fold_insert_L; [done| |done]. intros. lia.
Qed.

Lemma sum_counts_bound (c : gmap Z Z) (l : list Z) :
  (∀ k v, c !! k = Some v → v <= Z.of_nat (length (filter (λ w, w = k) l))) →
  map_fold (λ _ v acc, v + acc) 0 c <= Z.of_nat (length (filter (λ w, w ∈ dom c) l)).
Proof.
  induction c as [|i x c Hi IH] using map_ind; intros Hle.
  - rewrite map_fold_empty. lia.
  - rewrite sum_fold_insert by done.
    assert (x <= Z.of_nat (length (filter (λ w, w = i) l))) as Hx.
    { apply Hle. by rewrite lookup_insert_eq. }
    assert (map_fold (λ _ v acc, v + acc) 0 c
            <= Z.of_nat (length (filter (λ w, w ∈ dom c) l))) as Hc.
    { apply IH. intros k v Hk. apply Hle. rewrite lookup_insert_ne; [done|].
      intros ->. congruence. }
    rewrite (filter_length_split l (λ w, w ∈ dom (<[i:=x]> c)) (λ w, w = i) (λ w, w ∈ dom c)).
    + lia.
    + intros v. rewrite dom_insert_L. set_solver.
    + intros v -> Hin. apply elem_of_dom in Hin. rewrite Hi in Hin. by destruct Hin.
Qed.

Lemma cacheCorrect_sum m : wf m → cacheCorrect m → sumCounts m <= getTotalTiles m.
Proof.
  intros Hwf Hc. unfold sumCounts, getTotalTiles.
  etrans; [apply (sum_counts_bound _ (ownerMap m))|].
  - intros k v Hl. rewrite (cacheCorrect_lookup _ _ _ Hc Hl).
    case_match; [unfold rescan|]; lia.
  - pose proof (length_filter (λ w, w ∈ dom (tileCounts m)) (ownerMap m)) as Hlen.
    rewrite (wf_length _ Hwf) in Hlen.
    pose proof (wf_width _ Hwf). pose proof (wf_height _ Hwf). nia.
Qed.

Lemma applyMutation_invariant m mu :
  distinctMutation mu → wf m ∧ cacheCorrect m →
  wf (applyMutation m mu) ∧ cacheCorrect (applyMutation m mu).
Proof.
  intros Hmu [Hwf Hc]. destruct mu as [x y o|f t|o]; simpl in *.
  - split; [by apply setOwner_wf | by apply setOwner_cacheCorrect].
  - destruct Hmu as (? & ? & ?).
    split; [by apply transferTerritory_wf | by apply transferTerritory_cacheCorrect].
  - split; [by apply clearOwnerTerritory_wf | apply clearOwnerTerritory_cacheCorrect; [done|lia]].
Qed.

(** C3, refuted as stated: on a fresh grid of two tiles, [setOwner]
    of tile (0,0) to owner 1 followed by [transferTerritory(1,1)], both
    with ids in the valid range, leaves owner 1 its tile but sets its
    cached count to 0, which is not what a rescan finds. *)
Lemma cache_invariant_counterexample :
  ¬ (∀ mus, Forall validMutation mus →
       cacheCorrect (foldl applyMutation (blank 2 1 4) mus) ∧
       sumCounts (foldl applyMutation (blank 2 1 4) mus)
       <= getTotalTiles (foldl applyMutation (blank 2 1 4) mus)).
Proof.
  intros H. destruct (H [MSetOwner 0 0 1; MTransfer 1 1]) as [Hc _].
  { repeat constructor; cbn; lia. }
  specialize (Hc 1). vm_compute in Hc. discriminate Hc.
Qed.

(** C3, amended: after any sequence of [setOwner], [clearOwnerTerritory]
    and [transferTerritory] calls with owner ids in the valid range in
    which every transfer names two different owners, on a well-formed
    grid whose cached counts were correct, every cached count equals the
    count of a full rescan and the cached counts sum to at most the
    number of tiles. *)
Theorem cache_invariant_distinct_transfers m mus :
  wf m → cacheCorrect m → Forall distinctMutation mus →
  cacheCorrect (foldl applyMutation m mus) ∧
  sumCounts (foldl applyMutation m mus) <= getTotalTiles (foldl applyMutation m mus).
Proof.
  intros Hwf Hc Hall.
  assert (wf (foldl applyMutation m mus) ∧ cacheCorrect (foldl applyMutation m mus)) as [? ?].
  { revert m Hwf Hc. induction Hall as [|mu mus Hmu Hall IH]; intros m Hwf Hc; simpl; [done|].
    destruct (applyMutation_invariant m mu Hmu (conj Hwf Hc)). by apply IH. }
  split; [done|]. by apply cacheCorrect_sum.
Qed.

Lemma blank_cacheCorrect w h ts : cacheCorrect (blank w h ts).
Proof.
  intros k. unfold countOwnedTiles, rescan, blank. simpl. rewrite lookup_empty. simpl.
  destruct (Z.ltb_spec 0 k); [|done].
  symmetry. generalize (Z.to_nat (w * h)). intros n. induction n as [|n IH]; [done|].
  simpl. rewrite filter_cons. destruct (decide (0 = k)); [lia|done].
Qed.

(** What a transfer of an owner to itself does, which the game never
    asks for (the collision pass skips a pair with equal ids): it leaves
    the owner's tiles in place but zeroes its cached count, so after
    [transferTerritory(a,a)] the cached count of an owner with at least
    one tile differs from the rescan, although the cache was correct
    before. *)
Theorem self_transfer_breaks_cache m a :
  0 < a < 256 → cacheCorrect m → 0 < rescan m a →
  countOwnedTiles (transferTerritory m a a) a = 0 ∧
  rescan (transferTerritory m a a) a = rescan m a ∧
  countOwnedTiles (transferTerritory m a a) a ≠ rescan (transferTerritory m a a) a.
Proof.
  intros Ha Hc Hpos.
  assert (countOwnedTiles (transferTerritory m a a) a = 0) as H0.
  { unfold countOwnedTiles, transferTerritory. simpl. by rewrite lookup_insert_eq. }
  assert (rescan (transferTerritory m a a) a = rescan m a) as Hr.
  { unfold rescan, transferTerritory. simpl. rewrite filter_eq_fmap.
    apply filter_length_ext. intros v. rewrite toUint8_small by lia.
    destruct (Z.eqb_spec v a); lia. }
  split; [done|]. split; [done|]. rewrite H0, Hr. lia.
Qed.

Lemma self_transfer_breaks_cache_witness :
  0 < 1 < 256 ∧ cacheCorrect (setOwner new 0 0 1) ∧ 0 < rescan (setOwner new 0 0 1) 1 ∧
  countOwnedTiles (transferTerritory (setOwner new 0 0 1) 1 1) 1 = 0 ∧
  rescan (transferTerritory (setOwner new 0 0 1) 1 1) 1 = rescan (setOwner new 0 0 1) 1 ∧
  countOwnedTiles (transferTerritory (setOwner new 0 0 1) 1 1) 1
    ≠ rescan (transferTerritory (setOwner new 0 0 1) 1 1) 1.
Proof.
  assert (cacheCorrect (setOwner new 0 0 1)) as Hc.
  { apply setOwner_cacheCorrect; [apply new_wf | apply blank_cacheCorrect | lia]. }
  assert (0 < rescan (setOwner new 0 0 1) 1) as Hp.
  { apply (rescan_pos _ 0%nat). reflexivity. }
  split; [lia|]. split; [exact Hc|]. split; [exact Hp|].
  apply (self_transfer_breaks_cache (setOwner new 0 0 1) 1); [lia | exact Hc | exact Hp].
Defined.

Lemma cache_invariant_distinct_transfers_witness :
  let m := blank 2 1 4 in
  let mus := [MSetOwner 0 0 1; MSetOwner 1 0 2; MTransfer 1 2; MClear 2] in
  (wf m ∧ cacheCorrect m ∧ Forall distinctMutation mus) ∧
  cacheCorrect (foldl applyMutation m mus) ∧
  sumCounts (foldl applyMutation m mus) <= getTotalTiles (foldl applyMutation m mus).
Proof.
  assert (wf (blank 2 1 4)) as Hwf by (apply blank_wf; lia).
  assert (Forall distinctMutation [MSetOwner 0 0 1; MSetOwner 1 0 2; MTransfer 1 2; MClear 2])
    as Hall by (repeat constructor; cbn; lia).
  split; [split_and!; [exact Hwf|apply blank_cacheCorrect|exact Hall]|].
  apply (cache_invariant_distinct_transfers (blank 2 1 4)
           [MSetOwner 0 0 1; MSetOwner 1 0 2; MTransfer 1 2; MClear 2] Hwf);
    [apply blank_cacheCorrect|exact Hall].
Defined.

End TerritoryMapFacts.

(** ** Rational comparisons *)

Lemma Qltb_lt a b : Qltb a b = true ↔ (a < b)%Q.
Proof.
  unfold Qltb. rewrite Qlt_alt. destruct (a ?= b)%Q; split; congruence.
Qed.

Lemma Qltb_ge a b : Qltb a b = false ↔ (b <= a)%Q.
Proof.
  rewrite <- not_true_iff_false, Qltb_lt. split.
  - apply Qnot_lt_le.
  - apply Qle_not_lt.
Qed.

Lemma Qleb_le a b : Qleb a b = true ↔ (a <= b)%Q.
Proof. apply Qle_bool_iff. Qed.

(** ** Motion and the arena walls *)

Section WallFacts.
Variable clock : nat → Q.
Variable random : nat → Q.
Variable PI : Q.
Variables cosF sinF : Q → Q.

Lemma clamp_bounds lo hi v : (lo <= hi)%Q → (lo <= Player.clamp lo hi v <= hi)%Q.
Proof.
  intros Hle. unfold Player.clamp. split.
  - apply Q.le_max_l.
  - apply Q.max_lub; [done|]. apply Q.le_min_l.
Qed.

Lemma update_position_clamped p dt :
  Player.alive p = true →
  let p' := Player.update PI cosF sinF p dt in
  (2 <= Vec2.x (Player.pos p') <= inject_Z derivedConfig.arenaWidthPx - 2)%Q ∧
  (2 <= Vec2.y (Player.pos p') <= inject_Z derivedConfig.arenaHeightPx - 2)%Q.
Proof.
  intros Ha. unfold Player.update. rewrite Ha. simpl.
  split; apply clamp_bounds; unfold Player.edgeMargin; done.
Qed.

Lemma update_not_hitsWall p dt :
  Player.alive p = true → Game.hitsWall (Player.update PI cosF sinF p dt) = false.
Proof.
  intros Ha. destruct (update_position_clamped p dt Ha) as [[Hx1 Hx2] [Hy1 Hy2]].
  unfold Game.hitsWall, Game.wallMargin. rewrite !orb_false_iff, !Qltb_ge. done.
Qed.

Lemma foldl_fixed {A B} (f : A → B → A) (a : A) (l : list B) :
  (∀ b, b ∈ l → f a b = a) → foldl f a l = a.
Proof.
  induction l as [|b l IH]; intros Hf; [done|]. simpl.
  rewrite Hf by left. apply IH. intros b' Hb'. apply Hf. by right.
Qed.

(** C9: [Player.update] clamps the position of a live agent into
    [2, arenaWidthPx - 2] x [2, arenaHeightPx - 2], the margin which the
    wall check compares against with strict inequalities. Hence, when the
    position of every live agent was last set by [update], no agent
    satisfies the wall-death condition and [checkWallCollisions] changes
    nothing. *)
Theorem wall_death_unreachable_after_update g :
  (∀ i p, allPlayers g !! i = Some p → Player.alive p = true →
     ∃ p0 dt, Player.alive p0 = true ∧ p = Player.update PI cosF sinF p0 dt) →
  (∀ i p, allPlayers g !! i = Some p → Player.alive p = true →
     (2 <= Vec2.x (Player.pos p) <= inject_Z derivedConfig.arenaWidthPx - 2)%Q ∧
     (2 <= Vec2.y (Player.pos p) <= inject_Z derivedConfig.arenaHeightPx - 2)%Q ∧
     Game.hitsWall p = false) ∧
  Game.checkWallCollisions clock random PI cosF sinF g = g.
Proof.
  intros Hupd.
  assert (∀ i p, allPlayers g !! i = Some p → Player.alive p = true →
            Game.hitsWall p = false) as Hsafe.
  { intros i p Hi Ha. destruct (Hupd i p Hi Ha) as (p0 & dt & Ha0 & ->).
    by apply update_not_hitsWall. }
  split.
  - intros i p Hi Ha. destruct (Hupd i p Hi Ha) as (p0 & dt & Ha0 & ->).
    destruct (update_position_clamped p0 dt Ha0) as [Hx Hy].
    split; [exact Hx|]. split; [exact Hy|]. by apply update_not_hitsWall.
  - unfold Game.checkWallCollisions. apply foldl_fixed. intros i _.
    destruct (allPlayers g !! i) as [p|] eqn:Hi; [|done].
    destruct (Player.alive p) eqn:Ha; simpl; [|done].
    by rewrite (Hsafe i p Hi Ha).
Qed.

End WallFacts.

Lemma wall_death_unreachable_after_update_witness :
  let g := gameOf TerritoryMap.new
             [Player.update PI0 cos0 sin0 (playerAt 1 false (1997 # 1) (3 # 1)) (1 # 60)]
             easy in
  (∀ i p, allPlayers g !! i = Some p → Player.alive p = true →
     (2 <= Vec2.x (Player.pos p) <= inject_Z derivedConfig.arenaWidthPx - 2)%Q ∧
     (2 <= Vec2.y (Player.pos p) <= inject_Z derivedConfig.arenaHeightPx - 2)%Q ∧
     Game.hitsWall p = false) ∧
  Game.checkWallCollisions clock0 random0 PI0 cos0 sin0 g = g.
Proof.
  apply (wall_death_unreachable_after_update clock0 random0 PI0 cos0 sin0).
  intros i p Hi Ha. destruct i as [|i]; [|destruct i; discriminate Hi].
  injection Hi as <-.
  exists (playerAt 1 false (1997 # 1) (3 # 1)), (1 # 60)%Q. split; reflexivity.
Defined.

(** ** The orphan sweep *)

Section OrphanFacts.
Import TerritoryMap.

Lemma elem_of_rowTiles w y t :
  t ∈ rowTiles w y ↔ ty t = y ∧ 0 <= tx t < w.
Proof.
  unfold rowTiles. rewrite list_elem_of_fmap. split.
  - intros (i & -> & Hi). apply elem_of_seq in Hi. simpl. lia.
  - intros [Hy Hx]. exists (Z.to_nat (tx t)). split.
    + destruct t as [a b]. simpl in *. subst. f_equal. lia.
    + apply elem_of_seq. lia.
Qed.

Lemma elem_of_allTiles w h t :
  t ∈ allTiles w h ↔ 0 <= tx t < w ∧ 0 <= ty t < h.
Proof.
  unfold allTiles. rewrite list_elem_of_bind. split.
  - intros (j & Ht & Hj). apply elem_of_rowTiles in Ht. apply elem_of_seq in Hj. lia.
  - intros [Hx Hy]. exists (Z.to_nat (ty t)). split.
    + apply elem_of_rowTiles. lia.
    + apply elem_of_seq. lia.
Qed.

Lemma isPlayerOrEdge_spec m x y :
  Game.isPlayerOrEdge m x y = true ↔
  isValidTile m x y = false ∨ getOwner m x y = Game.orphanOwnerId.
Proof.
  unfold Game.isPlayerOrEdge, isValidTile.
  destruct (Z.ltb_spec x 0), (Z.leb_spec (widthTiles m) x), (Z.ltb_spec y 0),
    (Z.leb_spec (heightTiles m) y); simpl.
  all: try (split; [intros _; left|done];
            rewrite !andb_false_iff, ?Z.leb_gt, ?Z.ltb_ge; lia).
  rewrite Z.eqb_eq. split; [auto|]. intros [Hv|Ho]; [|done].
  rewrite !andb_false_iff, ?Z.leb_gt, ?Z.ltb_ge in Hv. lia.
Qed.

Lemma sweepStep_wf m t : wf m → wf (Game.sweepStep m t).
Proof. intros Hwf. unfold Game.sweepStep. case_match; [by apply setOwner_wf|done]. Qed.

Lemma sweepStep_isValidTile m t x y :
  isValidTile (Game.sweepStep m t) x y = isValidTile m x y.
Proof. unfold Game.sweepStep. case_match; [apply setOwner_isValidTile|done]. Qed.

Lemma sweepStep_keeps m t x y :
  wf m → getOwner m x y = 1 → getOwner (Game.sweepStep m t) x y = 1.
Proof.
  intros Hwf Ho. unfold Game.sweepStep. case_match eqn:Hc; [|done].
  destruct (decide ((x, y) = (tx t, ty t))) as [Heq|Hne].
  - injection Heq as -> ->. rewrite !andb_true_iff, Z.eqb_eq in Hc. lia.
  - by rewrite getOwner_setOwner_other.
Qed.

Lemma sweepStep_edge m t x y :
  wf m → Game.isPlayerOrEdge m x y = true → Game.isPlayerOrEdge (Game.sweepStep m t) x y = true.
Proof.
  intros Hwf. rewrite !isPlayerOrEdge_spec, sweepStep_isValidTile.
  intros [?|?]; [by left|right]. by apply sweepStep_keeps.
Qed.

Lemma sweep_fold_keeps l m x y :
  wf m → getOwner m x y = 1 → getOwner (foldl Game.sweepStep m l) x y = 1.
Proof.
  revert m. induction l as [|t l IH]; intros m Hwf Ho; [done|]. simpl.
  apply IH; [by apply sweepStep_wf | by apply sweepStep_keeps].
Qed.

Lemma sweep_fold_annexes l m x y :
  wf m → mkTile x y ∈ l → isValidTile m x y = true →
  getOwner m x y = 0 ∨ getOwner m x y = 1 →
  Game.isPlayerOrEdge m x (y - 1) = true → Game.isPlayerOrEdge m x (y + 1) = true →
  Game.isPlayerOrEdge m (x - 1) y = true → Game.isPlayerOrEdge m (x + 1) y = true →
  getOwner (foldl Game.sweepStep m l) x y = 1.
Proof.
  revert m. induction l as [|t l IH]; intros m Hwf Hin Hv Ho Hn Hs Hw He.
  { by apply not_elem_of_nil in Hin. }
  simpl. destruct Ho as [Ho|Ho];
    [|apply sweep_fold_keeps; [by apply sweepStep_wf | by apply sweepStep_keeps]].
  destruct (decide (t = mkTile x y)) as [->|Hne].
  - apply sweep_fold_keeps; [by apply sweepStep_wf|].
    unfold Game.sweepStep. simpl. rewrite Ho, Hn, Hs, Hw, He. simpl.
    rewrite getOwner_setOwner_same by done. done.
  - apply elem_of_cons in Hin as [Heq|Hin]; [congruence|].
    apply IH; try (by apply sweepStep_edge).
    + by apply sweepStep_wf.
    + done.
    + by rewrite sweepStep_isValidTile.
    + left. unfold Game.sweepStep. case_match; [|done].
      rewrite getOwner_setOwner_other; [done|].
      intros [= -> ->]. apply Hne. by destruct t.
Qed.

Lemma sweepOrphans_annexes m x y :
  wf m → isValidTile m x y = true → getOwner m x y = 0 →
  Game.isPlayerOrEdge m x (y - 1) = true → Game.isPlayerOrEdge m x (y + 1) = true →
  Game.isPlayerOrEdge m (x - 1) y = true → Game.isPlayerOrEdge m (x + 1) y = true →
  getOwner (Game.sweepOrphans m) x y = 1.
Proof.
  intros Hwf Hv Ho ????. unfold Game.sweepOrphans.
  apply sweep_fold_annexes; auto.
  apply elem_of_allTiles. simpl. by apply isValidTile_spec.
Qed.

(** C4, refuted as stated: on [cross7Game] the sweep runs (the counter
    reaches its interval), tile (3,3) is neutral and its four neighbours
    belong to owner 1, yet it stays neutral, because owner 1 holds less
    than a tenth of the grid. *)
Lemma orphan_sweep_counterexample : ¬ sweepAnnexesEnclosed cross7Game.
Proof.
  intros H. specialize (H 3 3). vm_compute in H.
  specialize (H eq_refl eq_refl eq_refl eq_refl eq_refl eq_refl). discriminate.
Qed.

(** C4, amended: on the 3-by-3 grid whose 8 border tiles belong to
    owner 1, a call of [captureOrphanedTiles] that runs the sweep gives
    the centre tile to owner 1, and owner 1 then holds 100% of the grid.
    In general, a call that runs the sweep (the call counter reaches its
    interval) while owner 1's cached share of the grid is at least 10%
    annexes every neutral tile whose four neighbours are each owned by
    owner 1 or outside the grid. *)
Theorem orphan_sweep_annexes_enclosed :
  (getOwner (territoryMap (Game.captureOrphanedTiles ring3Game)) 1 1 = 1 ∧
   (getOwnershipPercentage (territoryMap (Game.captureOrphanedTiles ring3Game)) 1 == 100)%Q) ∧
  (∀ g,
     wf (territoryMap g) →
     (if isMobile g then 360 else 180) <= orphanCheckCounter g + 1 →
     (10 <= getOwnershipPercentage (territoryMap g) 1)%Q →
     sweepAnnexesEnclosed g).
Proof.
  split.
  - split; vm_compute; reflexivity.
  - intros g Hwf Hcnt Hpct x y Hv Ho Hn Hs Hw He.
    unfold Game.captureOrphanedTiles. simpl.
    destruct (Z.ltb_spec (orphanCheckCounter g + 1) (if isMobile g then 360 else 180)); [lia|].
    simpl. apply Qltb_ge in Hpct. rewrite Hpct. simpl.
    by apply sweepOrphans_annexes.
Qed.

Lemma orphan_sweep_annexes_enclosed_witness :
  wf (territoryMap ring3Game) ∧
  (if isMobile ring3Game then 360 else 180) <= orphanCheckCounter ring3Game + 1 ∧
  (10 <= getOwnershipPercentage (territoryMap ring3Game) 1)%Q ∧
  sweepAnnexesEnclosed ring3Game.
Proof.
  assert (wf (territoryMap ring3Game)) as Hwf.
  { repeat apply setOwner_wf. apply blank_wf; lia. }
  split; [exact Hwf|]. split; [vm_compute; discriminate|].
  split; [vm_compute; discriminate|].
  apply (proj2 orphan_sweep_annexes_enclosed ring3Game Hwf).
  - vm_compute. discriminate.
  - vm_compute. discriminate.
Defined.

End OrphanFacts.

(** ** Camping and shrinking *)

Section CampingFacts.
Import TerritoryMap.
Variable random : nat → Q.
Variables fadd fsub fmul fdiv : Q → Q → Q.

Lemma delete_insert_same (l : list Tile) i b : delete i (<[i:=b]> l) = delete i l.
Proof.
  apply list_eq. intros n. destruct (decide (n < i)%nat).
  - rewrite !list_lookup_delete_lt by done. by rewrite list_lookup_insert_ne by lia.
  - rewrite !list_lookup_delete_ge by lia. by rewrite list_lookup_insert_ne by lia.
Qed.

Lemma swap_Permutation (l : list Tile) i j : Game.swap l i j ≡ₚ l.
Proof.
  unfold Game.swap.
  destruct (l !! i) as [a|] eqn:Hi; [|done].
  destruct (l !! j) as [b|] eqn:Hj; [|done].
  destruct (decide (i = j)) as [->|Hne].
  - assert (a = b) as -> by congruence.
    rewrite list_insert_insert_eq. by rewrite list_insert_id.
  - pose proof (lookup_lt_Some _ _ _ Hi) as Hli.
    pose proof (lookup_lt_Some _ _ _ Hj) as Hlj.
    assert (<[i:=b]> l !! j = Some b) as Hj' by (by rewrite list_lookup_insert_ne).
    assert (<[i:=b]> l !! i = Some b) as Hi' by (by rewrite list_lookup_insert_eq).
    assert (<[j:=a]> (<[i:=b]> l) !! j = Some a) as Hj''.
    { rewrite list_lookup_insert_eq; [done|]. by rewrite length_insert. }
    pose proof (delete_Permutation _ _ _ Hj'') as L1.
    rewrite delete_insert_same in L1.
    pose proof (delete_Permutation _ _ _ Hj') as L2.
    pose proof (delete_Permutation _ _ _ Hi') as L3.
    rewrite delete_insert_same in L3.
    pose proof (delete_Permutation _ _ _ Hi) as L4.
    assert (delete j (<[i:=b]> l) ≡ₚ delete i l) as L5.
    { apply (Permutation_cons_inv (a:=b)). etrans; [symmetry; exact L2|exact L3]. }
    etrans; [exact L1|]. etrans; [|symmetry; exact L4]. by apply perm_skip.
Qed.

Lemma shuffle_Permutation n l g : (Game.shuffle random n l g).1 ≡ₚ l.
Proof.
  revert l g. induction n as [|n IH]; intros l g; [done|].
  simpl. rewrite IH. apply swap_Permutation.
Qed.

Lemma shuffle_frame n l g :
  let g' := (Game.shuffle random n l g).2 in
  allPlayers g' = allPlayers g ∧ territoryMap g' = territoryMap g ∧
  campingTimers g' = campingTimers g ∧ shrinkAccumulators g' = shrinkAccumulators g ∧
  difficulty g' = difficulty g.
Proof.
  revert l g. induction n as [|n IH]; intros l g; [done|].
  cbn [Game.shuffle]. unfold Game.mathRandom. cbv zeta.
  match goal with
  | |- context [Game.shuffle random n ?l' ?g'] =>
      destruct (IH l' g') as (H1 & H2 & H3 & H4 & H5)
  end.
  cbv zeta in *. rewrite H1, H2, H3, H4, H5. done.
Qed.

Lemma NoDup_allTiles w h : NoDup (allTiles w h).
Proof.
  unfold allTiles. apply NoDup_bind; [| |apply NoDup_seq].
  - intros y1 y2 t _ _ H1 H2. apply elem_of_rowTiles in H1, H2. lia.
  - intros y _. unfold rowTiles. apply NoDup_fmap_2_strong; [|apply NoDup_seq].
    intros a b _ _ [= H]. lia.
Qed.

Lemma getBorderTiles_NoDup m k : NoDup (getBorderTiles m k).
Proof. unfold getBorderTiles. apply NoDup_filter, NoDup_allTiles. Qed.

Lemma getBorderTiles_owned m k t :
  t ∈ getBorderTiles m k →
  isValidTile m (tx t) (ty t) = true ∧ getOwner m (tx t) (ty t) = k.
Proof.
  unfold getBorderTiles. rewrite list_elem_of_filter, elem_of_allTiles.
  intros [Hb Hin]. assert (isValidTile m (tx t) (ty t) = true) as Hv.
  { by apply isValidTile_spec. }
  split; [done|]. unfold getOwner. rewrite Hv. simpl.
  unfold isBorderOf in Hb. apply andb_true_iff in Hb as [Hb _]. by apply Z.eqb_eq.
Qed.

Lemma rescan_setOwner_zero m x y k :
  wf m → isValidTile m x y = true → getOwner m x y = k → k ≠ 0 →
  rescan (setOwner m x y 0) k = rescan m k - 1.
Proof.
  intros Hwf Hv Ho Hk. unfold getOwner in Ho. rewrite Hv in Ho. simpl in Ho.
  destruct (cell_valid _ _ _ Hwf Hv) as (old & Hl & Hr).
  assert (old = k) as -> by (unfold cell in Ho; rewrite Hl in Ho; done).
  unfold setOwner. rewrite Hv, Ho. simpl.
  destruct (Z.eqb_spec k 0); [done|]. unfold rescan. simpl.
  pose proof (filter_eq_insert (ownerMap m) _ k (toUint8 0) k Hl) as Hf.
  change (toUint8 0) with 0 in *.
  destruct (decide (k = k)); [|done]. destruct (decide (0 = k)); lia.
Qed.

Lemma tile_eqb t u :
  (tx t =? tx u) && (ty t =? ty u) = true ↔ t = u.
Proof.
  rewrite andb_true_iff, !Z.eqb_eq. destruct t, u; simpl. split.
  - intros [-> ->]. done.
  - intros [= -> ->]. done.
Qed.

Lemma removeTiles_spec k pt n tiles m removed :
  wf m → k ≠ 0 → NoDup tiles → removed <= n →
  (∀ t, t ∈ tiles → isValidTile m (tx t) (ty t) = true ∧ getOwner m (tx t) (ty t) = k) →
  let m' := Game.removeTiles m tiles pt removed n in
  rescan m' k = rescan m k - Z.min (n - removed) (Z.of_nat (length (filter (λ t, t ≠ pt) tiles))) ∧
  (∀ x y, getOwner m' x y ≠ getOwner m x y →
          mkTile x y ∈ tiles ∧ mkTile x y ≠ pt ∧ getOwner m' x y = 0).
Proof.
  intros Hwf Hk Hnd. revert m removed Hwf.
  induction Hnd as [|t rest Hnotin Hnd IH]; intros m removed Hwf Hle Hown; simpl.
  { split; [lia|]. intros x y Hne. done. }
  destruct (Z.leb_spec n removed) as [Hge|Hlt].
  { split; [lia|]. intros x y Hne. done. }
  destruct ((tx t =? tx pt) && (ty t =? ty pt)) eqn:Heq.
  - apply tile_eqb in Heq as ->.
    destruct (IH m removed Hwf Hle) as [Hr Hc].
    { intros t Ht. apply Hown. by right. }
    rewrite filter_cons. destruct (decide (pt ≠ pt)); [done|].
    split; [done|]. intros x y Hne. destruct (Hc x y Hne) as (? & ? & ?).
    split; [by right|done].
  - assert (t ≠ pt) as Htpt.
    { intros ->. rewrite (proj2 (tile_eqb pt pt) eq_refl) in Heq. done. }
    assert (t ∈ t :: rest) as Hin by left.
    destruct (Hown t Hin) as [Hvt Hot].
    destruct (IH (setOwner m (tx t) (ty t) 0) (removed + 1)) as [Hr Hc].
    + by apply setOwner_wf.
    + lia.
    + intros u Hu. assert (u ∈ t :: rest) as Hin' by (by right).
      destruct (Hown u Hin') as [Hvu Hou].
      rewrite setOwner_isValidTile. split; [done|].
      rewrite getOwner_setOwner_other; [done|].
      intros [= Hx Hy]. apply Hnotin. destruct t, u; simpl in *. by subst.
    + rewrite filter_cons. destruct (decide (t ≠ pt)); [|done]. simpl length.
      split.
      * rewrite Hr, (rescan_setOwner_zero m _ _ k) by done. lia.
      * intros x y Hne.
        destruct (decide (getOwner (Game.removeTiles (setOwner m (tx t) (ty t) 0) rest pt
                                      (removed + 1) n) x y
                          = getOwner (setOwner m (tx t) (ty t) 0) x y)) as [Hsame|Hdiff].
        -- rewrite Hsame in *.
           destruct (decide ((x, y) = (tx t, ty t))) as [[= -> ->]|Hother].
           ++ assert (mkTile (tx t) (ty t) = t) as -> by (by destruct t).
              split; [by left|]. split; [done|].
              by rewrite getOwner_setOwner_same.
           ++ rewrite getOwner_setOwner_other in Hne by done. done.
        -- destruct (Hc x y Hdiff) as (? & ? & ?). split; [by right|done].
Qed.

Lemma playerTileOf_unique g i p :
  allPlayers g !! i = Some p →
  (∀ j q, allPlayers g !! j = Some q → Player.id q = Player.id p → j = i) →
  Game.playerTileOf g (Player.id p) = standingTile g p.
Proof.
  intros Hi Huniq. unfold Game.playerTileOf.
  assert (list_find (λ q, Player.id q = Player.id p) (allPlayers g) = Some (i, p)) as ->; [|done].
  apply list_find_Some. split; [done|]. split; [done|].
  intros j q Hj Hlt Hid. specialize (Huniq j q Hj Hid). lia.
Qed.

Lemma shrinkTerritory_spec g i p n :
  allPlayers g !! i = Some p →
  (∀ j q, allPlayers g !! j = Some q → Player.id q = Player.id p → j = i) →
  wf (territoryMap g) → Player.id p ≠ 0 → 0 <= n →
  let g' := Game.shrinkTerritory random g (Player.id p) n in
  (allPlayers g' = allPlayers g ∧ campingTimers g' = campingTimers g ∧
   shrinkAccumulators g' = shrinkAccumulators g ∧ difficulty g' = difficulty g) ∧
  rescan (territoryMap g') (Player.id p)
  = rescan (territoryMap g) (Player.id p) - Z.min n (Z.of_nat (length (removableTiles g p))) ∧
  (∀ x y, getOwner (territoryMap g') x y ≠ getOwner (territoryMap g) x y →
          mkTile x y ∈ getBorderTiles (territoryMap g) (Player.id p) ∧
          mkTile x y ≠ standingTile g p ∧ getOwner (territoryMap g') x y = 0).
Proof.
  intros Hi Huniq Hwf Hid Hn. unfold Game.shrinkTerritory, removableTiles.
  rewrite (playerTileOf_unique g i p Hi Huniq).
  set (border := getBorderTiles (territoryMap g) (Player.id p)).
  destruct border as [|b0 border'] eqn:Hb.
  { simpl. split; [done|]. split; [lia|]. intros x y Hne. done. }
  rewrite <- Hb. clear Hb b0 border'.
  pose proof (shuffle_Permutation (length border - 1) border g) as Hperm.
  pose proof (shuffle_frame (length border - 1) border g) as Hframe.
  destruct (Game.shuffle random (length border - 1) border g) as [l' g1].
  simpl in Hperm, Hframe. destruct Hframe as (Hp & Hm & Ht & Ha & Hd).
  cbn [territoryMap allPlayers campingTimers shrinkAccumulators difficulty Game.withMap].
  split; [done|]. rewrite Hm.
  destruct (removeTiles_spec (Player.id p) (standingTile g p) n l' (territoryMap g) 0)
    as [Hr Hc]; try done.
  - rewrite Hperm. apply getBorderTiles_NoDup.
  - intros t Ht'. rewrite Hperm in Ht'. by apply getBorderTiles_owned.
  - split.
    + rewrite Hr, Z.sub_0_r. by rewrite Hperm.
    + intros x y Hne. destruct (Hc x y Hne) as (Hin & ? & ?).
      rewrite Hperm in Hin. done.
Qed.

Lemma hasTail_negb (tl : list Vec2.t) : negb (0 <? length tl)%nat = (length tl =? 0)%nat.
Proof. by destruct tl. Qed.



End CampingFacts.


(** ** Deferred captures *)

Section CaptureQueueFacts.
Variable clock : nat → Q.
Variable random : nat → Q.
Variable PI : Q.
Variables cosF sinF : Q → Q.
Variable distance : Vec2.t → Vec2.t → Q.
Variable fsub : Q → Q → Q.

Lemma clone_id v : Vec2.clone v = v.
Proof. by destruct v. Qed.

Lemma clone_fmap_id (l : list Vec2.t) : Vec2.clone <$> l = l.
Proof. induction l as [|v l IH]; [done|]. rewrite fmap_cons, clone_id, IH. done. Qed.

Lemma captureTerritoryFromTail_frame g i tl :
  let g' := Game.captureTerritoryFromTail g i tl in
  allPlayers g' = allPlayers g ∧ captureQueue g' = captureQueue g ∧
  clockReads g' = clockReads g ∧
  territoryMap g' = applyJob (allPlayers g) (territoryMap g) (mkCaptureJob i tl).
Proof.
  unfold Game.captureTerritoryFromTail, applyJob. simpl.
  destruct (allPlayers g !! i); done.
Qed.

Lemma drainCaptures_fifo start q g :
  captureQueue g = q →
  let g' := Game.drainCaptures clock fsub start q g in
  ∃ k, (k <= length q)%nat ∧
    captureQueue g' = drop k q ∧
    allPlayers g' = allPlayers g ∧
    territoryMap g' = foldl (applyJob (allPlayers g)) (territoryMap g) (take k q) ∧
    (∀ j, (j < k)%nat → (fsub (clock (clockReads g + j)%nat) start <= Game.maxCaptureTimePerFrame)%Q) ∧
    ((k < length q)%nat → (Game.maxCaptureTimePerFrame < fsub (clock (clockReads g + k)%nat) start)%Q).
Proof.
  revert g. induction q as [|job rest IH]; intros g Hq; simpl.
  { exists 0%nat. repeat split; first [done | lia | (intros; lia)]. }
  destruct (Qltb Game.maxCaptureTimePerFrame (fsub (clock (clockReads g)) start)) eqn:Hb.
  - exists 0%nat. simpl. split; [lia|]. split; [done|]. split; [done|]. split; [done|].
    split; [intros; lia|]. intros _. rewrite Nat.add_0_r. by apply Qltb_lt.
  - set (g1 := Game.withQueue (Game.withClockReads g (S (clockReads g))) rest).
    destruct (captureTerritoryFromTail_frame g1 (job_player job) (job_tail job))
      as (Hp & Hcq & Hcr & Hm).
    destruct (IH (Game.captureTerritoryFromTail g1 (job_player job) (job_tail job)))
      as (k & Hk & Hqk & Hpk & Hmk & Hle & Hgt).
    { by rewrite Hcq. }
    exists (S k). simpl. split; [lia|]. split; [exact Hqk|].
    split; [by rewrite Hpk, Hp|]. split.
    + rewrite Hmk, Hp, Hm. simpl. by destruct job.
    + rewrite Hcr in Hle, Hgt. simpl in Hle, Hgt. split.
      * intros j Hj. destruct j as [|j].
        -- rewrite Nat.add_0_r. by apply Qltb_ge.
        -- replace (clockReads g + S j)%nat with (S (clockReads g) + j)%nat by lia.
           apply Hle. lia.
      * intros Hlt. replace (clockReads g + S k)%nat with (S (clockReads g) + k)%nat by lia.
        apply Hgt. lia.
Qed.

Lemma processQueuedCaptures_fifo g :
  let g' := Game.processQueuedCaptures clock fsub g in
  ∃ k, (k <= length (captureQueue g))%nat ∧
    captureQueue g' = drop k (captureQueue g) ∧
    allPlayers g' = allPlayers g ∧
    territoryMap g'
    = foldl (applyJob (allPlayers g)) (territoryMap g) (take k (captureQueue g)) ∧
    (∀ j, (j < k)%nat → (elapsedAt clock fsub g j <= Game.maxCaptureTimePerFrame)%Q) ∧
    ((k < length (captureQueue g))%nat →
     (Game.maxCaptureTimePerFrame < elapsedAt clock fsub g k)%Q).
Proof.
  unfold Game.processQueuedCaptures, elapsedAt.
  destruct (captureQueue g) as [|job rest] eqn:Hq.
  { exists 0%nat. simpl. rewrite Hq. repeat split; first [done | lia | (intros; lia)]. }
  rewrite <- Hq. simpl.
  destruct (drainCaptures_fifo (clock (clockReads g)) (captureQueue g)
              (Game.withClockReads g (S (clockReads g))) eq_refl)
    as (k & Hk & Hqk & Hpk & Hmk & Hle & Hgt).
  simpl in *. exists k. repeat split; try done.
  - intros j Hj. replace (clockReads g + 1 + j)%nat with (S (clockReads g + j)) by lia.
    by apply Hle.
  - intros Hlt. replace (clockReads g + 1 + k)%nat with (S (clockReads g + k)) by lia.
    by apply Hgt.
Qed.

(** C6, refuted as stated: in [reentryGame] the agent re-enters its
    territory with a trail, and the same tick, which drains the queue
    after the tail mechanics, applies the capture: when the tick ends
    the queue is empty and the tile (2,2), inside the loop, has become
    the agent's. *)
Lemma capture_same_tick_counterexample :
  let tick := λ g, (Game.updateFromTails clock0 random0 PI0 cos0 sin0 distance0 Qplus Qminus
                      (mkPickupState [] 0) g).2 in
  ¬ captureDeferredAsStated tick reentryGame ∧
  captureQueue (tick reentryGame) = [] ∧
  TerritoryMap.getOwner (territoryMap reentryGame) 2 2 = 0 ∧
  TerritoryMap.getOwner (territoryMap (tick reentryGame)) 2 2 = 1.
Proof.
  cbv zeta. split; [|by vm_compute].
  intros H. specialize (H 0%nat reentryPlayer eq_refl eq_refl eq_refl).
  vm_compute in H. by apply elem_of_nil in H.
Qed.

(** C6, amended: the call that detects the re-entry does not capture.
    For an agent standing inside its own territory,
    [updateTailMechanicsForPlayer] leaves the grid as it is and, when the
    agent re-enters with a trail, only appends one job, holding a copy of
    the trail, at the back of the queue (the trail itself is cleared).
    Whatever the clock does, [processQueuedCaptures], which the tick runs
    later, then runs the first [k] queued jobs, front first, each as one
    whole capture, and leaves the others queued in their order: the jobs
    run are those whose budget check found no more than the budget
    spent, and when jobs remain ([k] less than the queue length) it is
    because the check before job [k] found the budget exceeded. *)
Theorem capture_is_deferred_fifo g i p :
  allPlayers g !! i = Some p → insideOwn g p = true →
  let g1 := Game.updateTailMechanicsForPlayer clock random PI cosF sinF distance g i in
  (territoryMap g1 = territoryMap g ∧
   captureQueue g1
   = captureQueue g ++ (if reenters g p then [mkCaptureJob i (Player.tail p)] else []) ∧
   allPlayers g1 !! i = Some (Player.withTail p [] false None)) ∧
  (∀ g2, let g' := Game.processQueuedCaptures clock fsub g2 in
     ∃ k, (k <= length (captureQueue g2))%nat ∧
       captureQueue g' = drop k (captureQueue g2) ∧
       territoryMap g'
       = foldl (applyJob (allPlayers g2)) (territoryMap g2) (take k (captureQueue g2)) ∧
       (∀ j, (j < k)%nat → (elapsedAt clock fsub g2 j <= Game.maxCaptureTimePerFrame)%Q) ∧
       ((k < length (captureQueue g2))%nat →
        (Game.maxCaptureTimePerFrame < elapsedAt clock fsub g2 k)%Q)).
Proof.
  intros Hi Hin. split.
  - unfold Game.updateTailMechanicsForPlayer. rewrite Hi.
    unfold insideOwn, standingTile in Hin. unfold reenters, insideOwn, standingTile.
    rewrite Hin. simpl andb.
    pose proof (lookup_lt_Some _ _ _ Hi) as Hlen.
    destruct (negb (default true (wasInOwnTerritory g !! Player.id p))
              && (0 <? length (Player.tail p))%nat) eqn:Hre.
    + unfold Game.queueCapture. rewrite Hi. simpl. rewrite clone_fmap_id.
      split; [done|]. split; [done|]. by apply list_lookup_insert_eq.
    + simpl. rewrite app_nil_r. split; [done|]. split; [done|].
      by apply list_lookup_insert_eq.
  - intros g2. simpl.
    destruct (processQueuedCaptures_fifo g2) as (k & Hk & Hq & _ & Hm & Hle & Hgt).
    exists k. done.
Qed.

End CaptureQueueFacts.

Lemma capture_is_deferred_fifo_witness :
  let g := reentryGame in
  let p := reentryPlayer in
  let g1 := Game.updateTailMechanicsForPlayer clock0 random0 PI0 cos0 sin0 distance0 g 0 in
  (allPlayers g !! 0%nat = Some p ∧ insideOwn g p = true) ∧
  (territoryMap g1 = territoryMap g ∧
   captureQueue g1
   = captureQueue g ++ (if reenters g p then [mkCaptureJob 0 (Player.tail p)] else []) ∧
   allPlayers g1 !! 0%nat = Some (Player.withTail p [] false None)) ∧
  (∀ g2, let g' := Game.processQueuedCaptures clock0 Qminus g2 in
     ∃ k, (k <= length (captureQueue g2))%nat ∧
       captureQueue g' = drop k (captureQueue g2) ∧
       territoryMap g'
       = foldl (applyJob (allPlayers g2)) (territoryMap g2) (take k (captureQueue g2)) ∧
       (∀ j, (j < k)%nat → (elapsedAt clock0 Qminus g2 j <= Game.maxCaptureTimePerFrame)%Q) ∧
       ((k < length (captureQueue g2))%nat →
        (Game.maxCaptureTimePerFrame < elapsedAt clock0 Qminus g2 k)%Q)).
Proof.
  split; [split; reflexivity|].
  apply (capture_is_deferred_fifo clock0 random0 PI0 cos0 sin0 distance0 Qminus reentryGame 0%nat
           reentryPlayer);
    reflexivity.
Defined.

(** ** Collisions with trails *)

Section CollisionFacts.
Variable clock : nat → Q.
Variable random : nat → Q.
Variable PI : Q.
Variables cosF sinF : Q → Q.
Variable distance : Vec2.t → Vec2.t → Q.
Variable fadd : Q → Q → Q.

Lemma isPlayerBoosted_frame g k :
  let g0 := (Game.isPlayerBoosted clock g k).2 in
  allPlayers g0 = allPlayers g ∧ territoryMap g0 = territoryMap g ∧
  boostEndTimes g0 = boostEndTimes g ∧ difficulty g0 = difficulty g ∧
  (clockReads g <= clockReads g0)%nat.
Proof.
  unfold Game.isPlayerBoosted. destruct (boostEndTimes g !! k); simpl; repeat split; lia.
Qed.

Lemma isPlayerBoosted_immuneAt g victim :
  (Game.isPlayerBoosted clock g (Player.id victim)).1 = immuneAt clock g victim (clockReads g).
Proof.
  unfold Game.isPlayerBoosted, immuneAt. by destruct (boostEndTimes g !! Player.id victim).
Qed.

Lemma hitsTail_touches attacker victim :
  Game.hitsTail distance (Player.pos attacker) (Player.tail victim) = true
  ↔ touches distance attacker victim.
Proof.
  unfold Game.hitsTail, touches, Game.within. rewrite existsb_exists. split.
  - intros (pt & Hin & Hnear).
    apply list_elem_of_In, list_elem_of_lookup in Hin as (i & Hi).
    apply lookup_take_Some in Hi as [Hi Hlt].
    exists i, pt. split_and!; [lia|done|by apply Qltb_lt].
  - intros (i & pt & Hi & Hpt & Hnear). exists pt. split; [|by apply Qltb_lt].
    apply list_elem_of_In, list_elem_of_lookup. exists i.
    apply lookup_take_Some. split; [done|lia].
Qed.

Lemma handlePlayerDeath_killer g v a victim attacker :
  allPlayers g !! v = Some victim → allPlayers g !! a = Some attacker → a ≠ v →
  let g1 := Game.handlePlayerDeath clock random PI cosF sinF g v (Some a) in
  allPlayers g1 = <[v := killed victim]> (allPlayers g) ∧
  territoryMap g1 = inherited g attacker victim ∧
  boostEndTimes g1 = boostEndTimes g ∧ difficulty g1 = difficulty g ∧
  clockReads g1 = S (clockReads g).
Proof.
  intros Hv Ha Hav. unfold Game.handlePlayerDeath. rewrite Hv.
  cbn [allPlayers Game.setPlayer Game.withPlayers].
  rewrite list_lookup_insert_ne, Ha by done.
  unfold inherited, killed, Game.addKillEffect, Game.performanceNow.
  cbn [difficulty territoryMap Game.setPlayer Game.withPlayers].
  destruct (bool_decide (difficulty g = impossible) && (Player.id attacker =? 1)); done.
Qed.

Lemma incrementKills_spec g a attacker :
  allPlayers g !! a = Some attacker →
  let g2 := Game.incrementKills g a in
  allPlayers g2 = <[a := credited attacker]> (allPlayers g) ∧
  territoryMap g2 = territoryMap g ∧ boostEndTimes g2 = boostEndTimes g ∧
  clockReads g2 = clockReads g ∧
  Game.killsOf g2 a = Player.kills attacker + 1.
Proof.
  intros Ha. unfold Game.incrementKills, Game.killsOf. rewrite Ha.
  cbn [allPlayers Game.setPlayer Game.withPlayers].
  rewrite list_lookup_insert_eq by (by eapply lookup_lt_Some). done.
Qed.

Lemma activateBoost_spec g k :
  let g3 := Game.activateBoost clock fadd g k in
  allPlayers g3 = allPlayers g ∧ territoryMap g3 = territoryMap g ∧
  boostEndTimes g3 = <[k := fadd (clock (clockReads g)) Game.boostDuration]> (boostEndTimes g).
Proof. done. Qed.

(** The grid after a kill, tile by tile. *)
Lemma inherited_cells g attacker victim x y :
  TerritoryMap.wf (territoryMap g) → 0 <= Player.id attacker < 256 →
  TerritoryMap.isValidTile (territoryMap g) x y = true →
  TerritoryMap.getOwner (inherited g attacker victim) x y
  = if TerritoryMap.getOwner (territoryMap g) x y =? Player.id victim
    then heir g attacker
    else TerritoryMap.getOwner (territoryMap g) x y.
Proof.
  intros Hwf Hrange Hv. unfold inherited, heir.
  destruct (bool_decide (difficulty g = impossible) && (Player.id attacker =? 1)).
  - by apply getOwner_clearOwnerTerritory.
  - rewrite getOwner_transferTerritory by done. by rewrite toUint8_small.
Qed.

(** *** Pairs that are not in contact *)

Lemma quiet_refl g : quiet g g.
Proof. unfold quiet. by split_and!. Qed.

Lemma quiet_trans g g1 g2 : quiet g g1 → quiet g1 g2 → quiet g g2.
Proof.
  unfold quiet. intros H1 H2. destruct_and!. split_and!; first [congruence | lia].
Qed.

Lemma isPlayerBoosted_quiet g k : quiet g (Game.isPlayerBoosted clock g k).2.
Proof.
  unfold Game.isPlayerBoosted.
  destruct (boostEndTimes g !! k); unfold quiet; cbn; split_and!; first [done | lia].
Qed.

Lemma attack_quiet g a v :
  ¬ contact distance (allPlayers g) a v →
  (∀ p, allPlayers g !! a = Some p → Player.alive p = true) →
  quiet g (Game.attack clock random PI cosF sinF distance fadd g a v).
Proof.
  intros Hno Halive. unfold Game.attack.
  destruct (allPlayers g !! a) as [attacker|] eqn:Ha; [|apply quiet_refl].
  destruct (allPlayers g !! v) as [victim|] eqn:Hv; [|apply quiet_refl].
  destruct (Player.alive victim) eqn:Hva; [|apply quiet_refl]. cbn [negb orb].
  destruct (Z.eqb_spec (Player.id attacker) (Player.id victim)) as [|Hid]; [apply quiet_refl|].
  destruct (length (Player.tail victim) <? 3)%nat; [apply quiet_refl|].
  pose proof (isPlayerBoosted_quiet g (Player.id victim)) as Hq.
  destruct (Game.isPlayerBoosted clock g (Player.id victim)) as [boosted g0].
  cbn [snd] in Hq. destruct boosted; [done|].
  destruct (Game.hitsTail distance (Player.pos attacker) (Player.tail victim)) eqn:Hhit; [|done].
  exfalso. apply Hno. exists attacker, victim.
  split_and!; [done|done|by apply Halive|done|done|by apply hitsTail_touches].
Qed.

Lemma attacks_quiet g a vs :
  (∀ v, v ∈ vs → ¬ contact distance (allPlayers g) a v) →
  (∀ p, allPlayers g !! a = Some p → Player.alive p = true) →
  quiet g (foldl (λ g v, Game.attack clock random PI cosF sinF distance fadd g a v) g vs).
Proof.
  intros Hno Halive. induction vs as [|v vs IH] using rev_ind; [apply quiet_refl|].
  rewrite foldl_app. cbn [foldl].
  assert (quiet g (foldl (λ g v, Game.attack clock random PI cosF sinF distance fadd g a v) g vs))
    as Hq.
  { apply IH. intros v' Hv'. apply Hno. rewrite elem_of_app. by left. }
  set (g1 := foldl _ g vs) in *. pose proof Hq as (Hp & _).
  eapply quiet_trans; [exact Hq|].
  apply attack_quiet; rewrite Hp; [|done].
  apply Hno. rewrite elem_of_app, list_elem_of_singleton. by right.
Qed.

Lemma attackers_quiet g idx vs :
  (∀ a v, a ∈ idx → v ∈ vs → ¬ contact distance (allPlayers g) a v) →
  quiet g (foldl (λ g a,
    match allPlayers g !! a with
    | None => g
    | Some attacker =>
        if negb (Player.alive attacker) then g
        else foldl (λ g v, Game.attack clock random PI cosF sinF distance fadd g a v) g vs
    end) g idx).
Proof.
  intros Hno. induction idx as [|a idx IH] using rev_ind; [apply quiet_refl|].
  rewrite foldl_app. cbn [foldl].
  match goal with |- quiet g (match allPlayers ?x !! a with _ => _ end) => set (g1 := x) end.
  assert (quiet g g1) as Hq.
  { apply IH. intros a' v' Ha' Hv'. apply Hno; [|done]. rewrite elem_of_app. by left. }
  pose proof Hq as (Hp & _). eapply quiet_trans; [exact Hq|].
  destruct (allPlayers g1 !! a) as [attacker|] eqn:Ha; [|apply quiet_refl].
  destruct (Player.alive attacker) eqn:Halive; [|apply quiet_refl]. cbn [negb].
  apply attacks_quiet.
  - intros v' Hv'. rewrite Hp. apply Hno; [|done].
    rewrite elem_of_app, list_elem_of_singleton. by right.
  - intros p Hp'. congruence.
Qed.

(** *** The pair in contact *)

Lemma attack_fires g a v attacker victim :
  allPlayers g !! a = Some attacker → allPlayers g !! v = Some victim →
  Player.alive attacker = true → Player.alive victim = true →
  Player.id attacker ≠ Player.id victim →
  touches distance attacker victim →
  let g' := Game.attack clock random PI cosF sinF distance fadd g a v in
  if immuneAt clock g victim (clockReads g) then quiet g g'
  else
    allPlayers g' = <[a := credited attacker]> (<[v := killed victim]> (allPlayers g)) ∧
    territoryMap g' = inherited g attacker victim ∧
    (if Z.rem (Player.kills attacker + 1) 3 =? 0
     then ∃ n, (clockReads g <= n)%nat ∧
            boostEndTimes g'
            = <[Player.id attacker := fadd (clock n) Game.boostDuration]> (boostEndTimes g)
     else boostEndTimes g' = boostEndTimes g).
Proof.
  intros Ha Hv Haa Hva Hid Htouch.
  assert (a ≠ v) as Hav by (intros ->; congruence).
  pose proof Htouch as (i0 & pt0 & Hlen & _ & _).
  apply hitsTail_touches in Htouch as Hhit.
  cbv zeta. unfold Game.attack. rewrite Ha, Hv, Hva. simpl negb.
  destruct (Z.eqb_spec (Player.id attacker) (Player.id victim)); [done|]. simpl orb. cbv iota.
  destruct (Nat.ltb_spec (length (Player.tail victim)) 3); [lia|].
  rewrite <- isPlayerBoosted_immuneAt.
  pose proof (isPlayerBoosted_frame g (Player.id victim)) as Hframe.
  pose proof (isPlayerBoosted_quiet g (Player.id victim)) as Hquiet.
  destruct (Game.isPlayerBoosted clock g (Player.id victim)) as [boosted g0].
  simpl in Hframe, Hquiet. destruct Hframe as (Hp0 & Hm0 & Hb0 & Hd0 & Hc0). simpl fst.
  destruct boosted; [done|]. rewrite Hhit.
  rewrite <- Hp0 in Ha, Hv.
  destruct (handlePlayerDeath_killer g0 v a victim attacker Hv Ha Hav)
    as (Hp1 & Hm1 & Hb1 & Hd1 & Hc1).
  set (g1 := Game.handlePlayerDeath clock random PI cosF sinF g0 v (Some a)) in *.
  assert (allPlayers g1 !! a = Some attacker) as Ha1.
  { rewrite Hp1. by rewrite list_lookup_insert_ne. }
  destruct (incrementKills_spec g1 a attacker Ha1) as (Hp2 & Hm2 & Hb2 & Hc2 & Hk2).
  set (g2 := Game.incrementKills g1 a) in *.
  rewrite Hk2.
  assert (inherited g0 attacker victim = inherited g attacker victim) as Hinh.
  { unfold inherited. by rewrite Hd0, Hm0. }
  destruct (Z.rem (Player.kills attacker + 1) 3 =? 0).
  - destruct (activateBoost_spec g2 (Player.id attacker)) as (Hp3 & Hm3 & Hb3).
    rewrite Hp3, Hm3, Hb3, Hp2, Hm2, Hb2, Hp1, Hm1, Hb1, Hp0, Hb0, Hinh.
    split; [done|]. split; [done|]. exists (clockReads g2). split; [lia|done].
  - rewrite Hp2, Hm2, Hb2, Hp1, Hm1, Hb1, Hp0, Hb0, Hinh. done.
Qed.

Lemma touches_ext p p' q q' :
  Player.pos p' = Player.pos p → Player.tail q' = Player.tail q →
  touches distance p' q' → touches distance p q.
Proof. unfold touches. intros -> ->. done. Qed.

(** Once the victim is dead and the kill credited, a pair in contact was
    in contact before, and the victim belongs to neither side of it. *)
Lemma contact_after_kill ps a v attacker victim a' v' :
  ps !! a = Some attacker → ps !! v = Some victim → a ≠ v →
  contact distance (<[a := credited attacker]> (<[v := killed victim]> ps)) a' v' →
  contact distance ps a' v' ∧ a' ≠ v ∧ v' ≠ v.
Proof.
  intros Ha Hv Hav (p & q & Hp & Hq & Hpa & Hqa & Hid & Ht).
  pose proof (lookup_lt_Some _ _ _ Ha) as Hla.
  pose proof (lookup_lt_Some _ _ _ Hv) as Hlv.
  assert (∀ j r, <[a := credited attacker]> (<[v := killed victim]> ps) !! j = Some r →
            Player.alive r = true →
            j ≠ v ∧ ∃ r0, ps !! j = Some r0 ∧ Player.alive r0 = Player.alive r ∧
                          Player.id r0 = Player.id r ∧ Player.pos r0 = Player.pos r ∧
                          Player.tail r0 = Player.tail r) as Hback.
  { intros j r Hj Hr. destruct (decide (j = a)) as [->|Hja].
    - rewrite list_lookup_insert_eq in Hj by (by rewrite length_insert).
      injection Hj as <-. split; [done|]. by exists attacker.
    - rewrite list_lookup_insert_ne in Hj by done.
      destruct (decide (j = v)) as [->|Hjv].
      + rewrite list_lookup_insert_eq in Hj by done. injection Hj as <-. done.
      + rewrite list_lookup_insert_ne in Hj by done. split; [done|]. by exists r. }
  destruct (Hback a' p Hp Hpa) as (Hne1 & p0 & Hp0 & Hpa0 & Hpid & Hppos & _).
  destruct (Hback v' q Hq Hqa) as (Hne2 & q0 & Hq0 & Hqa0 & Hqid & _ & Hqtail).
  split; [|done]. exists p0, q0.
  split_and!; [done|done|congruence|congruence|congruence|].
  by apply (touches_ext p0 p q0 q).
Qed.

Lemma pass_one_contact g a v attacker victim (ib ia vb va : list nat) :
  allPlayers g !! a = Some attacker → allPlayers g !! v = Some victim →
  Player.alive attacker = true → Player.alive victim = true →
  Player.id attacker ≠ Player.id victim →
  touches distance attacker victim →
  (∀ a' v', contact distance (allPlayers g) a' v' → a' = a ∧ v' = v) →
  a ∉ ib → a ∉ ia → v ∉ vb → v ∉ va →
  let g' :=
    foldl (λ g a,
      match allPlayers g !! a with
      | None => g
      | Some attacker =>
          if negb (Player.alive attacker) then g
          else foldl (λ g v, Game.attack clock random PI cosF sinF distance fadd g a v) g
                 (vb ++ v :: va)
      end) g (ib ++ a :: ia) in
  ∃ g0, quiet g g0 ∧
    if immuneAt clock g victim (clockReads g0) then quiet g g'
    else
      allPlayers g' = <[a := credited attacker]> (<[v := killed victim]> (allPlayers g)) ∧
      territoryMap g' = inherited g attacker victim ∧
      (if Z.rem (Player.kills attacker + 1) 3 =? 0
       then ∃ n, (clockReads g0 <= n)%nat ∧
              boostEndTimes g'
              = <[Player.id attacker := fadd (clock n) Game.boostDuration]> (boostEndTimes g)
       else boostEndTimes g' = boostEndTimes g).
Proof.
  intros Ha Hv Haa Hva Hid Htouch Honly Hib Hia Hvb Hva'. cbv zeta.
  assert (a ≠ v) as Hav by (intros ->; congruence).
  set (vs := vb ++ v :: va).
  set (inner := λ (a : nat) (g : Game) (v : nat),
                  Game.attack clock random PI cosF sinF distance fadd g a v).
  set (outer := λ (g : Game) (a : nat),
    match allPlayers g !! a with
    | None => g
    | Some attacker =>
        if negb (Player.alive attacker) then g else foldl (inner a) g vs
    end).
  change (∃ g0, quiet g g0 ∧
    if immuneAt clock g victim (clockReads g0) then quiet g (foldl outer g (ib ++ a :: ia))
    else
      allPlayers (foldl outer g (ib ++ a :: ia))
      = <[a := credited attacker]> (<[v := killed victim]> (allPlayers g)) ∧
      territoryMap (foldl outer g (ib ++ a :: ia)) = inherited g attacker victim ∧
      (if Z.rem (Player.kills attacker + 1) 3 =? 0
       then ∃ n, (clockReads g0 <= n)%nat ∧
              boostEndTimes (foldl outer g (ib ++ a :: ia))
              = <[Player.id attacker := fadd (clock n) Game.boostDuration]> (boostEndTimes g)
       else boostEndTimes (foldl outer g (ib ++ a :: ia)) = boostEndTimes g)).
  rewrite foldl_app. cbn [foldl].
  (* the attackers before [a] *)
  assert (quiet g (foldl outer g ib)) as Hq1.
  { apply attackers_quiet. intros a' v' Ha' _ Hc. apply Honly in Hc as [-> _]. done. }
  set (g1 := foldl outer g ib) in *. pose proof Hq1 as (Hp1 & _).
  assert (outer g1 a = foldl (inner a) (inner a (foldl (inner a) g1 vb) v) va) as ->.
  { unfold outer. rewrite Hp1, Ha, Haa. cbn [negb]. unfold vs. by rewrite foldl_app. }
  (* the victims before [v] *)
  assert (quiet g1 (foldl (inner a) g1 vb)) as Hq2.
  { apply attacks_quiet; rewrite Hp1.
    - intros v' Hv' Hc. apply Honly in Hc as [_ ->]. done.
    - intros p Hp. congruence. }
  set (g2 := foldl (inner a) g1 vb) in *.
  pose proof (quiet_trans _ _ _ Hq1 Hq2) as Hq12.
  pose proof Hq12 as (Hp2 & Hm2 & Hb2 & _ & _ & _ & _ & Hd2 & _ & Hc2).
  exists g2. split; [exact Hq12|].
  (* what is left of the pass once the pair has been evaluated *)
  assert (∀ g3,
    (∀ a' v', (a' ≠ a ∨ v' ≠ v) → ¬ contact distance (allPlayers g3) a' v') →
    (∀ p, allPlayers g3 !! a = Some p → Player.alive p = true) →
    quiet g3 (foldl outer (foldl (inner a) g3 va) ia)) as Hafter.
  { intros g3 Hno Halive3.
    assert (quiet g3 (foldl (inner a) g3 va)) as Hq4.
    { apply attacks_quiet; [|done]. intros v' Hv'. apply Hno. right. by intros ->. }
    pose proof Hq4 as (Hp4 & _). eapply quiet_trans; [exact Hq4|].
    apply attackers_quiet. intros a' v' Ha' _. rewrite Hp4. apply Hno. left. by intros ->. }
  rewrite <- Hp2 in Ha, Hv.
  pose proof (attack_fires g2 a v attacker victim Ha Hv Haa Hva Hid Htouch) as Hfire.
  cbv zeta in Hfire. fold (inner a g2 v) in Hfire.
  assert (immuneAt clock g2 victim (clockReads g2) = immuneAt clock g victim (clockReads g2))
    as Himm by (unfold immuneAt; by rewrite Hb2).
  rewrite Himm in Hfire.
  destruct (immuneAt clock g victim (clockReads g2)).
  - eapply quiet_trans; [exact Hq12|]. eapply quiet_trans; [exact Hfire|].
    pose proof Hfire as (Hp3 & _). apply Hafter; rewrite Hp3, Hp2.
    + intros a' v' Hne Hc. apply Honly in Hc as [-> ->]. by destruct Hne.
    + intros p Hp. rewrite Hp2 in Ha. congruence.
  - destruct Hfire as (Hp3 & Hm3 & Hboost).
    assert (quiet (inner a g2 v) (foldl outer (foldl (inner a) (inner a g2 v) va) ia)) as Hq5.
    { apply Hafter; rewrite Hp3.
      - intros a' v' _ Hc.
        apply (contact_after_kill _ a v attacker victim) in Hc as (Hc & _ & Hne); [|done..].
        rewrite Hp2 in Hc. apply Honly in Hc as [_ ->]. done.
      - intros p Hp. rewrite list_lookup_insert_eq in Hp.
        + injection Hp as <-. done.
        + rewrite length_insert. by eapply lookup_lt_Some. }
    destruct Hq5 as (Hp5 & Hm5 & Hb5 & _).
    rewrite Hp5, Hm5, Hb5, Hp3, Hm3, Hp2.
    split; [done|]. split; [unfold inherited; by rewrite Hd2, Hm2|].
    destruct (Z.rem (Player.kills attacker + 1) 3 =? 0).
    + destruct Hboost as (n & Hn & Hbe). exists n. split; [done|]. by rewrite Hbe, Hb2.
    + by rewrite Hboost, Hb2.
Qed.

(** *** Pairs evaluated around the pair in contact *)

Lemma inherited_wf g p q :
  TerritoryMap.wf (territoryMap g) → TerritoryMap.wf (inherited g p q).
Proof.
  intros Hwf. unfold inherited.
  destruct (_ && _); [by apply clearOwnerTerritory_wf|by apply transferTerritory_wf].
Qed.

Lemma inherited_isValidTile g p q x y :
  TerritoryMap.isValidTile (inherited g p q) x y
  = TerritoryMap.isValidTile (territoryMap g) x y.
Proof.
  unfold inherited. destruct (_ && _); [done|apply transferTerritory_isValidTile].
Qed.

(** One pair, whatever the players: either nothing but the clock moves, or
    the victim is killed. *)
Lemma attack_cases g a' v' :
  let g' := Game.attack clock random PI cosF sinF distance fadd g a' v' in
  quiet g g' ∨
  ∃ p q, allPlayers g !! a' = Some p ∧ allPlayers g !! v' = Some q ∧ a' ≠ v' ∧
    allPlayers g' = <[a' := credited p]> (<[v' := killed q]> (allPlayers g)) ∧
    territoryMap g' = inherited g p q ∧
    (boostEndTimes g' = boostEndTimes g ∨
     ∃ t, boostEndTimes g' = <[Player.id p := t]> (boostEndTimes g)) ∧
    difficulty g' = difficulty g ∧ (clockReads g <= clockReads g')%nat.
Proof.
  cbv zeta. unfold Game.attack.
  destruct (allPlayers g !! a') as [p|] eqn:Ha; [|left; apply quiet_refl].
  destruct (allPlayers g !! v') as [q|] eqn:Hv; [|left; apply quiet_refl].
  destruct (Player.alive q) eqn:Hva; [|left; apply quiet_refl]. cbn [negb orb].
  destruct (Z.eqb_spec (Player.id p) (Player.id q)) as [|Hid]; [left; apply quiet_refl|].
  destruct (length (Player.tail q) <? 3)%nat; [left; apply quiet_refl|].
  assert (a' ≠ v') as Hav by (intros ->; congruence).
  pose proof (isPlayerBoosted_frame g (Player.id q)) as Hframe.
  pose proof (isPlayerBoosted_quiet g (Player.id q)) as Hquiet.
  destruct (Game.isPlayerBoosted clock g (Player.id q)) as [boosted g0].
  simpl in Hframe, Hquiet. destruct Hframe as (Hp0 & Hm0 & Hb0 & Hd0 & Hc0).
  destruct boosted; [by left|].
  destruct (Game.hitsTail distance (Player.pos p) (Player.tail q)); [|by left].
  right. exists p, q. split; [done|]. split; [done|]. split; [done|].
  rewrite <- Hp0 in Ha, Hv.
  destruct (handlePlayerDeath_killer g0 v' a' q p Hv Ha Hav)
    as (Hp1 & Hm1 & Hb1 & Hd1 & Hc1).
  set (g1 := Game.handlePlayerDeath clock random PI cosF sinF g0 v' (Some a')) in *.
  assert (allPlayers g1 !! a' = Some p) as Ha1.
  { rewrite Hp1. by rewrite list_lookup_insert_ne. }
  destruct (incrementKills_spec g1 a' p Ha1) as (Hp2 & Hm2 & Hb2 & Hc2 & Hk2).
  assert (difficulty (Game.incrementKills g1 a') = difficulty g1) as Hd2.
  { unfold Game.incrementKills. by rewrite Ha1. }
  set (g2 := Game.incrementKills g1 a') in *.
  assert (inherited g0 p q = inherited g p q) as Hinh.
  { unfold inherited. by rewrite Hd0, Hm0. }
  destruct (Z.rem (Game.killsOf g2 a') 3 =? 0).
  - destruct (activateBoost_spec g2 (Player.id p)) as (Hp3 & Hm3 & Hb3).
    rewrite Hp3, Hm3, Hb3, Hp2, Hm2, Hb2, Hp1, Hm1, Hb1, Hp0, Hb0, Hinh.
    split_and!; [done|done|right; by eexists| |].
    + unfold Game.activateBoost. cbn. congruence.
    + unfold Game.activateBoost. cbn. lia.
  - rewrite Hp2, Hm2, Hb2, Hp1, Hm1, Hb1, Hp0, Hb0, Hinh.
    split_and!; [done|done|by left|congruence|lia].
Qed.

Lemma sameFoot_refl p : sameFoot p p.
Proof. by unfold sameFoot. Qed.

Lemma sameFoot_trans p0 p1 p2 : sameFoot p0 p1 → sameFoot p1 p2 → sameFoot p0 p2.
Proof.
  unfold sameFoot. intros (Hi1 & Hp1 & Ha1) (Hi2 & Hp2 & Ha2).
  split_and!; [congruence|congruence|].
  intros H2. destruct (Ha2 H2) as [H1 Ht2]. destruct (Ha1 H1) as [H0 Ht1].
  split; [done|congruence].
Qed.

Lemma sameFoot_credited p : sameFoot p (credited p).
Proof. by unfold sameFoot. Qed.

Lemma sameFoot_killed p : sameFoot p (killed p).
Proof. unfold sameFoot. split_and!; [done|done|]. intros H. discriminate H. Qed.

Lemma descends_refl ps : descends ps ps.
Proof. split; [done|]. intros j p Hj. exists p. split; [done|apply sameFoot_refl]. Qed.

Lemma descends_trans ps ps1 ps2 : descends ps ps1 → descends ps1 ps2 → descends ps ps2.
Proof.
  intros [Hl1 H1] [Hl2 H2]. split; [congruence|].
  intros j p2 Hj. destruct (H2 j p2 Hj) as (p1 & Hj1 & Hf2).
  destruct (H1 j p1 Hj1) as (p0 & Hj0 & Hf1).
  exists p0. split; [done|]. by eapply sameFoot_trans.
Qed.

Lemma descends_insert ps j p p' :
  ps !! j = Some p → sameFoot p p' → descends ps (<[j := p']> ps).
Proof.
  intros Hj Hf. split; [by rewrite length_insert|].
  intros i q Hi. destruct (decide (i = j)) as [->|Hne].
  - rewrite list_lookup_insert_eq in Hi by (by eapply lookup_lt_Some).
    injection Hi as <-. by exists p.
  - rewrite list_lookup_insert_ne in Hi by done. exists q. split; [done|apply sameFoot_refl].
Qed.

Lemma contact_descends ps ps1 a' v' :
  descends ps ps1 → contact distance ps1 a' v' → contact distance ps a' v'.
Proof.
  intros [_ Hd] (p & q & Hp & Hq & Hpa & Hqa & Hid & Ht).
  destruct (Hd a' p Hp) as (p0 & Hp0 & Hpi & Hpp & Hpl).
  destruct (Hd v' q Hq) as (q0 & Hq0 & Hqi & Hqp & Hql).
  destruct (Hpl Hpa) as [Hpa0 _]. destruct (Hql Hqa) as [Hqa0 Hqt].
  exists p0, q0. split_and!; [done|done|done|done|congruence|].
  by apply (touches_ext p0 p q0 q).
Qed.

Section Bystanders.
Variables a v : nat.
Variables ida idv : Z.

Lemma spares_refl g : spares a v ida idv g g.
Proof. unfold spares. split_and!; try done. apply descends_refl. Qed.

Lemma spares_trans g1 g2 g3 :
  spares a v ida idv g1 g2 → spares a v ida idv g2 g3 → spares a v ida idv g1 g3.
Proof.
  intros (Hd1 & Ha1 & Hv1 & Hw1 & Hi1 & Ht1 & Hba1 & Hbv1 & Hdf1 & Hc1)
         (Hd2 & Ha2 & Hv2 & Hw2 & Hi2 & Ht2 & Hba2 & Hbv2 & Hdf2 & Hc2).
  unfold spares. split_and!.
  - by eapply descends_trans.
  - by rewrite Ha2.
  - by rewrite Hv2.
  - auto.
  - intros x y. by rewrite Hi2.
  - intros x y o Hvalid Ho Hin. apply Ht2; [by rewrite Hi1| |done]. by apply Ht1.
  - by rewrite Hba2.
  - by rewrite Hbv2.
  - by rewrite Hdf2.
  - lia.
Qed.

Lemma quiet_spares g1 g2 : quiet g1 g2 → spares a v ida idv g1 g2.
Proof.
  intros (Hp & Hm & Hb & _ & _ & _ & _ & Hd & _ & Hc).
  unfold spares. rewrite Hp, Hm, Hb, Hd. split_and!; try done. apply descends_refl.
Qed.

Variable ps : list Player.t.
Hypothesis ids_distinct :
  ∀ i j p q, ps !! i = Some p → ps !! j = Some q → Player.id p = Player.id q → i = j.
Hypothesis ids_range : ∀ i p, ps !! i = Some p → 0 < Player.id p < 256.
Variables attacker victim : Player.t.
Hypothesis attacker_at : ps !! a = Some attacker.
Hypothesis victim_at : ps !! v = Some victim.
Hypothesis ida_id : ida = Player.id attacker.
Hypothesis idv_id : idv = Player.id victim.
Hypothesis others_apart :
  ∀ a' v', contact distance ps a' v' →
    (a' = a ∧ v' = v) ∨ (a' ≠ a ∧ a' ≠ v ∧ v' ≠ a ∧ v' ≠ v).

(** The evaluation of a pair other than [(a, v)] spares [a] and [v]. *)
Lemma attack_spares g a' v' :
  descends ps (allPlayers g) → TerritoryMap.wf (territoryMap g) →
  (∀ p, allPlayers g !! a' = Some p → Player.alive p = true) →
  a' ≠ a ∨ v' ≠ v →
  let g' := Game.attack clock random PI cosF sinF distance fadd g a' v' in
  spares a v ida idv g g' ∧
  (∀ p, allPlayers g' !! a' = Some p → Player.alive p = true).
Proof.
  intros Hdesc Hwf Halive Hpair. cbv zeta.
  destruct (decide (a' ≠ a ∧ a' ≠ v ∧ v' ≠ a ∧ v' ≠ v)) as [(Ha1 & Ha2 & Hv1 & Hv2)|Hnear].
  - (* a pair of two other players *)
    destruct (attack_cases g a' v') as [Hq|(p & q & Hp & Hq & Hne & Hps & Hm & Hb & Hd & Hc)].
    { split; [by apply quiet_spares|]. destruct Hq as [-> _]. done. }
    destruct Hdesc as [Hlen Hd0].
    destruct (Hd0 a' p Hp) as (p0 & Hp0 & Hpi & _).
    destruct (Hd0 v' q Hq) as (q0 & Hq0 & Hqi & _).
    assert (Player.id p ≠ ida ∧ Player.id p ≠ idv ∧ Player.id q ≠ ida ∧ Player.id q ≠ idv)
      as (Hpa & Hpv & Hqa & Hqv).
    { rewrite Hpi, Hqi, ida_id, idv_id. split_and!; intros Heq.
      - by apply Ha1, (ids_distinct a' a p0 attacker).
      - by apply Ha2, (ids_distinct a' v p0 victim).
      - by apply Hv1, (ids_distinct v' a q0 attacker).
      - by apply Hv2, (ids_distinct v' v q0 victim). }
    pose proof (ids_range a' p0 Hp0) as Hpr. pose proof (ids_range v' q0 Hq0) as Hqr.
    rewrite <- Hpi in Hpr. rewrite <- Hqi in Hqr.
    pose proof (lookup_lt_Some _ _ _ Hp) as Hlp. pose proof (lookup_lt_Some _ _ _ Hq) as Hlq.
    split.
    + unfold spares. rewrite Hps, Hm, Hd. split_and!; try done.
      * eapply descends_trans; [apply (descends_insert _ v' q (killed q) Hq), sameFoot_killed|].
        apply (descends_insert _ a' p (credited p)); [|apply sameFoot_credited].
        by rewrite list_lookup_insert_ne.
      * by rewrite !list_lookup_insert_ne.
      * by rewrite !list_lookup_insert_ne.
      * intros _. by apply inherited_wf.
      * intros x y. apply inherited_isValidTile.
      * intros x y o Hvalid Ho Hin. rewrite inherited_cells by (done || lia). rewrite Ho.
        destruct (Z.eqb_spec o (Player.id q)); [|done]. lia.
      * destruct Hb as [->|[t ->]]; [done|]. by rewrite lookup_insert_ne.
      * destruct Hb as [->|[t ->]]; [done|]. by rewrite lookup_insert_ne.
    + intros r Hr. rewrite Hps in Hr.
      rewrite list_lookup_insert_eq in Hr by (by rewrite length_insert).
      injection Hr as <-. change (Player.alive p = true). by apply Halive.
  - (* a pair that involves [a] or [v]: it is not in contact *)
    assert (quiet g (Game.attack clock random PI cosF sinF distance fadd g a' v')) as Hq.
    { apply attack_quiet; [|done]. intros Hc.
      apply (contact_descends ps) in Hc; [|done].
      destruct (others_apart a' v' Hc) as [[-> ->]|Hfar]; [by destruct Hpair|done]. }
    split; [by apply quiet_spares|]. destruct Hq as [-> _]. done.
Qed.

Lemma attacks_spares g a' vs :
  descends ps (allPlayers g) → TerritoryMap.wf (territoryMap g) →
  (∀ p, allPlayers g !! a' = Some p → Player.alive p = true) →
  (a' = a → v ∉ vs) →
  let g' := foldl (λ g v, Game.attack clock random PI cosF sinF distance fadd g a' v) g vs in
  spares a v ida idv g g'.
Proof.
  intros Hdesc Hwf Halive Hpair. cbv zeta.
  assert (spares a v ida idv g
            (foldl (λ g v, Game.attack clock random PI cosF sinF distance fadd g a' v) g vs) ∧
          (∀ p, allPlayers
                  (foldl (λ g v, Game.attack clock random PI cosF sinF distance fadd g a' v) g vs)
                !! a' = Some p → Player.alive p = true)) as [H _]; [|done].
  induction vs as [|v' vs IH] using rev_ind; [split; [apply spares_refl|done]|].
  rewrite foldl_app. cbn [foldl].
  destruct IH as [Hs Hal].
  { intros Heq Hin. apply (Hpair Heq). rewrite elem_of_app. by left. }
  set (g1 := foldl _ g vs) in *.
  pose proof Hs as (Hd1 & _ & _ & Hw1 & _).
  destruct (attack_spares g1 a' v') as [Hs2 Hal2]; [by eapply descends_trans|auto|done| |].
  { destruct (decide (a' = a)) as [Heq|Hne]; [|by left].
    right. intros ->. apply (Hpair Heq). rewrite elem_of_app, list_elem_of_singleton. by right. }
  split; [by eapply spares_trans|done].
Qed.

Lemma attackers_spares g idx vs :
  descends ps (allPlayers g) → TerritoryMap.wf (territoryMap g) →
  (a ∈ idx → v ∉ vs) →
  spares a v ida idv g (foldl (λ g a,
    match allPlayers g !! a with
    | None => g
    | Some attacker =>
        if negb (Player.alive attacker) then g
        else foldl (λ g v, Game.attack clock random PI cosF sinF distance fadd g a v) g vs
    end) g idx).
Proof.
  intros Hdesc Hwf Hpair.
  induction idx as [|a' idx IH] using rev_ind; [apply spares_refl|].
  rewrite foldl_app. cbn [foldl].
  match goal with |- spares _ _ _ _ g (match allPlayers ?x !! a' with _ => _ end) =>
    set (g1 := x) end.
  assert (spares a v ida idv g g1) as Hs.
  { apply IH. intros Hin. apply Hpair. rewrite elem_of_app. by left. }
  pose proof Hs as (Hd1 & _ & _ & Hw1 & _).
  eapply spares_trans; [exact Hs|].
  destruct (allPlayers g1 !! a') as [p|] eqn:Hp; [|apply spares_refl].
  destruct (Player.alive p) eqn:Hpa; [|apply spares_refl]. cbn [negb].
  apply attacks_spares; [by eapply descends_trans|auto|intros r Hr; congruence|].
  intros ->. apply Hpair. rewrite elem_of_app, list_elem_of_singleton. by right.
Qed.

End Bystanders.

Lemma checkAllTailCollisions_lists g idx vs :
  seq 0 (length (allPlayers g)) = idx → seq 0 (length (allPlayers g)) = vs →
  Game.checkAllTailCollisions clock random PI cosF sinF distance fadd g
  = foldl (λ g a,
      match allPlayers g !! a with
      | None => g
      | Some attacker =>
          if negb (Player.alive attacker) then g
          else foldl (λ g v, Game.attack clock random PI cosF sinF distance fadd g a v) g vs
      end) g idx.
Proof. by intros <- <-. Qed.


(** X30: a pass of [checkAllTailCollisions] in which one pair of
    players only is in contact, a live attacker within the collision
    radius of a point of the trail of a live victim other than its last
    two, the two having different ids. Unless the victim is immune at
    the reading of the clock made for it (an immune victim is exempt:
    the players, the grid and the boosts are left alone), the victim
    dies with its trail cleared, the attacker has exactly one kill more
    and no other player changes; every tile of the victim becomes the
    attacker's, or neutral under the no-inheritance policy, and every
    other tile keeps its owner; and the attacker is granted a boost
    exactly when its kill count becomes a multiple of 3. *)
Theorem single_contact_pass g a v attacker victim :
  allPlayers g !! a = Some attacker → allPlayers g !! v = Some victim →
  Player.alive attacker = true → Player.alive victim = true →
  Player.id attacker ≠ Player.id victim →
  touches distance attacker victim →
  (∀ a' v', contact distance (allPlayers g) a' v' → a' = a ∧ v' = v) →
  TerritoryMap.wf (territoryMap g) → 0 <= Player.id attacker < 256 →
  let g' := Game.checkAllTailCollisions clock random PI cosF sinF distance fadd g in
  ∃ n, (clockReads g <= n)%nat ∧
    if immuneAt clock g victim n then
      allPlayers g' = allPlayers g ∧ territoryMap g' = territoryMap g ∧
      boostEndTimes g' = boostEndTimes g
    else
      allPlayers g' = <[a := credited attacker]> (<[v := killed victim]> (allPlayers g)) ∧
      (∀ x y, TerritoryMap.isValidTile (territoryMap g) x y = true →
         TerritoryMap.getOwner (territoryMap g') x y
         = if TerritoryMap.getOwner (territoryMap g) x y =? Player.id victim
           then heir g attacker
           else TerritoryMap.getOwner (territoryMap g) x y) ∧
      (if Z.rem (Player.kills attacker + 1) 3 =? 0
       then ∃ n', (n <= n')%nat ∧
              boostEndTimes g'
              = <[Player.id attacker := fadd (clock n') Game.boostDuration]> (boostEndTimes g)
       else boostEndTimes g' = boostEndTimes g).
Proof.
  intros Ha Hv Haa Hva Hid Htouch Honly Hwf Hrange. cbv zeta.
  pose proof (lookup_lt_Some _ _ _ Ha) as Hla.
  pose proof (lookup_lt_Some _ _ _ Hv) as Hlv.
  assert (∀ k n, (k < n)%nat → seq 0 n = seq 0 k ++ k :: seq (S k) (n - S k)) as Hsplit.
  { intros k n Hk. replace n with (k + S (n - S k))%nat at 1 by lia.
    by rewrite seq_app. }
  rewrite (checkAllTailCollisions_lists g _ _ (Hsplit a _ Hla) (Hsplit v _ Hlv)).
  destruct (pass_one_contact g a v attacker victim (seq 0 a)
              (seq (S a) (length (allPlayers g) - S a)) (seq 0 v)
              (seq (S v) (length (allPlayers g) - S v)) Ha Hv Haa Hva Hid Htouch Honly)
    as (g0 & Hq0 & Hres); try (rewrite elem_of_seq; lia).
  cbv zeta in Hres. destruct Hq0 as (_ & _ & _ & _ & _ & _ & _ & _ & _ & Hc0).
  exists (clockReads g0). split; [done|].
  destruct (immuneAt clock g victim (clockReads g0)).
  - destruct Hres as (Hp & Hm & Hb & _). done.
  - destruct Hres as (Hp & Hm & Hb). split; [done|]. split; [|done].
    intros x y Hvalid. rewrite Hm. by apply inherited_cells.
Qed.


(** X25: a pass of [checkAllTailCollisions] in which no two players are
    in contact (no living player within the collision distance, as the
    engine computes it, of a checked point of the trail of another
    living player) kills nobody: the players, the grid, the boosts and
    their notifications, the kill effects, the capture queue and the
    record of who was at home are all what they were; only the clock
    may have been read, to see whether a victim is boosted. *)
Theorem quiet_collision_pass g :
  noContact distance (allPlayers g) →
  quiet g (Game.checkAllTailCollisions clock random PI cosF sinF distance fadd g).
Proof. intros Hno. apply attackers_quiet. intros a v _ _. apply Hno. Qed.

End CollisionFacts.


Lemma single_contact_pass_witness :
  let g := duelGame in
  let g' := Game.checkAllTailCollisions clock0 random0 PI0 cos0 sin0 distance0 Qplus g in
  (allPlayers g !! 0%nat = Some duelAttacker ∧ allPlayers g !! 1%nat = Some duelVictim ∧
   Player.alive duelAttacker = true ∧ Player.alive duelVictim = true ∧
   Player.id duelAttacker ≠ Player.id duelVictim ∧
   touches distance0 duelAttacker duelVictim ∧
   (∀ a' v', contact distance0 (allPlayers g) a' v' → a' = 0%nat ∧ v' = 1%nat) ∧
   TerritoryMap.wf (territoryMap g) ∧ 0 <= Player.id duelAttacker < 256) ∧
  ∃ n, (clockReads g <= n)%nat ∧
    if immuneAt clock0 g duelVictim n then
      allPlayers g' = allPlayers g ∧ territoryMap g' = territoryMap g ∧
      boostEndTimes g' = boostEndTimes g
    else
      allPlayers g' = <[0%nat := credited duelAttacker]> (<[1%nat := killed duelVictim]> (allPlayers g)) ∧
      (∀ x y, TerritoryMap.isValidTile (territoryMap g) x y = true →
         TerritoryMap.getOwner (territoryMap g') x y
         = if TerritoryMap.getOwner (territoryMap g) x y =? Player.id duelVictim
           then heir g duelAttacker
           else TerritoryMap.getOwner (territoryMap g) x y) ∧
      (if Z.rem (Player.kills duelAttacker + 1) 3 =? 0
       then ∃ n', (n <= n')%nat ∧
              boostEndTimes g'
              = <[Player.id duelAttacker := (clock0 n' + Game.boostDuration)%Q]> (boostEndTimes g)
       else boostEndTimes g' = boostEndTimes g).
Proof.
  assert (touches distance0 duelAttacker duelVictim) as Htouch.
  { exists 0%nat, (Vec2.mk (22 # 1) (22 # 1)). split_and!; [cbn; lia|reflexivity|by vm_compute]. }
  assert (∀ a' v', contact distance0 (allPlayers duelGame) a' v' → a' = 0%nat ∧ v' = 1%nat)
    as Honly.
  { intros a' v' (p & q & Hp & Hq & _ & _ & Hid & (i & pt & Hi & _)).
    destruct a' as [|[|a']]; destruct v' as [|[|v']]; cbn in Hp, Hq; simplify_eq;
      first [done | cbn in Hi; lia]. }
  assert (TerritoryMap.wf (territoryMap duelGame)) as Hwf.
  { repeat apply setOwner_wf. apply blank_wf; lia. }
  split; [split_and!; try reflexivity; try done; try discriminate; cbn; lia|].
  apply (single_contact_pass clock0 random0 PI0 cos0 sin0 distance0 Qplus duelGame 0%nat 1%nat
           duelAttacker duelVictim); try reflexivity; try done; try discriminate.
Defined.

Lemma quiet_collision_pass_witness :
  let g := standoffGame in
  noContact distance0 (allPlayers g) ∧
  quiet g (Game.checkAllTailCollisions clock0 random0 PI0 cos0 sin0 distance0 Qplus g).
Proof.
  assert (noContact distance0 (allPlayers standoffGame)) as Hno.
  { intros a' v' (p & q & Hp & Hq & _ & _ & Hid & (i & pt & Hi & Hpt & Hd)).
    destruct a' as [|[|a']]; destruct v' as [|[|v']]; cbn in Hp, Hq; simplify_eq;
      try done; try (cbn in Hi; lia).
    destruct i as [|[|i]]; cbn in Hi, Hpt; simplify_eq; try lia;
      vm_compute in Hd; discriminate Hd. }
  split; [exact Hno|]. by apply quiet_collision_pass.
Defined.

(** ** Capture by flood fill *)

Section GridFacts.
Variables W H : Z.
Hypothesis W_pos : 0 < W.
Hypothesis H_pos : 0 < H.

Lemma elem_of_zrange a lo hi : a ∈ zrange lo hi ↔ lo <= a <= hi.
Proof.
  unfold zrange. rewrite list_elem_of_fmap. split.
  - intros (i & -> & Hi). apply elem_of_seq in Hi. lia.
  - intros Ha. exists (Z.to_nat (a - lo)). split; [lia|]. apply elem_of_seq. lia.
Qed.

Lemma local_index_range lx ly : inGrid W H lx ly → 0 <= ly * W + lx < W * H.
Proof.
  intros [Hx Hy]. assert (0 <= ly * W) by nia.
  assert ((ly + 1) * W <= H * W) by nia. lia.
Qed.

Lemma local_index_inj lx ly lx' ly' :
  inGrid W H lx ly → inGrid W H lx' ly' → ly * W + lx = ly' * W + lx' → lx = lx' ∧ ly = ly'.
Proof. intros [Hx Hy] [Hx' Hy'] Heq. assert (ly = ly') as -> by nia. lia. Qed.

Lemma readU8_writeU8_eq (G : list Z) i v :
  0 <= i < Z.of_nat (length G) → readU8 (writeU8 G i v) i = Some (toUint8 v).
Proof.
  intros Hi. unfold readU8, writeU8. destruct (Z.ltb_spec i 0); [lia|].
  apply list_lookup_insert_eq. lia.
Qed.

Lemma readU8_writeU8_ne (G : list Z) i j v :
  0 <= j → i ≠ j → readU8 (writeU8 G i v) j = readU8 G j.
Proof.
  intros Hj Hne. unfold readU8, writeU8. destruct (Z.ltb_spec j 0); [lia|].
  destruct (Z.ltb_spec i 0); [done|]. apply list_lookup_insert_ne. lia.
Qed.

Lemma length_writeU8 (G : list Z) i v : length (writeU8 G i v) = length G.
Proof. unfold writeU8. case_match; [done|]. apply length_insert. Qed.

Lemma Marks_refl G : Marks W H G G (λ _ _, False).
Proof. split; [done|]. intros lx ly _. split; [done|]. by left. Qed.

Lemma Marks_trans G G' G'' (S T : Z → Z → Prop) :
  Marks W H G G' S → Marks W H G' G'' T → Marks W H G G'' (λ x y, S x y ∨ T x y).
Proof.
  intros [Hl1 H1] [Hl2 H2]. split; [congruence|]. intros lx ly Hin.
  destruct (H1 lx ly Hin) as [Ha1 Hb1]. destruct (H2 lx ly Hin) as [Ha2 Hb2].
  split.
  - intros [Hs|Ht]; [|by apply Ha2].
    destruct Hb2 as [->|[_ ->]]; [by apply Ha1|done].
  - destruct Hb2 as [Heq|[Ht Hc]]; [|right; auto].
    rewrite Heq. destruct Hb1 as [?|[Hs Hc]]; [by left|right; auto].
Qed.

Lemma Marks_iff G G' (S T : Z → Z → Prop) :
  (∀ lx ly, inGrid W H lx ly → (S lx ly ↔ T lx ly)) →
  Marks W H G G' S → Marks W H G G' T.
Proof.
  intros Hiff [Hl Hm]. split; [done|]. intros lx ly Hin.
  destruct (Hm lx ly Hin) as [Ha Hb]. pose proof (Hiff lx ly Hin) as Hst. split.
  - intros Ht. apply Ha. by apply Hst.
  - destruct Hb as [?|[Hs ?]]; [by left|right]. split; [by apply Hst|done].
Qed.

Lemma Marks_write G cx cy :
  length G = Z.to_nat (W * H) →
  Marks W H G
    (if (0 <=? cx) && (cx <? W) && (0 <=? cy) && (cy <? H)
     then writeU8 G (cy * W + cx) 1 else G)
    (λ x y, x = cx ∧ y = cy).
Proof.
  intros Hlen.
  destruct ((0 <=? cx) && (cx <? W) && (0 <=? cy) && (cy <? H)) eqn:Hb.
  - assert (inGrid W H cx cy) as Hc by (rewrite !andb_true_iff in Hb; unfold inGrid; lia).
    pose proof (local_index_range _ _ Hc) as Hr.
    split; [apply length_writeU8|]. intros lx ly Hin.
    pose proof (local_index_range _ _ Hin) as Hr'. unfold cellAt. split.
    + intros [-> ->]. rewrite readU8_writeU8_eq by lia. done.
    + destruct (decide (ly * W + lx = cy * W + cx)) as [Heq|Hne].
      * right. destruct (local_index_inj _ _ _ _ Hin Hc Heq) as [-> ->].
        split; [done|]. rewrite readU8_writeU8_eq by lia. done.
      * left. apply readU8_writeU8_ne; lia.
  - split; [done|]. intros lx ly [Hx Hy]. split; [|by left].
    intros [-> ->]. rewrite !andb_false_iff in Hb. lia.
Qed.

Lemma Marks_foldl {A} (f : list Z → A → list Z) (S : A → Z → Z → Prop) (l : list A) G :
  length G = Z.to_nat (W * H) →
  (∀ G a, a ∈ l → length G = Z.to_nat (W * H) → Marks W H G (f G a) (S a)) →
  Marks W H G (foldl f G l) (λ x y, ∃ a, a ∈ l ∧ S a x y).
Proof.
  intros Hlen Hf. revert G Hlen. induction l as [|a l IH]; intros G Hlen; simpl.
  - eapply Marks_iff; [|apply Marks_refl]. intros lx ly _. split; [done|].
    intros (a & Ha & _). by apply not_elem_of_nil in Ha.
  - assert (a ∈ a :: l) as Hin by left.
    pose proof (Hf G a Hin Hlen) as H1.
    assert (length (f G a) = Z.to_nat (W * H)) as Hlen' by (destruct H1; congruence).
    assert (Marks W H (f G a) (foldl f (f G a) l) (λ x y, ∃ a, a ∈ l ∧ S a x y)) as H2.
    { apply IH; [|done]. intros G0 a0 Ha0. apply Hf. by right. }
    eapply Marks_iff; [|exact (Marks_trans _ _ _ _ _ H1 H2)].
    intros lx ly _. simpl. split.
    + intros [Hs|(a' & Ha' & Hs)]; [exists a; split; [by left|done]|].
      exists a'. split; [by right|done].
    + intros (a' & Ha' & Hs). apply elem_of_cons in Ha' as [->|Ha']; [by left|].
      right. by exists a'.
Qed.

Lemma Marks_stamp G cx cy :
  length G = Z.to_nat (W * H) →
  Marks W H G (Game.stamp G W H cx cy) (near (mkTile cx cy)).
Proof.
  intros Hlen. unfold Game.stamp.
  eapply Marks_iff; [|apply (Marks_foldl _
    (λ oy x y, ∃ ox, ox ∈ zrange (-1) 1 ∧ (x = cx + ox ∧ y = cy + oy)))]; [|done|].
  - intros lx ly _. unfold near. simpl. split.
    + intros (oy & Hoy & ox & Hox & -> & ->). apply elem_of_zrange in Hoy, Hox. lia.
    + intros [Hx Hy]. exists (ly - cy). split; [apply elem_of_zrange; lia|].
      exists (lx - cx). split; [apply elem_of_zrange; lia|]. lia.
  - intros G0 oy _ Hlen0.
    apply (Marks_foldl _ (λ ox x y, x = cx + ox ∧ y = cy + oy)); [done|].
    intros G1 ox _ Hlen1. by apply Marks_write.
Qed.

End GridFacts.

Section LineFacts.

Lemma lineLoop_linePoints W H fuel G x0 y0 x1 y1 dx dy sx sy err :
  Game.lineLoop fuel G W H x0 y0 x1 y1 dx dy sx sy err
  = foldl (λ G p, Game.stamp G W H (tx p) (ty p)) G
      (linePoints fuel x0 y0 x1 y1 dx dy sx sy err).
Proof.
  revert G x0 y0 err. induction fuel as [|fuel IH]; intros G x0 y0 err; simpl.
  - by destruct ((x0 =? x1) && (y0 =? y1)).
  - destruct ((x0 =? x1) && (y0 =? y1)); [done|]. apply IH.
Qed.

Lemma eqb_shift a b o : (a - o =? b - o) = (a =? b).
Proof. destruct (Z.eqb_spec (a - o) (b - o)), (Z.eqb_spec a b); lia. Qed.

Lemma linePoints_shift ox oy fuel x0 y0 x1 y1 dx dy sx sy err :
  linePoints fuel (x0 - ox) (y0 - oy) (x1 - ox) (y1 - oy) dx dy sx sy err
  = (λ p, mkTile (tx p - ox) (ty p - oy)) <$> linePoints fuel x0 y0 x1 y1 dx dy sx sy err.
Proof.
  revert x0 y0 err. induction fuel as [|fuel IH]; intros x0 y0 err; simpl.
  - rewrite !eqb_shift. by destruct ((x0 =? x1) && (y0 =? y1)).
  - rewrite !eqb_shift.
    destruct ((x0 =? x1) && (y0 =? y1)); [done|]. simpl. f_equal.
    rewrite <- IH. f_equal; repeat case_match; lia.
Qed.

(** The state of the line loop after [a] steps along x and [b] steps
    along y, on the way from [(xs, ys)] to [(x1, y1)]. *)
Lemma linePoints_invariant xs ys x1 y1 fuel a b :
  let dx := Z.abs (x1 - xs) in
  let dy := Z.abs (y1 - ys) in
  let sx := if xs <? x1 then 1 else -1 in
  let sy := if ys <? y1 then 1 else -1 in
  0 <= a <= dx → 0 <= b <= dy →
  let pts := linePoints fuel (xs + sx * a) (ys + sy * b) x1 y1 dx dy sx sy
               (dx - dy - a * dy + b * dx) in
  (∀ p, p ∈ pts →
     Z.min xs x1 <= tx p <= Z.max xs x1 ∧ Z.min ys y1 <= ty p <= Z.max ys y1) ∧
  (dx - a + (dy - b) <= Z.of_nat fuel → last pts = Some (mkTile x1 y1)).
Proof.
  intros dx dy sx sy. revert a b.
  induction fuel as [|fuel IH]; intros a b Ha Hb; cbn [linePoints].
  - assert (Z.min xs x1 <= xs + sx * a <= Z.max xs x1 ∧
            Z.min ys y1 <= ys + sy * b <= Z.max ys y1) as Hbox.
    { subst dx dy sx sy. destruct (Z.ltb_spec xs x1), (Z.ltb_spec ys y1); lia. }
    split.
    + intros p Hp. destruct ((xs + sx * a =? x1) && (ys + sy * b =? y1));
        apply list_elem_of_singleton in Hp; subst p; simpl; exact Hbox.
    + intros Hfuel. assert (a = dx ∧ b = dy) as [-> ->] by lia.
      assert (xs + sx * dx = x1) as -> by (subst dx sx; destruct (Z.ltb_spec xs x1); lia).
      assert (ys + sy * dy = y1) as -> by (subst dy sy; destruct (Z.ltb_spec ys y1); lia).
      by rewrite !Z.eqb_refl.
  - assert (Z.min xs x1 <= xs + sx * a <= Z.max xs x1 ∧
            Z.min ys y1 <= ys + sy * b <= Z.max ys y1) as Hbox.
    { subst dx dy sx sy. destruct (Z.ltb_spec xs x1), (Z.ltb_spec ys y1); lia. }
    assert ((xs + sx * a =? x1) && (ys + sy * b =? y1) = true ↔ a = dx ∧ b = dy) as Hend.
    { rewrite andb_true_iff, !Z.eqb_eq. subst dx dy sx sy.
      destruct (Z.ltb_spec xs x1), (Z.ltb_spec ys y1); lia. }
    destruct ((xs + sx * a =? x1) && (ys + sy * b =? y1)) eqn:Hat.
    + split.
      * intros p Hp. apply list_elem_of_singleton in Hp. subst p. exact Hbox.
      * intros _. destruct (proj1 Hend eq_refl) as [-> ->].
        assert (xs + sx * dx = x1) as -> by (subst dx sx; destruct (Z.ltb_spec xs x1); lia).
        assert (ys + sy * dy = y1) as -> by (subst dy sy; destruct (Z.ltb_spec ys y1); lia).
        done.
    + assert (¬ (a = dx ∧ b = dy)) as Hnot by (intros Hab; apply Hend in Hab; congruence).
      set (e2 := 2 * (dx - dy - a * dy + b * dx)).
      assert (- dy < e2 → a < dx) as Hxstep.
      { intros Hlt. destruct (decide (a = dx)) as [->|]; [|lia].
        assert (b <= dy - 1) by lia. subst e2. nia. }
      assert (e2 < dx → b < dy) as Hystep.
      { intros Hlt. destruct (decide (b = dy)) as [->|]; [|lia].
        assert (a <= dx - 1) by lia. subst e2. nia. }
      assert (- dy < e2 ∨ e2 < dx) as Hprogress.
      { destruct (Z.lt_ge_cases (- dy) e2); [by left|].
        destruct (Z.lt_ge_cases e2 dx); [by right|]. exfalso. apply Hnot. lia. }
      set (a' := if - dy <? e2 then a + 1 else a).
      set (b' := if e2 <? dx then b + 1 else b).
      assert (0 <= a' <= dx) as Ha'.
      { subst a'. destruct (Z.ltb_spec (- dy) e2); lia. }
      assert (0 <= b' <= dy) as Hb'.
      { subst b'. destruct (Z.ltb_spec e2 dx); lia. }
      destruct (IH a' b' Ha' Hb') as [Hin Hlast].
      assert ((if - dy <? e2 then xs + sx * a + sx else xs + sx * a) = xs + sx * a') as Ex.
      { subst a'. destruct (- dy <? e2); lia. }
      assert ((if e2 <? dx then ys + sy * b + sy else ys + sy * b) = ys + sy * b') as Ey.
      { subst b'. destruct (e2 <? dx); lia. }
      assert ((if e2 <? dx
               then (if - dy <? e2 then dx - dy - a * dy + b * dx - dy
                     else dx - dy - a * dy + b * dx) + dx
               else (if - dy <? e2 then dx - dy - a * dy + b * dx - dy
                     else dx - dy - a * dy + b * dx))
              = dx - dy - a' * dy + b' * dx) as Ee.
      { subst a' b'. destruct (- dy <? e2), (e2 <? dx); lia. }
      cbv zeta. fold e2. rewrite Ex, Ey, Ee. split.
      * intros p Hp. apply elem_of_cons in Hp as [->|Hp]; [exact Hbox|]. by apply Hin.
      * intros Hfuel.
        assert (dx - a' + (dy - b') <= Z.of_nat fuel) as Hfuel'.
        { subst a' b'. destruct (Z.ltb_spec (- dy) e2), (Z.ltb_spec e2 dx); lia. }
        specialize (Hlast Hfuel').
        destruct (linePoints fuel (xs + sx * a') (ys + sy * b') x1 y1 dx dy sx sy
                    (dx - dy - a' * dy + b' * dx)) as [|q qs] eqn:Hpts; [done|].
        exact Hlast.
Qed.

Lemma rasterLine_bounds t0 t1 p :
  p ∈ rasterLine t0 t1 →
  Z.min (tx t0) (tx t1) <= tx p <= Z.max (tx t0) (tx t1) ∧
  Z.min (ty t0) (ty t1) <= ty p <= Z.max (ty t0) (ty t1).
Proof.
  unfold rasterLine.
  pose proof (linePoints_invariant (tx t0) (ty t0) (tx t1) (ty t1)
                (Z.to_nat (Z.abs (tx t1 - tx t0) + Z.abs (ty t1 - ty t0))) 0 0) as Hinv.
  cbv zeta in Hinv. rewrite !Z.mul_0_r, !Z.mul_0_l, !Z.add_0_r, !Z.sub_0_r in Hinv.
  destruct Hinv as [Hin _]; [lia|lia|]. apply Hin.
Qed.

Lemma rasterLine_last t0 t1 : last (rasterLine t0 t1) = Some (mkTile (tx t1) (ty t1)).
Proof.
  unfold rasterLine.
  pose proof (linePoints_invariant (tx t0) (ty t0) (tx t1) (ty t1)
                (Z.to_nat (Z.abs (tx t1 - tx t0) + Z.abs (ty t1 - ty t0))) 0 0) as Hinv.
  cbv zeta in Hinv. rewrite !Z.mul_0_r, !Z.mul_0_l, !Z.add_0_r, !Z.sub_0_r in Hinv.
  destruct Hinv as [_ Hlast]; [lia|lia|]. apply Hlast. lia.
Qed.

(** The loop of [markThickLine] ends by reaching the end point: with the
    fuel it is given, the last point it stamps is [(x1, y1)]. *)
Lemma linePoints_reaches_end t0 t1 :
  t1 ∈ rasterLine t0 t1 ∧ t0 ∈ rasterLine t0 t1.
Proof.
  split.
  - pose proof (rasterLine_last t0 t1) as Hl. apply last_Some in Hl as [l' Hl].
    rewrite Hl. apply elem_of_app. right. destruct t1. by left.
  - unfold rasterLine. destruct (Z.to_nat _); simpl; destruct t0; by left.
Qed.

Lemma Marks_markThickLine W H G ox oy x0 y0 x1 y1 :
  0 < W → 0 < H → length G = Z.to_nat (W * H) →
  Marks W H G (Game.markThickLine G W H ox oy x0 y0 x1 y1)
    (λ lx ly, ∃ p, p ∈ rasterLine (mkTile x0 y0) (mkTile x1 y1) ∧ near p (lx + ox) (ly + oy)).
Proof.
  intros HW HH Hlen. unfold Game.markThickLine. rewrite lineLoop_linePoints.
  replace (x1 - ox - (x0 - ox)) with (x1 - x0) by lia.
  replace (y1 - oy - (y0 - oy)) with (y1 - y0) by lia.
  replace (x0 - ox <? x1 - ox) with (x0 <? x1)
    by (destruct (Z.ltb_spec x0 x1), (Z.ltb_spec (x0 - ox) (x1 - ox)); lia).
  replace (y0 - oy <? y1 - oy) with (y0 <? y1)
    by (destruct (Z.ltb_spec y0 y1), (Z.ltb_spec (y0 - oy) (y1 - oy)); lia).
  rewrite linePoints_shift.
  eapply Marks_iff; [|apply (Marks_foldl W H _ (λ p, near p))]; [|done|].
  - intros lx ly _. unfold rasterLine. simpl. split.
    + intros (q & Hq & Hn). apply list_elem_of_fmap in Hq as (p & -> & Hp).
      exists p. split; [done|]. unfold near in *. simpl in *. lia.
    + intros (p & Hp & Hn). exists (mkTile (tx p - ox) (ty p - oy)). split.
      * apply list_elem_of_fmap. by exists p.
      * unfold near in *. simpl. lia.
  - intros G0 p _ Hlen0. destruct p as [px py]. by apply Marks_stamp.
Qed.

End LineFacts.

Section BarrierFacts.
Variable m : TerritoryMap.
Variable A : Z.
Variable b : Game.Bounds.
Hypothesis box_x : Game.minX b <= Game.maxX b.
Hypothesis box_y : Game.minY b <= Game.maxY b.

Let W := Game.boxWidthOf b.
Let H := Game.boxHeightOf b.

Lemma box_W_pos : 0 < W.
Proof. subst W. unfold Game.boxWidthOf. lia. Qed.

Lemma box_H_pos : 0 < H.
Proof. subst H. unfold Game.boxHeightOf. lia. Qed.

Lemma Marks_write_inGrid G cx cy :
  inGrid W H cx cy → length G = Z.to_nat (W * H) →
  Marks W H G (writeU8 G (cy * W + cx) 1) (λ x y, x = cx ∧ y = cy).
Proof.
  intros [Hx Hy] Hlen. pose proof (Marks_write W H box_W_pos box_H_pos G cx cy Hlen) as Hm.
  assert ((0 <=? cx) && (cx <? W) && (0 <=? cy) && (cy <? H) = true) as Hb.
  { rewrite !andb_true_iff. lia. }
  by rewrite Hb in Hm.
Qed.

Lemma Marks_markTerritory G :
  length G = Z.to_nat (W * H) →
  Marks W H G (Game.markTerritory m A b G)
    (λ lx ly, TerritoryMap.getOwner m (lx + Game.minX b) (ly + Game.minY b) = A).
Proof.
  intros Hlen. unfold Game.markTerritory.
  eapply Marks_iff; [|apply (Marks_foldl W H _
    (λ y lx ly, ∃ x, x ∈ zrange (Game.minX b) (Game.maxX b) ∧
       (TerritoryMap.getOwner m x y = A ∧ lx = x - Game.minX b ∧ ly = y - Game.minY b)))];
    [|done|].
  - intros lx ly [Hx Hy]. subst W H. unfold Game.boxWidthOf, Game.boxHeightOf in *. split.
    + intros (y & Hyr & x & Hxr & Ho & -> & ->).
      by replace (x - Game.minX b + Game.minX b) with x by lia;
         replace (y - Game.minY b + Game.minY b) with y by lia.
    + intros Ho. exists (ly + Game.minY b). split; [apply elem_of_zrange; lia|].
      exists (lx + Game.minX b). split; [apply elem_of_zrange; lia|].
      split; [done|lia].
  - intros G0 y Hyr Hlen0. apply elem_of_zrange in Hyr.
    apply (Marks_foldl W H _
      (λ x lx ly, TerritoryMap.getOwner m x y = A ∧ lx = x - Game.minX b ∧ ly = y - Game.minY b));
      [done|].
    intros G1 x Hxr Hlen1. apply elem_of_zrange in Hxr.
    destruct (Z.eqb_spec (TerritoryMap.getOwner m x y) A) as [Ho|Ho].
    + eapply Marks_iff; [|apply Marks_write_inGrid; [|done]].
      * intros lx ly _. simpl. tauto.
      * subst W H. unfold inGrid, Game.boxWidthOf, Game.boxHeightOf. lia.
    + eapply Marks_iff; [|apply Marks_refl]. intros lx ly _. simpl. tauto.
Qed.

Lemma Marks_markTail tiles G :
  length G = Z.to_nat (W * H) →
  Marks W H G (Game.markTail b tiles G)
    (λ lx ly, ∃ p, p ∈ lineTiles tiles ∧ near p (lx + Game.minX b) (ly + Game.minY b)).
Proof.
  revert G. induction tiles as [|t0 rest IH]; intros G Hlen.
  { eapply Marks_iff; [|apply Marks_refl]. intros lx ly _. split; [done|].
    intros (p & Hp & _). by apply not_elem_of_nil in Hp. }
  destruct rest as [|t1 rest'].
  { eapply Marks_iff; [|apply Marks_refl]. intros lx ly _. split; [done|].
    intros (p & Hp & _). by apply not_elem_of_nil in Hp. }
  cbn [Game.markTail lineTiles].
  pose proof (Marks_markThickLine W H G (Game.minX b) (Game.minY b)
                (tx t0) (ty t0) (tx t1) (ty t1) box_W_pos box_H_pos Hlen) as H1.
  assert (length (Game.markThickLine G W H (Game.minX b) (Game.minY b)
                    (tx t0) (ty t0) (tx t1) (ty t1)) = Z.to_nat (W * H)) as Hlen'
    by (destruct H1; congruence).
  eapply Marks_iff; [|exact (Marks_trans W H _ _ _ _ _ H1 (IH _ Hlen'))].
  intros lx ly _. simpl.
  assert (mkTile (tx t0) (ty t0) = t0) as -> by (by destruct t0).
  assert (mkTile (tx t1) (ty t1) = t1) as -> by (by destruct t1).
  split.
  - intros [(p & Hp & Hn)|(p & Hp & Hn)]; exists p; (split; [|done]);
      apply elem_of_app; auto.
  - intros (p & Hp & Hn). apply elem_of_app in Hp as [Hp|Hp]; [left|right]; by exists p.
Qed.

Lemma Marks_markTailPoints tiles G :
  length G = Z.to_nat (W * H) →
  Marks W H G (Game.markTailPoints b tiles G)
    (λ lx ly, ∃ t, t ∈ tiles ∧ near t (lx + Game.minX b) (ly + Game.minY b)).
Proof.
  intros Hlen. unfold Game.markTailPoints.
  eapply Marks_iff; [|apply (Marks_foldl W H _
    (λ t, near (mkTile (tx t - Game.minX b) (ty t - Game.minY b))))]; [|done|].
  - intros lx ly _. unfold near. simpl. split.
    + intros (t & Ht & Hn). exists t. split; [done|]. lia.
    + intros (t & Ht & Hn). exists t. split; [done|]. lia.
  - intros G0 t _ Hlen0. by apply (Marks_stamp W H box_W_pos box_H_pos).
Qed.

(** The temporary grid before the flood fill: 1 on the owner's tiles and
    on the thick loop, 0 elsewhere. *)
Lemma barrierGrid_spec tiles :
  let G := Game.barrierGrid m A b tiles in
  length G = Z.to_nat (W * H) ∧
  ∀ lx ly, inGrid W H lx ly →
    let x := lx + Game.minX b in
    let y := ly + Game.minY b in
    (TerritoryMap.getOwner m x y = A ∨ onThickLoop tiles x y → cellAt G W lx ly = Some 1) ∧
    (freeTile m A tiles x y → cellAt G W lx ly = Some 0) ∧
    (cellAt G W lx ly = Some 0 ∨ cellAt G W lx ly = Some 1).
Proof.
  unfold Game.barrierGrid. fold W H.
  set (G0 := replicate (Z.to_nat (W * H)) 0).
  assert (length G0 = Z.to_nat (W * H)) as Hlen0 by apply length_replicate.
  pose proof (Marks_markTerritory G0 Hlen0) as H1.
  assert (length (Game.markTerritory m A b G0) = Z.to_nat (W * H)) as Hlen1
    by (destruct H1; congruence).
  pose proof (Marks_markTail tiles _ Hlen1) as H2.
  assert (length (Game.markTail b tiles (Game.markTerritory m A b G0)) = Z.to_nat (W * H))
    as Hlen2 by (destruct H2; congruence).
  pose proof (Marks_markTailPoints tiles _ Hlen2) as H3.
  pose proof (Marks_trans W H _ _ _ _ _ (Marks_trans W H _ _ _ _ _ H1 H2) H3) as [Hlen Hm].
  split; [congruence|]. intros lx ly Hin.
  set (x := lx + Game.minX b). set (y := ly + Game.minY b).
  destruct (Hm lx ly Hin) as [Ha Hb]. fold x y in Ha, Hb.
  assert (cellAt G0 W lx ly = Some 0) as Hinit.
  { unfold cellAt, readU8, G0. pose proof (local_index_range W H box_W_pos box_H_pos _ _ Hin).
    destruct (Z.ltb_spec (ly * W + lx) 0); [lia|].
    apply lookup_replicate_2. lia. }
  assert (onThickLoop tiles x y ↔
          (∃ p, p ∈ lineTiles tiles ∧ near p x y) ∨ (∃ t, t ∈ tiles ∧ near t x y)) as Hloop.
  { unfold onThickLoop, loopTiles. split.
    - intros (p & Hp & Hn). apply elem_of_app in Hp as [Hp|Hp]; [right|left]; by exists p.
    - intros [(p & Hp & Hn)|(p & Hp & Hn)]; exists p; (split; [|done]);
        apply elem_of_app; auto. }
  split; [|split].
  - intros [Ho|Hl]; apply Ha; [by left; left|].
    apply Hloop in Hl as [Hl|Hl]; [left; right|right]; done.
  - intros [Hno Hnl]. destruct Hb as [Heq|[Hs _]]; [by rewrite Heq|].
    exfalso. destruct Hs as [[Ho|Hl]|Hl]; [done| |]; apply Hnl, Hloop; auto.
  - destruct Hb as [Heq|[_ ?]]; [left; by rewrite Heq|by right].
Qed.

End BarrierFacts.

Section FloodFacts.
Variables W H : Z.
Variable B : list Z.
Hypothesis W_pos : 0 < W.
Hypothesis H_pos : 0 < H.
Hypothesis B_len : length B = Z.to_nat (W * H).

Lemma zeros_write (G : list Z) i :
  readU8 G i = Some 0 → zeros G = S (zeros (writeU8 G i 2)).
Proof.
  unfold readU8, writeU8, zeros. destruct (Z.ltb_spec i 0); [done|]. intros Hl.
  pose proof (filter_eq_insert G (Z.to_nat i) 0 (toUint8 2) 0 Hl) as Hf.
  change (toUint8 2) with 2 in *.
  destruct (decide (0 = 0)); [|done]. destruct (decide (2 = 0)); [done|]. lia.
Qed.

Lemma cellAt_write_same G lx ly v :
  length G = Z.to_nat (W * H) → inGrid W H lx ly →
  cellAt (writeU8 G (ly * W + lx) v) W lx ly = Some (toUint8 v).
Proof.
  intros Hlen Hin. pose proof (local_index_range W H W_pos H_pos _ _ Hin).
  unfold cellAt. apply readU8_writeU8_eq. lia.
Qed.

Lemma cellAt_write_other G lx ly lx' ly' v :
  inGrid W H lx ly → inGrid W H lx' ly' → (lx', ly') ≠ (lx, ly) →
  cellAt (writeU8 G (ly * W + lx) v) W lx' ly' = cellAt G W lx' ly'.
Proof.
  intros Hin Hin' Hne. pose proof (local_index_range W H W_pos H_pos _ _ Hin').
  unfold cellAt. apply readU8_writeU8_ne; [lia|].
  intros Heq. destruct (local_index_inj W H W_pos _ _ _ _ Hin Hin' Heq) as [-> ->]. done.
Qed.

Lemma FloodInv_start :
  (∀ lx ly, inGrid W H lx ly → cellAt B W lx ly = Some 0 ∨ cellAt B W lx ly = Some 1) →
  FloodInv W H B B [] [].
Proof.
  intros Hbits. constructor; try done.
  - intros lx ly Hin H0. by left.
  - intros idx Hidx. by apply not_elem_of_nil in Hidx.
  - intros lx ly Hin H2. destruct (Hbits lx ly Hin) as [Hc|Hc]; rewrite Hc in H2; done.
  - intros lx ly Hin H2. destruct (Hbits lx ly Hin) as [Hc|Hc]; rewrite Hc in H2; done.
Qed.

Lemma seed_spec G pending active lx ly :
  (∀ lx ly, inGrid W H lx ly → cellAt B W lx ly = Some 0 ∨ cellAt B W lx ly = Some 1) →
  FloodInv W H B G pending active → inGrid W H lx ly →
  (cellAt B W lx ly = Some 0 → openCell W H B lx ly) →
  ∃ G' extra,
    Game.seed (G, pending) (ly * W + lx) = (G', pending ++ extra) ∧
    FloodInv W H B G' (pending ++ extra) (active ++ extra) ∧
    (zeros G' + length extra = zeros G)%nat ∧
    cellAt G' W lx ly ≠ Some 0 ∧
    (∀ lx' ly', inGrid W H lx' ly' → cellAt G W lx' ly' ≠ Some 0 → cellAt G' W lx' ly' ≠ Some 0).
Proof.
  intros Hbits Hinv Hin Hjust. unfold Game.seed. simpl.
  destruct (decide (readU8 G (ly * W + lx) = Some 0)) as [H0|H0].
  - rewrite bool_decide_eq_true_2 by done.
    exists (writeU8 G (ly * W + lx) 2), [ly * W + lx].
    assert (length G = Z.to_nat (W * H)) as Hlen by (rewrite (fi_length _ _ _ _ _ _ Hinv); done).
    assert (cellAt B W lx ly = Some 0) as HB.
    { destruct (Hbits lx ly Hin) as [?|HB1]; [done|].
      apply (fi_barrier _ _ _ _ _ _ Hinv) in HB1; [|done]. unfold cellAt in HB1. congruence. }
    split; [done|]. split; [|split; [|split]].
    + constructor.
      * rewrite length_writeU8. apply Hinv.
      * intros lx' ly' Hin' HB1. destruct (decide ((lx', ly') = (lx, ly))) as [[= -> ->]|Hne].
        { congruence. }
        rewrite cellAt_write_other by done. by apply Hinv.
      * intros lx' ly' Hin' HB0. destruct (decide ((lx', ly') = (lx, ly))) as [[= -> ->]|Hne].
        { right. by rewrite cellAt_write_same. }
        rewrite cellAt_write_other by done. by apply Hinv.
      * intros idx Hidx. apply elem_of_app in Hidx as [Hidx|Hidx].
        -- destruct (fi_pending _ _ _ _ _ _ Hinv idx Hidx) as (lx' & ly' & Hin' & -> & H2).
           exists lx', ly'. split; [done|]. split; [done|].
           rewrite cellAt_write_other; [done|done|done|].
           intros [= -> ->]. unfold cellAt in H2. congruence.
        -- apply list_elem_of_singleton in Hidx as ->.
           exists lx, ly. split; [done|]. split; [done|]. by rewrite cellAt_write_same.
      * intros lx' ly' Hin' H2. destruct (decide ((lx', ly') = (lx, ly))) as [[= -> ->]|Hne].
        { by apply Hjust. }
        rewrite cellAt_write_other in H2 by done. by apply Hinv.
      * intros lx' ly' Hin' H2. destruct (decide ((lx', ly') = (lx, ly))) as [[= -> ->]|Hne].
        { left. apply elem_of_app. right. by left. }
        rewrite cellAt_write_other in H2 by done.
        destruct (fi_closed _ _ _ _ _ _ Hinv lx' ly' Hin' H2) as [Hact|Hnb].
        -- left. apply elem_of_app. by left.
        -- right. intros lx'' ly'' Hadj Hin''.
           destruct (decide ((lx'', ly'') = (lx, ly))) as [[= -> ->]|Hne'].
           ++ by rewrite cellAt_write_same.
           ++ rewrite cellAt_write_other by done. by apply Hnb.
    + rewrite (zeros_write G (ly * W + lx) H0). simpl. lia.
    + by rewrite cellAt_write_same.
    + intros lx' ly' Hin' Hnz. destruct (decide ((lx', ly') = (lx, ly))) as [[= -> ->]|Hne].
      * by rewrite cellAt_write_same.
      * by rewrite cellAt_write_other.
  - rewrite bool_decide_eq_false_2 by done. exists G, []. rewrite !app_nil_r.
    split; [done|]. split; [done|]. split; [simpl; lia|]. split; [done|]. auto.
Qed.

Lemma local_coords lx ly :
  inGrid W H lx ly → Z.rem (ly * W + lx) W = lx ∧ (ly * W + lx) / W = ly.
Proof.
  intros Hin. pose proof (local_index_range W H W_pos H_pos _ _ Hin) as Hr.
  destruct Hin as [Hx Hy]. rewrite Z.rem_mod_nonneg by lia. split.
  - symmetry. apply (Z.mod_unique_pos _ _ ly); lia.
  - symmetry. apply (Z.div_unique_pos _ _ _ lx); lia.
Qed.

Lemma cond_seed_spec G pending active lx ly j (c : bool) :
  (∀ lx ly, inGrid W H lx ly → cellAt B W lx ly = Some 0 ∨ cellAt B W lx ly = Some 1) →
  FloodInv W H B G pending active → j = ly * W + lx →
  (c = true → inGrid W H lx ly ∧ (cellAt B W lx ly = Some 0 → openCell W H B lx ly)) →
  ∃ G' extra,
    (if c then Game.seed (G, pending) j else (G, pending)) = (G', pending ++ extra) ∧
    FloodInv W H B G' (pending ++ extra) (active ++ extra) ∧
    (zeros G' + length extra = zeros G)%nat ∧
    (c = true → cellAt G' W lx ly ≠ Some 0) ∧
    (∀ lx' ly', inGrid W H lx' ly' → cellAt G W lx' ly' ≠ Some 0 → cellAt G' W lx' ly' ≠ Some 0).
Proof.
  intros Hbits Hinv -> Hc. destruct c.
  - destruct (Hc eq_refl) as [Hin Hjust].
    destruct (seed_spec G pending active lx ly Hbits Hinv Hin Hjust)
      as (G' & extra & Hs & Hinv' & Hz & Hnz & Hmono).
    exists G', extra. split_and!; auto.
  - exists G, []. rewrite !app_nil_r. split_and!; auto; simpl; lia.
Qed.

Lemma floodStep_spec G idx rest :
  (∀ lx ly, inGrid W H lx ly → cellAt B W lx ly = Some 0 ∨ cellAt B W lx ly = Some 1) →
  FloodInv W H B G (idx :: rest) (idx :: rest) →
  let st := Game.floodStep W H (G, rest) idx in
  FloodInv W H B st.1 st.2 st.2 ∧ (zeros st.1 + length st.2 = zeros G + length rest)%nat ∧
  (∀ lx' ly', inGrid W H lx' ly' → cellAt G W lx' ly' ≠ Some 0 →
              cellAt st.1 W lx' ly' ≠ Some 0).
Proof.
  intros Hbits Hinv.
  destruct (fi_pending _ _ _ _ _ _ Hinv idx) as (lx & ly & Hin & -> & H2); [by left|].
  destruct (local_coords lx ly Hin) as [Hx Hy].
  pose proof (fi_sound _ _ _ _ _ _ Hinv lx ly Hin H2) as Hopen.
  assert (FloodInv W H B G rest ((ly * W + lx) :: rest)) as Hinv0.
  { destruct Hinv. constructor; try done. intros i Hi. apply fi_pending0. by right. }
  unfold Game.floodStep. rewrite Hx, Hy. cbv zeta.
  destruct Hin as [Hlx Hly].
  (* left neighbour *)
  destruct (cond_seed_spec G rest ((ly * W + lx) :: rest) (lx - 1) ly (ly * W + lx - 1)
              (0 <? lx) Hbits Hinv0) as (G1 & e1 & -> & Hinv1 & Hz1 & Hn1 & Hm1); [lia| |].
  { intros Hc. apply Z.ltb_lt in Hc. split; [unfold inGrid; lia|]. intros HB0.
    eapply openCell_step; [exact Hopen| |unfold inGrid; lia|done]. unfold adjacent. lia. }
  (* right neighbour *)
  destruct (cond_seed_spec G1 (rest ++ e1) (((ly * W + lx) :: rest) ++ e1) (lx + 1) ly
              (ly * W + lx + 1) (lx <? W - 1) Hbits Hinv1)
    as (G2 & e2 & -> & Hinv2 & Hz2 & Hn2 & Hm2); [lia| |].
  { intros Hc. apply Z.ltb_lt in Hc. split; [unfold inGrid; lia|]. intros HB0.
    eapply openCell_step; [exact Hopen| |unfold inGrid; lia|done]. unfold adjacent. lia. }
  (* upper neighbour *)
  destruct (cond_seed_spec G2 ((rest ++ e1) ++ e2) ((((ly * W + lx) :: rest) ++ e1) ++ e2)
              lx (ly - 1) (ly * W + lx - W) (0 <? ly) Hbits Hinv2)
    as (G3 & e3 & -> & Hinv3 & Hz3 & Hn3 & Hm3); [lia| |].
  { intros Hc. apply Z.ltb_lt in Hc. split; [unfold inGrid; lia|]. intros HB0.
    eapply openCell_step; [exact Hopen| |unfold inGrid; lia|done]. unfold adjacent. lia. }
  (* lower neighbour *)
  destruct (cond_seed_spec G3 (((rest ++ e1) ++ e2) ++ e3)
              (((((ly * W + lx) :: rest) ++ e1) ++ e2) ++ e3)
              lx (ly + 1) (ly * W + lx + W) (ly <? H - 1) Hbits Hinv3)
    as (G4 & e4 & -> & Hinv4 & Hz4 & Hn4 & Hm4); [lia| |].
  { intros Hc. apply Z.ltb_lt in Hc. split; [unfold inGrid; lia|]. intros HB0.
    eapply openCell_step; [exact Hopen| |unfold inGrid; lia|done]. unfold adjacent. lia. }
  simpl fst. simpl snd. split.
  - destruct Hinv4. constructor; try done.
    intros lx' ly' Hin' H2'.
    destruct (fi_closed0 lx' ly' Hin' H2') as [Hact|Hnb]; [|by right].
    simpl in Hact.
    apply elem_of_cons in Hact as [Heq|Hact]; [|by left].
    destruct (local_index_inj W H W_pos lx' ly' lx ly Hin' ltac:(unfold inGrid; lia) Heq)
      as [-> ->].
    right. intros lx'' ly'' Hadj Hin''. destruct Hin'' as [Hx'' Hy''].
    unfold adjacent in Hadj.
    destruct Hadj as [[-> [->| ->]]|[-> [->| ->]]].
    + apply Hm4, Hm3, Hm2; try (unfold inGrid; lia). apply Hn1. apply Z.ltb_lt. lia.
    + apply Hm4, Hm3; try (unfold inGrid; lia). apply Hn2. apply Z.ltb_lt. lia.
    + apply Hm4; try (unfold inGrid; lia). apply Hn3. apply Z.ltb_lt. lia.
    + apply Hn4. apply Z.ltb_lt. lia.
  - split; [rewrite !length_app; lia|].
    intros lx' ly' Hin' Hnz. by apply Hm4, Hm3, Hm2, Hm1.
Qed.

(** The breadth-first loop empties the queue within its fuel, and keeps
    the invariant. *)
Lemma floodLoop_drains fuel G pending :
  (∀ lx ly, inGrid W H lx ly → cellAt B W lx ly = Some 0 ∨ cellAt B W lx ly = Some 1) →
  FloodInv W H B G pending pending → (zeros G + length pending <= fuel)%nat →
  (Game.floodLoop fuel W H G pending).2 = [] ∧
  FloodInv W H B (Game.floodLoop fuel W H G pending).1 [] [] ∧
  (∀ lx ly, inGrid W H lx ly → cellAt G W lx ly ≠ Some 0 →
            cellAt (Game.floodLoop fuel W H G pending).1 W lx ly ≠ Some 0).
Proof.
  intros Hbits. revert G pending.
  induction fuel as [|fuel IH]; intros G pending Hinv Hfuel.
  - destruct pending as [|idx rest]; [done|]. simpl in Hfuel. lia.
  - destruct pending as [|idx rest]; [done|]. cbn [Game.floodLoop].
    destruct (floodStep_spec G idx rest Hbits Hinv) as (Hinv' & Hz & Hm).
    destruct (IH _ _ Hinv') as (Hd & Hi & Hm'); [simpl in Hfuel; lia|].
    split; [done|]. split; [done|]. intros lx ly Hin Hnz. by apply Hm', Hm.
Qed.

Lemma seed_pair_spec st lx1 ly1 lx2 ly2 :
  (∀ lx ly, inGrid W H lx ly → cellAt B W lx ly = Some 0 ∨ cellAt B W lx ly = Some 1) →
  FloodInv W H B st.1 st.2 st.2 →
  inGrid W H lx1 ly1 → (lx1 = 0 ∨ lx1 = W - 1 ∨ ly1 = 0 ∨ ly1 = H - 1) →
  inGrid W H lx2 ly2 → (lx2 = 0 ∨ lx2 = W - 1 ∨ ly2 = 0 ∨ ly2 = H - 1) →
  let st' := Game.seed (Game.seed st (ly1 * W + lx1)) (ly2 * W + lx2) in
  FloodInv W H B st'.1 st'.2 st'.2 ∧
  (zeros st'.1 + length st'.2 = zeros st.1 + length st.2)%nat ∧
  cellAt st'.1 W lx1 ly1 ≠ Some 0 ∧ cellAt st'.1 W lx2 ly2 ≠ Some 0 ∧
  (∀ lx' ly', inGrid W H lx' ly' → cellAt st.1 W lx' ly' ≠ Some 0 →
              cellAt st'.1 W lx' ly' ≠ Some 0).
Proof.
  intros Hbits Hinv Hin1 Hrim1 Hin2 Hrim2. destruct st as [G pending]. simpl in *.
  destruct (seed_spec G pending pending lx1 ly1 Hbits Hinv Hin1)
    as (G1 & e1 & -> & Hinv1 & Hz1 & Hn1 & Hm1).
  { intros HB0. by apply openCell_rim. }
  destruct (seed_spec G1 (pending ++ e1) (pending ++ e1) lx2 ly2 Hbits Hinv1 Hin2)
    as (G2 & e2 & -> & Hinv2 & Hz2 & Hn2 & Hm2).
  { intros HB0. by apply openCell_rim. }
  simpl. split; [done|]. split; [rewrite !length_app; lia|].
  split; [by apply Hm2|]. split; [done|]. intros lx' ly' Hin' Hnz. by apply Hm2, Hm1.
Qed.

Lemma fold_seed_pairs (l : list Z) (c1 c2 : Z → Z * Z) (i1 i2 : Z → Z) st :
  (∀ lx ly, inGrid W H lx ly → cellAt B W lx ly = Some 0 ∨ cellAt B W lx ly = Some 1) →
  (∀ a, a ∈ l →
     inGrid W H (c1 a).1 (c1 a).2 ∧ inGrid W H (c2 a).1 (c2 a).2 ∧
     ((c1 a).1 = 0 ∨ (c1 a).1 = W - 1 ∨ (c1 a).2 = 0 ∨ (c1 a).2 = H - 1) ∧
     ((c2 a).1 = 0 ∨ (c2 a).1 = W - 1 ∨ (c2 a).2 = 0 ∨ (c2 a).2 = H - 1) ∧
     i1 a = (c1 a).2 * W + (c1 a).1 ∧ i2 a = (c2 a).2 * W + (c2 a).1) →
  FloodInv W H B st.1 st.2 st.2 →
  let st' := foldl (λ st a, Game.seed (Game.seed st (i1 a)) (i2 a)) st l in
  FloodInv W H B st'.1 st'.2 st'.2 ∧
  (zeros st'.1 + length st'.2 = zeros st.1 + length st.2)%nat ∧
  (∀ a, a ∈ l → cellAt st'.1 W (c1 a).1 (c1 a).2 ≠ Some 0 ∧
                cellAt st'.1 W (c2 a).1 (c2 a).2 ≠ Some 0) ∧
  (∀ lx' ly', inGrid W H lx' ly' → cellAt st.1 W lx' ly' ≠ Some 0 →
              cellAt st'.1 W lx' ly' ≠ Some 0).
Proof.
  intros Hbits. revert st. induction l as [|a l IH]; intros st Hcells Hinv; simpl.
  { split; [done|]. split; [done|]. split; [|auto].
    intros a Ha. by apply not_elem_of_nil in Ha. }
  destruct (Hcells a) as (Hin1 & Hin2 & Hr1 & Hr2 & -> & ->); [by left|].
  destruct (seed_pair_spec st _ _ _ _ Hbits Hinv Hin1 Hr1 Hin2 Hr2)
    as (Hinv' & Hz' & Hn1 & Hn2 & Hm').
  destruct (IH (Game.seed (Game.seed st ((c1 a).2 * W + (c1 a).1)) ((c2 a).2 * W + (c2 a).1)))
    as (Hinv'' & Hz'' & Hn'' & Hm''); [|done|].
  { intros a' Ha'. apply Hcells. by right. }
  split; [done|]. split; [lia|]. split.
  - intros a' Ha'. apply elem_of_cons in Ha' as [->|Ha'].
    + split; apply Hm''; done.
    + by apply Hn''.
  - intros lx' ly' Hin' Hnz. by apply Hm'', Hm'.
Qed.

(** After the seeding of the four edges no cell of the rim is left
    at 0. *)
Lemma seedEdges_spec :
  (∀ lx ly, inGrid W H lx ly → cellAt B W lx ly = Some 0 ∨ cellAt B W lx ly = Some 1) →
  let st := Game.seedEdges B W H in
  FloodInv W H B st.1 st.2 st.2 ∧
  (zeros st.1 + length st.2 = zeros B)%nat ∧
  (∀ lx ly, inGrid W H lx ly → (lx = 0 ∨ lx = W - 1 ∨ ly = 0 ∨ ly = H - 1) →
            cellAt st.1 W lx ly ≠ Some 0).
Proof.
  intros Hbits. unfold Game.seedEdges.
  destruct (fold_seed_pairs (zrange 0 (W - 1)) (λ x, (x, 0)) (λ x, (x, H - 1))
              (λ x, x) (λ x, (H - 1) * W + x) (B, []) Hbits)
    as (Hinv1 & Hz1 & Hn1 & Hm1).
  { intros x Hx. apply elem_of_zrange in Hx. simpl. unfold inGrid. split_and!; lia. }
  { simpl. by apply FloodInv_start. }
  set (st1 := foldl _ (B, []) (zrange 0 (W - 1))) in *.
  destruct (fold_seed_pairs (zrange 0 (H - 1)) (λ y, (0, y)) (λ y, (W - 1, y))
              (λ y, y * W) (λ y, y * W + W - 1) st1 Hbits)
    as (Hinv2 & Hz2 & Hn2 & Hm2).
  { intros y Hy. apply elem_of_zrange in Hy. simpl. unfold inGrid. split_and!; lia. }
  { done. }
  split; [done|]. split; [simpl in *; lia|].
  intros lx ly [Hx Hy] Hrim.
  assert (lx ∈ zrange 0 (W - 1)) as Hxr by (apply elem_of_zrange; lia).
  assert (ly ∈ zrange 0 (H - 1)) as Hyr by (apply elem_of_zrange; lia).
  destruct Hrim as [->|[->|[->| ->]]].
  - by apply (Hn2 ly).
  - by apply (Hn2 ly).
  - apply Hm2; [unfold inGrid; lia|]. by apply (Hn1 lx).
  - apply Hm2; [unfold inGrid; lia|]. by apply (Hn1 lx).
Qed.

Lemma zeros_le_length (G : list Z) : (zeros G <= length G)%nat.
Proof. unfold zeros. apply length_filter. Qed.

(** The grid after the flood fill, over the barrier grid [B]: barrier
    cells are kept; a cell becomes 2 only if it is joined to the rim
    through cells at 0; every rim cell at 0 becomes 2, and so does every
    0-neighbour of a cell that becomes 2. *)
Lemma floodedGrid_spec :
  (∀ lx ly, inGrid W H lx ly → cellAt B W lx ly = Some 0 ∨ cellAt B W lx ly = Some 1) →
  let st0 := Game.seedEdges B W H in
  let F := (Game.floodLoop (length B) W H st0.1 st0.2).1 in
  (Game.floodLoop (length B) W H st0.1 st0.2).2 = [] ∧
  length F = length B ∧
  (∀ lx ly, inGrid W H lx ly → cellAt B W lx ly = Some 1 → cellAt F W lx ly = Some 1) ∧
  (∀ lx ly, inGrid W H lx ly → cellAt B W lx ly = Some 0 →
            cellAt F W lx ly = Some 0 ∨ cellAt F W lx ly = Some 2) ∧
  (∀ lx ly, inGrid W H lx ly → cellAt F W lx ly = Some 2 → openCell W H B lx ly) ∧
  (∀ lx ly, inGrid W H lx ly → (lx = 0 ∨ lx = W - 1 ∨ ly = 0 ∨ ly = H - 1) →
            cellAt B W lx ly = Some 0 → cellAt F W lx ly = Some 2) ∧
  (∀ lx ly lx' ly', inGrid W H lx ly → cellAt F W lx ly = Some 2 →
            adjacent lx ly lx' ly' → inGrid W H lx' ly' → cellAt B W lx' ly' = Some 0 →
            cellAt F W lx' ly' = Some 2).
Proof.
  intros Hbits. cbv zeta.
  destruct (seedEdges_spec Hbits) as (Hinv0 & Hz0 & Hrim0).
  set (st0 := Game.seedEdges B W H) in *.
  destruct (floodLoop_drains (length B) st0.1 st0.2 Hbits Hinv0) as (Hdone & Hinv & Hmono).
  { pose proof (zeros_le_length B). lia. }
  set (F := (Game.floodLoop (length B) W H st0.1 st0.2).1) in *.
  split; [done|]. split; [apply Hinv|]. split; [apply Hinv|]. split; [apply Hinv|].
  split; [apply Hinv|]. split.
  - intros lx ly Hin Hrim HB0.
    destruct (fi_free _ _ _ _ _ _ Hinv lx ly Hin HB0) as [HF0|?]; [|done].
    exfalso. by apply (Hmono lx ly Hin (Hrim0 lx ly Hin Hrim)).
  - intros lx ly lx' ly' Hin HF2 Hadj Hin' HB0.
    destruct (fi_free _ _ _ _ _ _ Hinv lx' ly' Hin' HB0) as [HF0|?]; [|done].
    exfalso. destruct (fi_closed _ _ _ _ _ _ Hinv lx ly Hin HF2) as [Hact|Hnb].
    + by apply not_elem_of_nil in Hact.
    + by apply (Hnb lx' ly' Hadj Hin').
Qed.

End FloodFacts.

Section AnnexFacts.
Import TerritoryMap.
Variable A : Z.
Variable b : Game.Bounds.
Variable F : list Z.
Hypothesis A_range : 0 <= A < 256.

Lemma foldl_row {S X Y} (f : S → X → Y → S) (s : S) (xs : list X) (y : Y) :
  foldl (λ s x, f s x y) s xs = foldl (λ s c, f s c.1 c.2) s ((λ x, (x, y)) <$> xs).
Proof. revert s. induction xs as [|x xs IH]; intros s; [done|]. simpl. apply IH. Qed.

Lemma foldl_nested {S X Y} (f : S → X → Y → S) (s : S) (xs : list X) (ys : list Y) :
  foldl (λ s y, foldl (λ s x, f s x y) s xs) s ys
  = foldl (λ s c, f s c.1 c.2) s (ys ≫= λ y, (λ x, (x, y)) <$> xs).
Proof.
  revert s. induction ys as [|y ys IH]; intros s; [done|].
  simpl. rewrite foldl_app, <- IH. f_equal. apply foldl_row.
Qed.

Lemma annex_flat m :
  Game.annex m A b F
  = foldl (λ m c,
      if bool_decide (readU8 F (c.2 * Game.boxWidthOf b + c.1) = Some 0) ||
         (bool_decide (readU8 F (c.2 * Game.boxWidthOf b + c.1) = Some 1) &&
          negb (getOwner m (c.1 + Game.minX b) (c.2 + Game.minY b) =? A))
      then setOwner m (c.1 + Game.minX b) (c.2 + Game.minY b) A
      else m) m
      (zrange 0 (Game.boxHeightOf b - 1) ≫= λ y, (λ x, (x, y)) <$> zrange 0 (Game.boxWidthOf b - 1)).
Proof. unfold Game.annex. by rewrite foldl_nested. Qed.

Lemma annex_cells_spec (cells : list (Z * Z)) m x y :
  wf m → isValidTile m x y = true →
  let m' := foldl (λ m c,
      if bool_decide (readU8 F (c.2 * Game.boxWidthOf b + c.1) = Some 0) ||
         (bool_decide (readU8 F (c.2 * Game.boxWidthOf b + c.1) = Some 1) &&
          negb (getOwner m (c.1 + Game.minX b) (c.2 + Game.minY b) =? A))
      then setOwner m (c.1 + Game.minX b) (c.2 + Game.minY b) A
      else m) m cells in
  let c := cellAt F (Game.boxWidthOf b) (x - Game.minX b) (y - Game.minY b) in
  wf m' ∧ isValidTile m' x y = true ∧
  (getOwner m x y = A → getOwner m' x y = A) ∧
  ((x - Game.minX b, y - Game.minY b) ∈ cells → c = Some 0 ∨ c = Some 1 →
   getOwner m' x y = A) ∧
  (((x - Game.minX b, y - Game.minY b) ∈ cells → c ≠ Some 0 ∧ c ≠ Some 1) →
   getOwner m' x y = getOwner m x y).
Proof.
  revert m. induction cells as [|c0 cells IH]; intros m Hwf Hv; cbn [foldl].
  { cbv zeta. split_and!; try done. intros Hin. by apply not_elem_of_nil in Hin. }
  set (step := if bool_decide (readU8 F (c0.2 * Game.boxWidthOf b + c0.1) = Some 0) ||
         (bool_decide (readU8 F (c0.2 * Game.boxWidthOf b + c0.1) = Some 1) &&
          negb (getOwner m (c0.1 + Game.minX b) (c0.2 + Game.minY b) =? A))
      then setOwner m (c0.1 + Game.minX b) (c0.2 + Game.minY b) A
      else m).
  assert (wf step) as Hwf' by (subst step; case_match; [by apply setOwner_wf|done]).
  assert (isValidTile step x y = true) as Hv'
    by (subst step; case_match; [by rewrite setOwner_isValidTile|done]).
  assert (getOwner m x y = A → getOwner step x y = A) as Hkeep.
  { intros Ho. subst step. case_match; [|done].
    destruct (decide ((x, y) = (c0.1 + Game.minX b, c0.2 + Game.minY b))) as [[= -> ->]|Hne].
    - rewrite getOwner_setOwner_same by done. by apply toUint8_small.
    - by rewrite getOwner_setOwner_other. }
  destruct (IH step Hwf' Hv') as (Hwf'' & Hv'' & Hk & Hset & Hsame).
  cbv zeta in *. split; [done|]. split; [done|]. split; [auto|]. split.
  - intros Hin Hc. apply elem_of_cons in Hin as [Heq|Hin]; [|by apply Hset].
    apply Hk. subst step. destruct c0 as [c0x c0y]. injection Heq as <- <-. simpl.
    replace (x - Game.minX b + Game.minX b) with x by lia.
    replace (y - Game.minY b + Game.minY b) with y by lia.
    unfold cellAt in Hc. destruct Hc as [Hc|Hc]; rewrite Hc; simpl.
    + rewrite getOwner_setOwner_same by done. by apply toUint8_small.
    + destruct (Z.eqb_spec (getOwner m x y) A) as [Ho|Ho]; simpl; [done|].
      rewrite getOwner_setOwner_same by done. by apply toUint8_small.
  - intros Hc. rewrite Hsame.
    + subst step. case_match eqn:Hcond; [|done].
      destruct (decide ((x, y) = (c0.1 + Game.minX b, c0.2 + Game.minY b))) as [Heq|Hne];
        [|by rewrite getOwner_setOwner_other].
      exfalso.
      assert (c0 = (x - Game.minX b, y - Game.minY b)) as Hc0.
      { destruct c0 as [c0x c0y]. simpl in Heq. injection Heq as -> ->. f_equal; lia. }
      destruct Hc as [Hn0 Hn1]; [rewrite Hc0; by left|].
      unfold cellAt in Hn0, Hn1. rewrite Hc0 in Hcond. simpl in Hcond.
      rewrite bool_decide_eq_false_2 in Hcond by done.
      rewrite bool_decide_eq_false_2 in Hcond by done. done.
    + intros Hin. apply Hc. by right.
Qed.

End AnnexFacts.

Section BoxFacts.
Import TerritoryMap.

Lemma extend_fold (f : Game.Bounds → Tile → Game.Bounds) (P : Tile → Prop) (l : list Tile) b :
  (∀ b t, (P t ∧ f b t = Game.extend b t) ∨ (¬ P t ∧ f b t = b)) →
  let b' := foldl f b l in
  subBox b b' ∧
  (∀ t, t ∈ l → P t → inBox b' (tx t) (ty t)) ∧
  (∀ R, subBox b R → (∀ t, t ∈ l → P t → inBox R (tx t) (ty t)) → subBox b' R).
Proof.
  intros Hf. revert b. induction l as [|t l IH]; intros b; simpl.
  { split; [unfold subBox; lia|]. split; [|auto].
    intros t Ht. by apply not_elem_of_nil in Ht. }
  destruct (IH (f b t)) as (Hsub & Hin & Hhull).
  assert (subBox b (f b t)) as Hstep.
  { destruct (Hf b t) as [[_ ->]|[_ ->]]; unfold subBox, Game.extend; simpl; lia. }
  split; [unfold subBox in *; lia|]. split.
  - intros t' Ht' HP. apply elem_of_cons in Ht' as [->|Ht']; [|by apply Hin].
    destruct (Hf b t) as [[_ Heq]|[Hn _]]; [|done].
    rewrite Heq in Hsub |- *. unfold subBox, inBox, Game.extend in *. simpl in *. lia.
  - intros R HR Hall. apply Hhull.
    + destruct (Hf b t) as [[HP ->]|[_ ->]]; [|done].
      assert (t ∈ t :: l) as Ht by left.
      specialize (Hall t Ht HP). unfold subBox, inBox, Game.extend in *. simpl. lia.
    + intros t' Ht'. apply Hall. by right.
Qed.

Lemma tailBounds_spec (tiles : list Tile) (endTile : Tile) :
  let b := Game.tailBounds tiles endTile in
  inBox b (tx endTile) (ty endTile) ∧
  (∀ t, t ∈ tiles → inBox b (tx t) (ty t)) ∧
  (∀ R, inBox R (tx endTile) (ty endTile) → (∀ t, t ∈ tiles → inBox R (tx t) (ty t)) →
        subBox b R).
Proof.
  unfold Game.tailBounds.
  destruct (extend_fold Game.extend (λ _, True) tiles
              (Game.mkBounds (tx endTile) (tx endTile) (ty endTile) (ty endTile)))
    as (Hsub & Hin & Hhull); [by left|].
  cbv zeta. split; [unfold subBox, inBox in *; simpl in *; lia|]. split; [auto|].
  intros R Hend Hall. apply Hhull; [unfold subBox, inBox in *; simpl; lia|auto].
Qed.

Lemma territoryBounds_spec m A b :
  let b' := Game.territoryBounds m A b in
  subBox b b' ∧
  (∀ x y, isValidTile m x y = true → getOwner m x y = A → inBox b' x y) ∧
  (subBox b (gridBox m) → subBox b' (gridBox m)).
Proof.
  unfold Game.territoryBounds.
  destruct (extend_fold
              (λ b t, if getOwner m (tx t) (ty t) =? A then Game.extend b t else b)
              (λ t, getOwner m (tx t) (ty t) = A)
              (allTiles (widthTiles m) (heightTiles m)) b) as (Hsub & Hin & Hhull).
  { intros b0 t. destruct (Z.eqb_spec (getOwner m (tx t) (ty t)) A); auto. }
  cbv zeta. split; [done|]. split.
  - intros x y Hv Ho. apply (Hin (mkTile x y)); [|done].
    apply elem_of_allTiles. simpl. by apply isValidTile_spec.
  - intros Hgrid. apply Hhull; [done|]. intros t Ht _.
    apply elem_of_allTiles in Ht. unfold inBox, gridBox. simpl. lia.
Qed.

Lemma padBounds_spec m b :
  subBox b (gridBox m) → Game.minX b <= Game.maxX b → Game.minY b <= Game.maxY b →
  let b' := Game.padBounds m b in
  subBox b b' ∧ subBox b' (gridBox m) ∧
  Game.minX b' <= Game.maxX b' ∧ Game.minY b' <= Game.maxY b'.
Proof.
  unfold subBox, gridBox, Game.padBounds, Game.padding. simpl. lia.
Qed.

(** The working box of a capture: inside the grid, not empty, and
    holding the loop and the whole territory of the owner. *)
Lemma captureBox_spec m A pos tail :
  (∀ t, t ∈ Game.tailTilesOf m pos tail → isValidTile m (tx t) (ty t) = true) →
  let tiles := Game.tailTilesOf m pos tail in
  let endTile := worldToTile m (Vec2.x pos) (Vec2.y pos) in
  let b := Game.captureBox m A pos tail in
  subBox b (gridBox m) ∧
  Game.minX b <= Game.maxX b ∧ Game.minY b <= Game.maxY b ∧
  subBox (loopBox tiles endTile) b ∧
  (∀ t, t ∈ tiles → inBox (loopBox tiles endTile) (tx t) (ty t)) ∧
  (∀ x y, isValidTile m x y = true → getOwner m x y = A → inBox b x y).
Proof.
  intros Hvalid. cbv zeta. unfold Game.captureBox, loopBox.
  set (tiles := Game.tailTilesOf m pos tail) in *.
  set (endTile := worldToTile m (Vec2.x pos) (Vec2.y pos)).
  assert (endTile ∈ tiles) as Hend.
  { subst tiles. unfold Game.tailTilesOf. apply elem_of_app. right. by left. }
  destruct (tailBounds_spec tiles endTile) as (He & Ht & Hhull).
  assert (subBox (Game.tailBounds tiles endTile) (gridBox m)) as Hg1.
  { apply Hhull.
    - specialize (Hvalid _ Hend). apply isValidTile_spec in Hvalid.
      unfold inBox, gridBox. cbn [Game.minX Game.maxX Game.minY Game.maxY]. lia.
    - intros t Hin. specialize (Hvalid _ Hin). apply isValidTile_spec in Hvalid.
      unfold inBox, gridBox. cbn [Game.minX Game.maxX Game.minY Game.maxY]. lia. }
  destruct (territoryBounds_spec m A (Game.tailBounds tiles endTile)) as (Hs2 & Hown & Hg2).
  specialize (Hg2 Hg1).
  destruct (padBounds_spec m (Game.territoryBounds m A (Game.tailBounds tiles endTile)))
    as (Hs3 & Hg3 & Hx & Hy); [done| | |].
  { unfold subBox, inBox in *. lia. }
  { unfold subBox, inBox in *. lia. }
  split; [done|]. split; [done|]. split; [done|].
  split; [unfold subBox in *; lia|]. split; [done|].
  intros x y Hv Ho. specialize (Hown x y Hv Ho). unfold subBox, inBox in *. lia.
Qed.

End BoxFacts.

Section EnclosureFacts.
Import TerritoryMap.

Lemma lineTiles_in_hull tiles R :
  (∀ t, t ∈ tiles → inBox R (tx t) (ty t)) →
  ∀ p, p ∈ lineTiles tiles → inBox R (tx p) (ty p).
Proof.
  induction tiles as [|t0 rest IH]; intros Hall p Hp; [by apply not_elem_of_nil in Hp|].
  destruct rest as [|t1 rest']; [by apply not_elem_of_nil in Hp|].
  cbn [lineTiles] in Hp. apply elem_of_app in Hp as [Hp|Hp].
  - apply rasterLine_bounds in Hp.
    assert (t0 ∈ t0 :: t1 :: rest') as H0 by left.
    assert (t1 ∈ t0 :: t1 :: rest') as H1 by (right; left).
    pose proof (Hall t0 H0). pose proof (Hall t1 H1). unfold inBox in *. lia.
  - apply IH; [|done]. intros t Ht. apply Hall. by right.
Qed.

Lemma loopTiles_in_loopBox tiles endTile p :
  p ∈ loopTiles tiles → inBox (loopBox tiles endTile) (tx p) (ty p).
Proof.
  destruct (tailBounds_spec tiles endTile) as (_ & Ht & _).
  unfold loopTiles. intros Hp. apply elem_of_app in Hp as [Hp|Hp]; [by apply Ht|].
  by apply (lineTiles_in_hull tiles).
Qed.

Lemma onThickLoop_in_grown tiles endTile x y :
  onThickLoop tiles x y → inBox (grow 1 (loopBox tiles endTile)) x y.
Proof.
  intros (p & Hp & Hn). apply (loopTiles_in_loopBox tiles endTile) in Hp.
  unfold near, inBox, grow in *. simpl. lia.
Qed.

Lemma onThickLoop_self tiles p : p ∈ loopTiles tiles → onThickLoop tiles (tx p) (ty p).
Proof. intros Hp. exists p. split; [done|]. unfold near. lia. Qed.

Lemma openCell_openTile m A tiles b lx ly :
  Game.minX b <= Game.maxX b → Game.minY b <= Game.maxY b →
  openCell (Game.boxWidthOf b) (Game.boxHeightOf b) (Game.barrierGrid m A b tiles) lx ly →
  openTile m A tiles b (lx + Game.minX b) (ly + Game.minY b).
Proof.
  intros Hx Hy.
  destruct (barrierGrid_spec m A b Hx Hy tiles) as [_ Hcells].
  assert (∀ lx ly, inGrid (Game.boxWidthOf b) (Game.boxHeightOf b) lx ly →
            cellAt (Game.barrierGrid m A b tiles) (Game.boxWidthOf b) lx ly = Some 0 →
            freeTile m A tiles (lx + Game.minX b) (ly + Game.minY b)) as Hfree.
  { intros lx' ly' Hin H0. destruct (Hcells lx' ly' Hin) as (H1 & _ & _).
    split.
    - intros Ho. rewrite H1 in H0 by auto. done.
    - intros Hl. rewrite H1 in H0 by auto. done. }
  induction 1 as [lx ly Hin Hrim H0|lx ly lx' ly' Hopen IH Hadj Hin H0].
  - apply open_rim; [|by apply Hfree].
    unfold onRim, inBox, inGrid, Game.boxWidthOf, Game.boxHeightOf in *. lia.
  - eapply open_step; [exact IH| | |by apply Hfree].
    + unfold adjacent in *. lia.
    + unfold inBox, inGrid, Game.boxWidthOf, Game.boxHeightOf in *. lia.
Qed.

Lemma elem_of_boxCells W H lx ly :
  (lx, ly) ∈ (zrange 0 (H - 1) ≫= λ y, (λ x, (x, y)) <$> zrange 0 (W - 1)) ↔ inGrid W H lx ly.
Proof.
  rewrite list_elem_of_bind. unfold inGrid. split.
  - intros (y & Hin & Hy). apply list_elem_of_fmap in Hin as (x & [= -> ->] & Hx).
    apply elem_of_zrange in Hx, Hy. lia.
  - intros [Hx Hy]. exists ly. split; [|apply elem_of_zrange; lia].
    apply list_elem_of_fmap. exists lx. split; [done|]. apply elem_of_zrange. lia.
Qed.

Lemma annex_fold_dims A b F (cells : list (Z * Z)) m :
  let m' := foldl (λ m c,
      if bool_decide (readU8 F (c.2 * Game.boxWidthOf b + c.1) = Some 0) ||
         (bool_decide (readU8 F (c.2 * Game.boxWidthOf b + c.1) = Some 1) &&
          negb (getOwner m (c.1 + Game.minX b) (c.2 + Game.minY b) =? A))
      then setOwner m (c.1 + Game.minX b) (c.2 + Game.minY b) A
      else m) m cells in
  widthTiles m' = widthTiles m ∧ heightTiles m' = heightTiles m.
Proof.
  revert m. induction cells as [|c cells IH]; intros m; [done|]. cbn [foldl].
  match goal with |- context [foldl _ ?m1 cells] => destruct (IH m1) as [Hw Hh] end.
  cbv zeta in *. rewrite Hw, Hh.
  case_match; [|done]. destruct (setOwner_dims m (c.1 + Game.minX b) (c.2 + Game.minY b) A)
    as (? & ? & _). done.
Qed.

(** What a capture does to each tile, in terms of the temporary grid
    after the flood fill. *)
Lemma captureTerritory_cells m A pos tail :
  wf m → 0 <= A < 256 → (3 <= length tail)%nat →
  let tiles := Game.tailTilesOf m pos tail in
  let b := Game.captureBox m A pos tail in
  let F := (Game.floodedGrid b (Game.barrierGrid m A b tiles)).1 in
  let m' := Game.captureTerritory m A pos tail in
  (∀ x y, isValidTile m' x y = isValidTile m x y) ∧
  ∀ x y, isValidTile m x y = true →
    (¬ inBox b x y → getOwner m' x y = getOwner m x y) ∧
    (inBox b x y →
       let c := cellAt F (Game.boxWidthOf b) (x - Game.minX b) (y - Game.minY b) in
       (c = Some 0 ∨ c = Some 1 → getOwner m' x y = A) ∧
       (c = Some 2 → getOwner m' x y = getOwner m x y)).
Proof.
  intros Hwf HA Hlen. cbv zeta. unfold Game.captureTerritory.
  destruct (Nat.ltb_spec (length tail) 3); [lia|].
  set (tiles := Game.tailTilesOf m pos tail).
  set (b := Game.captureBox m A pos tail).
  set (F := (Game.floodedGrid b (Game.barrierGrid m A b tiles)).1).
  rewrite annex_flat. split.
  - intros x y. unfold isValidTile.
    destruct (annex_fold_dims A b F
      (zrange 0 (Game.boxHeightOf b - 1) ≫= λ y, (λ x, (x, y)) <$> zrange 0 (Game.boxWidthOf b - 1))
      m) as [-> ->]. done.
  - intros x y Hv.
    destruct (annex_cells_spec A b F HA
      (zrange 0 (Game.boxHeightOf b - 1) ≫= λ y, (λ x, (x, y)) <$> zrange 0 (Game.boxWidthOf b - 1))
      m x y Hwf Hv) as (_ & _ & _ & Hset & Hsame).
    cbv zeta in Hset, Hsame. split.
    + intros Hout. apply Hsame. intros Hin. exfalso. apply Hout.
      apply elem_of_boxCells in Hin.
      unfold inGrid, inBox, Game.boxWidthOf, Game.boxHeightOf in *. lia.
    + intros Hin.
      assert ((x - Game.minX b, y - Game.minY b)
              ∈ (zrange 0 (Game.boxHeightOf b - 1) ≫= λ y, (λ x, (x, y)) <$>
                   zrange 0 (Game.boxWidthOf b - 1))) as Hcell.
      { apply elem_of_boxCells.
        unfold inGrid, inBox, Game.boxWidthOf, Game.boxHeightOf in *. lia. }
      split; [by apply Hset|].
      intros H2. apply Hsame. intros _. rewrite H2. done.
Qed.

Lemma floodedGrid_drained m A tiles b :
  Game.minX b <= Game.maxX b → Game.minY b <= Game.maxY b →
  (Game.floodedGrid b (Game.barrierGrid m A b tiles)).2 = [].
Proof.
  intros Hx Hy.
  destruct (barrierGrid_spec m A b Hx Hy tiles) as [HBlen HBcells].
  set (B := Game.barrierGrid m A b tiles) in *.
  pose proof (box_W_pos b Hx) as HW. pose proof (box_H_pos b Hy) as HH.
  assert (∀ lx ly, inGrid (Game.boxWidthOf b) (Game.boxHeightOf b) lx ly →
            cellAt B (Game.boxWidthOf b) lx ly = Some 0 ∨
            cellAt B (Game.boxWidthOf b) lx ly = Some 1) as Hbits.
  { intros lx ly Hin. by destruct (HBcells lx ly Hin) as (_ & _ & ?). }
  by destruct (floodedGrid_spec (Game.boxWidthOf b) (Game.boxHeightOf b) B HW HH HBlen Hbits)
    as (Hq & _).
Qed.

Lemma openTile_flooded m A tiles b x y :
  Game.minX b <= Game.maxX b → Game.minY b <= Game.maxY b →
  openTile m A tiles b x y →
  cellAt (Game.floodedGrid b (Game.barrierGrid m A b tiles)).1 (Game.boxWidthOf b)
    (x - Game.minX b) (y - Game.minY b) = Some 2.
Proof.
  intros Hx Hy.
  destruct (barrierGrid_spec m A b Hx Hy tiles) as [HBlen HBcells].
  set (B := Game.barrierGrid m A b tiles) in *.
  pose proof (box_W_pos b Hx) as HW. pose proof (box_H_pos b Hy) as HH.
  assert (∀ lx ly, inGrid (Game.boxWidthOf b) (Game.boxHeightOf b) lx ly →
            cellAt B (Game.boxWidthOf b) lx ly = Some 0 ∨
            cellAt B (Game.boxWidthOf b) lx ly = Some 1) as Hbits.
  { intros lx ly Hin. by destruct (HBcells lx ly Hin) as (_ & _ & ?). }
  destruct (floodedGrid_spec (Game.boxWidthOf b) (Game.boxHeightOf b) B HW HH HBlen Hbits)
    as (_ & _ & _ & _ & _ & HFrim & HFstep).
  assert (∀ x y, inBox b x y →
            inGrid (Game.boxWidthOf b) (Game.boxHeightOf b) (x - Game.minX b) (y - Game.minY b))
    as Hlocal.
  { intros x' y' Hin. unfold inGrid, inBox, Game.boxWidthOf, Game.boxHeightOf in *. lia. }
  assert (∀ x y, inBox b x y → freeTile m A tiles x y →
            cellAt B (Game.boxWidthOf b) (x - Game.minX b) (y - Game.minY b) = Some 0) as Hzero.
  { intros x' y' Hin Hf. destruct (HBcells _ _ (Hlocal _ _ Hin)) as (_ & H0 & _). apply H0.
    replace (x' - Game.minX b + Game.minX b) with x' by lia.
    replace (y' - Game.minY b + Game.minY b) with y' by lia. done. }
  unfold Game.floodedGrid.
  induction 1 as [x y Hrim Hf|x y x' y' Hopen IH Hadj Hin Hf].
  - destruct Hrim as [Hin Hedge]. apply HFrim; [by apply Hlocal| |by apply Hzero].
    unfold Game.boxWidthOf, Game.boxHeightOf. lia.
  - assert (inBox b x y) as Hin0.
    { destruct Hopen as [? ? [? _] _|? ? ? ? _ _ ? _]; done. }
    eapply HFstep; [by apply (Hlocal x y)|exact IH| |by apply Hlocal|by apply Hzero].
    unfold adjacent in *. lia.
Qed.

Lemma line_open m A tiles b x0 y0 dx dy (n : nat) :
  adjacent 0 0 dx dy → onRim b x0 y0 →
  (∀ k, 0 <= k <= Z.of_nat n →
        inBox b (x0 + k * dx) (y0 + k * dy) ∧
        freeTile m A tiles (x0 + k * dx) (y0 + k * dy)) →
  openTile m A tiles b (x0 + Z.of_nat n * dx) (y0 + Z.of_nat n * dy).
Proof.
  intros Hdir Hrim. induction n as [|n IH]; intros Hfree.
  - destruct (Hfree 0) as [_ Hf]; [lia|].
    replace (x0 + Z.of_nat 0 * dx) with x0 by lia.
    replace (y0 + Z.of_nat 0 * dy) with y0 by lia.
    apply open_rim; [done|].
    replace (x0 + 0 * dx) with x0 in Hf by lia.
    replace (y0 + 0 * dy) with y0 in Hf by lia. done.
  - destruct (Hfree (Z.of_nat (S n))) as [Hin Hf]; [lia|].
    eapply open_step; [apply IH; intros k Hk; apply Hfree; lia| |exact Hin|exact Hf].
    unfold adjacent in *. lia.
Qed.

Lemma capture_in_box m A pos tail x y :
  wf m → 0 <= A < 256 → (3 <= length tail)%nat →
  (∀ t, t ∈ Game.tailTilesOf m pos tail → isValidTile m (tx t) (ty t) = true) →
  let tiles := Game.tailTilesOf m pos tail in
  let b := Game.captureBox m A pos tail in
  let m' := Game.captureTerritory m A pos tail in
  inBox b x y →
  (getOwner m x y = A ∨ onThickLoop tiles x y → getOwner m' x y = A) ∧
  (¬ openTile m A tiles b x y → getOwner m' x y = A) ∧
  (openTile m A tiles b x y → getOwner m' x y = getOwner m x y) ∧
  (getOwner m' x y = getOwner m x y ∨ getOwner m' x y = A).
Proof.
  intros Hwf HA Hlen Hvalid. cbv zeta. intros Hin.
  destruct (captureBox_spec m A pos tail Hvalid) as (Hgrid & Hx & Hy & _).
  set (tiles := Game.tailTilesOf m pos tail) in *.
  set (b := Game.captureBox m A pos tail) in *.
  pose proof (openTile_flooded m A tiles b x y Hx Hy) as Hopen.
  destruct (barrierGrid_spec m A b Hx Hy tiles) as [HBlen HBcells].
  set (B := Game.barrierGrid m A b tiles) in *.
  pose proof (box_W_pos b Hx) as HW. pose proof (box_H_pos b Hy) as HH.
  assert (∀ lx ly, inGrid (Game.boxWidthOf b) (Game.boxHeightOf b) lx ly →
            cellAt B (Game.boxWidthOf b) lx ly = Some 0 ∨
            cellAt B (Game.boxWidthOf b) lx ly = Some 1) as Hbits.
  { intros lx ly Hin'. by destruct (HBcells lx ly Hin') as (_ & _ & ?). }
  destruct (floodedGrid_spec (Game.boxWidthOf b) (Game.boxHeightOf b) B HW HH HBlen Hbits)
    as (_ & _ & HF1 & HF0 & HF2 & _ & _).
  destruct (captureTerritory_cells m A pos tail Hwf HA Hlen) as [_ Hcells].
  fold tiles b B in Hcells.
  assert (isValidTile m x y = true) as Hv.
  { apply isValidTile_spec. unfold subBox, gridBox, inBox in *. simpl in *. lia. }
  destruct (Hcells _ _ Hv) as [_ Hbox]. destruct (Hbox Hin) as [Htake Hkeep].
  clear Hcells Hbox. unfold Game.floodedGrid in *.
  assert (inGrid (Game.boxWidthOf b) (Game.boxHeightOf b) (x - Game.minX b) (y - Game.minY b))
    as Hg.
  { unfold inGrid, inBox, Game.boxWidthOf, Game.boxHeightOf in *. lia. }
  destruct (HBcells _ _ Hg) as (HB1 & _ & _). cbv zeta in HB1.
  replace (x - Game.minX b + Game.minX b) with x in HB1 by lia.
  replace (y - Game.minY b + Game.minY b) with y in HB1 by lia.
  split_and!.
  - intros Hbar. apply Htake. right. apply HF1; [done|]. by apply HB1.
  - intros Hclosed. apply Htake.
    destruct (Hbits _ _ Hg) as [H0|H1]; [|right; by apply HF1].
    destruct (HF0 _ _ Hg H0) as [?|H2]; [by left|].
    exfalso. apply Hclosed.
    pose proof (openCell_openTile m A tiles b _ _ Hx Hy (HF2 _ _ Hg H2)) as Ho.
    replace (x - Game.minX b + Game.minX b) with x in Ho by lia.
    replace (y - Game.minY b + Game.minY b) with y in Ho by lia. done.
  - intros Ho. apply Hkeep. by apply Hopen.
  - destruct (Hbits _ _ Hg) as [H0|H1]; [|right; apply Htake; right; by apply HF1].
    destruct (HF0 _ _ Hg H0) as [?|H2]; [right; apply Htake; by left|].
    left. by apply Hkeep.
Qed.

Lemma isDiskb_spec m A s cx cy r2 : isDiskb m A s cx cy r2 = true → isDisk m A s cx cy r2.
Proof.
  unfold isDiskb. rewrite forallb_forall. intros Hall x y Hv.
  apply isValidTile_spec in Hv.
  specialize (Hall (mkTile x y)). simpl in Hall.
  rewrite Bool.eqb_true_iff in Hall.
  rewrite <- Z.eqb_eq, <- Z.leb_le. rewrite Hall; [done|].
  apply list_elem_of_In, elem_of_allTiles. done.
Qed.

Lemma paint_wf m o ts : wf m → wf (paint m o ts).
Proof.
  unfold paint. revert m. induction ts as [|t ts IH]; intros m Hwf; [done|].
  simpl. apply IH. by apply setOwner_wf.
Qed.

(** Outside a disk, a tile whose column the thick loop does not meet is
    open: the column is free from the tile to the top or to the bottom
    of the box, whichever lies away from the centre. *)
Lemma disk_column_open m A tiles b s cx cy r2 x y :
  0 < s → isDisk m A s cx cy r2 → subBox b (gridBox m) → inBox b x y →
  getOwner m x y ≠ A → (∀ y', ¬ onThickLoop tiles x y') →
  openTile m A tiles b x y.
Proof.
  intros Hs Hdisk Hsub Hin Hown Hcol.
  assert (∀ y', Game.minY b <= y' <= Game.maxY b → isValidTile m x y' = true) as Hv.
  { intros y' Hy'. apply isValidTile_spec.
    unfold subBox, gridBox, inBox in *. simpl in *. lia. }
  assert (r2 < (s * x - cx) * (s * x - cx) + (s * y - cy) * (s * y - cy)) as Hfar.
  { apply Z.nle_gt. intros Hle. apply Hown. apply Hdisk; [|done].
    apply Hv. unfold inBox in Hin. lia. }
  destruct (Z_le_gt_dec cy (s * y)) as [Hup|Hdown].
  - pose proof (line_open m A tiles b x (Game.maxY b) 0 (-1)
                  (Z.to_nat (Game.maxY b - y))) as Hline.
    replace (x + Z.of_nat (Z.to_nat (Game.maxY b - y)) * 0) with x in Hline by lia.
    replace (Game.maxY b + Z.of_nat (Z.to_nat (Game.maxY b - y)) * -1) with y in Hline
      by (unfold inBox in Hin; lia).
    apply Hline.
    + unfold adjacent. lia.
    + unfold onRim, inBox in *. lia.
    + intros k Hk. replace (x + k * 0) with x by lia.
      set (y' := Game.maxY b + k * -1).
      assert (y <= y' <= Game.maxY b) as Hy' by (unfold inBox in Hin; lia).
      split; [unfold inBox in *; lia|]. split; [|apply Hcol].
      intros Ho. apply Hdisk in Ho; [|apply Hv; unfold inBox in Hin; lia].
      assert (s * y <= s * y') by nia.
      assert ((s * y - cy) * (s * y - cy) <= (s * y' - cy) * (s * y' - cy)) by nia.
      lia.
  - pose proof (line_open m A tiles b x (Game.minY b) 0 1
                  (Z.to_nat (y - Game.minY b))) as Hline.
    replace (x + Z.of_nat (Z.to_nat (y - Game.minY b)) * 0) with x in Hline by lia.
    replace (Game.minY b + Z.of_nat (Z.to_nat (y - Game.minY b)) * 1) with y in Hline
      by (unfold inBox in Hin; lia).
    apply Hline.
    + unfold adjacent. lia.
    + unfold onRim, inBox in *. lia.
    + intros k Hk. replace (x + k * 0) with x by lia.
      set (y' := Game.minY b + k * 1).
      assert (Game.minY b <= y' <= y) as Hy' by (unfold inBox in Hin; lia).
      split; [unfold inBox in *; lia|]. split; [|apply Hcol].
      intros Ho. apply Hdisk in Ho; [|apply Hv; unfold inBox in Hin; lia].
      assert (s * y' <= s * y) by nia.
      assert ((s * y - cy) * (s * y - cy) <= (s * y' - cy) * (s * y' - cy)) by nia.
      lia.
Qed.

(** The same along a row that the thick loop does not meet. *)
Lemma disk_row_open m A tiles b s cx cy r2 x y :
  0 < s → isDisk m A s cx cy r2 → subBox b (gridBox m) → inBox b x y →
  getOwner m x y ≠ A → (∀ x', ¬ onThickLoop tiles x' y) →
  openTile m A tiles b x y.
Proof.
  intros Hs Hdisk Hsub Hin Hown Hrow.
  assert (∀ x', Game.minX b <= x' <= Game.maxX b → isValidTile m x' y = true) as Hv.
  { intros x' Hx'. apply isValidTile_spec.
    unfold subBox, gridBox, inBox in *. simpl in *. lia. }
  assert (r2 < (s * x - cx) * (s * x - cx) + (s * y - cy) * (s * y - cy)) as Hfar.
  { apply Z.nle_gt. intros Hle. apply Hown. apply Hdisk; [|done].
    apply Hv. unfold inBox in Hin. lia. }
  destruct (Z_le_gt_dec cx (s * x)) as [Hup|Hdown].
  - pose proof (line_open m A tiles b (Game.maxX b) y (-1) 0
                  (Z.to_nat (Game.maxX b - x))) as Hline.
    replace (y + Z.of_nat (Z.to_nat (Game.maxX b - x)) * 0) with y in Hline by lia.
    replace (Game.maxX b + Z.of_nat (Z.to_nat (Game.maxX b - x)) * -1) with x in Hline
      by (unfold inBox in Hin; lia).
    apply Hline.
    + unfold adjacent. lia.
    + unfold onRim, inBox in *. lia.
    + intros k Hk. replace (y + k * 0) with y by lia.
      set (x' := Game.maxX b + k * -1).
      assert (x <= x' <= Game.maxX b) as Hx' by (unfold inBox in Hin; lia).
      split; [unfold inBox in *; lia|]. split; [|apply Hrow].
      intros Ho. apply Hdisk in Ho; [|apply Hv; unfold inBox in Hin; lia].
      assert (s * x <= s * x') by nia.
      assert ((s * x - cx) * (s * x - cx) <= (s * x' - cx) * (s * x' - cx)) by nia.
      lia.
  - pose proof (line_open m A tiles b (Game.minX b) y 1 0
                  (Z.to_nat (x - Game.minX b))) as Hline.
    replace (y + Z.of_nat (Z.to_nat (x - Game.minX b)) * 0) with y in Hline by lia.
    replace (Game.minX b + Z.of_nat (Z.to_nat (x - Game.minX b)) * 1) with x in Hline
      by (unfold inBox in Hin; lia).
    apply Hline.
    + unfold adjacent. lia.
    + unfold onRim, inBox in *. lia.
    + intros k Hk. replace (y + k * 0) with y by lia.
      set (x' := Game.minX b + k * 1).
      assert (Game.minX b <= x' <= x) as Hx' by (unfold inBox in Hin; lia).
      split; [unfold inBox in *; lia|]. split; [|apply Hrow].
      intros Ho. apply Hdisk in Ho; [|apply Hv; unfold inBox in Hin; lia].
      assert (s * x' <= s * x) by nia.
      assert ((s * x - cx) * (s * x - cx) <= (s * x' - cx) * (s * x' - cx)) by nia.
      lia.
Qed.

(** C1, amended: on a well-formed grid where owner [A] holds a filled
    disk, processing a trail of at least three points whose tiles lie on
    the grid gives [A] every loop tile (the tiles of the trail points
    and of the closing position, and the tiles of the lines joining
    them) and every tile of the working box that the thick loop and
    [A]'s territory cut off from the rim of the box; it leaves as they
    were the tiles of the box that a path of free tiles joins to the
    rim, and every tile outside the loop's bounding box grown by one
    tile on each side; and a tile that changes owner goes to [A]. The
    loops of the capture end by themselves: every line drawn stops on
    its end tile and the flood fill empties its queue. *)
Theorem capture_annexes_enclosure m A s cx cy r2 pos tail :
  wf m → 0 <= A < 256 → (3 <= length tail)%nat →
  (∀ t, t ∈ Game.tailTilesOf m pos tail → isValidTile m (tx t) (ty t) = true) →
  0 < s → isDisk m A s cx cy r2 →
  let tiles := Game.tailTilesOf m pos tail in
  let endTile := worldToTile m (Vec2.x pos) (Vec2.y pos) in
  let b := Game.captureBox m A pos tail in
  let m' := Game.captureTerritory m A pos tail in
  (∀ p, p ∈ loopTiles tiles → getOwner m' (tx p) (ty p) = A) ∧
  (∀ x y, inBox b x y → ¬ openTile m A tiles b x y → getOwner m' x y = A) ∧
  (∀ x y, inBox b x y → openTile m A tiles b x y → getOwner m' x y = getOwner m x y) ∧
  (∀ x y, ¬ inBox (grow 1 (loopBox tiles endTile)) x y → getOwner m' x y = getOwner m x y) ∧
  (∀ x y, getOwner m' x y = getOwner m x y ∨ getOwner m' x y = A) ∧
  (∀ t0 t1, last (rasterLine t0 t1) = Some t1) ∧
  (Game.floodedGrid b (Game.barrierGrid m A b tiles)).2 = [].
Proof.
  intros Hwf HA Hlen Hvalid Hs Hdisk. cbv zeta.
  destruct (captureBox_spec m A pos tail Hvalid) as (Hgrid & Hx & Hy & Hloop & _ & _).
  destruct (captureTerritory_cells m A pos tail Hwf HA Hlen) as [Hdims Hcells].
  pose proof (λ x y, capture_in_box m A pos tail x y Hwf HA Hlen Hvalid) as Hbox.
  cbv zeta in Hloop, Hcells, Hbox.
  set (tiles := Game.tailTilesOf m pos tail) in *.
  set (endTile := worldToTile m (Vec2.x pos) (Vec2.y pos)) in *.
  set (b := Game.captureBox m A pos tail) in *.
  set (m' := Game.captureTerritory m A pos tail) in *.
  assert (∀ x y, isValidTile m x y = false → getOwner m' x y = getOwner m x y) as Hinvalid.
  { intros x y Hv. unfold getOwner. rewrite Hdims, Hv. done. }
  assert (∀ x y, inBox b x y ∨ ¬ inBox b x y) as Hdec.
  { intros x y. unfold inBox. lia. }
  split_and!.
  - intros p Hp.
    assert (inBox b (tx p) (ty p)) as Hin.
    { pose proof (loopTiles_in_loopBox tiles endTile p Hp) as Hin.
      unfold subBox, inBox in *. lia. }
    destruct (Hbox _ _ Hin) as (Hbar & _). apply Hbar. right. by apply onThickLoop_self.
  - intros x y Hin. by destruct (Hbox x y Hin) as (_ & Hclosed & _).
  - intros x y Hin. by destruct (Hbox x y Hin) as (_ & _ & Hopen & _).
  - intros x y Hout.
    destruct (isValidTile m x y) eqn:Hv; [|by apply Hinvalid].
    destruct (Hdec x y) as [Hin|Hnot]; [|by destruct (Hcells x y Hv) as [Hsame _]; apply Hsame].
    destruct (Hbox x y Hin) as (Hbar & _ & Hopen & _).
    destruct (Z.eq_dec (getOwner m x y) A) as [Hown|Hown].
    { rewrite Hown. apply Hbar. by left. }
    apply Hopen.
    assert (x < Game.minX (loopBox tiles endTile) - 1 ∨
            Game.maxX (loopBox tiles endTile) + 1 < x ∨
            y < Game.minY (loopBox tiles endTile) - 1 ∨
            Game.maxY (loopBox tiles endTile) + 1 < y) as Hside.
    { unfold inBox, grow in Hout. simpl in Hout. lia. }
    assert (x < Game.minX (loopBox tiles endTile) - 1 ∨
            Game.maxX (loopBox tiles endTile) + 1 < x ∨
            (y < Game.minY (loopBox tiles endTile) - 1 ∨
             Game.maxY (loopBox tiles endTile) + 1 < y)) as [Hcol|[Hcol|Hrow]] by lia.
    + eapply disk_column_open; eauto.
      intros y' Hl. apply (onThickLoop_in_grown tiles endTile) in Hl.
      unfold inBox, grow in Hl. simpl in Hl. lia.
    + eapply disk_column_open; eauto.
      intros y' Hl. apply (onThickLoop_in_grown tiles endTile) in Hl.
      unfold inBox, grow in Hl. simpl in Hl. lia.
    + eapply disk_row_open; eauto.
      intros x' Hl. apply (onThickLoop_in_grown tiles endTile) in Hl.
      unfold inBox, grow in Hl. simpl in Hl. lia.
  - intros x y.
    destruct (isValidTile m x y) eqn:Hv; [|left; by apply Hinvalid].
    destruct (Hdec x y) as [Hin|Hnot]; [|left; by destruct (Hcells x y Hv) as [Hsame _]; apply Hsame].
    by destruct (Hbox x y Hin) as (_ & _ & _ & Hcases).
  - intros t0 t1. rewrite rasterLine_last. by destruct t1.
  - by apply floodedGrid_drained.
Qed.

(** C1, as stated: on the grid [diskGrid], owner 1 holds a filled disk,
    the trail [loopTrail] lies outside it and the closing position
    [loopEnd] inside it; the capture gives owner 1 the tile (12,8), one
    column east of the loop's bounding box. *)
Lemma capture_bounding_box_counterexample :
  let m := diskGrid in
  let tiles := Game.tailTilesOf m loopEnd loopTrail in
  let endTile := worldToTile m (Vec2.x loopEnd) (Vec2.y loopEnd) in
  let m' := Game.captureTerritory m 1 loopEnd loopTrail in
  isDisk m 1 1 4 8 4 ∧
  Forall (λ p, getOwner m (tx (worldToTile m (Vec2.x p) (Vec2.y p)))
                 (ty (worldToTile m (Vec2.x p) (Vec2.y p))) ≠ 1) loopTrail ∧
  getOwner m (tx endTile) (ty endTile) = 1 ∧
  ¬ (∀ x y, ¬ inBox (loopBox tiles endTile) x y → getOwner m' x y = getOwner m x y).
Proof.
  cbv zeta. split_and!.
  - apply isDiskb_spec. vm_compute. reflexivity.
  - repeat constructor; vm_compute; discriminate.
  - vm_compute. reflexivity.
  - intros Hkeep. specialize (Hkeep 12 8).
    assert (¬ inBox (loopBox (Game.tailTilesOf diskGrid loopEnd loopTrail)
                       (worldToTile diskGrid (Vec2.x loopEnd) (Vec2.y loopEnd))) 12 8) as Hout.
    { unfold inBox. vm_compute. intros [[_ Hle] _]. by apply Hle. }
    apply Hkeep in Hout. vm_compute in Hout. discriminate Hout.
Qed.

End EnclosureFacts.

Lemma capture_annexes_enclosure_witness :
  let m := diskGrid in
  let tiles := Game.tailTilesOf m loopEnd loopTrail in
  let endTile := TerritoryMap.worldToTile m (Vec2.x loopEnd) (Vec2.y loopEnd) in
  let b := Game.captureBox m 1 loopEnd loopTrail in
  let m' := Game.captureTerritory m 1 loopEnd loopTrail in
  (TerritoryMap.wf m ∧ 0 <= 1 < 256 ∧ (3 <= length loopTrail)%nat ∧
   (∀ t, t ∈ tiles → TerritoryMap.isValidTile m (tx t) (ty t) = true) ∧
   0 < 1 ∧ isDisk m 1 1 4 8 4) ∧
  (∀ p, p ∈ loopTiles tiles → TerritoryMap.getOwner m' (tx p) (ty p) = 1) ∧
  (∀ x y, inBox b x y → ¬ openTile m 1 tiles b x y → TerritoryMap.getOwner m' x y = 1) ∧
  (∀ x y, inBox b x y → openTile m 1 tiles b x y →
          TerritoryMap.getOwner m' x y = TerritoryMap.getOwner m x y) ∧
  (∀ x y, ¬ inBox (grow 1 (loopBox tiles endTile)) x y →
          TerritoryMap.getOwner m' x y = TerritoryMap.getOwner m x y) ∧
  (∀ x y, TerritoryMap.getOwner m' x y = TerritoryMap.getOwner m x y ∨
          TerritoryMap.getOwner m' x y = 1) ∧
  (∀ t0 t1, last (rasterLine t0 t1) = Some t1) ∧
  (Game.floodedGrid b (Game.barrierGrid m 1 b tiles)).2 = [].
Proof.
  assert (TerritoryMap.wf diskGrid) as Hwf.
  { apply paint_wf, blank_wf; lia. }
  assert (∀ t, t ∈ Game.tailTilesOf diskGrid loopEnd loopTrail →
            TerritoryMap.isValidTile diskGrid (tx t) (ty t) = true) as Hvalid.
  { apply Forall_forall. repeat constructor. }
  assert (isDisk diskGrid 1 1 4 8 4) as Hdisk.
  { apply isDiskb_spec. vm_compute. reflexivity. }
  cbv zeta. split.
  - split_and!; [exact Hwf|lia|lia|simpl; lia|exact Hvalid|lia|exact Hdisk].
  - apply (capture_annexes_enclosure diskGrid 1 1 4 8 4 loopEnd loopTrail);
      [exact Hwf|lia|simpl; lia|exact Hvalid|lia|exact Hdisk].
Defined.

(* ================================================================== *)
(** * Further properties of the code *)
(* ================================================================== *)

(** ** Tiles and world coordinates *)

Section CoordinateFacts.
Import TerritoryMap.

Lemma Qfloor_ge (q : Q) (k : Z) : k <= Qfloor q ↔ (inject_Z k <= q)%Q.
Proof.
  split.
  - intros Hk. eapply Qle_trans; [|apply Qfloor_le]. by rewrite <- Zle_Qle.
  - intros Hk. pose proof (Qlt_floor q) as Hlt.
    assert (inject_Z k < inject_Z (Qfloor q + 1))%Q as Hz by (eapply Qle_lt_trans; eauto).
    rewrite <- Zlt_Qlt in Hz. lia.
Qed.

Lemma Qfloor_lt (q : Q) (k : Z) : Qfloor q < k ↔ (q < inject_Z k)%Q.
Proof.
  split.
  - intros Hk. eapply Qlt_le_trans; [apply Qlt_floor|]. rewrite <- Zle_Qle. lia.
  - intros Hk. pose proof (Qfloor_le q) as Hle.
    assert (inject_Z (Qfloor q) < inject_Z k)%Q as Hz by (eapply Qle_lt_trans; eauto).
    by rewrite <- Zlt_Qlt in Hz.
Qed.

Lemma Qfloor_unique (q : Q) (n : Z) :
  (inject_Z n <= q)%Q → (q < inject_Z (n + 1))%Q → Qfloor q = n.
Proof.
  intros Hlo Hhi. apply Qfloor_ge in Hlo. apply Qfloor_lt in Hhi. lia.
Qed.

Lemma Qdiv_ge (q : Q) (ts k : Z) :
  0 < ts → (inject_Z k <= q / inject_Z ts ↔ inject_Z (k * ts) <= q)%Q.
Proof.
  intros Hts. assert (0 < inject_Z ts)%Q as Hq by (rewrite <- (Zlt_Qlt 0); lia).
  rewrite inject_Z_mult. split; intros H.
  - apply (Qmult_le_r _ _ (inject_Z ts)) in H; [|done].
    assert (q / inject_Z ts * inject_Z ts == q)%Q as Heq by (field; lra).
    by rewrite Heq in H.
  - apply Qle_shift_div_l; done.
Qed.

Lemma Qdiv_lt (q : Q) (ts k : Z) :
  0 < ts → (q / inject_Z ts < inject_Z k ↔ q < inject_Z (k * ts))%Q.
Proof.
  intros Hts. assert (0 < inject_Z ts)%Q as Hq by (rewrite <- (Zlt_Qlt 0); lia).
  rewrite inject_Z_mult. split; intros H.
  - apply (Qmult_lt_r _ _ (inject_Z ts)) in H; [|done].
    assert (q / inject_Z ts * inject_Z ts == q)%Q as Heq by (field; lra).
    by rewrite Heq in H.
  - apply Qlt_shift_div_r; done.
Qed.

(** The tile of a world coordinate lies in [0, n) exactly when the
    coordinate lies in [0, n * tileSize). *)
Lemma tile_coordinate_range (q : Q) (ts n : Z) :
  0 < ts →
  (0 <= Qfloor (q / inject_Z ts) < n) ↔ (0 <= q ∧ q < inject_Z (n * ts))%Q.
Proof.
  intros Hts. rewrite Qfloor_ge, Qfloor_lt, (Qdiv_ge q ts 0), Qdiv_lt by done.
  done.
Qed.



End CoordinateFacts.

Section MotionFacts.
Import TerritoryMap.
Variable PI : Q.
Variables cosF sinF : Q → Q.

(** X3: a live player moved by [Player.update] stands on a tile of the
    arena grid: on any grid with the dimensions and the tile size of the
    configuration, the tile of its new position is valid, whatever the
    time step, the speed and the heading were. *)
Theorem update_lands_on_grid (m : TerritoryMap) (p : Player.t) (dt : Q) :
  Player.alive p = true →
  widthTiles m = gameConfig.arena_widthTiles →
  heightTiles m = gameConfig.arena_heightTiles →
  tileSize m = gameConfig.tileSize →
  let p' := Player.update PI cosF sinF p dt in
  let t := worldToTile m (Vec2.x (Player.pos p')) (Vec2.y (Player.pos p')) in
  isValidTile m (tx t) (ty t) = true.
Proof.
  intros Halive Hw Hh Hts. cbv zeta.
  destruct (update_position_clamped PI cosF sinF p dt Halive) as [Hx Hy].
  cbv zeta in Hx, Hy.
  set (p' := Player.update PI cosF sinF p dt) in *.
  apply isValidTile_spec. unfold worldToTile. cbn [tx ty]. rewrite Hw, Hh, Hts.
  unfold derivedConfig.arenaWidthPx, derivedConfig.arenaHeightPx in *.
  split; apply tile_coordinate_range; try done.
  - change (inject_Z (gameConfig.arena_widthTiles * gameConfig.tileSize)) with (2000 # 1)%Q in *.
    lra.
  - change (inject_Z (gameConfig.arena_heightTiles * gameConfig.tileSize)) with (2000 # 1)%Q in *.
    lra.
Qed.

End MotionFacts.

Lemma update_lands_on_grid_witness :
  let m := TerritoryMap.blank 500 500 4 in
  let p := playerAt 1 false (1999 # 1) (1 # 1) in
  (Player.alive p = true ∧ widthTiles m = gameConfig.arena_widthTiles ∧
   heightTiles m = gameConfig.arena_heightTiles ∧ tileSize m = gameConfig.tileSize) ∧
  let p' := Player.update PI0 cos0 sin0 p (1 # 60) in
  let t := TerritoryMap.worldToTile m (Vec2.x (Player.pos p')) (Vec2.y (Player.pos p')) in
  TerritoryMap.isValidTile m (tx t) (ty t) = true.
Proof.
  split; [repeat split|].
  apply (update_lands_on_grid PI0 cos0 sin0 (TerritoryMap.blank 500 500 4)
           (playerAt 1 false (1999 # 1) (1 # 1)) (1 # 60)); reflexivity.
Defined.

(** ** Bulk operations on the grid *)

Section GridOperationFacts.
Import TerritoryMap.

Lemma paint_cacheCorrect m o ts :
  wf m → cacheCorrect m → 0 <= o < 256 → cacheCorrect (paint m o ts).
Proof.
  unfold paint. revert m. induction ts as [|t ts IH]; intros m Hwf Hc Ho; [done|].
  simpl. apply IH; [by apply setOwner_wf|by apply setOwner_cacheCorrect|done].
Qed.

Lemma rescan_le_total m k : wf m → rescan m k <= getTotalTiles m.
Proof.
  intros Hwf. unfold rescan, getTotalTiles.
  pose proof (length_filter (λ v, v = k) (ownerMap m)) as Hlen.
  rewrite (wf_length _ Hwf) in Hlen.
  pose proof (wf_width _ Hwf). pose proof (wf_height _ Hwf). nia.
Qed.

(** X4: [clearOwnerTerritory(o)] turns the tiles of [o], and only
    those, into neutral tiles, sets the cached count of [o] to 0 and
    leaves the cached counts of the other owners as they are; when [o]
    is not the neutral id, no cell holds [o] afterwards. *)
Theorem clearOwnerTerritory_spec m o :
  wf m →
  (∀ x y, isValidTile m x y = true →
     getOwner (clearOwnerTerritory m o) x y = if getOwner m x y =? o then 0 else getOwner m x y) ∧
  countOwnedTiles (clearOwnerTerritory m o) o = 0 ∧
  (∀ k, k ≠ o → countOwnedTiles (clearOwnerTerritory m o) k = countOwnedTiles m k) ∧
  (o ≠ 0 → rescan (clearOwnerTerritory m o) o = 0).
Proof.
  intros Hwf. split_and!.
  - intros x y Hv. by apply getOwner_clearOwnerTerritory.
  - unfold countOwnedTiles, clearOwnerTerritory. simpl. by rewrite lookup_insert_eq.
  - intros k Hk. unfold countOwnedTiles, clearOwnerTerritory. simpl.
    by rewrite lookup_insert_ne.
  - intros Ho. unfold rescan, clearOwnerTerritory. simpl. rewrite filter_eq_fmap.
    apply filter_length_none. intros v. destruct (Z.eqb_spec v o); lia.
Qed.

Lemma clearOwnerTerritory_spec_witness :
  wf twoOwners ∧
  (∀ x y, isValidTile twoOwners x y = true →
     getOwner (clearOwnerTerritory twoOwners 2) x y
     = if getOwner twoOwners x y =? 2 then 0 else getOwner twoOwners x y) ∧
  countOwnedTiles (clearOwnerTerritory twoOwners 2) 2 = 0 ∧
  (∀ k, k ≠ 2 → countOwnedTiles (clearOwnerTerritory twoOwners 2) k
                = countOwnedTiles twoOwners k) ∧
  (2 ≠ 0 → rescan (clearOwnerTerritory twoOwners 2) 2 = 0).
Proof.
  assert (wf twoOwners) as Hwf by (repeat apply setOwner_wf; apply blank_wf; lia).
  split; [exact Hwf|]. apply (clearOwnerTerritory_spec twoOwners 2 Hwf).
Defined.

(** X5: a transfer between two different owners conserves tiles: the
    receiver ends with its own tiles and the giver's, the giver with
    none, and every other id, the neutral one included, with what it
    had. *)
Theorem transferTerritory_conserves m f t :
  0 <= t < 256 → f ≠ t →
  rescan (transferTerritory m f t) t = rescan m t + rescan m f ∧
  rescan (transferTerritory m f t) f = 0 ∧
  (∀ k, k ≠ f → k ≠ t → rescan (transferTerritory m f t) k = rescan m k).
Proof.
  intros Ht Hne. unfold rescan, transferTerritory. simpl.
  rewrite !toUint8_small by done. split_and!.
  - rewrite filter_eq_fmap.
    apply (filter_length_split (ownerMap m) (λ v, (if v =? f then t else v) = t)
             (λ v, v = t) (λ v, v = f)).
    + intros v. destruct (Z.eqb_spec v f); lia.
    + intros v. lia.
  - rewrite filter_eq_fmap. apply filter_length_none.
    intros v. destruct (Z.eqb_spec v f); lia.
  - intros k Hkf Hkt. rewrite filter_eq_fmap. apply filter_length_ext.
    intros v. destruct (Z.eqb_spec v f); lia.
Qed.

Lemma transferTerritory_conserves_witness :
  (0 <= 2 < 256 ∧ 1 ≠ 2) ∧
  rescan (transferTerritory twoOwners 1 2) 2 = rescan twoOwners 2 + rescan twoOwners 1 ∧
  rescan (transferTerritory twoOwners 1 2) 1 = 0 ∧
  (∀ k, k ≠ 1 → k ≠ 2 → rescan (transferTerritory twoOwners 1 2) k = rescan twoOwners k).
Proof.
  split; [lia|]. apply (transferTerritory_conserves twoOwners 1 2); lia.
Defined.

(** X6: [getBorderTiles(o)] lists, once each, exactly the tiles of the
    grid that [o] owns and that have a neighbour, left, right, above or
    below, not owned by [o]; a neighbour outside the grid counts as not
    owned. *)
Theorem getBorderTiles_spec m o t :
  (t ∈ getBorderTiles m o ↔
   isValidTile m (tx t) (ty t) = true ∧ getOwner m (tx t) (ty t) = o ∧
   (getOwner m (tx t - 1) (ty t) ≠ o ∨ getOwner m (tx t + 1) (ty t) ≠ o ∨
    getOwner m (tx t) (ty t - 1) ≠ o ∨ getOwner m (tx t) (ty t + 1) ≠ o)) ∧
  NoDup (getBorderTiles m o).
Proof.
  split; [|apply getBorderTiles_NoDup].
  unfold getBorderTiles. rewrite list_elem_of_filter, elem_of_allTiles, <- isValidTile_spec.
  unfold isBorderOf. rewrite andb_true_iff, !orb_true_iff, !negb_true_iff, !Z.eqb_neq, Z.eqb_eq.
  split.
  - intros [[Hown Hnb] Hv]. split; [done|]. split; [|tauto].
    unfold getOwner. by rewrite Hv.
  - intros (Hv & Hown & Hnb). split; [|done]. split; [|tauto].
    unfold getOwner in Hown. by rewrite Hv in Hown.
Qed.

(** X7: on a grid with at least one tile whose cache is correct, the
    ownership percentage of every id lies between 0 and 100. *)
Theorem ownership_percentage_bounds m k :
  wf m → cacheCorrect m → 0 < getTotalTiles m →
  (0 <= getOwnershipPercentage m k <= 100 # 1)%Q.
Proof.
  intros Hwf Hc Htot. unfold getOwnershipPercentage.
  assert (0 <= countOwnedTiles m k <= getTotalTiles m) as Hcount.
  { rewrite (Hc k). pose proof (rescan_le_total m k Hwf). pose proof (rescan_nonneg m k).
    destruct (0 <? k); lia. }
  assert (0 < inject_Z (getTotalTiles m))%Q as Hq by (rewrite <- (Zlt_Qlt 0); lia).
  assert (0 <= inject_Z (countOwnedTiles m k))%Q as H0 by (rewrite <- (Zle_Qle 0); lia).
  assert (inject_Z (countOwnedTiles m k) <= inject_Z (getTotalTiles m))%Q as H1
    by (rewrite <- Zle_Qle; lia).
  assert (0 <= inject_Z (countOwnedTiles m k) / inject_Z (getTotalTiles m))%Q as Hlo
    by (apply Qle_shift_div_l; lra).
  assert (inject_Z (countOwnedTiles m k) / inject_Z (getTotalTiles m) <= 1)%Q as Hhi
    by (apply Qle_shift_div_r; lra).
  lra.
Qed.

Lemma ownership_percentage_bounds_witness :
  (wf ring3 ∧ cacheCorrect ring3 ∧ 0 < getTotalTiles ring3) ∧
  (0 <= getOwnershipPercentage ring3 1 <= 100 # 1)%Q.
Proof.
  assert (wf ring3) as Hwf by (apply paint_wf, blank_wf; lia).
  assert (cacheCorrect ring3) as Hc.
  { apply paint_cacheCorrect; [apply blank_wf; lia|apply blank_cacheCorrect|lia]. }
  split; [split_and!; [exact Hwf|exact Hc|reflexivity]|].
  apply (ownership_percentage_bounds ring3 1 Hwf Hc). reflexivity.
Defined.

End GridOperationFacts.

(** ** Loops that give tiles to one owner *)

Section PaintFacts.
Import TerritoryMap.

(** A loop whose passes either leave the grid alone or give one tile to
    the owner [o]: the shape of [generateStartingTerritory], of the
    orphan sweep and of the last loop of a capture. *)
Lemma setOwner_fold_spec {X} (cond : TerritoryMap → X → bool) (pos : X → Z * Z)
    (o : Z) (cells : list X) (m : TerritoryMap) :
  wf m → 0 <= o < 256 →
  let m' := foldl (λ m c, if cond m c then setOwner m (pos c).1 (pos c).2 o else m) m cells in
  wf m' ∧ (cacheCorrect m → cacheCorrect m') ∧
  (∀ x y, isValidTile m' x y = isValidTile m x y) ∧
  (∀ x y, getOwner m' x y = getOwner m x y ∨
          (getOwner m' x y = o ∧
           ∃ c, c ∈ cells ∧ pos c = (x, y) ∧ ∃ m0, cond m0 c = true)) ∧
  (∀ x y, isValidTile m x y = true →
          (∃ c, c ∈ cells ∧ pos c = (x, y) ∧ ∀ m0, cond m0 c = true) →
          getOwner m' x y = o).
Proof.
  intros Hwf Ho. revert m Hwf. induction cells as [|c0 cells IH]; intros m Hwf; cbn [foldl].
  { cbv zeta. split_and!; try done; [by left|].
    intros x y _ (c & Hc & _). by apply not_elem_of_nil in Hc. }
  set (step := if cond m c0 then setOwner m (pos c0).1 (pos c0).2 o else m).
  assert (wf step) as Hwf' by (subst step; case_match; [by apply setOwner_wf|done]).
  assert (∀ x y, isValidTile step x y = isValidTile m x y) as Hv'.
  { intros x y. subst step. case_match; [by rewrite setOwner_isValidTile|done]. }
  assert (∀ x y, isValidTile m x y = true → getOwner m x y = o → getOwner step x y = o) as Hkeep.
  { intros x y Hv Hown. subst step. case_match; [|done].
    destruct (decide ((x, y) = ((pos c0).1, (pos c0).2))) as [[= -> ->]|Hne].
    - rewrite getOwner_setOwner_same by done. by apply toUint8_small.
    - by rewrite getOwner_setOwner_other. }
  destruct (IH step Hwf') as (Hwf'' & Hc'' & Hv'' & Hch & Hset). cbv zeta in *.
  split_and!.
  - done.
  - intros Hc. apply Hc''. subst step. case_match; [by apply setOwner_cacheCorrect|done].
  - intros x y. by rewrite Hv'', Hv'.
  - intros x y.
    assert (getOwner step x y = getOwner m x y ∨
            (getOwner step x y = o ∧ pos c0 = (x, y) ∧ cond m c0 = true)) as Hstep.
    { subst step. destruct (cond m c0) eqn:Hcond; [|by left].
      destruct (decide ((x, y) = ((pos c0).1, (pos c0).2))) as [Heq|Hne];
        [|left; by rewrite getOwner_setOwner_other].
      injection Heq as -> ->.
      destruct (isValidTile m (pos c0).1 (pos c0).2) eqn:Hv.
      - right. rewrite getOwner_setOwner_same by done.
        split; [by apply toUint8_small|]. split; [by destruct (pos c0)|done].
      - left. unfold setOwner. by rewrite Hv. }
    destruct (Hch x y) as [Hsame|(Hown & c & Hin & Hpos & Hcond)].
    + destruct Hstep as [Hs|(Hs & Hpos & Hcond)]; [left; congruence|].
      right. split; [congruence|]. exists c0. split; [by left|]. split; [done|by exists m].
    + right. split; [done|]. exists c. split; [by right|done].
  - intros x y Hv (c & Hin & Hpos & Hcond).
    apply elem_of_cons in Hin as [->|Hin].
    + assert (getOwner step x y = o) as Hs.
      { subst step. rewrite Hcond. rewrite Hpos. simpl.
        rewrite getOwner_setOwner_same by done. by apply toUint8_small. }
      destruct (Hch x y) as [Hsame|[Hown _]]; congruence.
    + apply Hset; [by rewrite Hv'|]. by exists c.
Qed.

End PaintFacts.

(** ** Starting territory *)

Section StartingTerritoryFacts.
Import TerritoryMap.
Variables cosF sinF : Q → Q.

Lemma generateStartingTerritory_cells m (cX cY : Q) o r :
  wf m → 0 <= o < 256 →
  let m' := generateStartingTerritory cosF sinF m cX cY o r in
  let c := worldToTile m cX cY in
  wf m' ∧ (cacheCorrect m → cacheCorrect m') ∧
  ∀ x y, isValidTile m x y = true →
    getOwner m' x y
    = if (Z.abs (x - tx c) <=? r) && (Z.abs (y - ty c) <=? r) &&
         inStartingBlob cosF sinF (x - tx c) (y - ty c) r
      then o else getOwner m x y.
Proof.
  intros Hwf Ho. cbv zeta. unfold generateStartingTerritory.
  set (c := worldToTile m cX cY).
  rewrite (foldl_nested (λ m dx dy, if inStartingBlob cosF sinF dx dy r
                                    then setOwner m (tx c + dx) (ty c + dy) o else m)).
  destruct (setOwner_fold_spec (λ _ d, inStartingBlob cosF sinF d.1 d.2 r)
              (λ d, (tx c + d.1, ty c + d.2)) o
              (zrange (- r) r ≫= λ dy, (λ dx, (dx, dy)) <$> zrange (- r) r) m Hwf Ho)
    as (Hwf' & Hc' & _ & Hch & Hset).
  cbv zeta in *. cbn [fst snd] in *. split; [done|]. split; [done|].
  intros x y Hv.
  assert (∀ d : Z * Z,
    d ∈ (zrange (- r) r ≫= λ dy, (λ dx, (dx, dy)) <$> zrange (- r) r)
    ↔ Z.abs d.1 <= r ∧ Z.abs d.2 <= r) as Hcells.
  { intros [dx dy]. rewrite list_elem_of_bind. simpl. split.
    - intros (dy' & Hin & Hdy). apply list_elem_of_fmap in Hin as (dx' & [= -> ->] & Hdx).
      apply elem_of_zrange in Hdx, Hdy. lia.
    - intros [Hdx Hdy]. exists dy. split; [|apply elem_of_zrange; lia].
      apply list_elem_of_fmap. exists dx. split; [done|]. apply elem_of_zrange. lia. }
  destruct ((Z.abs (x - tx c) <=? r) && (Z.abs (y - ty c) <=? r) &&
            inStartingBlob cosF sinF (x - tx c) (y - ty c) r) eqn:Hin.
  - apply andb_true_iff in Hin as [Hin Hblob]. apply andb_true_iff in Hin as [Hdx Hdy].
    apply Z.leb_le in Hdx, Hdy.
    apply Hset; [done|]. exists (x - tx c, y - ty c). split; [by apply Hcells|].
    simpl. split; [f_equal; lia|done].
  - destruct (Hch x y) as [Hsame|(_ & d & Hd & Hpos & _ & Hblob)]; [done|].
    exfalso. apply Hcells in Hd as [Hdx Hdy].
    assert (d.1 = x - tx c ∧ d.2 = y - ty c) as [Hd1 Hd2].
    { pose proof (f_equal fst Hpos) as E1. pose proof (f_equal snd Hpos) as E2.
      cbn [fst snd] in E1, E2. lia. }
    rewrite Hd1, Hd2 in *. rewrite Hblob, andb_true_r in Hin.
    apply andb_false_iff in Hin as [Hin|Hin]; apply Z.leb_gt in Hin; lia.
Qed.

(** X8: [generateStartingTerritory] gives the owner exactly the tiles of
    the grid within [radius] columns and rows of the centre tile that
    pass the noisy distance test, and changes no other tile; it keeps the
    grid well formed and the cached counts correct. *)
Theorem generateStartingTerritory_spec m (cX cY : Q) o r :
  wf m → 0 <= o < 256 →
  let m' := generateStartingTerritory cosF sinF m cX cY o r in
  let c := worldToTile m cX cY in
  wf m' ∧ (cacheCorrect m → cacheCorrect m') ∧
  ∀ x y, isValidTile m x y = true →
    getOwner m' x y
    = if (Z.abs (x - tx c) <=? r) && (Z.abs (y - ty c) <=? r) &&
         inStartingBlob cosF sinF (x - tx c) (y - ty c) r
      then o else getOwner m x y.
Proof. apply generateStartingTerritory_cells. Qed.

Hypothesis sin_bounded : ∀ q, (-1 <= sinF q <= 1)%Q.
Hypothesis cos_bounded : ∀ q, (-1 <= cosF q <= 1)%Q.

Lemma inStartingBlob_bounds dx dy r :
  2 <= r →
  (dx * dx + dy * dy <= (r - 2) * (r - 2) → inStartingBlob cosF sinF dx dy r = true) ∧
  (inStartingBlob cosF sinF dx dy r = true → dx * dx + dy * dy <= (r + 2) * (r + 2)).
Proof.
  intros Hr. unfold inStartingBlob. cbv zeta.
  set (s := sinF (inject_Z dx * (5 # 10))). set (c := cosF (inject_Z dy * (7 # 10))).
  pose proof (sin_bounded (inject_Z dx * (5 # 10))) as Hs. fold s in Hs.
  pose proof (cos_bounded (inject_Z dy * (7 # 10))) as Hc. fold c in Hc.
  assert (-1 <= s * c <= 1)%Q as Hsc by nra.
  set (th := (inject_Z r + s * c * (2 # 1))%Q).
  assert (inject_Z r - 2 <= th <= inject_Z r + 2)%Q as Hth by (unfold th; lra).
  assert (2 <= inject_Z r)%Q as Hrq by (rewrite (Zle_Qle 2) in Hr; exact Hr).
  unfold Qleb. rewrite andb_true_iff, !Qle_bool_iff. split.
  - intros Hd. replace (r - 2) with (r + -2) in Hd by lia. rewrite Zle_Qle in Hd.
    rewrite !inject_Z_mult, !inject_Z_plus, !inject_Z_mult in *.
    change (inject_Z (-2)) with (-2 # 1)%Q in Hd. clearbody th.
    split; [lra|nra].
  - intros [H0 Hd]. rewrite Zle_Qle.
    rewrite !inject_Z_mult, !inject_Z_plus, !inject_Z_mult in *.
    change (inject_Z 2) with (2 # 1)%Q. clearbody th. nra.
Qed.

(** X9: when the sine and the cosine stay within [-1, 1], the starting
    territory of radius [r >= 2] contains every tile of the grid within
    distance [r - 2] of the centre tile, the centre tile first, and
    changes no tile further than [r + 2] from it. *)
Theorem starting_territory_shape m (cX cY : Q) o r :
  wf m → 0 <= o < 256 → 2 <= r →
  let m' := generateStartingTerritory cosF sinF m cX cY o r in
  let c := worldToTile m cX cY in
  ∀ x y, isValidTile m x y = true →
    ((x - tx c) * (x - tx c) + (y - ty c) * (y - ty c) <= (r - 2) * (r - 2) →
     getOwner m' x y = o) ∧
    ((r + 2) * (r + 2) < (x - tx c) * (x - tx c) + (y - ty c) * (y - ty c) →
     getOwner m' x y = getOwner m x y).
Proof.
  intros Hwf Ho Hr. cbv zeta. intros x y Hv.
  destruct (generateStartingTerritory_cells m cX cY o r Hwf Ho) as (_ & _ & Hcells).
  cbv zeta in Hcells. rewrite (Hcells x y Hv). clear Hcells.
  set (c := worldToTile m cX cY).
  destruct (inStartingBlob_bounds (x - tx c) (y - ty c) r Hr) as [Hin Hout].
  split.
  - intros Hd. rewrite (Hin Hd), andb_true_r.
    assert (Z.abs (x - tx c) <= r ∧ Z.abs (y - ty c) <= r) as [Hx Hy] by nia.
    apply Z.leb_le in Hx, Hy. by rewrite Hx, Hy.
  - intros Hd. destruct (inStartingBlob cosF sinF (x - tx c) (y - ty c) r);
      [specialize (Hout eq_refl); lia|]. by rewrite andb_false_r.
Qed.

End StartingTerritoryFacts.

Lemma generateStartingTerritory_spec_witness :
  let m := TerritoryMap.blank 16 16 4 in
  let m' := TerritoryMap.generateStartingTerritory cos0 sin0 m (34 # 1) (34 # 1) 1 3 in
  let c := TerritoryMap.worldToTile m (34 # 1) (34 # 1) in
  (TerritoryMap.wf m ∧ 0 <= 1 < 256) ∧
  TerritoryMap.wf m' ∧ (TerritoryMap.cacheCorrect m → TerritoryMap.cacheCorrect m') ∧
  ∀ x y, TerritoryMap.isValidTile m x y = true →
    TerritoryMap.getOwner m' x y
    = if (Z.abs (x - tx c) <=? 3) && (Z.abs (y - ty c) <=? 3) &&
         TerritoryMap.inStartingBlob cos0 sin0 (x - tx c) (y - ty c) 3
      then 1 else TerritoryMap.getOwner m x y.
Proof.
  assert (TerritoryMap.wf (TerritoryMap.blank 16 16 4)) as Hwf by (apply blank_wf; lia).
  split; [split; [exact Hwf|lia]|].
  apply (generateStartingTerritory_spec cos0 sin0 (TerritoryMap.blank 16 16 4)
           (34 # 1) (34 # 1) 1 3 Hwf). lia.
Defined.

Lemma starting_territory_shape_witness :
  let m := TerritoryMap.blank 16 16 4 in
  let m' := TerritoryMap.generateStartingTerritory cos0 sin0 m (34 # 1) (34 # 1) 1 3 in
  let c := TerritoryMap.worldToTile m (34 # 1) (34 # 1) in
  ((∀ q, (-1 <= sin0 q <= 1)%Q) ∧ (∀ q, (-1 <= cos0 q <= 1)%Q) ∧
   TerritoryMap.wf m ∧ 0 <= 1 < 256 ∧ 2 <= 3) ∧
  ∀ x y, TerritoryMap.isValidTile m x y = true →
    ((x - tx c) * (x - tx c) + (y - ty c) * (y - ty c) <= (3 - 2) * (3 - 2) →
     TerritoryMap.getOwner m' x y = 1) ∧
    ((3 + 2) * (3 + 2) < (x - tx c) * (x - tx c) + (y - ty c) * (y - ty c) →
     TerritoryMap.getOwner m' x y = TerritoryMap.getOwner m x y).
Proof.
  assert (TerritoryMap.wf (TerritoryMap.blank 16 16 4)) as Hwf by (apply blank_wf; lia).
  assert (∀ q, (-1 <= sin0 q <= 1)%Q) as Hsin by (intros q; unfold sin0; lra).
  assert (∀ q, (-1 <= cos0 q <= 1)%Q) as Hcos by (intros q; unfold cos0; lra).
  split; [split_and!; [exact Hsin|exact Hcos|exact Hwf|lia|lia|lia]|].
  apply (starting_territory_shape cos0 sin0 Hsin Hcos (TerritoryMap.blank 16 16 4)
           (34 # 1) (34 # 1) 1 3 Hwf); lia.
Defined.

(** ** Turning *)

Section TurningFacts.
Variable PI : Q.
Variables cosF sinF : Q → Q.
Hypothesis PI_pos : (0 < PI)%Q.

(** Two angles of the same half-open turn that differ by whole turns
    are equal. *)
Lemma turn_unique (a b : Q) (k : Z) :
  (a == b + inject_Z k * (PI * (2 # 1)))%Q →
  (- PI <= a)%Q → (a <= PI)%Q → (- PI <= b)%Q → (b <= PI)%Q →
  (- PI < a ∨ b < PI)%Q → (a < PI ∨ - PI < b)%Q →
  (a == b)%Q.
Proof.
  intros Heq Ha1 Ha2 Hb1 Hb2 Hlo Hhi.
  destruct (Z_lt_le_dec k 1) as [Hk1|Hk1]; [destruct (Z_lt_le_dec (-1) k) as [Hk2|Hk2]|].
  - assert (k = 0) as -> by lia. rewrite Heq. change (inject_Z 0) with 0%Q. lra.
  - exfalso. assert (inject_Z k <= -1)%Q as Hq by (rewrite (Zle_Qle k (-1)) in Hk2; exact Hk2).
    assert (inject_Z k * (PI * (2 # 1)) <= - (PI * (2 # 1)))%Q by nra. lra.
  - exfalso. assert (1 <= inject_Z k)%Q as Hq by (rewrite (Zle_Qle 1 k) in Hk1; exact Hk1).
    assert (PI * (2 # 1) <= inject_Z k * (PI * (2 # 1)))%Q by nra. lra.
Qed.

(** The closed form of the first loop. *)
Lemma lowered_closed_form (d : Q) :
  (PI < d)%Q →
  let c := Qceiling ((d - PI) / ((2 # 1) * PI)) in
  (- PI < d - (2 # 1) * PI * inject_Z c)%Q ∧ (d - (2 # 1) * PI * inject_Z c <= PI)%Q.
Proof.
  intros Hd. cbv zeta. set (q := ((d - PI) / ((2 # 1) * PI))%Q).
  assert (q * ((2 # 1) * PI) == d - PI)%Q as Hq by (unfold q; field; lra).
  pose proof (Qle_ceiling q) as Hle. pose proof (Qceiling_lt q) as Hlt.
  unfold Zminus in Hlt. rewrite inject_Z_plus, inject_Z_opp in Hlt.
  change (inject_Z 1) with 1%Q in Hlt. clearbody q. split; nra.
Qed.

(** The closed form of the second loop. *)
Lemma raised_closed_form (d : Q) :
  (d < - PI)%Q →
  let c := Qceiling ((- PI - d) / ((2 # 1) * PI)) in
  (- PI <= d + (2 # 1) * PI * inject_Z c)%Q ∧ (d + (2 # 1) * PI * inject_Z c < PI)%Q.
Proof.
  intros Hd. cbv zeta. set (q := ((- PI - d) / ((2 # 1) * PI))%Q).
  assert (q * ((2 # 1) * PI) == - PI - d)%Q as Hq by (unfold q; field; lra).
  pose proof (Qle_ceiling q) as Hle. pose proof (Qceiling_lt q) as Hlt.
  unfold Zminus in Hlt. rewrite inject_Z_plus, inject_Z_opp in Hlt.
  change (inject_Z 1) with 1%Q in Hlt. clearbody q. split; nra.
Qed.

Lemma normalizeAngle_range (d : Q) :
  (- PI <= Player.normalizeAngle PI d <= PI)%Q ∧
  ∃ k : Z, (Player.normalizeAngle PI d == d + inject_Z k * (PI * (2 # 1)))%Q.
Proof.
  unfold Player.normalizeAngle. cbv zeta.
  destruct (Qltb PI d) eqn:H1.
  - apply Qltb_lt in H1. destruct (lowered_closed_form d H1) as [Hlo Hhi]. cbv zeta in *.
    rewrite (proj2 (Qltb_ge _ _) (Qlt_le_weak _ _ Hlo)).
    split; [lra|]. exists (- Qceiling ((d - PI) / ((2 # 1) * PI))).
    rewrite inject_Z_opp. ring.
  - apply Qltb_ge in H1. destruct (Qltb d (- PI)) eqn:H2.
    + apply Qltb_lt in H2. destruct (raised_closed_form d H2) as [Hlo Hhi]. cbv zeta in *.
      split; [lra|]. exists (Qceiling ((- PI - d) / ((2 # 1) * PI))). ring.
    + apply Qltb_ge in H2. split; [lra|]. exists 0. change (inject_Z 0) with 0%Q. ring.
Qed.


Lemma Qabs_eq_pos (a b : Q) : (a == b)%Q → (0 <= b)%Q → (Qabs a == b)%Q.
Proof. intros Heq Hb. rewrite Heq. by apply Qabs_pos. Qed.

Lemma Qabs_eq_neg (a b : Q) : (a == - b)%Q → (0 <= b)%Q → (Qabs a == b)%Q.
Proof. intros Heq Hb. rewrite Heq, Qabs_opp. by apply Qabs_pos. Qed.


End TurningFacts.



(** ** Death without a killer, and respawn *)

Section RespawnFacts.
Import TerritoryMap.
Variable clock : nat → Q.
Variable random : nat → Q.
Variable PI : Q.
Variables cosF sinF : Q → Q.
Variable distance : Vec2.t → Vec2.t → Q.

Lemma respawnPlayerEntity_spec g i p :
  allPlayers g !! i = Some p →
  let g' := Game.respawnPlayerEntity random PI cosF sinF g i in
  ∃ x y ang,
    allPlayers g' = <[i := respawned cosF sinF p x y ang]> (allPlayers g) ∧
    territoryMap g'
    = generateStartingTerritory cosF sinF
        (clearOwnerTerritory (territoryMap g) (Player.id p)) x y (Player.id p)
        (if Player.id p =? 1 then 12 else 10) ∧
    wasInOwnTerritory g' = <[Player.id p := true]> (wasInOwnTerritory g) ∧
    (if Player.id p =? 1
     then x = (inject_Z derivedConfig.arenaWidthPx / (2 # 1))%Q ∧
          y = (inject_Z derivedConfig.arenaHeightPx / (2 # 1))%Q
     else x = ((200 # 1) + random (randomDraws g)
                           * (inject_Z derivedConfig.arenaWidthPx - (200 # 1) * (2 # 1)))%Q ∧
          y = ((200 # 1) + random (S (randomDraws g))
                           * (inject_Z derivedConfig.arenaHeightPx - (200 # 1) * (2 # 1)))%Q).
Proof.
  intros Hp. cbv zeta. unfold Game.respawnPlayerEntity. rewrite Hp.
  unfold respawned, Game.mathRandom.
  destruct (Player.id p =? 1) eqn:Hid; cbn; eexists _, _, _; split_and!; reflexivity.
Qed.

Lemma generateStartingTerritory_dims m (cX cY : Q) o r :
  let m' := generateStartingTerritory cosF sinF m cX cY o r in
  widthTiles m' = widthTiles m ∧ heightTiles m' = heightTiles m ∧ tileSize m' = tileSize m.
Proof.
  cbv zeta. unfold generateStartingTerritory.
  set (c := worldToTile m cX cY).
  rewrite (foldl_nested (λ m dx dy, if inStartingBlob cosF sinF dx dy r
                                    then setOwner m (tx c + dx) (ty c + dy) o else m)).
  generalize (zrange (- r) r ≫= λ dy, (λ dx, (dx, dy)) <$> zrange (- r) r).
  intros cells. clearbody c. revert m. induction cells as [|d cells IH]; intros m; [done|].
  cbn [foldl]. destruct (IH (if inStartingBlob cosF sinF d.1 d.2 r
                             then setOwner m (tx c + d.1) (ty c + d.2) o else m))
    as (-> & -> & ->).
  case_match; [apply setOwner_dims|done].
Qed.

Lemma handlePlayerDeath_self g i p :
  allPlayers g !! i = Some p →
  let g' := Game.handlePlayerDeath clock random PI cosF sinF g i None in
  (∀ j, j ≠ i → allPlayers g' !! j = allPlayers g !! j) ∧
  ∃ p', allPlayers g' !! i = Some p' ∧
    Player.tail p' = [] ∧ Player.isDrawingTail p' = false ∧ Player.lastTailPoint p' = None ∧
    Player.id p' = Player.id p ∧ Player.kills p' = Player.kills p ∧
    Player.alive p' = negb (Player.id p =? 1) ∧
    (Player.id p = 1 →
     territoryMap g' = clearOwnerTerritory (territoryMap g) 1 ∧
     wasInOwnTerritory g' = wasInOwnTerritory g).
Proof.
  intros Hp. cbv zeta. unfold Game.handlePlayerDeath. rewrite Hp.
  assert (i < length (allPlayers g))%nat as Hi by (by eapply lookup_lt_Some).
  set (dead := Player.withTail (Player.withAlive p false) [] false None).
  set (g1 := Game.withMap (Game.setPlayer g i dead)
               (clearOwnerTerritory (territoryMap (Game.setPlayer g i dead)) (Player.id p))).
  assert (allPlayers g1 !! i = Some dead) as Hdead.
  { unfold g1. cbn [allPlayers Game.withMap Game.setPlayer Game.withPlayers].
    by apply list_lookup_insert_eq. }
  assert (∀ j, j ≠ i → allPlayers g1 !! j = allPlayers g !! j) as Hothers.
  { intros j Hj. unfold g1. cbn [allPlayers Game.withMap Game.setPlayer Game.withPlayers].
    by apply list_lookup_insert_ne. }
  destruct (Z.eqb_spec (Player.id p) 1) as [Hid|Hid].
  - split; [done|]. exists dead. split_and!; try done. intros _. rewrite <- Hid. done.
  - destruct (respawnPlayerEntity_spec g1 i dead Hdead) as (x & y & ang & Hps & _).
    cbv zeta in Hps. split.
    + intros j Hj. rewrite Hps, list_lookup_insert_ne by done. by apply Hothers.
    + exists (respawned cosF sinF dead x y ang). split_and!; try done.
      rewrite Hps. apply list_lookup_insert_eq.
      unfold g1. cbn [allPlayers Game.withMap Game.setPlayer Game.withPlayers].
      by rewrite length_insert.
Qed.

(** X14: a death without a killer (the player's own trail, or a wall)
    touches no other player and leaves the player without a trail (the
    trail is empty, the player is not drawing and has no last trail
    point), with its id and its kills. The human, id 1, stays dead and
    owns no tile afterwards; every other player is alive again. *)
Theorem death_without_killer g i p :
  allPlayers g !! i = Some p → wf (territoryMap g) →
  let g' := Game.handlePlayerDeath clock random PI cosF sinF g i None in
  (∀ j, j ≠ i → allPlayers g' !! j = allPlayers g !! j) ∧
  ∃ p', allPlayers g' !! i = Some p' ∧
    Player.tail p' = [] ∧ Player.isDrawingTail p' = false ∧ Player.lastTailPoint p' = None ∧
    Player.id p' = Player.id p ∧ Player.kills p' = Player.kills p ∧
    if Player.id p =? 1
    then Player.alive p' = false ∧
         countOwnedTiles (territoryMap g') 1 = 0 ∧
         ∀ x y, getOwner (territoryMap g') x y ≠ 1
    else Player.alive p' = true.
Proof.
  intros Hp Hwf. cbv zeta.
  destruct (handlePlayerDeath_self g i p Hp)
    as (Hothers & p' & Hp' & Htail & Hdraw & Hlast & Hid & Hkills & Halive & Hhuman).
  cbv zeta in *. split; [done|]. exists p'. split_and!; try done.
  destruct (Z.eqb_spec (Player.id p) 1) as [Hone|Hone]; [|done].
    destruct (Hhuman Hone) as [Hm _]. rewrite Hm. split_and!; [done| |].
    + unfold countOwnedTiles, clearOwnerTerritory. simpl. by rewrite lookup_insert_eq.
    + intros x y. destruct (isValidTile (territoryMap g) x y) eqn:Hv.
      * rewrite getOwner_clearOwnerTerritory by done.
        destruct (Z.eqb_spec (getOwner (territoryMap g) x y) 1); lia.
      * unfold getOwner.
        change (isValidTile (clearOwnerTerritory (territoryMap g) 1) x y)
          with (isValidTile (territoryMap g) x y). by rewrite Hv.
Qed.

Lemma spaced_snoc (tl : list Vec2.t) (lastPoint pt : Vec2.t) :
  spaced tl → last tl = Some lastPoint →
  (sq Player.tailPointDistance <= Vec2.distSq pt lastPoint)%Q →
  spaced (tl ++ [pt]).
Proof.
  intros Hsp Hlast Hd j a b Ha Hb.
  assert (S j < length (tl ++ [pt]))%nat as Hj by (by eapply lookup_lt_Some).
  rewrite length_app in Hj. simpl in Hj.
  rewrite lookup_app_l in Ha by lia.
  destruct (decide (S j < length tl)%nat) as [Hin|Hend].
  - rewrite lookup_app_l in Hb by done. by eapply Hsp.
  - rewrite lookup_app_r in Hb by lia.
    replace (S j - length tl)%nat with 0%nat in Hb by lia. injection Hb as <-.
    rewrite last_lookup in Hlast. replace (pred (length tl)) with j in Hlast by lia.
    rewrite Ha in Hlast. injection Hlast as ->. done.
Qed.


Hypothesis random_unit : ∀ n, (0 <= random n)%Q ∧ (random n < 1)%Q.
Hypothesis sin_bounded : ∀ q, (-1 <= sinF q <= 1)%Q.
Hypothesis cos_bounded : ∀ q, (-1 <= cosF q <= 1)%Q.

(** X13: [respawnPlayerEntity] puts the player back alive, without a
    trail, at least 200 pixels away from every side of the arena (the
    human at its centre), and on a tile that the fresh starting territory
    gives to the player: the respawned player stands inside its own
    territory. This holds for ids a cell can store, draws of
    [Math.random()] in [0, 1) and sines and cosines within [-1, 1]. *)
Theorem respawn_inside_own_territory g i p :
  allPlayers g !! i = Some p → 0 < Player.id p < 256 →
  wf (territoryMap g) →
  widthTiles (territoryMap g) = gameConfig.arena_widthTiles →
  heightTiles (territoryMap g) = gameConfig.arena_heightTiles →
  tileSize (territoryMap g) = gameConfig.tileSize →
  let g' := Game.respawnPlayerEntity random PI cosF sinF g i in
  ∃ p', allPlayers g' !! i = Some p' ∧
    Player.alive p' = true ∧ trailInv p' ∧ Player.tail p' = [] ∧
    Player.id p' = Player.id p ∧ Player.kills p' = Player.kills p ∧
    (200 # 1 <= Vec2.x (Player.pos p') <= inject_Z derivedConfig.arenaWidthPx - (200 # 1))%Q ∧
    (200 # 1 <= Vec2.y (Player.pos p') <= inject_Z derivedConfig.arenaHeightPx - (200 # 1))%Q ∧
    getOwnerAtWorld (territoryMap g') (Vec2.x (Player.pos p')) (Vec2.y (Player.pos p'))
    = Player.id p ∧
    wasInOwnTerritory g' !! Player.id p = Some true.
Proof.
  intros Hp Hid Hwf Hw Hh Hts. cbv zeta.
  destruct (respawnPlayerEntity_spec g i p Hp) as (x & y & ang & Hps & Hm & Hwas & Hxy).
  cbv zeta in *. set (g' := Game.respawnPlayerEntity random PI cosF sinF g i) in *.
  exists (respawned cosF sinF p x y ang).
  assert ((200 # 1 <= x <= inject_Z derivedConfig.arenaWidthPx - (200 # 1))%Q ∧
          (200 # 1 <= y <= inject_Z derivedConfig.arenaHeightPx - (200 # 1))%Q) as [Hx Hy].
  { change (inject_Z derivedConfig.arenaWidthPx) with (2000 # 1)%Q in *.
    change (inject_Z derivedConfig.arenaHeightPx) with (2000 # 1)%Q in *.
    destruct (Player.id p =? 1).
    - destruct Hxy as [-> ->]. split; split; by vm_compute.
    - destruct Hxy as [-> ->].
      destruct (random_unit (randomDraws g)) as [? ?].
      destruct (random_unit (S (randomDraws g))) as [? ?]. lra. }
  assert (trailInv (respawned cosF sinF p x y ang)) as Htrail.
  { split; [intros j a b Hj; cbn in Hj; by destruct j|done]. }
  split_and!; try done; try (cbn [respawned Player.pos Vec2.x Vec2.y]; lra).
  - rewrite Hps. apply list_lookup_insert_eq. by eapply lookup_lt_Some.
  - cbn [respawned Player.pos Vec2.x Vec2.y]. rewrite Hm.
    set (r := if Player.id p =? 1 then 12 else 10).
    assert (2 <= r) as Hr by (unfold r; case_match; lia).
    set (m1 := clearOwnerTerritory (territoryMap g) (Player.id p)).
    assert (wf m1) as Hwf1 by (by apply clearOwnerTerritory_wf).
    destruct (generateStartingTerritory_dims m1 x y (Player.id p) r) as (Hw' & Hh' & Hts').
    cbv zeta in *. unfold getOwnerAtWorld.
    assert (∀ m2, tileSize m2 = tileSize m1 → worldToTile m2 x y = worldToTile m1 x y) as Htile.
    { intros m2 Heq. unfold worldToTile. by rewrite Heq. }
    rewrite (Htile _ Hts'). set (c := worldToTile m1 x y).
    assert (isValidTile m1 (tx c) (ty c) = true) as Hv.
    { apply isValidTile_spec. unfold c, worldToTile, m1. cbn [tx ty tileSize widthTiles heightTiles
        clearOwnerTerritory withCells]. rewrite Hw, Hh, Hts.
      change (inject_Z derivedConfig.arenaWidthPx) with (2000 # 1)%Q in *.
      change (inject_Z derivedConfig.arenaHeightPx) with (2000 # 1)%Q in *.
      split; apply tile_coordinate_range; try done.
      - change (inject_Z (gameConfig.arena_widthTiles * gameConfig.tileSize))
          with (2000 # 1)%Q. lra.
      - change (inject_Z (gameConfig.arena_heightTiles * gameConfig.tileSize))
          with (2000 # 1)%Q. lra. }
    destruct (generateStartingTerritory_cells cosF sinF m1 x y (Player.id p) r Hwf1)
      as (_ & _ & Hcells); [lia|].
    cbv zeta in Hcells. fold c in Hcells. rewrite (Hcells _ _ Hv).
    replace (tx c - tx c) with 0 by lia. replace (ty c - ty c) with 0 by lia.
    destruct (inStartingBlob_bounds cosF sinF sin_bounded cos_bounded 0 0 r Hr) as [Hin _].
    rewrite Hin by nia.
    assert ((Z.abs 0 <=? r) = true) as -> by (apply Z.leb_le; lia). done.
  - rewrite Hwas. apply lookup_insert_eq.
Qed.

End RespawnFacts.

Lemma respawn_inside_own_territory_witness :
  let p := playerAt 2 true (1 # 1) (1 # 1) in
  let g := gameOf (TerritoryMap.blank 500 500 4) [p] easy in
  let g' := Game.respawnPlayerEntity random0 PI0 cos0 sin0 g 0 in
  ((∀ n, (0 <= random0 n)%Q ∧ (random0 n < 1)%Q) ∧ (∀ q, (-1 <= sin0 q <= 1)%Q) ∧
   (∀ q, (-1 <= cos0 q <= 1)%Q) ∧
   allPlayers g !! 0%nat = Some p ∧ 0 < Player.id p < 256 ∧
   TerritoryMap.wf (territoryMap g) ∧
   widthTiles (territoryMap g) = gameConfig.arena_widthTiles ∧
   heightTiles (territoryMap g) = gameConfig.arena_heightTiles ∧
   tileSize (territoryMap g) = gameConfig.tileSize) ∧
  ∃ p', allPlayers g' !! 0%nat = Some p' ∧
    Player.alive p' = true ∧ trailInv p' ∧ Player.tail p' = [] ∧
    Player.id p' = Player.id p ∧ Player.kills p' = Player.kills p ∧
    (200 # 1 <= Vec2.x (Player.pos p') <= inject_Z derivedConfig.arenaWidthPx - (200 # 1))%Q ∧
    (200 # 1 <= Vec2.y (Player.pos p') <= inject_Z derivedConfig.arenaHeightPx - (200 # 1))%Q ∧
    TerritoryMap.getOwnerAtWorld (territoryMap g') (Vec2.x (Player.pos p'))
      (Vec2.y (Player.pos p')) = Player.id p ∧
    wasInOwnTerritory g' !! Player.id p = Some true.
Proof.
  assert (∀ n, (0 <= random0 n)%Q ∧ (random0 n < 1)%Q) as Hrand
    by (intros n; unfold random0; split; lra).
  assert (∀ q, (-1 <= sin0 q <= 1)%Q) as Hsin by (intros q; unfold sin0; lra).
  assert (∀ q, (-1 <= cos0 q <= 1)%Q) as Hcos by (intros q; unfold cos0; lra).
  assert (TerritoryMap.wf (TerritoryMap.blank 500 500 4)) as Hwf by (apply blank_wf; lia).
  split; [split_and!; try done; lia|].
  apply (respawn_inside_own_territory random0 PI0 cos0 sin0 Hrand Hsin Hcos
           (gameOf (TerritoryMap.blank 500 500 4) [playerAt 2 true (1 # 1) (1 # 1)] easy)
           0%nat (playerAt 2 true (1 # 1) (1 # 1))); done.
Defined.

Lemma death_without_killer_witness :
  let p := playerAt 1 false (10 # 1) (10 # 1) in
  let g := gameOf (paint (TerritoryMap.blank 10 10 4) 1 [(2, 2)]) [p] easy in
  let g' := Game.handlePlayerDeath clock0 random0 PI0 cos0 sin0 g 0 None in
  (allPlayers g !! 0%nat = Some p ∧ TerritoryMap.wf (territoryMap g)) ∧
  (∀ j, j ≠ 0%nat → allPlayers g' !! j = allPlayers g !! j) ∧
  ∃ p', allPlayers g' !! 0%nat = Some p' ∧
    Player.tail p' = [] ∧ Player.isDrawingTail p' = false ∧ Player.lastTailPoint p' = None ∧
    Player.id p' = Player.id p ∧ Player.kills p' = Player.kills p ∧
    if Player.id p =? 1
    then Player.alive p' = false ∧
         TerritoryMap.countOwnedTiles (territoryMap g') 1 = 0 ∧
         ∀ x y, TerritoryMap.getOwner (territoryMap g') x y ≠ 1
    else Player.alive p' = true.
Proof.
  assert (TerritoryMap.wf (paint (TerritoryMap.blank 10 10 4) 1 [(2, 2)])) as Hwf
    by (apply paint_wf, blank_wf; lia).
  split; [split; [reflexivity|exact Hwf]|].
  apply (death_without_killer clock0 random0 PI0 cos0 sin0
           (gameOf (paint (TerritoryMap.blank 10 10 4) 1 [(2, 2)])
              [playerAt 1 false (10 # 1) (10 # 1)] easy)
           0%nat (playerAt 1 false (10 # 1) (10 # 1))); [reflexivity|exact Hwf].
Defined.


(** ** What a capture and the orphan sweep keep *)

Section AnnexationFacts.
Import TerritoryMap.

Lemma rescan_setOwner m x y o k :
  wf m → 0 <= o < 256 →
  (k ≠ o → rescan (setOwner m x y o) k <= rescan m k) ∧
  (k = o → rescan m k <= rescan (setOwner m x y o) k).
Proof.
  intros Hwf Ho. unfold setOwner.
  destruct (isValidTile m x y) eqn:Hv; simpl; [|lia].
  destruct (cell_valid _ _ _ Hwf Hv) as (old & Hl & Hr).
  assert (cell m (y * widthTiles m + x) = old) as -> by (unfold cell; by rewrite Hl).
  destruct (Z.eqb_spec old o) as [->|Hne]; [lia|].
  unfold rescan. simpl.
  pose proof (filter_eq_insert (ownerMap m) _ old (toUint8 o) k Hl) as Hf.
  rewrite toUint8_small in Hf |- * by done.
  destruct (decide (old = k)), (decide (o = k)); lia.
Qed.

Lemma setOwner_fold_counts {X} (cond : TerritoryMap → X → bool) (pos : X → Z * Z)
    (o : Z) (cells : list X) (m : TerritoryMap) (k : Z) :
  wf m → 0 <= o < 256 →
  let m' := foldl (λ m c, if cond m c then setOwner m (pos c).1 (pos c).2 o else m) m cells in
  (k ≠ o → rescan m' k <= rescan m k) ∧ (k = o → rescan m k <= rescan m' k).
Proof.
  intros Hwf Ho. revert m Hwf. induction cells as [|c0 cells IH]; intros m Hwf; cbn [foldl].
  { cbv zeta. lia. }
  set (step := if cond m c0 then setOwner m (pos c0).1 (pos c0).2 o else m).
  assert (wf step) as Hwf' by (subst step; case_match; [by apply setOwner_wf|done]).
  assert ((k ≠ o → rescan step k <= rescan m k) ∧ (k = o → rescan m k <= rescan step k))
    as [Hs1 Hs2].
  { subst step. case_match; [by apply rescan_setOwner|lia]. }
  destruct (IH step Hwf') as [H1 H2]. cbv zeta in *. split; intros Hk.
  - specialize (H1 Hk). specialize (Hs1 Hk). lia.
  - specialize (H2 Hk). specialize (Hs2 Hk). lia.
Qed.

(** X16: a capture only ever gives tiles to the capturing owner [A].
    On a well-formed grid, for [A] in 0..255 and a trail on the grid, it
    keeps the grid well formed and the cached counts correct; a tile
    either keeps its owner or goes to [A], so [A] loses none of its
    tiles; and no other id, the neutral one included, gains a cell. *)
Theorem capture_only_gives_to_owner m A pos tail :
  wf m → 0 <= A < 256 →
  (∀ t, t ∈ Game.tailTilesOf m pos tail → isValidTile m (tx t) (ty t) = true) →
  let m' := Game.captureTerritory m A pos tail in
  wf m' ∧ (cacheCorrect m → cacheCorrect m') ∧
  (∀ x y, getOwner m' x y = getOwner m x y ∨ getOwner m' x y = A) ∧
  (∀ x y, getOwner m x y = A → getOwner m' x y = A) ∧
  (∀ k, k ≠ A → rescan m' k <= rescan m k) ∧
  rescan m A <= rescan m' A.
Proof.
  intros Hwf HA _. cbv zeta. unfold Game.captureTerritory.
  destruct (length tail <? 3)%nat.
  { split_and!; try done. intros x y. by left. }
  set (b := Game.captureBox m A pos tail).
  set (F := (Game.floodedGrid b (Game.barrierGrid m A b (Game.tailTilesOf m pos tail))).1).
  rewrite annex_flat.
  set (cells := zrange 0 (Game.boxHeightOf b - 1) ≫=
                  λ y, (λ x, (x, y)) <$> zrange 0 (Game.boxWidthOf b - 1)).
  pose (cond := λ (m : TerritoryMap) (c : Z * Z),
    bool_decide (readU8 F (c.2 * Game.boxWidthOf b + c.1) = Some 0) ||
    (bool_decide (readU8 F (c.2 * Game.boxWidthOf b + c.1) = Some 1) &&
     negb (getOwner m (c.1 + Game.minX b) (c.2 + Game.minY b) =? A))).
  pose (pos' := λ c : Z * Z, (c.1 + Game.minX b, c.2 + Game.minY b)).
  destruct (setOwner_fold_spec cond pos' A cells m Hwf HA) as (Hwf' & Hc' & _ & Hch & _).
  pose proof (λ k, setOwner_fold_counts cond pos' A cells m k Hwf HA) as Hcounts.
  cbv zeta in *. subst cond pos'. cbn [fst snd] in *.
  split_and!; try done.
  - intros x y. destruct (Hch x y) as [?|[? _]]; auto.
  - intros x y Hown. destruct (Hch x y) as [Hsame|[? _]]; [congruence|done].
  - intros k Hk. by apply Hcounts.
  - by apply Hcounts.
Qed.

Lemma capture_only_gives_to_owner_witness :
  let m := diskGrid in
  let m' := Game.captureTerritory m 1 loopEnd loopTrail in
  (wf m ∧ 0 <= 1 < 256 ∧
   (∀ t, t ∈ Game.tailTilesOf m loopEnd loopTrail → isValidTile m (tx t) (ty t) = true)) ∧
  wf m' ∧ (cacheCorrect m → cacheCorrect m') ∧
  (∀ x y, getOwner m' x y = getOwner m x y ∨ getOwner m' x y = 1) ∧
  (∀ x y, getOwner m x y = 1 → getOwner m' x y = 1) ∧
  (∀ k, k ≠ 1 → rescan m' k <= rescan m k) ∧
  rescan m 1 <= rescan m' 1.
Proof.
  assert (wf diskGrid) as Hwf by (apply paint_wf, blank_wf; lia).
  assert (∀ t, t ∈ Game.tailTilesOf diskGrid loopEnd loopTrail →
            isValidTile diskGrid (tx t) (ty t) = true) as Hvalid.
  { apply Forall_forall. repeat constructor. }
  split; [split_and!; [exact Hwf|lia|lia|exact Hvalid]|].
  apply (capture_only_gives_to_owner diskGrid 1 loopEnd loopTrail Hwf); [lia|exact Hvalid].
Defined.

Lemma isPlayerOrEdge_ext m m' x y :
  isValidTile m' x y = isValidTile m x y → getOwner m' x y = getOwner m x y →
  Game.isPlayerOrEdge m' x y = Game.isPlayerOrEdge m x y.
Proof.
  intros Hv Ho. apply eq_true_iff_eq. rewrite !isPlayerOrEdge_spec, Hv, Ho. done.
Qed.

Lemma isPocket_neighbour m x y x' y' :
  isPocket m x' y' = true → adjacent x y x' y' →
  isValidTile m x y = false ∨ getOwner m x y = 1.
Proof.
  unfold isPocket. rewrite !andb_true_iff, !isPlayerOrEdge_spec.
  intros ((((_ & Hup) & Hdown) & Hleft) & Hright) Hadj.
  unfold adjacent in Hadj.
  destruct Hadj as [[-> [->| ->]]|[-> [->| ->]]].
  - by replace (x - 1 + 1) with x in Hright by lia.
  - by replace (x + 1 - 1) with x in Hleft by lia.
  - by replace (y - 1 + 1) with y in Hdown by lia.
  - by replace (y + 1 - 1) with y in Hup by lia.
Qed.

Lemma sweep_prefix_spec m (l : list Tile) :
  wf m → NoDup l → (∀ t, t ∈ l → isValidTile m (tx t) (ty t) = true) →
  let m' := foldl Game.sweepStep m l in
  wf m' ∧ (cacheCorrect m → cacheCorrect m') ∧
  (∀ x y, isValidTile m' x y = isValidTile m x y) ∧
  ∀ x y, getOwner m' x y
         = if isPocket m x y && bool_decide (mkTile x y ∈ l) then 1 else getOwner m x y.
Proof.
  intros Hwf. induction l as [|t l IH] using rev_ind; intros Hnd Hvalid; cbv zeta.
  { cbn [foldl]. split_and!; try done. intros x y.
    rewrite bool_decide_eq_false_2 by apply not_elem_of_nil. by rewrite andb_false_r. }
  apply NoDup_app in Hnd as (Hnd & Hfresh & _).
  assert (t ∉ l) as Ht by (intros Hin; apply (Hfresh t Hin); by left).
  destruct IH as (Hwf' & Hc' & Hv' & Hown); [done|intros t' Ht'; apply Hvalid; set_solver|].
  cbv zeta in *. rewrite foldl_app. cbn [foldl].
  set (mk := foldl Game.sweepStep m l) in *.
  assert (isValidTile m (tx t) (ty t) = true) as Hvt by (apply Hvalid; set_solver).
  assert (getOwner mk (tx t) (ty t) = getOwner m (tx t) (ty t)) as Hsame.
  { rewrite Hown. assert (mkTile (tx t) (ty t) = t) as -> by (by destruct t).
    rewrite (bool_decide_eq_false_2 _ Ht). by rewrite andb_false_r. }
  assert (isPocket mk (tx t) (ty t) = isPocket m (tx t) (ty t)) as Hpocket.
  { unfold isPocket at 1 2. rewrite Hsame.
    destruct (Z.eqb_spec (getOwner m (tx t) (ty t)) 0) as [Hzero|Hnz]; [|done].
    assert (∀ x' y', adjacent (tx t) (ty t) x' y' →
              Game.isPlayerOrEdge mk x' y' = Game.isPlayerOrEdge m x' y') as Hnb.
    { intros x' y' Hadj. apply isPlayerOrEdge_ext; [apply Hv'|]. rewrite Hown.
      destruct (isPocket m x' y') eqn:Hp; [|done].
      destruct (isPocket_neighbour m (tx t) (ty t) x' y' Hp Hadj); congruence || lia. }
    rewrite !Hnb by (unfold adjacent; lia). done. }
  assert (Game.sweepStep mk t
          = if isPocket m (tx t) (ty t) then setOwner mk (tx t) (ty t) 1 else mk) as Hstep.
  { rewrite <- Hpocket. done. }
  rewrite Hstep. clear Hstep.
  split_and!.
  - case_match; [by apply setOwner_wf|done].
  - intros Hc. case_match; [apply setOwner_cacheCorrect; auto; lia|auto].
  - intros x y. case_match; [by rewrite setOwner_isValidTile|done].
  - intros x y. destruct (decide (mkTile x y = t)) as [Heq|Hne].
    + subst t. cbn [tx ty] in *.
      rewrite (bool_decide_eq_true_2 (mkTile x y ∈ l ++ [mkTile x y])) by set_solver.
      rewrite andb_true_r. destruct (isPocket m x y); [|done].
      rewrite getOwner_setOwner_same; [done|done|by rewrite Hv'].
    + assert (bool_decide (mkTile x y ∈ l ++ [t]) = bool_decide (mkTile x y ∈ l)) as ->.
      { apply bool_decide_ext. rewrite elem_of_app, list_elem_of_singleton. tauto. }
      rewrite <- Hown. case_match; [|done].
      apply getOwner_setOwner_other. intros [= -> ->]. apply Hne. by destruct t.
Qed.

(** X17: the orphan sweep fills exactly the one-tile pockets. On a
    well-formed grid, a tile belongs to owner 1 after the scan if it was
    neutral with each of its four neighbours owned by 1 or outside the
    grid, and keeps its owner otherwise: no tile owned by another player
    is taken, and a neutral tile with a neutral neighbour is never
    filled, since neither of the two passes the test while the other is
    neutral. The scan keeps the cached counts correct. *)
Theorem sweep_fills_exactly_pockets m :
  wf m →
  let m' := Game.sweepOrphans m in
  wf m' ∧ (cacheCorrect m → cacheCorrect m') ∧
  ∀ x y, getOwner m' x y = if isPocket m x y then 1 else getOwner m x y.
Proof.
  intros Hwf. cbv zeta. unfold Game.sweepOrphans.
  destruct (sweep_prefix_spec m (allTiles (widthTiles m) (heightTiles m)) Hwf)
    as (Hwf' & Hc' & _ & Hown).
  { apply NoDup_allTiles. }
  { intros t Ht. apply elem_of_allTiles in Ht. by apply isValidTile_spec. }
  cbv zeta in *. split; [done|]. split; [done|]. intros x y. rewrite Hown.
  destruct (isPocket m x y) eqn:Hp; [|done]. rewrite bool_decide_eq_true_2; [done|].
  apply elem_of_allTiles. cbn [tx ty]. apply isValidTile_spec.
  unfold isPocket in Hp. rewrite !andb_true_iff in Hp.
  destruct Hp as ((((Hz & _) & _) & _) & _). apply Z.eqb_eq in Hz.
  unfold getOwner in Hz. destruct (isValidTile m x y); [done|simpl in Hz; lia].
Qed.

Lemma sweep_fills_exactly_pockets_witness :
  wf cross7 ∧
  wf (Game.sweepOrphans cross7) ∧
  (cacheCorrect cross7 → cacheCorrect (Game.sweepOrphans cross7)) ∧
  ∀ x y, getOwner (Game.sweepOrphans cross7) x y
         = if isPocket cross7 x y then 1 else getOwner cross7 x y.
Proof.
  assert (wf cross7) as Hwf by (apply paint_wf, blank_wf; lia).
  split; [exact Hwf|]. apply (sweep_fills_exactly_pockets cross7 Hwf).
Defined.

End AnnexationFacts.

(** ** The camping pass as a whole *)

Section CampingPassFacts.
Import TerritoryMap.
Variable random : nat → Q.
Variables fadd fsub fmul fdiv : Q → Q → Q.

Lemma removeTiles_invariants m tiles pt removed n :
  wf m →
  let m' := Game.removeTiles m tiles pt removed n in
  wf m' ∧ (cacheCorrect m → cacheCorrect m') ∧
  ∀ x y, getOwner m' x y = getOwner m x y ∨ getOwner m' x y = 0.
Proof.
  revert m removed. induction tiles as [|t tiles IH]; intros m removed Hwf; cbv zeta.
  { cbn [Game.removeTiles]. split_and!; try done. intros x y. by left. }
  cbn [Game.removeTiles]. destruct (n <=? removed).
  { split_and!; try done. intros x y. by left. }
  destruct ((tx t =? tx pt) && (ty t =? ty pt)); [by apply IH|].
  destruct (IH (setOwner m (tx t) (ty t) 0) (removed + 1)) as (Hwf' & Hc' & Hown);
    [by apply setOwner_wf|].
  cbv zeta in *. split_and!; [done| |].
  - intros Hc. apply Hc'. apply setOwner_cacheCorrect; [done|done|lia].
  - intros x y. destruct (Hown x y) as [Hsame|Hzero]; [|by right].
    rewrite Hsame.
    destruct (decide ((x, y) = (tx t, ty t))) as [[= -> ->]|Hne];
      [|left; by apply getOwner_setOwner_other].
    destruct (isValidTile m (tx t) (ty t)) eqn:Hv.
    + right. by rewrite getOwner_setOwner_same.
    + left. unfold setOwner. by rewrite Hv.
Qed.

Lemma shuffle_queue n l g :
  captureQueue (Game.shuffle random n l g).2 = captureQueue g.
Proof.
  revert l g. induction n as [|n IH]; intros l g; [done|].
  cbn [Game.shuffle]. unfold Game.mathRandom. cbv zeta.
  match goal with
  | |- context [Game.shuffle random n ?l' ?g'] => rewrite (IH l' g')
  end.
  done.
Qed.

Lemma campingStep_invariants dt g i :
  wf (territoryMap g) →
  let g' := Game.campingStep random fadd fsub fmul fdiv dt g i in
  allPlayers g' = allPlayers g ∧ difficulty g' = difficulty g ∧
  captureQueue g' = captureQueue g ∧
  wf (territoryMap g') ∧
  (cacheCorrect (territoryMap g) → cacheCorrect (territoryMap g')) ∧
  ∀ x y, getOwner (territoryMap g') x y = getOwner (territoryMap g) x y ∨
         getOwner (territoryMap g') x y = 0.
Proof.
  intros Hwf. cbv zeta.
  assert (∀ id n,
    let g1 := Game.shrinkTerritory random g id n in
    allPlayers g1 = allPlayers g ∧ difficulty g1 = difficulty g ∧
    captureQueue g1 = captureQueue g ∧
    wf (territoryMap g1) ∧
    (cacheCorrect (territoryMap g) → cacheCorrect (territoryMap g1)) ∧
    ∀ x y, getOwner (territoryMap g1) x y = getOwner (territoryMap g) x y ∨
           getOwner (territoryMap g1) x y = 0) as Hshrink.
  { intros id n. cbv zeta. unfold Game.shrinkTerritory.
    destruct (getBorderTiles (territoryMap g) id) as [|t0 rest] eqn:Hb.
    { split_and!; try done. intros x y. by left. }
    destruct (Game.shuffle random (length (t0 :: rest) - 1) (t0 :: rest) g) as [tiles g1] eqn:Hsh.
    pose proof (shuffle_frame random (length (t0 :: rest) - 1) (t0 :: rest) g) as Hfr.
    cbv zeta in Hfr. rewrite Hsh in Hfr. cbn [snd] in Hfr.
    destruct Hfr as (Hp & Hm & _ & _ & Hd).
    cbn [allPlayers difficulty captureQueue territoryMap Game.withMap]. rewrite Hm.
    destruct (removeTiles_invariants (territoryMap g) tiles (Game.playerTileOf g id) 0 n Hwf)
      as (Hwf' & Hc' & Hown).
    split_and!; try done.
    pose proof (shuffle_queue (length (t0 :: rest) - 1) (t0 :: rest) g) as Hq.
    by rewrite Hsh in Hq. }
  unfold Game.campingStep. destruct (allPlayers g !! i) as [p|].
  2:{ split_and!; try done. intros x y. by left. }
  destruct (negb (Player.alive p)).
  { split_and!; try done. intros x y. by left. }
  cbv zeta.
  repeat match goal with
         | |- context [if ?c then _ else _] => destruct c
         end;
    cbn [allPlayers difficulty captureQueue territoryMap Game.withCamping];
    first [by apply Hshrink | split_and!; try done; intros x y; by left].
Qed.

(** X18: the camping pass only ever turns tiles neutral. Over a whole
    call of [updateCampingMechanic], whatever the players and the time
    step, the player objects, the difficulty and the capture queue are
    untouched, the grid stays well formed, correct cached counts stay
    correct, and every tile either keeps its owner or becomes neutral. *)
Theorem camping_pass_only_neutralises g dt :
  wf (territoryMap g) →
  let g' := Game.updateCampingMechanic random fadd fsub fmul fdiv g dt in
  allPlayers g' = allPlayers g ∧ difficulty g' = difficulty g ∧
  captureQueue g' = captureQueue g ∧
  wf (territoryMap g') ∧
  (cacheCorrect (territoryMap g) → cacheCorrect (territoryMap g')) ∧
  ∀ x y, getOwner (territoryMap g') x y = getOwner (territoryMap g) x y ∨
         getOwner (territoryMap g') x y = 0.
Proof.
  intros Hwf. cbv zeta. unfold Game.updateCampingMechanic.
  generalize (seq 0 (length (allPlayers g))). intros idx.
  revert g Hwf. induction idx as [|i idx IH]; intros g Hwf; cbn [foldl].
  { split_and!; try done. intros x y. by left. }
  destruct (campingStep_invariants dt g i Hwf) as (Hp & Hd & Hq & Hwf1 & Hc1 & Hown1).
  cbv zeta in *.
  destruct (IH _ Hwf1) as (Hp' & Hd' & Hq' & Hwf' & Hc' & Hown').
  split_and!; try congruence; [auto|].
  intros x y. destruct (Hown' x y) as [Hs|Hz]; [|by right]. rewrite Hs. apply Hown1.
Qed.

End CampingPassFacts.

Lemma camping_pass_only_neutralises_witness :
  let g := blockCamperGame in
  let g' := Game.updateCampingMechanic random0 Qplus Qminus Qmult Qdiv g (1 # 60) in
  TerritoryMap.wf (territoryMap g) ∧
  allPlayers g' = allPlayers g ∧ difficulty g' = difficulty g ∧
  captureQueue g' = captureQueue g ∧
  TerritoryMap.wf (territoryMap g') ∧
  (TerritoryMap.cacheCorrect (territoryMap g) → TerritoryMap.cacheCorrect (territoryMap g')) ∧
  ∀ x y, TerritoryMap.getOwner (territoryMap g') x y = TerritoryMap.getOwner (territoryMap g) x y ∨
         TerritoryMap.getOwner (territoryMap g') x y = 0.
Proof.
  assert (TerritoryMap.wf (territoryMap blockCamperGame)) as Hwf.
  { repeat apply setOwner_wf. apply blank_wf; lia. }
  split; [exact Hwf|].
  apply (camping_pass_only_neutralises random0 Qplus Qminus Qmult Qdiv blockCamperGame (1 # 60) Hwf).
Defined.

(** ** Boosts *)

Section BoostFacts.
Variable clock : nat → Q.

(** X19: the HUD's remaining boost time agrees with the boost test.
    Read at the same moment, with a clock that is never negative,
    [getBoostTimeRemaining] is positive exactly when [isPlayerBoosted]
    holds; it is never negative, and it is 0, without a look at the
    clock, for a player with no boost entry. *)
Theorem boost_time_remaining_agrees g playerId :
  (0 <= clock (clockReads g))%Q →
  let remaining := (Game.getBoostTimeRemaining clock g playerId).1 in
  (0 <= remaining)%Q ∧
  ((0 < remaining)%Q ↔ (Game.isPlayerBoosted clock g playerId).1 = true) ∧
  (boostEndTimes g !! playerId = None →
   Game.getBoostTimeRemaining clock g playerId = (0%Q, g)).
Proof.
  intros Hclock. cbv zeta. unfold Game.getBoostTimeRemaining, Game.isPlayerBoosted.
  destruct (boostEndTimes g !! playerId) as [e|]; cbn [fst].
  2:{ split; [lra|]. split; [|done]. split; [lra|done]. }
  unfold Game.performanceNow. cbn [fst].
  destruct (Qeq_bool e 0) eqn:Hz; cbn [fst].
  - apply Qeq_bool_iff in Hz. split; [lra|]. split; [|done].
    rewrite Qltb_lt. split; lra.
  - split; [apply Q.le_max_l|]. split; [|done]. rewrite Qltb_lt.
    destruct (Qlt_le_dec (clock (clockReads g)) e) as [Hlt|Hge].
    + rewrite Q.max_r by lra. split; [done|lra].
    + rewrite Q.max_l by lra. split; [lra|lra].
Qed.

(** X20: pruning the expired boosts is invisible. With a clock that
    does not run backwards, [isPlayerBoosted] gives the same answer after
    [updateBoost] as it would have given at that moment without it, for
    every player; and [updateBoost] only removes entries, those whose
    end time lies before the reading it took. *)
Theorem updateBoost_is_invisible g playerId :
  (clock (clockReads g) <= clock (S (clockReads g)))%Q →
  let g' := Game.updateBoost clock g in
  (Game.isPlayerBoosted clock g' playerId).1
  = (Game.isPlayerBoosted clock (Game.withClockReads g (S (clockReads g))) playerId).1 ∧
  clockReads g' = S (clockReads g) ∧
  (∀ e, boostEndTimes g' !! playerId = Some e ↔
        boostEndTimes g !! playerId = Some e ∧ (clock (clockReads g) <= e)%Q).
Proof.
  intros Hmono. cbv zeta. unfold Game.updateBoost, Game.performanceNow.
  cbn [boostEndTimes boostNotifications clockReads Game.withBoost Game.withClockReads].
  assert (∀ e, filter (λ kv : Z * Q, Qltb kv.2 (clock (clockReads g)) = false)
                 (boostEndTimes g) !! playerId = Some e ↔
               boostEndTimes g !! playerId = Some e ∧ (clock (clockReads g) <= e)%Q) as Hfilter.
  { intros e. rewrite map_lookup_filter_Some. cbn [snd]. by rewrite Qltb_ge. }
  split; [|split; [done|exact Hfilter]].
  unfold Game.isPlayerBoosted, Game.performanceNow.
  cbn [boostEndTimes boostNotifications clockReads Game.withBoost Game.withClockReads].
  destruct (filter _ (boostEndTimes g) !! playerId) as [e|] eqn:Hf.
  - destruct (proj1 (Hfilter e) eq_refl) as [-> _]. done.
  - destruct (boostEndTimes g !! playerId) as [e|] eqn:Hl; [|done]. cbn [fst].
    assert (¬ (clock (clockReads g) <= e)%Q) as Hexp.
    { intros Hle. by pose proof (proj2 (Hfilter e) (conj eq_refl Hle)). }
    symmetry. apply Qltb_ge. apply Qnot_le_lt in Hexp. lra.
Qed.

End BoostFacts.

Lemma boost_time_remaining_agrees_witness :
  let g := Game.activateBoost clock0 Qplus (gameOf twoOwners [] easy) 1 in
  let remaining := (Game.getBoostTimeRemaining clock0 g 1).1 in
  (0 <= clock0 (clockReads g))%Q ∧
  (0 <= remaining)%Q ∧
  ((0 < remaining)%Q ↔ (Game.isPlayerBoosted clock0 g 1).1 = true) ∧
  (boostEndTimes g !! 1 = None → Game.getBoostTimeRemaining clock0 g 1 = (0%Q, g)).
Proof.
  split; [unfold clock0; lra|].
  apply (boost_time_remaining_agrees clock0
           (Game.activateBoost clock0 Qplus (gameOf twoOwners [] easy) 1) 1).
  unfold clock0. lra.
Defined.

Lemma updateBoost_is_invisible_witness :
  let g := Game.activateBoost clock0 Qplus (gameOf twoOwners [] easy) 1 in
  let g' := Game.updateBoost clock0 g in
  (clock0 (clockReads g) <= clock0 (S (clockReads g)))%Q ∧
  (Game.isPlayerBoosted clock0 g' 1).1
  = (Game.isPlayerBoosted clock0 (Game.withClockReads g (S (clockReads g))) 1).1 ∧
  clockReads g' = S (clockReads g) ∧
  (∀ e, boostEndTimes g' !! 1 = Some e ↔
        boostEndTimes g !! 1 = Some e ∧ (clock0 (clockReads g) <= e)%Q).
Proof.
  split; [unfold clock0; lra|].
  apply (updateBoost_is_invisible clock0
           (Game.activateBoost clock0 Qplus (gameOf twoOwners [] easy) 1) 1).
  unfold clock0. lra.
Defined.

(** ** Boost pickups *)

Section PickupFacts.
Variable clock : nat → Q.
Variable random : nat → Q.
Variable fadd : Q → Q → Q.

(** What the pickup code leaves alone in the game state. *)
Lemma activateBoost_frame g playerId :
  let g' := Game.activateBoost clock fadd g playerId in
  allPlayers g' = allPlayers g ∧ territoryMap g' = territoryMap g ∧
  difficulty g' = difficulty g ∧ randomDraws g' = randomDraws g ∧
  length (boostNotifications g') = S (length (boostNotifications g)) ∧
  is_Some (boostEndTimes g' !! playerId).
Proof.
  cbv zeta. unfold Game.activateBoost, Game.performanceNow. cbn.
  split_and!; try done.
  - rewrite length_app. simpl. lia.
  - rewrite lookup_insert_eq. by eexists.
Qed.

Lemma collectPickups_spec player pickups g :
  let r := Game.collectPickups clock fadd player pickups g in
  r.1 = filter (λ pk, Game.collects player pk = false) pickups ∧
  allPlayers r.2 = allPlayers g ∧ territoryMap r.2 = territoryMap g ∧
  difficulty r.2 = difficulty g ∧ randomDraws r.2 = randomDraws g ∧
  (length (boostNotifications r.2) + length r.1
   = length (boostNotifications g) + length pickups)%nat ∧
  (length r.1 < length pickups → is_Some (boostEndTimes r.2 !! Player.id player))%nat.
Proof.
  cbv zeta. induction pickups as [|pk rest IH]; [cbn; split_and!; try done; lia|].
  cbn [Game.collectPickups].
  destruct (Game.collectPickups clock fadd player rest g) as [rest' g1].
  cbn [fst snd] in IH. destruct IH as (Hl & Hp & Hm & Hd & Hr & Hn & Hb).
  rewrite filter_cons. destruct (Game.collects player pk) eqn:Hc.
  - destruct (activateBoost_frame g1 (Player.id player)) as (Hp' & Hm' & Hd' & Hr' & Hn' & Hb').
    cbv zeta in *. cbn [fst snd].
    rewrite decide_False by done.
    split_and!; try congruence; try done. cbn [length]. lia.
  - cbn [fst snd]. rewrite decide_True by done.
    split_and!; try congruence; cbn [length]; try lia.
    intros Hlt. apply Hb. lia.
Qed.

Hypothesis random_unit : ∀ n, (0 <= random n)%Q ∧ (random n < 1)%Q.

Lemma spawnPoint_spec g :
  let r := Game.spawnPoint random g in
  (100 # 1 <= r.1.1 <= inject_Z derivedConfig.arenaWidthPx - (100 # 1))%Q ∧
  (100 # 1 <= r.1.2 <= inject_Z derivedConfig.arenaHeightPx - (100 # 1))%Q ∧
  allPlayers r.2 = allPlayers g ∧ territoryMap r.2 = territoryMap g ∧
  difficulty r.2 = difficulty g ∧ boostEndTimes r.2 = boostEndTimes g ∧
  boostNotifications r.2 = boostNotifications g ∧ clockReads r.2 = clockReads g.
Proof.
  cbv zeta. unfold Game.spawnPoint, Game.mathRandom. cbn.
  change (inject_Z derivedConfig.arenaWidthPx) with (2000 # 1)%Q.
  change (inject_Z derivedConfig.arenaHeightPx) with (2000 # 1)%Q.
  destruct (random_unit (randomDraws g)) as [? ?].
  destruct (random_unit (S (randomDraws g))) as [? ?].
  split_and!; try done; lra.
Qed.

Lemma spawnAttempts_spec attempts playerOnly pickups g :
  let r := Game.spawnAttempts clock random attempts playerOnly pickups g in
  (∃ pk, r.1 = pickups ++ [pk] ∧ pk_playerOnly pk = playerOnly ∧
     (100 # 1 <= pk_x pk <= inject_Z derivedConfig.arenaWidthPx - (100 # 1))%Q ∧
     (100 # 1 <= pk_y pk <= inject_Z derivedConfig.arenaHeightPx - (100 # 1))%Q ∧
     pk_spawnTime pk = clock (clockReads g)) ∧
  allPlayers r.2 = allPlayers g ∧ territoryMap r.2 = territoryMap g ∧
  difficulty r.2 = difficulty g ∧ boostEndTimes r.2 = boostEndTimes g ∧
  boostNotifications r.2 = boostNotifications g ∧ clockReads r.2 = S (clockReads g).
Proof.
  cbv zeta. revert g. induction attempts as [|attempts IH]; intros g;
    cbn [Game.spawnAttempts];
    destruct (spawnPoint_spec g) as (Hx & Hy & Hp & Hm & Hd & Hb & Hn & Hc);
    cbv zeta in *;
    destruct (Game.spawnPoint random g) as [[x y] g1]; cbn [fst snd] in *.
  - unfold Game.performanceNow. cbn. rewrite Hc.
    split_and!; try done. eexists. split_and!; try done; cbn; lra.
  - destruct (Game.tooCloseToSpawn g1 pickups x y).
    + destruct (IH g1) as ((pk & Hpk) & Hp' & Hm' & Hd' & Hb' & Hn' & Hc').
      split_and!; try congruence. exists pk. rewrite <- Hc. done.
    + unfold Game.performanceNow. cbn. rewrite Hc.
      split_and!; try done. eexists. split_and!; try done; cbn; lra.
Qed.

Lemma spawnBoostPickup_frame pickups g :
  let r := Game.spawnBoostPickup clock random pickups g in
  (∃ pk, r.1 = pickups ++ [pk] ∧
     (pk_playerOnly pk = true → difficulty g = impossible) ∧
     (100 # 1 <= pk_x pk <= inject_Z derivedConfig.arenaWidthPx - (100 # 1))%Q ∧
     (100 # 1 <= pk_y pk <= inject_Z derivedConfig.arenaHeightPx - (100 # 1))%Q ∧
     pk_spawnTime pk = clock (clockReads g)) ∧
  allPlayers r.2 = allPlayers g ∧ territoryMap r.2 = territoryMap g ∧
  boostEndTimes r.2 = boostEndTimes g ∧ clockReads r.2 = S (clockReads g).
Proof.
  cbv zeta. unfold Game.spawnBoostPickup.
  destruct (bool_decide (difficulty g = impossible)) eqn:Himp.
  - unfold Game.mathRandom. cbv zeta.
    destruct (spawnAttempts_spec 20 (Qltb (random (randomDraws g)) (75 # 100)) pickups
                (Game.withRandomDraws g (S (randomDraws g))))
      as ((pk & Hpk & Honly & Hx & Hy & Ht) & Hp & Hm & Hd & Hb & Hn & Hc).
    cbv zeta in *. split_and!; try done.
    exists pk. split_and!; try done; try lra. intros _. by apply bool_decide_eq_true in Himp.
  - destruct (spawnAttempts_spec 20 false pickups g)
      as ((pk & Hpk & Honly & Hx & Hy & Ht) & Hp & Hm & Hd & Hb & Hn & Hc).
    cbv zeta in *. split_and!; try done.
    exists pk. split_and!; try done; try lra. intros Htrue. congruence.
Qed.


(** X21: [spawnBoostPickup] always puts exactly one new pickup on the
    map, after the ones already there, whether one of its 20 tries finds
    a free place or not. With draws of [Math.random()] in [0, 1) the
    pickup lies at least 100 pixels from every side of the arena; it is
    stamped with the clock, it is for the human only only at the
    impossible difficulty, and players, grid and boosts are untouched. *)
Theorem spawnBoostPickup_adds_one pickups g :
  let r := Game.spawnBoostPickup clock random pickups g in
  (∃ pk, r.1 = pickups ++ [pk] ∧
     (pk_playerOnly pk = true → difficulty g = impossible) ∧
     (100 # 1 <= pk_x pk <= inject_Z derivedConfig.arenaWidthPx - (100 # 1))%Q ∧
     (100 # 1 <= pk_y pk <= inject_Z derivedConfig.arenaHeightPx - (100 # 1))%Q ∧
     pk_spawnTime pk = clock (clockReads g)) ∧
  allPlayers r.2 = allPlayers g ∧ territoryMap r.2 = territoryMap g ∧
  boostEndTimes r.2 = boostEndTimes g ∧ clockReads r.2 = S (clockReads g).
Proof. apply spawnBoostPickup_frame. Qed.

Lemma collectAll_spec (players : list Player.t) pickups g :
  let r := foldl (λ acc player,
              if negb (Player.alive player) then acc
              else Game.collectPickups clock fadd player acc.1 acc.2) (pickups, g) players in
  (∀ pk, pk ∈ r.1 ↔
         pk ∈ pickups ∧
         ∀ player, player ∈ players → Player.alive player = true →
                   Game.collects player pk = false) ∧
  allPlayers r.2 = allPlayers g ∧ territoryMap r.2 = territoryMap g ∧
  difficulty r.2 = difficulty g ∧
  (length (boostNotifications r.2) + length r.1
   = length (boostNotifications g) + length pickups)%nat ∧
  (length r.1 <= length pickups)%nat.
Proof.
  cbv zeta. revert pickups g. induction players as [|player players IH]; intros pickups g.
  { cbn. split_and!; try done. intros pk. split; [|tauto]. intros Hin. split; [done|].
    intros player Hp. by apply not_elem_of_nil in Hp. }
  cbn [foldl fst snd].
  destruct (Player.alive player) eqn:Halive; cbn [negb].
  - destruct (collectPickups_spec player pickups g) as (Hl & Hp & Hm & Hd & _ & Hn & _).
    cbv zeta in *.
    destruct (Game.collectPickups clock fadd player pickups g) as [ps1 g1]. cbn [fst snd] in *.
    assert (length ps1 <= length pickups)%nat as Hle by (rewrite Hl; apply length_filter).
    destruct (IH ps1 g1) as (Hin & Hp' & Hm' & Hd' & Hn' & Hle').
    split; [|split_and!; try congruence; lia].
    intros pk. rewrite Hin, Hl, list_elem_of_filter. split.
    + intros [[Hc Hpk] Hothers]. split; [done|]. intros q Hq Hqa.
      apply elem_of_cons in Hq as [->|Hq]; [done|by apply Hothers].
    + intros [Hpk Hall]. split; [split; [|done]|].
      * apply Hall; [by left|done].
      * intros q Hq. apply Hall. by right.
  - destruct (IH pickups g) as (Hin & Hp' & Hm' & Hd' & Hn' & Hle').
    split_and!; try done. intros pk. rewrite Hin. split.
    + intros [Hpk Hothers]. split; [done|]. intros q Hq Hqa.
      apply elem_of_cons in Hq as [->|Hq]; [congruence|by apply Hothers].
    + intros [Hpk Hall]. split; [done|]. intros q Hq. apply Hall. by right.
Qed.


End PickupFacts.

Lemma spawnBoostPickup_adds_one_witness :
  let g := duelGame in
  let r := Game.spawnBoostPickup clock0 random0 [] g in
  (∀ n, (0 <= random0 n)%Q ∧ (random0 n < 1)%Q) ∧
  (∃ pk, r.1 = [] ++ [pk] ∧
     (pk_playerOnly pk = true → difficulty g = impossible) ∧
     (100 # 1 <= pk_x pk <= inject_Z derivedConfig.arenaWidthPx - (100 # 1))%Q ∧
     (100 # 1 <= pk_y pk <= inject_Z derivedConfig.arenaHeightPx - (100 # 1))%Q ∧
     pk_spawnTime pk = clock0 (clockReads g)) ∧
  allPlayers r.2 = allPlayers g ∧ territoryMap r.2 = territoryMap g ∧
  boostEndTimes r.2 = boostEndTimes g ∧ clockReads r.2 = S (clockReads g).
Proof.
  assert (∀ n, (0 <= random0 n)%Q ∧ (random0 n < 1)%Q) as Hrand
    by (intros n; unfold random0; split; lra).
  split; [exact Hrand|]. apply (spawnBoostPickup_adds_one clock0 random0 Hrand [] duelGame).
Defined.


(** ** Distance to a trail segment *)

Section SegmentFacts.

Lemma Qsquare_nonneg (a : Q) : (0 <= a * a)%Q.
Proof.
  destruct (Qlt_le_dec a 0) as [Hneg|Hpos]; [|by apply Qmult_le_0_compat].
  assert (a * a == (- a) * (- a))%Q as -> by ring.
  apply Qmult_le_0_compat; lra.
Qed.

Lemma square_sum_zero (a b : Q) : (a * a + b * b == 0)%Q → (a == 0)%Q ∧ (b == 0)%Q.
Proof.
  intros H. pose proof (Qsquare_nonneg a) as Ha. pose proof (Qsquare_nonneg b) as Hb.
  assert (a * a == 0)%Q as Ha0 by lra. assert (b * b == 0)%Q as Hb0 by lra.
  split.
  - destruct (Qmult_integral _ _ Ha0); done.
  - destruct (Qmult_integral _ _ Hb0); done.
Qed.

Lemma pointToLineDistanceSq_near (p a b : Vec2.t) (r : Q) :
  (0 <= r)%Q → (r <= 1)%Q →
  (Game.pointToLineDistanceSq p a b
   <= sq (Vec2.x p - (Vec2.x a + r * (Vec2.x b - Vec2.x a)))
      + sq (Vec2.y p - (Vec2.y a + r * (Vec2.y b - Vec2.y a))))%Q.
Proof.
  intros Hr0 Hr1. unfold Game.pointToLineDistanceSq. cbv zeta.
  set (dx := (Vec2.x b - Vec2.x a)%Q). set (dy := (Vec2.y b - Vec2.y a)%Q).
  set (vx := (Vec2.x p - Vec2.x a)%Q). set (vy := (Vec2.y p - Vec2.y a)%Q).
  destruct (Qeq_bool (dx * dx + dy * dy) 0) eqn:Hz.
  - apply Qeq_bool_iff in Hz. destruct (square_sum_zero _ _ Hz) as [Hdx Hdy].
    unfold Vec2.distSq, sq. clearbody dx dy. rewrite Hdx, Hdy. lra.
  - apply Qeq_bool_neq in Hz.
    set (L := (dx * dx + dy * dy)%Q) in *.
    assert (0 < L)%Q as HL by (unfold L in *; nra).
    set (num := (vx * dx + vy * dy)%Q).
    set (t := (num / L)%Q).
    assert (t * L == num)%Q as Hnum by (unfold t; field; lra).
    assert (∀ u, sq (Vec2.x p - (Vec2.x a + u * dx)) + sq (Vec2.y p - (Vec2.y a + u * dy))
                 == (vx * vx + vy * vy) - (2 # 1) * u * num + u * u * L)%Q as Hexp.
    { intros u. unfold sq, num, L, vx, vy. ring. }
    rewrite !Hexp. rewrite <- Hnum. clearbody t L num vx vy dx dy.
    destruct (Qlt_le_dec t 0) as [Hneg|Hpos].
    + rewrite (Q.min_r 1 t) by lra. rewrite (Q.max_l 0 t) by lra.
      assert (0 <= L * (r * (r - (2 # 1) * t)))%Q by (apply Qmult_le_0_compat; nra). nra.
    + destruct (Qlt_le_dec 1 t) as [Hbig|Hsmall].
      * rewrite (Q.min_l 1 t) by lra. rewrite (Q.max_r 0 1) by lra.
        assert (0 <= L * ((1 - r) * ((2 # 1) * t - r - 1)))%Q
          by (apply Qmult_le_0_compat; nra). nra.
      * rewrite (Q.min_r 1 t) by lra. rewrite (Q.max_r 0 t) by lra.
        assert (0 <= L * ((r - t) * (r - t)))%Q
          by (apply Qmult_le_0_compat; [lra|apply Qsquare_nonneg]).
        nra.
Qed.

Lemma pointToLineDistanceSq_ends (p a b : Vec2.t) :
  (Game.pointToLineDistanceSq p a b <= Vec2.distSq p a)%Q ∧
  (Game.pointToLineDistanceSq p a b <= Vec2.distSq p b)%Q.
Proof.
  split.
  - eapply Qle_trans; [apply (pointToLineDistanceSq_near p a b 0%Q); lra|].
    unfold Vec2.distSq, sq. lra.
  - eapply Qle_trans; [apply (pointToLineDistanceSq_near p a b 1%Q); lra|].
    unfold Vec2.distSq, sq. lra.
Qed.

(** X23: [pointToLineDistance], as arithmetic on exact numbers, is the
    distance from the point to the nearest point of the segment. On
    squares: the squared distance it is the root of is the squared
    distance from the point to some point [a + t (b - a)] of the
    segment, [0 <= t <= 1]; it is at most the squared distance from the
    point to any point [a + s (b - a)] of the segment, [0 <= s <= 1], so
    to either end; it is the squared distance to [a] when the two ends
    of the segment coincide; and it is never negative. *)
Theorem pointToLineDistance_is_nearest (p a b : Vec2.t) (s : Q) :
  (0 <= s)%Q → (s <= 1)%Q →
  let d2 := Game.pointToLineDistanceSq p a b in
  let at_ := λ r, Vec2.mk (Vec2.x a + r * (Vec2.x b - Vec2.x a))
                          (Vec2.y a + r * (Vec2.y b - Vec2.y a)) in
  (∃ t, (0 <= t)%Q ∧ (t <= 1)%Q ∧ (d2 == Vec2.distSq p (at_ t))%Q) ∧
  (d2 <= Vec2.distSq p (at_ s))%Q ∧ (d2 <= Vec2.distSq p a)%Q ∧ (d2 <= Vec2.distSq p b)%Q ∧
  ((Vec2.x a == Vec2.x b)%Q → (Vec2.y a == Vec2.y b)%Q → (d2 == Vec2.distSq p a)%Q) ∧
  (0 <= d2)%Q.
Proof.
  intros Hs0 Hs1. cbv zeta.
  split_and!.
  - unfold Game.pointToLineDistanceSq. cbv zeta.
    destruct (Qeq_bool _ 0).
    + exists 0%Q. split_and!; [lra|lra|].
      unfold Vec2.distSq, sq. cbn [Vec2.x Vec2.y]. ring.
    + eexists. split_and!; [apply Q.le_max_l| |].
      * apply Q.max_lub; [lra|apply Q.le_min_l].
      * unfold Vec2.distSq. cbn [Vec2.x Vec2.y]. reflexivity.
  - by apply pointToLineDistanceSq_near.
  - apply pointToLineDistanceSq_ends.
  - apply pointToLineDistanceSq_ends.
  - intros Hx Hy. unfold Game.pointToLineDistanceSq. cbv zeta.
    destruct (Qeq_bool _ 0) eqn:Hz; [reflexivity|].
    apply Qeq_bool_neq in Hz. exfalso. apply Hz. rewrite Hx, Hy. ring.
  - unfold Game.pointToLineDistanceSq. cbv zeta.
    destruct (Qeq_bool _ 0); unfold Vec2.distSq, sq;
      match goal with
      | |- (0 <= ?A * ?A + ?B * ?B)%Q =>
          pose proof (Qsquare_nonneg A); pose proof (Qsquare_nonneg B); lra
      end.
Qed.

End SegmentFacts.

Lemma pointToLineDistance_is_nearest_witness :
  let p := Vec2.mk (3 # 1) (4 # 1) in
  let a := Vec2.mk 0 0 in
  let b := Vec2.mk (10 # 1) 0 in
  let d2 := Game.pointToLineDistanceSq p a b in
  let at_ := λ r, Vec2.mk (Vec2.x a + r * (Vec2.x b - Vec2.x a))
                          (Vec2.y a + r * (Vec2.y b - Vec2.y a)) in
  ((0 <= 1 # 2)%Q ∧ (1 # 2 <= 1)%Q) ∧
  (∃ t, (0 <= t)%Q ∧ (t <= 1)%Q ∧ (d2 == Vec2.distSq p (at_ t))%Q) ∧
  (d2 <= Vec2.distSq p (at_ (1 # 2)))%Q ∧ (d2 <= Vec2.distSq p a)%Q ∧
  (d2 <= Vec2.distSq p b)%Q ∧
  ((Vec2.x a == Vec2.x b)%Q → (Vec2.y a == Vec2.y b)%Q → (d2 == Vec2.distSq p a)%Q) ∧
  (0 <= d2)%Q.
Proof.
  split; [split; lra|].
  apply (pointToLineDistance_is_nearest (Vec2.mk (3 # 1) (4 # 1)) (Vec2.mk 0 0)
           (Vec2.mk (10 # 1) 0) (1 # 2)); lra.
Defined.

(** ** Setting a tile and setting it back *)

Section SetOwnerFacts.
Import TerritoryMap.

Lemma cacheCorrect_counts_eq m m' :
  cacheCorrect m → cacheCorrect m' → ownerMap m = ownerMap m' →
  ∀ k, countOwnedTiles m' k = countOwnedTiles m k.
Proof.
  intros Hc Hc' Heq k. rewrite (Hc k), (Hc' k). unfold rescan. by rewrite Heq.
Qed.

(** X24: giving a tile to another owner and then back to the owner it
    had restores the grid: on a well-formed grid with correct cached
    counts and for an id in 0..255, the cells are what they were, so is
    every answer of [getOwner], and so is every cached count as
    [countOwnedTiles] reads it. *)
Theorem setOwner_round_trip m x y o :
  wf m → cacheCorrect m → 0 <= o < 256 →
  let m' := setOwner (setOwner m x y o) x y (getOwner m x y) in
  ownerMap m' = ownerMap m ∧
  (∀ x' y', getOwner m' x' y' = getOwner m x' y') ∧
  (∀ k, countOwnedTiles m' k = countOwnedTiles m k).
Proof.
  intros Hwf Hc Ho. cbv zeta.
  set (old := getOwner m x y). set (m1 := setOwner m x y o).
  assert (wf m1) as Hwf1 by (by apply setOwner_wf).
  assert (cacheCorrect m1) as Hc1 by (by apply setOwner_cacheCorrect).
  assert (ownerMap (setOwner m1 x y old) = ownerMap m) as Hcells.
  { destruct (isValidTile m x y) eqn:Hv.
    2:{ unfold m1, setOwner. rewrite Hv. cbn [negb]. by rewrite Hv. }
    destruct (cell_valid _ _ _ Hwf Hv) as (v & Hl & Hr).
    assert (old = v) as Hold.
    { unfold old, getOwner, cell. rewrite Hv. cbn [negb]. by rewrite Hl. }
    assert (isValidTile m1 x y = true) as Hv1 by (unfold m1; by rewrite setOwner_isValidTile).
    assert (widthTiles m1 = widthTiles m) as Hw by (unfold m1; apply setOwner_dims).
    unfold setOwner at 1. rewrite Hv1. cbn [negb]. rewrite Hw.
    destruct (cell m1 (y * widthTiles m + x) =? old) eqn:Hsame.
    - apply Z.eqb_eq in Hsame. unfold m1, setOwner in *. rewrite Hv in *. cbn [negb] in *.
      destruct (cell m (y * widthTiles m + x) =? o) eqn:Ho'; [done|].
      cbn [ownerMap withCells] in *. unfold cell in Hsame. cbn [ownerMap withCells] in Hsame.
      rewrite list_lookup_insert_eq in Hsame by (by eapply lookup_lt_Some).
      cbn in Hsame. rewrite Hsame, Hold. by apply list_insert_id.
    - cbn [ownerMap withCells]. unfold m1, setOwner. rewrite Hv. cbn [negb].
      destruct (cell m (y * widthTiles m + x) =? o); cbn [ownerMap withCells].
      + rewrite toUint8_small by lia. rewrite Hold. by apply list_insert_id.
      + rewrite list_insert_insert_eq, toUint8_small by lia. rewrite Hold.
        by apply list_insert_id. }
  assert (cacheCorrect (setOwner m1 x y old)) as Hc2.
  { destruct (isValidTile m x y) eqn:Hv.
    - apply setOwner_cacheCorrect; [done..|]. by apply getOwner_range.
    - assert (isValidTile m1 x y = false) as Hv1
        by (unfold m1; by rewrite setOwner_isValidTile).
      unfold setOwner at 1. by rewrite Hv1. }
  split; [done|]. split.
  - intros x' y'. apply getOwner_ext; [done| |].
    + etrans; [apply setOwner_dims|]. apply setOwner_dims.
    + etrans; [apply setOwner_dims|]. apply setOwner_dims.
  - by apply cacheCorrect_counts_eq.
Qed.

Lemma setOwner_round_trip_witness :
  let m := twoOwners in
  let m' := setOwner (setOwner m 0 0 7) 0 0 (getOwner m 0 0) in
  (wf m ∧ cacheCorrect m ∧ 0 <= 7 < 256) ∧
  ownerMap m' = ownerMap m ∧
  (∀ x' y', getOwner m' x' y' = getOwner m x' y') ∧
  (∀ k, countOwnedTiles m' k = countOwnedTiles m k).
Proof.
  assert (wf twoOwners) as Hwf by (repeat apply setOwner_wf; apply blank_wf; lia).
  assert (cacheCorrect twoOwners) as Hc.
  { unfold twoOwners. apply setOwner_cacheCorrect; [apply setOwner_wf, blank_wf; lia| |lia].
    apply setOwner_cacheCorrect; [apply blank_wf; lia|apply blank_cacheCorrect|lia]. }
  split; [split_and!; [exact Hwf|exact Hc|lia|lia]|].
  apply (setOwner_round_trip twoOwners 0 0 7 Hwf Hc). lia.
Defined.

End SetOwnerFacts.

(** ** How far a tick moves a player *)

Section StepFacts.
Variable PI : Q.
Variables cosF sinF : Q → Q.
Hypothesis cos_bounded : ∀ a, (-1 <= cosF a <= 1)%Q.
Hypothesis sin_bounded : ∀ a, (-1 <= sinF a <= 1)%Q.

Lemma clamped_step lo hi v c k :
  (lo <= v <= hi)%Q → (-1 <= c <= 1)%Q → (0 <= k)%Q →
  (Qabs (Player.clamp lo hi (v + c * k) - v) <= k)%Q.
Proof.
  intros Hv Hc Hk. unfold Player.clamp.
  assert (- k <= c * k <= k)%Q as Hm.
  { assert (0 <= (1 - c) * k)%Q by (apply Qmult_le_0_compat; lra).
    assert (0 <= (1 + c) * k)%Q by (apply Qmult_le_0_compat; lra).
    split; lra. }
  set (mv := (c * k)%Q) in *. clearbody mv.
  apply Qabs_Qle_condition.
  destruct (Q.min_spec hi (v + mv)) as [[? Hmin]|[? Hmin]];
    destruct (Q.max_spec lo (Qmin hi (v + mv))) as [[? Hmax]|[? Hmax]];
    rewrite Hmax; rewrite Hmin in *; split; lra.
Qed.


End StepFacts.


(** ** Where a bot goes home to *)

Section ReturnFacts.

Lemma sampled_spec (n x : Z) :
  x ∈ BotAI.sampled n ↔ 0 <= x < n ∧ x mod 4 = 0.
Proof.
  unfold BotAI.sampled, BotAI.step. rewrite list_elem_of_fmap. split.
  - intros (k & -> & Hk). apply elem_of_seq in Hk.
    split; [|by rewrite Z_mod_mult].
    assert (Z.of_nat k < (n + 4 - 1) / 4) as Hlt by lia.
    revert Hlt. clear Hk. Z.div_mod_to_equations. lia.
  - intros [Hx Hmod]. exists (Z.to_nat (x / 4)).
    assert (0 <= x / 4 < (n + 4 - 1) / 4 ∧ x = x / 4 * 4) as [Hq Hx4].
    { revert Hmod. Z.div_mod_to_equations. lia. }
    split.
    + by rewrite Z2Nat.id by lia.
    + apply elem_of_seq. lia.
Qed.

Lemma getOwnedTiles_spec m player x y :
  mkTile x y ∈ BotAI.getOwnedTiles m player ↔
  (0 <= x < widthTiles m ∧ x mod 4 = 0) ∧ (0 <= y < heightTiles m ∧ y mod 4 = 0) ∧
  TerritoryMap.getOwner m x y = Player.id player.
Proof.
  unfold BotAI.getOwnedTiles. rewrite list_elem_of_bind. split.
  - intros (y' & Hin & Hy). apply list_elem_of_bind in Hin as (x' & Hin & Hx).
    destruct (Z.eqb_spec (TerritoryMap.getOwner m x' y') (Player.id player)) as [Ho|];
      [|by apply elem_of_nil in Hin].
    apply list_elem_of_singleton in Hin. simplify_eq.
    rewrite <- !sampled_spec. done.
  - intros (Hx & Hy & Ho). exists y. split; [|by apply sampled_spec].
    apply list_elem_of_bind. exists x. split; [|by apply sampled_spec].
    rewrite Ho, Z.eqb_refl. by apply list_elem_of_singleton.
Qed.

Lemma closest_spec m player (tiles : list Tile) (p0 : Q * Q) :
  let r := foldl (BotAI.closer m player) (None, p0) tiles in
  match tiles with
  | [] => r = (None, p0)
  | _ => ∃ tile, tile ∈ tiles ∧
           r = (Some (BotAI.distSqTo m player tile),
                TerritoryMap.tileToWorld m (tx tile) (ty tile)) ∧
           ∀ tile', tile' ∈ tiles →
             (BotAI.distSqTo m player tile <= BotAI.distSqTo m player tile')%Q
  end.
Proof.
  cbv zeta. induction tiles as [|t tiles IH] using rev_ind; [done|].
  rewrite foldl_app. cbn [foldl].
  assert (∃ tile, tile ∈ tiles ++ [t] ∧
            BotAI.closer m player (foldl (BotAI.closer m player) (None, p0) tiles) t
            = (Some (BotAI.distSqTo m player tile),
               TerritoryMap.tileToWorld m (tx tile) (ty tile)) ∧
            ∀ tile', tile' ∈ tiles ++ [t] →
              (BotAI.distSqTo m player tile <= BotAI.distSqTo m player tile')%Q) as Hgoal.
  { destruct tiles as [|t0 tiles'].
    - cbn [foldl]. exists t. unfold BotAI.closer. cbn [fst].
      split_and!; [by apply list_elem_of_singleton|done|].
      intros tile' Hin. apply list_elem_of_singleton in Hin as ->. apply Qle_refl.
    - destruct IH as (best & Hin & -> & Hmin).
      unfold BotAI.closer. cbn [fst].
      destruct (Qltb (BotAI.distSqTo m player t) (BotAI.distSqTo m player best)) eqn:Hlt.
      + apply Qltb_lt in Hlt. exists t. split_and!; [|done|].
        * rewrite elem_of_app, list_elem_of_singleton. by right.
        * intros tile'. rewrite elem_of_app, list_elem_of_singleton. intros [Hin'| ->].
          -- eapply Qle_trans; [apply Qlt_le_weak, Hlt|by apply Hmin].
          -- apply Qle_refl.
      + apply Qltb_ge in Hlt. exists best. split_and!; [|done|].
        * rewrite elem_of_app. by left.
        * intros tile'. rewrite elem_of_app, list_elem_of_singleton. intros [Hin'| ->].
          -- by apply Hmin.
          -- done. }
  by destruct (tiles ++ [t]) eqn:Happ; [destruct tiles; done|].
Qed.


End ReturnFacts.
